(** * A shallow embedding of [advanced-vector/vector.h]

    The header defines two class templates: [RawMemory<T>], which owns a block
    of raw storage, and [Vector<T>], which keeps the first [size_] slots of
    such a block constructed.  The embedding keeps the distinction between
    allocated storage and constructed objects explicit:

    - the heap is a list of cells, one per allocation, each a block of slots
      that are either raw or hold an object;
    - [Vector] objects live in an object store and are designated by their
      identity, so that [this == &rhs] and aliasing between two vectors, or
      between an argument and an element, mean what they mean in C++;
    - element constructors, assignments and destructors are recorded in a log,
      and an element type decides from that log whether a constructor or an
      assignment throws (destructors do not throw);
    - a member function is a function from worlds to outcomes: a normal
      return, a propagating exception, or undefined behaviour.

    Sizes and offsets are natural numbers.  The [int] in which [Emplace] and
    [Erase] keep [pos - begin()] has 32 bits, and a position it does not hold
    wraps around.  [operator new] is taken to succeed, and to be asked for a
    number of bytes that [size_t] holds: where a caller chooses the number of
    elements, the results are stated for numbers that are [allocatable]. *)

From stdpp Require Import base list.

(** ** Machine integers *)

(** The largest [int] and the largest [size_t]. *)
Definition INT_MAX : Z := 2147483647.
Definition UINT_MAX : Z := 4294967295.
Definition SIZE_MAX : Z := 18446744073709551615.

(** The conversion to [int] of an integer: its value modulo [2^32], in
    [[-2^31, 2^31)]. *)
Definition to_int (z : Z) : Z :=
  ((z + (INT_MAX + 1)) `mod` (UINT_MAX + 1) - (INT_MAX + 1))%Z.

(** ** The element type *)

(** Calls of the special member functions of [T], with the values they see. *)
Inductive event (T : Type) : Type :=
| ValueCtor                      (* T()                                  *)
| ArgsCtor (v : T)               (* T(args...), building the value v      *)
| CopyCtor (x : T)               (* T(const T&) from an object of value x *)
| MoveCtor (x : T)               (* T(T&&) from an object of value x      *)
| CopyAssign (dst src : T)       (* dst = src                            *)
| MoveAssign (dst src : T)       (* dst = std::move(src)                 *)
| Dtor (x : T).                  (* ~T() of an object of value x          *)
Arguments ValueCtor {T}.
Arguments ArgsCtor {T} v.
Arguments CopyCtor {T} x.
Arguments MoveCtor {T} x.
Arguments CopyAssign {T} dst src.
Arguments MoveAssign {T} dst src.
Arguments Dtor {T} x.

(** What the templates ask of [T].  [throws h e] tells whether the call [e]
    throws when the calls in [h] (latest first) went before it; the two flags
    are the type traits [CopyOrMove] and [Emplace] test; [sizeof] is the
    number of bytes of an object. *)
Class Element (T : Type) : Type := {
  sizeof : Z;
  value_init : T;
  moved_from : T -> T;
  throws : list (event T) -> event T -> bool;
  is_nothrow_move_constructible : bool;
  is_copy_constructible : bool
}.

(** ** Storage *)

Inductive slot (T : Type) : Type :=
| Raw
| Obj (x : T).
Arguments Raw {T}.
Arguments Obj {T} x.

Inductive cell (T : Type) : Type :=
| Freed
| Block (b : list (slot T)).
Arguments Freed {T}.
Arguments Block {T} b.

(** [T *]: the allocation pointed into ([None] for [nullptr]) and an offset. *)
Record ptr : Type := Ptr { base : option nat; off : nat }.

Record RawMemory : Type := { buffer_ : option nat; capacity_ : nat }.

Record Vector : Type := { data_ : RawMemory; size_ : nat }.

Record world (T : Type) : Type := World {
  heap : list (cell T);
  objs : list (option Vector);
  log : list (event T)
}.
Arguments World {T} heap objs log.
Arguments heap {T} w.
Arguments objs {T} w.
Arguments log {T} w.

Inductive outcome (T A : Type) : Type :=
| Ret (w : world T) (a : A)
| Throw (w : world T)
| UB.
Arguments Ret {T A} w a.
Arguments Throw {T A} w.
Arguments UB {T A}.

(** How a new element is initialised: the arguments of a constructor call. *)
Inductive init (T : Type) : Type :=
| FromArgs (v : T)    (* arguments that are not a T, building the value v *)
| FromCopy (r : ptr)  (* const T &                                       *)
| FromMove (r : ptr). (* T &&                                            *)
Arguments FromArgs {T} v.
Arguments FromCopy {T} r.
Arguments FromMove {T} r.

#[global] Instance ptr_eq_dec : EqDecision ptr.
Proof. solve_decision. Defined.

Definition ptr_add (p : ptr) (n : nat) : ptr := Ptr (base p) (off p + n).

Declare Scope cpp_scope.
Delimit Scope cpp_scope with cpp.

Section Model.
Context {T : Type} `{!Element T}.

(** ** Member functions as world transformers *)

Definition M (A : Type) : Type := world T -> outcome T A.

Definition ret {A} (a : A) : M A := fun w => Ret w a.

Definition bind {A B} (m : M A) (k : A -> M B) : M B :=
  fun w =>
    match m w with
    | Ret w' a => k a w'
    | Throw w' => Throw w'
    | UB => UB
    end.

Definition undefined {A} : M A := fun _ => UB.

(** [try { m } catch (...) { cleanup; throw; }], also the unwinding of a scope
    whose local objects have the destructor [cleanup]. *)
Definition rethrow_after {A} (m : M A) (cleanup : M unit) : M A :=
  fun w =>
    match m w with
    | Throw w' =>
        match cleanup w' with
        | Ret w'' _ => Throw w''
        | Throw w'' => Throw w''
        | UB => UB
        end
    | r => r
    end.

Local Notation "'let*' x := m 'in' k" := (bind m (fun x => k))
  (at level 10, x pattern, m at level 100, k at level 200).
Local Notation "m ;; k" := (bind m (fun _ => k))
  (at level 100, k at level 200, right associativity).

(** *** Raw storage *)

Definition set_heap (f : list (cell T) -> list (cell T)) (w : world T) : world T :=
  World (f (heap w)) (objs w) (log w).
Definition set_objs (f : list (option Vector) -> list (option Vector))
    (w : world T) : world T :=
  World (heap w) (f (objs w)) (log w).

Definition put_block (b : nat) (blk : list (slot T)) (w : world T) : world T :=
  set_heap (fun h => <[b := Block blk]> h) w.
Definition logged (e : event T) (w : world T) : world T :=
  World (heap w) (objs w) (e :: log w).
Definition put_object (this : nat) (v : option Vector) (w : world T) : world T :=
  set_objs (fun o => <[this := v]> o) w.

Definition block_at (w : world T) (b : nat) : option (list (slot T)) :=
  match heap w !! b with
  | Some (Block blk) => Some blk
  | _ => None
  end.

(** [*p] for reading: [p] must point to a constructed object. *)
Definition read (p : ptr) : M T :=
  fun w =>
    match base p with
    | Some b =>
        match block_at w b with
        | Some blk =>
            match blk !! off p with
            | Some (Obj x) => Ret w x
            | _ => UB
            end
        | None => UB
        end
    | None => UB
    end.

(** Storing the state [s] in the slot [p] points to, inside its block. *)
Definition write (p : ptr) (s : slot T) : M unit :=
  fun w =>
    match base p with
    | Some b =>
        match block_at w b with
        | Some blk =>
            if decide (off p < length blk)
            then Ret (put_block b (<[off p := s]> blk) w) tt
            else UB
        | None => UB
        end
    | None => UB
    end.

(** A call of a special member function: logged, and thrown out of when the
    element type says so. *)
Definition call (e : event T) : M unit :=
  fun w => if throws (log w) e then Throw (logged e w) else Ret (logged e w) tt.

(** A call of the destructor, which is [noexcept]: logged only. *)
Definition note (e : event T) : M unit :=
  fun w => Ret (logged e w) tt.

(** [RawMemory::Allocate]: [operator new] for [n] slots, [nullptr] for none.
    The block has [n] slots when [n * sizeof(T)] is a number of bytes that
    [size_t] holds (see [allocatable]) and the memory is there. *)
Definition Allocate (n : nat) : M (option nat) :=
  fun w =>
    if decide (n = 0) then Ret w None
    else Ret (set_heap (fun h => h ++ [Block (replicate n Raw)]) w)
             (Some (length (heap w))).

(** [RawMemory::Deallocate]: [operator delete]. *)
Definition Deallocate (buf : option nat) : M unit :=
  match buf with
  | None => ret tt
  | Some b =>
      fun w =>
        match block_at w b with
        | Some _ => Ret (set_heap (fun h => <[b := Freed]> h) w) tt
        | None => UB
        end
  end.

(** [RawMemory()] *)
Definition RawMemory_default : RawMemory := {| buffer_ := None; capacity_ := 0 |}.

(** [RawMemory(size_t capacity)] *)
Definition RawMemory_new (capacity : nat) : M RawMemory :=
  let* buf := Allocate capacity in
  ret {| buffer_ := buf; capacity_ := capacity |}.

(** [~RawMemory()] *)
Definition RawMemory_delete (m : RawMemory) : M unit := Deallocate (buffer_ m).

(** [GetAddress()] and [operator+] *)
Definition GetAddress (m : RawMemory) : ptr := Ptr (buffer_ m) 0.

(** *** Objects in slots *)

(** Running the constructor selected by the arguments; the value of the new
    object is returned, and the source of a move is left moved-from. *)
Definition construct (a : init T) : M T :=
  match a with
  | FromArgs v => call (ArgsCtor v) ;; ret v
  | FromCopy r => let* x := read r in call (CopyCtor x) ;; ret x
  | FromMove r =>
      let* x := read r in
      call (MoveCtor x) ;;
      write r (Obj (moved_from x)) ;;
      ret x
  end.

(** [new (p) T(args...)] *)
Definition placement_new (p : ptr) (a : init T) : M unit :=
  let* v := construct a in write p (Obj v).

(** [new (p) T()] *)
Definition value_construct_at (p : ptr) : M unit :=
  call ValueCtor ;; write p (Obj value_init).

(** [p->~T()] *)
Definition destroy_at (p : ptr) : M unit :=
  let* x := read p in
  note (Dtor x) ;;
  write p Raw.

(** [*dst = *src] *)
Definition copy_assign (dst src : ptr) : M unit :=
  let* d := read dst in
  let* s := read src in
  call (CopyAssign d s) ;;
  write dst (Obj s).

(** [*dst = std::move( *src )] *)
Definition move_assign (dst src : ptr) : M unit :=
  let* d := read dst in
  let* s := read src in
  call (MoveAssign d s) ;;
  write src (Obj (moved_from s)) ;;
  write dst (Obj s).

(** [*dst = T(args...)]: the temporary is built, moved into [*dst] and
    destroyed at the end of the statement, also when the assignment throws. *)
Definition assign_temporary (dst : ptr) (a : init T) : M unit :=
  let* v := construct a in
  let* d := read dst in
  rethrow_after (call (MoveAssign d v)) (note (Dtor v)) ;;
  write dst (Obj v) ;;
  note (Dtor (moved_from v)).

(** *** The algorithms of <memory> and <algorithm> the header uses *)

(** [std::destroy_n(p, n)] *)
Fixpoint destroy_n (p : ptr) (n : nat) : M unit :=
  match n with
  | 0 => ret tt
  | S n' => destroy_at p ;; destroy_n (ptr_add p 1) n'
  end.

(** The common shape of the [std::uninitialized_*_n] family: [make i] builds
    the object at [dst + i]; when it throws, the [i] objects built so far are
    destroyed and the exception goes on. *)
Fixpoint uninitialized_n (make : nat -> M unit) (dst : ptr) (i n : nat) : M unit :=
  match n with
  | 0 => ret tt
  | S n' =>
      rethrow_after (make i) (destroy_n dst i) ;;
      uninitialized_n make dst (S i) n'
  end.

Definition uninitialized_value_construct_n (dst : ptr) (n : nat) : M unit :=
  uninitialized_n (fun i => value_construct_at (ptr_add dst i)) dst 0 n.

Definition uninitialized_copy_n (src : ptr) (n : nat) (dst : ptr) : M unit :=
  uninitialized_n
    (fun i => placement_new (ptr_add dst i) (FromCopy (ptr_add src i))) dst 0 n.

Definition uninitialized_move_n (src : ptr) (n : nat) (dst : ptr) : M unit :=
  uninitialized_n
    (fun i => placement_new (ptr_add dst i) (FromMove (ptr_add src i))) dst 0 n.

(** [std::copy(first, first + n, dst)] *)
Fixpoint std_copy (first : ptr) (n : nat) (dst : ptr) : M unit :=
  match n with
  | 0 => ret tt
  | S n' => copy_assign dst first ;; std_copy (ptr_add first 1) n' (ptr_add dst 1)
  end.

(** [std::move(first, first + n, dst)] *)
Fixpoint std_move (first : ptr) (n : nat) (dst : ptr) : M unit :=
  match n with
  | 0 => ret tt
  | S n' => move_assign dst first ;; std_move (ptr_add first 1) n' (ptr_add dst 1)
  end.

(** [p - n] on pointers: stepping before the start of the block is undefined. *)
Definition ptr_sub (p : ptr) (n : nat) : M ptr :=
  if decide (n <= off p) then ret (Ptr (base p) (off p - n)) else undefined.

(** [p - q] on pointers into one block, for [q] not after [p]. *)
Definition ptr_diff (p q : ptr) : M nat :=
  if decide (base p = base q /\ off q <= off p) then ret (off p - off q)
  else undefined.

(** [p + i] for an [int] [i]: stepping before the start of the block is
    undefined. *)
Definition ptr_add_int (p : ptr) (i : Z) : M ptr :=
  if decide (0 <= Z.of_nat (off p) + i)%Z
  then ret (Ptr (base p) (Z.to_nat (Z.of_nat (off p) + i)))
  else undefined.

(** [std::move_backward(first, first + n, d_last)]: the last element goes
    first, into [d_last - 1]. *)
Fixpoint std_move_backward (first : ptr) (n : nat) (d_last : ptr) : M unit :=
  match n with
  | 0 => ret tt
  | S n' =>
      let* d := ptr_sub d_last 1 in
      move_assign d (ptr_add first n') ;;
      std_move_backward first n' d
  end.

(** ** [Vector<T>] *)

(** *** The object store *)

Definition new_object (v : Vector) : M nat :=
  fun w => Ret (set_objs (fun o => o ++ [Some v]) w) (length (objs w)).

Definition load (this : nat) : M Vector :=
  fun w =>
    match objs w !! this with
    | Some (Some v) => Ret w v
    | _ => UB
    end.

Definition store (this : nat) (v : Vector) : M unit :=
  fun w =>
    match objs w !! this with
    | Some (Some _) => Ret (put_object this (Some v) w) tt
    | _ => UB
    end.

Definition delete_object (this : nat) : M unit :=
  fun w =>
    match objs w !! this with
    | Some (Some _) => Ret (put_object this None w) tt
    | _ => UB
    end.

Definition set_data (this : nat) (d : RawMemory) : M unit :=
  let* v := load this in store this {| data_ := d; size_ := size_ v |}.

Definition set_size (this : nat) (n : nat) : M unit :=
  let* v := load this in store this {| data_ := data_ v; size_ := n |}.

(** *** Queries and iterators *)

Definition Size (this : nat) : M nat :=
  let* v := load this in ret (size_ v).

Definition Capacity (this : nat) : M nat :=
  let* v := load this in ret (capacity_ (data_ v)).

Definition begin (this : nat) : M ptr :=
  let* v := load this in ret (GetAddress (data_ v)).

Definition end_ (this : nat) : M ptr :=
  let* v := load this in ret (ptr_add (GetAddress (data_ v)) (size_ v)).

(** *** [Swap] and the constructors *)

(** [RawMemory::Swap] between the [data_] of [this] and a local [RawMemory]:
    the result is what the local variable holds afterwards. *)
Definition Swap_data (this : nat) (new_data : RawMemory) : M RawMemory :=
  let* v := load this in
  set_data this new_data ;;
  ret (data_ v).

(** [Vector::Swap] *)
Definition Swap (this other : nat) : M unit :=
  (* data_.Swap(other.data_) *)
  let* a := load this in
  let* b := load other in
  set_data this (data_ b) ;;
  set_data other (data_ a) ;;
  (* size_ = std::exchange(other.size_, size_) *)
  let* a := load this in
  let* b := load other in
  set_size other (size_ a) ;;
  set_size this (size_ b).

(** [Vector()] *)
Definition Vector_default : M nat :=
  new_object {| data_ := RawMemory_default; size_ := 0 |}.

(** [Vector(size_t size)] *)
Definition Vector_sized (size : nat) : M nat :=
  let* data := RawMemory_new size in
  rethrow_after (uninitialized_value_construct_n (GetAddress data) size)
                (RawMemory_delete data) ;;
  new_object {| data_ := data; size_ := size |}.

(** [Vector(const Vector &other)] *)
Definition Vector_copy (other : nat) : M nat :=
  let* o := load other in
  let* data := RawMemory_new (size_ o) in
  rethrow_after
    (uninitialized_copy_n (GetAddress (data_ o)) (size_ o) (GetAddress data))
    (RawMemory_delete data) ;;
  new_object {| data_ := data; size_ := size_ o |}.

(** [Vector(Vector &&other)] *)
Definition Vector_move (other : nat) : M nat :=
  let* this := Vector_default in
  Swap this other ;;
  ret this.

(** [~Vector()] *)
Definition Vector_delete (this : nat) : M unit :=
  let* v := load this in
  destroy_n (GetAddress (data_ v)) (size_ v) ;;
  RawMemory_delete (data_ v) ;;
  delete_object this.

(** *** Capacity *)

Definition transfers_by_move : bool :=
  is_nothrow_move_constructible || negb is_copy_constructible.

Definition CopyOrMove (this : nat) (new_data : RawMemory) : M unit :=
  let* v := load this in
  if transfers_by_move
  then uninitialized_move_n (GetAddress (data_ v)) (size_ v) (GetAddress new_data)
  else uninitialized_copy_n (GetAddress (data_ v)) (size_ v) (GetAddress new_data).

Definition Reserve (this : nat) (new_capacity : nat) : M unit :=
  let* v := load this in
  if decide (new_capacity <= capacity_ (data_ v)) then ret tt
  else
    let* new_data := RawMemory_new new_capacity in
    rethrow_after (CopyOrMove this new_data) (RawMemory_delete new_data) ;;
    destroy_n (GetAddress (data_ v)) (size_ v) ;;
    let* new_data := Swap_data this new_data in
    RawMemory_delete new_data.

Definition Resize (this : nat) (new_size : nat) : M unit :=
  let* v := load this in
  (if decide (new_size < size_ v)
   then destroy_n (ptr_add (GetAddress (data_ v)) new_size) (size_ v - new_size)
   else
     Reserve this new_size ;;
     let* v := load this in
     uninitialized_value_construct_n
       (ptr_add (GetAddress (data_ v)) (size_ v)) (new_size - size_ v)) ;;
  set_size this new_size.

(** *** Assignment *)

(** [operator=(const Vector &rhs)] *)
Definition assign_copy (this rhs : nat) : M unit :=
  if decide (this = rhs) then ret tt
  else
    let* r := load rhs in
    let* v := load this in
    if decide (capacity_ (data_ v) < size_ r) then
      let* rhs_copy := Vector_copy rhs in
      Swap this rhs_copy ;;
      Vector_delete rhs_copy
    else
      (if decide (size_ r < size_ v) then
         std_copy (GetAddress (data_ r)) (size_ r) (GetAddress (data_ v)) ;;
         destroy_n (ptr_add (GetAddress (data_ v)) (size_ r)) (size_ v - size_ r)
       else
         std_copy (GetAddress (data_ r)) (size_ v) (GetAddress (data_ v)) ;;
         uninitialized_copy_n
           (ptr_add (GetAddress (data_ r)) (size_ v)) (size_ r - size_ v)
           (ptr_add (GetAddress (data_ v)) (size_ v))) ;;
      set_size this (size_ r).

(** [RawMemory::operator=(RawMemory &&other)], between the [data_] members
    of two vectors. *)
Definition RawMemory_assign_move (this other : nat) : M unit :=
  let* o := load other in
  (* capacity_ = other.capacity_; buffer_ = other.buffer_; *)
  set_data this {| buffer_ := buffer_ (data_ o); capacity_ := capacity_ (data_ o) |} ;;
  (* other.buffer_ = nullptr; other.capacity_ = 0; *)
  set_data other {| buffer_ := None; capacity_ := 0 |}.

(** [operator=(Vector &&rhs)] *)
Definition assign_move (this rhs : nat) : M unit :=
  RawMemory_assign_move this rhs ;;
  (* size_ = std::exchange(rhs.size_, 0) *)
  let* r := load rhs in
  set_size rhs 0 ;;
  set_size this (size_ r).

(** *** Elements *)

(** [RawMemory::operator[]]: a reference to the slot, under its assertion. *)
Definition RawMemory_index (m : RawMemory) (i : nat) : M ptr :=
  if decide (i < capacity_ m) then ret (ptr_add (GetAddress m) i)
  else undefined.

(** [operator[]]: a reference to the element, under its assertion. *)
Definition index (this : nat) (i : nat) : M ptr :=
  let* v := load this in
  if decide (i < size_ v) then RawMemory_index (data_ v) i
  else undefined.

Definition PopBack (this : nat) : M unit :=
  let* v := load this in
  let* last := ptr_sub (ptr_add (GetAddress (data_ v)) (size_ v)) 1 in
  destroy_at last ;;
  set_size this (size_ v - 1).

(** The capacity both growing paths ask for. *)
Definition grown (v : Vector) : nat :=
  if decide (size_ v = 0) then 1 else capacity_ (data_ v) * 2.

Definition EmplaceBack (this : nat) (values : init T) : M ptr :=
  let* v := load this in
  (if decide (size_ v = capacity_ (data_ v)) then
     let* new_data := RawMemory_new (grown v) in
     rethrow_after
       (placement_new (ptr_add (GetAddress new_data) (size_ v)) values ;;
        CopyOrMove this new_data)
       (RawMemory_delete new_data) ;;
     destroy_n (GetAddress (data_ v)) (size_ v) ;;
     let* new_data := Swap_data this new_data in
     RawMemory_delete new_data
   else
     placement_new (ptr_add (GetAddress (data_ v)) (size_ v)) values) ;;
  let* v := load this in
  set_size this (size_ v + 1) ;;
  ret (ptr_add (GetAddress (data_ v)) (size_ v)).

(** [PushBack(const T &)] and [PushBack(T &&)] *)
Definition PushBack (this : nat) (value : ptr) : M unit :=
  EmplaceBack this (FromCopy value) ;; ret tt.
Definition PushBack_move (this : nat) (value : ptr) : M unit :=
  EmplaceBack this (FromMove value) ;; ret tt.

(** Lines 246-247: room is made at [pos] by moving the last element into the
    first free slot and the ones before it one slot up. *)
Definition shift_up (this : nat) (pos_non_const : ptr) : M unit :=
  let* e := end_ this in
  let* last := ptr_sub e 1 in
  placement_new e (FromMove last) ;;
  let* n := ptr_diff last pos_non_const in
  std_move_backward pos_non_const n e.

Definition Emplace (this : nat) (pos : ptr) (values : init T) : M ptr :=
  let* e := end_ this in
  if decide (pos = e) then
    EmplaceBack this values ;;
    let* e := end_ this in
    ptr_sub e 1
  else
    let* b := begin this in
    (* int pos_index = pos - begin(); *)
    let* d := ptr_diff pos b in
    (* iterator pos_non_const = begin() + pos_index; *)
    let* pos_non_const := ptr_add_int b (to_int (Z.of_nat d)) in
    (* from here on pos_index is not negative *)
    let pos_index := Z.to_nat (to_int (Z.of_nat d)) in
    let* v := load this in
    (if decide (size_ v < capacity_ (data_ v)) then
       shift_up this pos_non_const ;;
       assign_temporary pos_non_const values
     else
       let* new_data := RawMemory_new (grown v) in
       rethrow_after
         (placement_new (ptr_add (GetAddress new_data) pos_index) values ;;
          if transfers_by_move then
            uninitialized_move_n b pos_index (GetAddress new_data) ;;
            let* rest := ptr_diff e pos_non_const in
            uninitialized_move_n pos_non_const rest
              (ptr_add (GetAddress new_data) (pos_index + 1))
          else
            uninitialized_copy_n b pos_index (GetAddress new_data) ;;
            let* rest := ptr_diff e pos_non_const in
            uninitialized_copy_n pos_non_const rest
              (ptr_add (GetAddress new_data) (pos_index + 1)))
         (RawMemory_delete new_data) ;;
       destroy_n (GetAddress (data_ v)) (size_ v) ;;
       let* new_data := Swap_data this new_data in
       RawMemory_delete new_data) ;;
    let* v := load this in
    set_size this (size_ v + 1) ;;
    ret (ptr_add (GetAddress (data_ v)) pos_index).

(** [Insert(const_iterator, const T &)] and [Insert(const_iterator, T &&)] *)
Definition Insert (this : nat) (pos : ptr) (value : ptr) : M ptr :=
  Emplace this pos (FromCopy value).
Definition Insert_move (this : nat) (pos : ptr) (value : ptr) : M ptr :=
  Emplace this pos (FromMove value).

Definition Erase (this : nat) (pos : ptr) : M ptr :=
  let* b := begin this in
  (* int pos_index = pos - begin(); *)
  let* d := ptr_diff pos b in
  (* begin() + pos_index *)
  let* first := ptr_add_int b (to_int (Z.of_nat d)) in
  (* from here on pos_index is not negative *)
  let pos_index := Z.to_nat (to_int (Z.of_nat d)) in
  let* e := end_ this in
  let* n := ptr_diff e (ptr_add first 1) in
  std_move (ptr_add first 1) n first ;;
  let* v := load this in
  set_size this (size_ v - 1) ;;
  let* e := end_ this in
  destroy_at e ;;
  let* b := begin this in
  ret (ptr_add b pos_index).

End Model.

Arguments M T A : clear implicits.

(** ** Observations *)

Section Observations.
Context {T : Type}.

(** The vector object [this], when it is alive. *)
Definition vector_at (w : world T) (this : nat) : option Vector :=
  match objs w !! this with
  | Some (Some v) => Some v
  | _ => None
  end.

(** The slots of the block a vector owns; [nullptr] owns none. *)
Definition storage (w : world T) (v : Vector) : option (list (slot T)) :=
  match buffer_ (data_ v) with
  | Some b => block_at w b
  | None => Some []
  end.

Fixpoint objects (l : list (slot T)) : option (list T) :=
  match l with
  | [] => Some []
  | Obj x :: l' =>
      match objects l' with
      | Some xs => Some (x :: xs)
      | None => None
      end
  | Raw :: _ => None
  end.

(** The elements of [this]: the objects in the slots [[0, size_)]. *)
Definition elements (w : world T) (this : nat) : option (list T) :=
  match vector_at w this with
  | Some v =>
      match storage w v with
      | Some blk =>
          if decide (size_ v <= length blk) then objects (take (size_ v) blk)
          else None
      | None => None
      end
  | None => None
  end.

Definition size_of (w : world T) (this : nat) : option nat :=
  match vector_at w this with
  | Some v => Some (size_ v)
  | None => None
  end.

Definition capacity_of (w : world T) (this : nat) : option nat :=
  match vector_at w this with
  | Some v => Some (capacity_ (data_ v))
  | None => None
  end.

(** The class invariant of [Vector]: [buf] is a block of [c] slots, of which
    the first [length xs] hold the elements [xs] and the others are raw. *)
Definition holds (w : world T) (this : nat) (buf : option nat)
    (xs : list T) (c : nat) : Prop :=
  objs w !! this =
    Some (Some {| data_ := {| buffer_ := buf; capacity_ := c |};
                  size_ := length xs |}) /\
  match buf with
  | Some b =>
      block_at w b = Some (map Obj xs ++ replicate (c - length xs) Raw) /\
      length xs <= c
  | None => c = 0 /\ xs = []
  end.

(** A slot outside [[0, size_)] of [this] that holds an object. *)
Definition stray_object (w : world T) (this : nat) (i : nat) (x : T) : Prop :=
  exists v blk,
    vector_at w this = Some v /\ storage w v = Some blk /\
    size_ v <= i /\ blk !! i = Some (Obj x).

(** A block that is allocated and that no vector has as its buffer. *)
Definition orphan (w : world T) (b : nat) : Prop :=
  is_Some (block_at w b) /\
  forall o v, vector_at w o = Some v -> buffer_ (data_ v) <> Some b.

End Observations.

(** ** Specifications *)

Section Specifications.
Context {T : Type} `{!Element T}.

(** [wp U m Q E w]: run from [w], [m] returns in a world satisfying [Q], or
    throws in a world satisfying [E]; [U] is what is claimed when the
    behaviour is undefined ([False] to rule that out, [True] not to care). *)
Definition wp {A} (U : Prop) (m : M T A)
    (Q : A -> world T -> Prop) (E : world T -> Prop) (w : world T) : Prop :=
  match m w with
  | Ret w' a => Q a w'
  | Throw w' => E w'
  | UB => U
  end.

(** A number of elements whose bytes [size_t] can count: up to it, the
    product [n * sizeof(T)] that [Allocate] hands to [operator new] does not
    wrap around. *)
Definition allocatable (n : nat) : Prop := (Z.of_nat n * sizeof <= SIZE_MAX)%Z.

(** Element types for which a kind of call never throws. *)
Definition nothrow_value_ctor : Prop := forall h, throws h ValueCtor = false.
Definition nothrow_args_ctor : Prop := forall h v, throws h (ArgsCtor v) = false.
Definition nothrow_copy_ctor : Prop := forall h x, throws h (CopyCtor x) = false.
Definition nothrow_move_ctor : Prop := forall h x, throws h (MoveCtor x) = false.
Definition nothrow_copy_assign : Prop :=
  forall h d s, throws h (CopyAssign d s) = false.
Definition nothrow_move_assign : Prop :=
  forall h d s, throws h (MoveAssign d s) = false.

(** The object [r] refers to, when there is one. *)
Definition peek (w : world T) (r : ptr) : option T :=
  match base r with
  | Some b =>
      match block_at w b with
      | Some blk =>
          match blk !! off r with
          | Some (Obj x) => Some x
          | _ => None
          end
      | None => None
      end
  | None => None
  end.

(** The value constructor arguments build, the call that builds it, and the
    block the arguments give leave to modify. *)
Definition init_value (w : world T) (a : init T) : option T :=
  match a with
  | FromArgs v => Some v
  | FromCopy r | FromMove r => peek w r
  end.

Definition init_event (w : world T) (a : init T) : option (event T) :=
  match a with
  | FromArgs v => Some (ArgsCtor v)
  | FromCopy r => CopyCtor <$> peek w r
  | FromMove r => MoveCtor <$> peek w r
  end.

Definition init_moves_from (a : init T) : option nat :=
  match a with
  | FromMove r => base r
  | _ => None
  end.

(** The object the arguments refer to, if any, is not in block [b]. *)
Definition init_outside (a : init T) (buf : option nat) : Prop :=
  match a with
  | FromArgs _ => True
  | FromCopy r | FromMove r => base r <> buf
  end.

(** Specifications are proved once for two readings.  In the first a kind of
    call does not throw, and the specification says that the function
    returns.  In the second nothing is claimed about exceptions and undefined
    behaviour ([U] and [E] hold of anything), and the specification says what
    holds if the function returns.  [quiet_* U E] covers both: should such a
    call throw, [U] and [E] are excused. *)
Definition excused (U : Prop) (E : world T -> Prop) : Prop :=
  U /\ forall w, E w.
Definition quiet_value_ctor U E : Prop :=
  forall h, throws h ValueCtor = true -> excused U E.
Definition quiet_args_ctor U E : Prop :=
  forall h v, throws h (ArgsCtor v) = true -> excused U E.
Definition quiet_copy_ctor U E : Prop :=
  forall h x, throws h (CopyCtor x) = true -> excused U E.
Definition quiet_move_ctor U E : Prop :=
  forall h x, throws h (MoveCtor x) = true -> excused U E.
Definition quiet_copy_assign U E : Prop :=
  forall h d s, throws h (CopyAssign d s) = true -> excused U E.
Definition quiet_move_assign U E : Prop :=
  forall h d s, throws h (MoveAssign d s) = true -> excused U E.

Definition quiet_init U E (a : init T) : Prop :=
  match a with
  | FromArgs _ => quiet_args_ctor U E
  | FromCopy _ => quiet_copy_ctor U E
  | FromMove _ => quiet_move_ctor U E
  end.

Definition nothrow_init (a : init T) : Prop :=
  match a with
  | FromArgs _ => nothrow_args_ctor
  | FromCopy _ => nothrow_copy_ctor
  | FromMove _ => nothrow_move_ctor
  end.

(** The capacity after an append to a vector of [n] elements and capacity
    [c]. *)
Definition capacity_after_append (n c : nat) : nat :=
  if decide (n = c) then (if decide (n = 0) then 1 else c * 2) else c.

(** [k] appends in a row: [EmplaceBack] with each of the arguments in turn. *)
Fixpoint appends (this : nat) (args : list (init T)) : M T unit :=
  match args with
  | [] => ret tt
  | a :: rest => bind (EmplaceBack this a) (fun _ => appends this rest)
  end.

(** [c] is the smallest power of two that is at least [k]. *)
Definition smallest_power_of_two_from (k c : nat) : Prop :=
  (exists e, c = 2 ^ e) /\ k <= c /\ forall e, k <= 2 ^ e -> c <= 2 ^ e.

(** ** Footprints *)

(** [keeps P w w']: the step from [w] to [w'] allocates and frees nothing,
    leaves the vector objects alone, and modifies only blocks in [P]. *)
Definition keeps (P : nat -> Prop) (w w' : world T) : Prop :=
  objs w' = objs w /\ length (heap w') = length (heap w) /\
  forall b, ~ P b -> heap w' !! b = heap w !! b.

(** [extends P O w w']: of the blocks and objects of [w], only those in [P]
    and [O] are modified; others may have been added. *)
Definition extends (P O : nat -> Prop) (w w' : world T) : Prop :=
  length (heap w) <= length (heap w') /\
  (forall b, b < length (heap w) -> ~ P b -> heap w' !! b = heap w !! b) /\
  length (objs w) <= length (objs w') /\
  (forall o, o < length (objs w) -> ~ O o -> objs w' !! o = objs w !! o).

(** A computation all of whose steps are in the relation [R], whether it
    returns or throws. *)
Definition respects (R : world T -> world T -> Prop) {A} (m : M T A) : Prop :=
  forall w, wp True m (fun _ w' => R w w') (fun w' => R w w') w.

(** What a member function called on [this], which was [v], may have done
    when the world is [w']: modified the block [v] has and the blocks in
    [extra], allocated blocks, and left [this] with the buffer it had or a new
    one; every other object is as it was. *)
Definition allowed (v : Vector) (extra : nat -> Prop) (w : world T) (b : nat) : Prop :=
  buffer_ (data_ v) = Some b \/ extra b \/ length (heap w) <= b.

Definition mutated (this : nat) (v : Vector) (extra : nat -> Prop)
    (w w' : world T) : Prop :=
  extends (fun b => buffer_ (data_ v) = Some b \/ extra b) (fun o => o = this)
    w w' /\
  length (objs w') = length (objs w) /\
  exists v', vector_at w' this = Some v' /\
    forall b, buffer_ (data_ v') = Some b -> allowed v extra w b.

(** The mutators of one vector, and their effect. *)
Inductive mutation : Type :=
| DoReserve (new_capacity : nat)
| DoResize (new_size : nat)
| DoPopBack
| DoEmplaceBack (a : init T)
| DoEmplace (pos : ptr) (a : init T)
| DoErase (pos : ptr).

Definition mutate (this : nat) (m : mutation) : M T unit :=
  match m with
  | DoReserve n => Reserve this n
  | DoResize n => Resize this n
  | DoPopBack => PopBack this
  | DoEmplaceBack a => bind (EmplaceBack this a) (fun _ => ret tt)
  | DoEmplace pos a => bind (Emplace this pos a) (fun _ => ret tt)
  | DoErase pos => bind (Erase this pos) (fun _ => ret tt)
  end.


(** Calls a client makes on one vector, positions given as indices:
    [v.Reserve(n)], [v.Resize(n)], [v.PopBack()], [v.EmplaceBack(x)],
    [v.Emplace(v.begin() + i, x)] and [v.Erase(v.begin() + i)]. *)
Inductive operation : Type :=
| OpReserve (n : nat)
| OpResize (n : nat)
| OpPopBack
| OpEmplaceBack (x : T)
| OpEmplace (i : nat) (x : T)
| OpErase (i : nat).

Definition operate (this : nat) (o : operation) : M T unit :=
  match o with
  | OpReserve n => Reserve this n
  | OpResize n => Resize this n
  | OpPopBack => PopBack this
  | OpEmplaceBack x => bind (EmplaceBack this (FromArgs x)) (fun _ => ret tt)
  | OpEmplace i x =>
      bind (begin this)
        (fun b => bind (Emplace this (ptr_add b i) (FromArgs x)) (fun _ => ret tt))
  | OpErase i =>
      bind (begin this)
        (fun b => bind (Erase this (ptr_add b i)) (fun _ => ret tt))
  end.

Fixpoint operations (this : nat) (os : list operation) : M T unit :=
  match os with
  | [] => ret tt
  | o :: rest => bind (operate this o) (fun _ => operations this rest)
  end.

(** What the calls do to a sequence, when they are within bounds, and to
    a capacity.  The bounds are those of the sequence and those of the
    machine: a number of elements asked for is [allocatable], and a position
    is one that [int] holds, or the end for [Emplace]. *)
Definition performed (xs : list T) (o : operation) : option (list T) :=
  match o with
  | OpReserve n => if decide (allocatable n) then Some xs else None
  | OpResize n =>
      if decide (allocatable n)
      then Some (take n xs ++ replicate (n - length xs) value_init)
      else None
  | OpPopBack => if decide (xs = []) then None else Some (take (length xs - 1) xs)
  | OpEmplaceBack x => Some (xs ++ [x])
  | OpEmplace i x =>
      if decide (i <= length xs /\
                 (i = length xs \/ (Z.of_nat i <= INT_MAX)%Z))
      then Some (take i xs ++ x :: drop i xs)
      else None
  | OpErase i =>
      if decide (i < length xs /\ (Z.of_nat i <= INT_MAX)%Z)
      then Some (take i xs ++ drop (S i) xs)
      else None
  end.

Definition capacity_performed (n c : nat) (o : operation) : nat :=
  match o with
  | OpReserve m | OpResize m => Nat.max c m
  | OpEmplaceBack _ | OpEmplace _ _ => capacity_after_append n c
  | OpPopBack | OpErase _ => c
  end.

Fixpoint all_performed (xs : list T) (c : nat) (os : list operation)
    : option (list T * nat) :=
  match os with
  | [] => Some (xs, c)
  | o :: rest =>
      match performed xs o with
      | Some ys => all_performed ys (capacity_performed (length xs) c o) rest
      | None => None
      end
  end.

(** How a call may change the buffer of a vector: it keeps it and allocates
    nothing, or it takes the next block allocated and releases the old
    one. *)
Definition rebuffered (w w' : world T) (buf buf' : option nat) : Prop :=
  (buf' = buf /\ length (heap w') = length (heap w)) \/
  (buf' = Some (length (heap w)) /\
   length (heap w') = S (length (heap w)) /\
   forall b, buf = Some b -> heap w' !! b = Some Freed).

(** The blocks of [w'] accounted for, after calls on a vector that had the
    buffer [buf] in [w] and has [buf'] now: the blocks of [w] other than
    [buf] are as they were, and of [buf] and the blocks allocated since,
    all but [buf'] are released. *)
Definition accounted (w : world T) (buf : option nat)
    (w' : world T) (buf' : option nat) : Prop :=
  length (heap w) <= length (heap w') /\
  (buf' = buf \/ exists k, buf' = Some k /\ length (heap w) <= k) /\
  (forall b, b < length (heap w) -> buf <> Some b ->
     heap w' !! b = heap w !! b) /\
  (forall b, b < length (heap w') -> buf = Some b \/ length (heap w) <= b ->
     buf' = Some b \/ heap w' !! b = Some Freed).

(** The block the arguments of a mutation give leave to move from. *)
Definition mutation_moves_from (m : mutation) : option nat :=
  match m with
  | DoEmplaceBack a | DoEmplace _ a => init_moves_from a
  | _ => None
  end.


(** The vector [this] shows in [w'] what it showed in [w]: the same size and
    capacity, the same buffer with the same slots, hence the same elements. *)
Definition same_vector (this : nat) (w w' : world T) : Prop :=
  vector_at w' this = vector_at w this /\
  (forall v, vector_at w this = Some v -> storage w' v = storage w v) /\
  size_of w' this = size_of w this /\
  capacity_of w' this = capacity_of w this /\
  elements w' this = elements w this.

(** A computation that does not throw. *)
Definition nothrows {A} (m : M T A) : Prop :=
  forall w, wp True m (fun _ _ => True) (fun _ => False) w.

(** The block a pointer points into. *)
Definition in_block (p : ptr) (b : nat) : Prop := base p = Some b.

(** What [std::move_backward(first, last, last + 1)] leaves in the slot at
    [first], which held the first of [ys], the slot at [last] holding [t]: the
    moved-from first element, or [t] when nothing was moved. *)
Definition landing (ys : list T) (t : T) : T :=
  match ys with
  | [] => t
  | y :: _ => moved_from y
  end.

(** The call [CopyOrMove] makes for each element. *)
Definition quiet_transfer U E : Prop :=
  if transfers_by_move then quiet_move_ctor U E else quiet_copy_ctor U E.
Definition nothrow_transfer : Prop :=
  if transfers_by_move then nothrow_move_ctor else nothrow_copy_ctor.

(** What [std::move(first + 1, last, first)] leaves in the last slot of the
    range that held [x] followed by [ys]: the moved-from last element, or [x]
    itself when nothing was moved. *)
Definition vacated (x : T) (ys : list T) : T :=
  match last ys with
  | Some y => moved_from y
  | None => x
  end.

(** The trait [is_nothrow_move_constructible] tells the truth. *)
Definition traits_sound : Prop :=
  is_nothrow_move_constructible = true -> nothrow_move_ctor.

End Specifications.

(** ** Element types and worlds used as examples *)

(** [int]: nothing throws, and a moved-from object keeps its value. *)
Definition Int : Element nat :=
  {| sizeof := 4;
     value_init := 0;
     moved_from := fun x => x;
     throws := fun _ _ => false;
     is_nothrow_move_constructible := true;
     is_copy_constructible := true |}.

Definition is_ctor {T} (e : event T) : bool :=
  match e with
  | ValueCtor | ArgsCtor _ | CopyCtor _ | MoveCtor _ => true
  | _ => false
  end.

(** A class that counts the calls of its constructors and throws from the
    call number [k]; none of its constructors is [noexcept]. *)
Definition Thrower (k : nat) : Element nat :=
  {| sizeof := 4;
     value_init := 0;
     moved_from := fun x => x;
     throws := fun h e => is_ctor e && (S (length (List.filter is_ctor h)) =? k);
     is_nothrow_move_constructible := false;
     is_copy_constructible := true |}.

(** A string-like class: moving from an object leaves it empty ([0]); copies
    may throw, moves are [noexcept]. *)
Definition Text : Element nat :=
  {| sizeof := 32;
     value_init := 0;
     moved_from := fun _ => 0;
     throws := fun _ e => match e with CopyCtor x => x =? 13 | _ => false end;
     is_nothrow_move_constructible := true;
     is_copy_constructible := true |}.

(** A string-like class without [noexcept]: moving from an object leaves it
    empty ([0]), and every copy throws. *)
Definition Fragile : Element nat :=
  {| sizeof := 32;
     value_init := 0;
     moved_from := fun _ => 0;
     throws := fun _ e => match e with CopyCtor _ => true | _ => false end;
     is_nothrow_move_constructible := false;
     is_copy_constructible := true |}.

(** Nothing allocated, no object, no call yet. *)
Definition empty_world {T} : world T := World [] [] [].

(** Object 0 holds [[7; 8]] in a block of 2 slots, object 1 holds
    [[1; 2; 3]] in a block of 3 slots. *)
Definition two_vectors : world nat :=
  World [Block [Obj 7; Obj 8]; Block [Obj 1; Obj 2; Obj 3]]
        [Some {| data_ := {| buffer_ := Some 0; capacity_ := 2 |}; size_ := 2 |};
         Some {| data_ := {| buffer_ := Some 1; capacity_ := 3 |}; size_ := 3 |}]
        [].

(** Object 0 holds [[1; 2; 3]] in a block of 4 slots. *)
Definition three_of_four : world nat :=
  World [Block [Obj 1; Obj 2; Obj 3; Raw]]
        [Some {| data_ := {| buffer_ := Some 0; capacity_ := 4 |}; size_ := 3 |}]
        [].

(** What [Vector<T> v;] builds. *)
Definition one_empty_vector : world nat :=
  World [] [Some {| data_ := RawMemory_default; size_ := 0 |}] [].

(** What [Vector<Thrower> v(3)] builds: three value-initialised elements,
    after three constructor calls. *)
Definition three_constructed : world nat :=
  World [Block [Obj 0; Obj 0; Obj 0]]
        [Some {| data_ := {| buffer_ := Some 0; capacity_ := 3 |}; size_ := 3 |}]
        [ValueCtor; ValueCtor; ValueCtor].

(** Object 0 holds [[1; 2; 3]] in a block of 3 slots. *)
Definition three_of_three : world nat :=
  World [Block [Obj 1; Obj 2; Obj 3]]
        [Some {| data_ := {| buffer_ := Some 0; capacity_ := 3 |}; size_ := 3 |}]
        [].

(** * Proofs *)

(** ** The calculus *)

Section Calculus.
Context {T : Type} `{!Element T}.

Lemma wp_ret {A} U (a : A) Q E (w : world T) : Q a w -> wp U (ret a) Q E w.
Proof. done. Qed.

Lemma wp_bind {A B} U (m : M T A) (k : A -> M T B) Q E (w : world T) :
  wp U m (fun a w' => wp U (k a) Q E w') E w -> wp U (bind m k) Q E w.
Proof. unfold wp, bind. by destruct (m w). Qed.

Lemma wp_mono {A} U (m : M T A) (Q Q' : A -> world T -> Prop)
    (E E' : world T -> Prop) w :
  wp U m Q E w ->
  (forall a w', Q a w' -> Q' a w') -> (forall w', E w' -> E' w') ->
  wp U m Q' E' w.
Proof. unfold wp. destruct (m w); auto. Qed.

Lemma wp_rethrow_after {A} U (m : M T A) cleanup Q E w :
  wp U m Q (fun w' => wp U cleanup (fun _ => E) E w') w ->
  wp U (rethrow_after m cleanup) Q E w.
Proof.
  unfold wp, rethrow_after. destruct (m w) as [w' a|w'|]; [done| |done].
  by destruct (cleanup w').
Qed.

Lemma wp_ret_inv {A} U (m : M T A) Q E w w' a :
  wp U m Q E w -> m w = Ret w' a -> Q a w'.
Proof. unfold wp. intros H Hm. by rewrite Hm in H. Qed.

Lemma wp_throw_inv {A} U (m : M T A) Q E w w' :
  wp U m Q E w -> m w = Throw w' -> E w'.
Proof. unfold wp. intros H Hm. by rewrite Hm in H. Qed.

Lemma wp_total {A} (m : M T A) Q w :
  wp False m Q (fun _ => False) w -> exists w' a, m w = Ret w' a /\ Q a w'.
Proof. unfold wp. destruct (m w) as [w' a| |]; [eauto|done|done]. Qed.

Lemma nothrow_quiet_value_ctor U E : nothrow_value_ctor -> quiet_value_ctor U E.
Proof. intros Hn h Ht. by rewrite Hn in Ht. Qed.
Lemma nothrow_quiet_args_ctor U E : nothrow_args_ctor -> quiet_args_ctor U E.
Proof. intros Hn h v Ht. by rewrite Hn in Ht. Qed.
Lemma nothrow_quiet_copy_ctor U E : nothrow_copy_ctor -> quiet_copy_ctor U E.
Proof. intros Hn h x Ht. by rewrite Hn in Ht. Qed.
Lemma nothrow_quiet_move_ctor U E : nothrow_move_ctor -> quiet_move_ctor U E.
Proof. intros Hn h x Ht. by rewrite Hn in Ht. Qed.
Lemma nothrow_quiet_copy_assign U E : nothrow_copy_assign -> quiet_copy_assign U E.
Proof. intros Hn h d s Ht. by rewrite Hn in Ht. Qed.
Lemma nothrow_quiet_move_assign U E : nothrow_move_assign -> quiet_move_assign U E.
Proof. intros Hn h d s Ht. by rewrite Hn in Ht. Qed.

Lemma quiet_init_mono U E E' a :
  (excused U E -> excused U E') -> quiet_init U E a -> quiet_init U E' a.
Proof. intros Hex. destruct a; simpl; intros Hq ???; eauto. Qed.

Lemma quiet_transfer_mono U E E' :
  (excused U E -> excused U E') -> quiet_transfer U E -> quiet_transfer U E'.
Proof.
  intros Hex. unfold quiet_transfer.
  destruct transfers_by_move; intros Hq ???; eauto.
Qed.

Lemma nothrow_quiet_transfer U E : nothrow_transfer -> quiet_transfer U E.
Proof.
  unfold nothrow_transfer, quiet_transfer. destruct transfers_by_move.
  - apply nothrow_quiet_move_ctor.
  - apply nothrow_quiet_copy_ctor.
Qed.

Lemma wp_returns {A} (m : M T A) Q (w w' : world T) a :
  wp True m Q (fun _ => True) w -> m w = Ret w' a -> Q a w'.
Proof. apply wp_ret_inv. Qed.

End Calculus.

(** ** Worlds: lookups after updates *)

Section Worlds.
Context {T : Type} `{!Element T}.
Implicit Types (w : world T) (v : Vector) (blk : list (slot T)).

Lemma vector_at_Some w this v :
  vector_at w this = Some v <-> objs w !! this = Some (Some v).
Proof.
  unfold vector_at. destruct (objs w !! this) as [[?|]|]; split; congruence.
Qed.

Lemma vector_at_objs_eq w w' this :
  objs w' = objs w -> vector_at w' this = vector_at w this.
Proof. unfold vector_at. by intros ->. Qed.

Lemma block_at_heap_same w w' b :
  heap w' = heap w -> block_at w' b = block_at w b.
Proof. unfold block_at. by intros ->. Qed.

Lemma vector_at_lt w this v : vector_at w this = Some v -> this < length (objs w).
Proof. rewrite vector_at_Some. apply lookup_lt_Some. Qed.

Lemma block_at_Some w b blk :
  block_at w b = Some blk <-> heap w !! b = Some (Block blk).
Proof.
  unfold block_at. destruct (heap w !! b) as [[|?]|]; split; congruence.
Qed.

Lemma block_at_lt w b blk : block_at w b = Some blk -> b < length (heap w).
Proof. rewrite block_at_Some. apply lookup_lt_Some. Qed.

Lemma block_at_put_block_eq w b blk :
  b < length (heap w) -> block_at (put_block b blk w) b = Some blk.
Proof.
  intros Hb. apply block_at_Some. simpl. by apply list_lookup_insert_eq.
Qed.

Lemma block_at_put_block_ne w b b' blk :
  b <> b' -> block_at (put_block b blk w) b' = block_at w b'.
Proof. intros Hb. unfold block_at. simpl. by rewrite list_lookup_insert_ne. Qed.

Lemma vector_at_put_block w b blk this :
  vector_at (put_block b blk w) this = vector_at w this.
Proof. done. Qed.

Lemma block_at_logged w e b : block_at (logged e w) b = block_at w b.
Proof. done. Qed.

Lemma block_at_put_object w this ov b :
  block_at (put_object this ov w) b = block_at w b.
Proof. done. Qed.

Lemma vector_at_put_object_eq w this v :
  this < length (objs w) -> vector_at (put_object this (Some v) w) this = Some v.
Proof.
  intros Hlt. apply vector_at_Some. simpl. by apply list_lookup_insert_eq.
Qed.

Lemma vector_at_put_object_ne w this o ov :
  this <> o -> vector_at (put_object this ov w) o = vector_at w o.
Proof. intros Hne. unfold vector_at. simpl. by rewrite list_lookup_insert_ne. Qed.

Lemma length_objs_put_object w this ov :
  length (objs (put_object this ov w)) = length (objs w).
Proof. simpl. apply length_insert. Qed.

Lemma length_heap_put_block w b blk :
  length (heap (put_block b blk w)) = length (heap w).
Proof. simpl. apply length_insert. Qed.

End Worlds.

(** ** The primitives *)

Section Primitives.
Context {T : Type} `{!Element T}.
Implicit Types (w : world T) (v : Vector) (blk : list (slot T)).

Lemma wp_read U p b blk x Q E w :
  base p = Some b -> block_at w b = Some blk -> blk !! off p = Some (Obj x) ->
  Q x w -> wp U (read p) Q E w.
Proof. unfold wp, read. by intros -> -> ->. Qed.

Lemma wp_write U p b blk s Q E w :
  base p = Some b -> block_at w b = Some blk -> off p < length blk ->
  Q tt (put_block b (<[off p := s]> blk) w) -> wp U (write p s) Q E w.
Proof. unfold wp, write. intros -> -> Hlt. by rewrite decide_True. Qed.

Lemma wp_call U e Q E w :
  throws (log w) e = false -> Q tt (logged e w) -> wp U (call e) Q E w.
Proof. unfold wp, call. by intros ->. Qed.

Lemma wp_call_quiet U e Q E w :
  (throws (log w) e = true -> excused U E) -> Q tt (logged e w) ->
  wp U (call e) Q E w.
Proof.
  unfold wp, call. intros Hq HQ. destruct (throws (log w) e); [|done].
  by apply Hq.
Qed.

Lemma wp_excused {A} U (m : M T A) Q E w :
  excused U E -> (forall a w', Q a w') -> wp U m Q E w.
Proof. intros [HU HE] HQ. unfold wp. by destruct (m w). Qed.

Lemma wp_call_throw U e Q E w :
  throws (log w) e = true -> E (logged e w) -> wp U (call e) Q E w.
Proof. unfold wp, call. by intros ->. Qed.

Lemma wp_note U e Q E w : Q tt (logged e w) -> wp U (note e) Q E w.
Proof. done. Qed.

Lemma wp_load U this v Q E w :
  vector_at w this = Some v -> Q v w -> wp U (load this) Q E w.
Proof. rewrite vector_at_Some. unfold wp, load. by intros ->. Qed.

Lemma wp_store U this v0 v Q E w :
  vector_at w this = Some v0 -> Q tt (put_object this (Some v) w) ->
  wp U (store this v) Q E w.
Proof. rewrite vector_at_Some. unfold wp, store. by intros ->. Qed.

Lemma wp_set_data U this v d Q E w :
  vector_at w this = Some v ->
  Q tt (put_object this (Some {| data_ := d; size_ := size_ v |}) w) ->
  wp U (set_data this d) Q E w.
Proof.
  intros Hv HQ. apply wp_bind. eapply wp_load; [done|]. by eapply wp_store.
Qed.

Lemma wp_set_size U this v n Q E w :
  vector_at w this = Some v ->
  Q tt (put_object this (Some {| data_ := data_ v; size_ := n |}) w) ->
  wp U (set_size this n) Q E w.
Proof.
  intros Hv HQ. apply wp_bind. eapply wp_load; [done|]. by eapply wp_store.
Qed.

Lemma wp_new_object U v Q E w :
  Q (length (objs w)) (set_objs (fun o => o ++ [Some v]) w) ->
  wp U (new_object v) Q E w.
Proof. done. Qed.

Lemma wp_ptr_sub U p n Q E w :
  n <= off p -> Q (Ptr (base p) (off p - n)) w -> wp U (ptr_sub p n) Q E w.
Proof. intros Hn HQ. unfold ptr_sub. by rewrite decide_True. Qed.

Lemma wp_ptr_diff U p q Q E w :
  base p = base q -> off q <= off p -> Q (off p - off q) w ->
  wp U (ptr_diff p q) Q E w.
Proof. intros Hb Hq HQ. unfold ptr_diff. by rewrite decide_True. Qed.

(** A position that [int] holds is its own index. *)
Lemma to_int_small n : (Z.of_nat n <= INT_MAX)%Z -> to_int (Z.of_nat n) = Z.of_nat n.
Proof.
  unfold to_int, INT_MAX, UINT_MAX. intros Hn.
  rewrite Z.mod_small by lia. lia.
Qed.

(** A position between [2^31] and [2^32] has a negative index. *)
Lemma to_int_negative n :
  (INT_MAX < Z.of_nat n <= UINT_MAX)%Z -> (to_int (Z.of_nat n) < 0)%Z.
Proof.
  unfold to_int, INT_MAX, UINT_MAX. intros Hn.
  replace (Z.of_nat n + (2147483647 + 1))%Z
    with (Z.of_nat n - 2147483648 + 1 * (4294967295 + 1))%Z by lia.
  rewrite Z.mod_add by lia. rewrite Z.mod_small by lia. lia.
Qed.

Lemma wp_ptr_add_int U p n Q E w :
  Q (ptr_add p n) w -> wp U (ptr_add_int p (Z.of_nat n)) Q E w.
Proof.
  intros HQ. unfold ptr_add_int. rewrite decide_True by lia.
  apply wp_ret. by replace (Z.to_nat (Z.of_nat (off p) + Z.of_nat n)) with (off p + n) by lia.
Qed.

Lemma wp_ptr_add_int_any p i Q E w :
  ((0 <= Z.of_nat (off p) + i)%Z ->
   Q (Ptr (base p) (Z.to_nat (Z.of_nat (off p) + i))) w) ->
  wp True (ptr_add_int p i) Q E w.
Proof.
  intros HQ. unfold ptr_add_int. case_decide as Hi; [|done].
  by apply wp_ret, HQ.
Qed.

(** [*dst = T(args...)] after the temporary is built: the assignment, which
    destroys the temporary should it throw. *)
Lemma wp_assign_call_quiet U (d x : T) Q E w :
  (throws (log w) (MoveAssign d x) = true -> excused U E) ->
  Q tt (logged (MoveAssign d x) w) ->
  wp U (rethrow_after (call (MoveAssign d x)) (note (Dtor x))) Q E w.
Proof.
  intros Hq HQ. apply wp_rethrow_after.
  unfold wp, call. destruct (throws (log w) (MoveAssign d x)); [|done].
  destruct Hq as [_ HE]; [done|]. unfold note. apply HE.
Qed.

End Primitives.

(** ** Moving and self-assignment: the object store *)

Section Moves.
Context {T : Type} `{!Element T}.
Implicit Types (w : world T) (v : Vector) (blk : list (slot T)).

Lemma vector_at_new_object_old w v0 o v :
  vector_at w o = Some v ->
  vector_at (set_objs (fun l => l ++ [Some v0]) w) o = Some v.
Proof.
  rewrite !vector_at_Some. simpl. intros Ho.
  by rewrite lookup_app_l by (by eapply lookup_lt_Some).
Qed.

Lemma vector_at_new_object_new w v0 :
  vector_at (set_objs (fun l => l ++ [Some v0]) w) (length (objs w)) = Some v0.
Proof.
  apply vector_at_Some. simpl.
  by rewrite lookup_app_r, Nat.sub_diag by lia.
Qed.

Lemma holds_ext w w' this buf xs c :
  heap w' = heap w -> objs w' !! this = objs w !! this ->
  holds w this buf xs c -> holds w' this buf xs c.
Proof.
  intros Hh Ho [Hv Hb]. split; [by rewrite Ho|].
  destruct buf as [b|]; [|done]. unfold block_at in *. by rewrite Hh.
Qed.

Lemma holds_vector_at w this buf xs c :
  holds w this buf xs c ->
  vector_at w this =
    Some {| data_ := {| buffer_ := buf; capacity_ := c |}; size_ := length xs |}.
Proof. intros [Hv _]. by apply vector_at_Some. Qed.

Lemma holds_empty w this :
  vector_at w this = Some {| data_ := RawMemory_default; size_ := 0 |} ->
  holds w this None [] 0.
Proof. intros Hv. split; [by apply vector_at_Some|done]. Qed.

(** What [Vector(Vector &&other)] does to the object store. *)
Lemma Vector_move_run w src v :
  vector_at w src = Some v ->
  exists w',
    Vector_move src w = Ret w' (length (objs w)) /\
    heap w' = heap w /\ log w' = log w /\
    vector_at w' (length (objs w)) = Some v /\
    vector_at w' src = Some {| data_ := RawMemory_default; size_ := 0 |}.
Proof.
  intros Hv. pose proof (vector_at_lt _ _ _ Hv) as Hlt.
  assert (length (objs w) <> src) as Hne by lia.
  cut (wp False (Vector_move src)
         (fun a w' => a = length (objs w) /\ heap w' = heap w /\ log w' = log w /\
            vector_at w' (length (objs w)) = Some v /\
            vector_at w' src = Some {| data_ := RawMemory_default; size_ := 0 |})
         (fun _ => False) w).
  { intros (w' & a & Hrun & -> & Hrest)%wp_total. eauto. }
  unfold Vector_move, Vector_default, Swap.
  apply wp_bind, wp_new_object.
  set (this := length (objs w)) in *. set (w1 := set_objs _ w).
  assert (vector_at w1 this = Some {| data_ := RawMemory_default; size_ := 0 |})
    as H1 by apply vector_at_new_object_new.
  assert (vector_at w1 src = Some v) as H2 by by apply vector_at_new_object_old.
  pose proof (vector_at_lt _ _ _ H1) as Hl1.
  pose proof (vector_at_lt _ _ _ H2) as Hl2.
  apply wp_bind. apply wp_bind. eapply wp_load; [done|].
  apply wp_bind. eapply wp_load; [done|].
  apply wp_bind. eapply wp_set_data; [done|]. simpl.
  set (w2 := put_object this _ w1).
  apply wp_bind. eapply wp_set_data.
  { unfold w2. by rewrite vector_at_put_object_ne. }
  set (w3 := put_object src _ w2).
  assert (length (objs w3) = length (objs w1)) as Hl3
    by (unfold w3, w2; by rewrite !length_objs_put_object).
  assert (vector_at w3 src =
          Some {| data_ := RawMemory_default; size_ := size_ v |}) as H4.
  { unfold w3. rewrite vector_at_put_object_eq; [done|].
    unfold w2. by rewrite length_objs_put_object. }
  assert (vector_at w3 this = Some {| data_ := data_ v; size_ := 0 |}) as H5.
  { unfold w3. rewrite vector_at_put_object_ne by done.
    unfold w2. by rewrite vector_at_put_object_eq. }
  apply wp_bind. eapply wp_load; [done|].
  apply wp_bind. eapply wp_load; [done|].
  apply wp_bind. eapply wp_set_size; [done|]. simpl.
  set (w4 := put_object src _ w3).
  eapply wp_set_size.
  { unfold w4. by rewrite vector_at_put_object_ne. }
  simpl. apply wp_ret.
  split; [done|]. split; [done|]. split; [done|]. split.
  - rewrite vector_at_put_object_eq; [by destruct v|].
    unfold w4. rewrite length_objs_put_object. lia.
  - rewrite vector_at_put_object_ne by done.
    unfold w4. rewrite vector_at_put_object_eq; [done|]. lia.
Qed.

(** What [operator=(Vector &&rhs)] does to the object store: nothing is said
    or done about what [this] held. *)
Lemma assign_move_run w this rhs v0 v :
  this <> rhs -> vector_at w this = Some v0 -> vector_at w rhs = Some v ->
  exists w',
    assign_move this rhs w = Ret w' tt /\
    heap w' = heap w /\ log w' = log w /\
    vector_at w' this = Some v /\
    vector_at w' rhs = Some {| data_ := RawMemory_default; size_ := 0 |} /\
    forall o, o <> this -> o <> rhs -> vector_at w' o = vector_at w o.
Proof.
  intros Hne H1 H2.
  pose proof (vector_at_lt _ _ _ H1) as Hl1.
  pose proof (vector_at_lt _ _ _ H2) as Hl2.
  cut (wp False (assign_move this rhs)
         (fun _ w' => heap w' = heap w /\ log w' = log w /\
            vector_at w' this = Some v /\
            vector_at w' rhs = Some {| data_ := RawMemory_default; size_ := 0 |} /\
            forall o, o <> this -> o <> rhs -> vector_at w' o = vector_at w o)
         (fun _ => False) w).
  { intros (w' & [] & Hrun & Hrest)%wp_total. eauto. }
  unfold assign_move, RawMemory_assign_move.
  apply wp_bind. apply wp_bind. eapply wp_load; [done|].
  apply wp_bind. eapply wp_set_data; [done|]. simpl.
  set (w2 := put_object this _ w).
  eapply wp_set_data.
  { unfold w2. by rewrite vector_at_put_object_ne. }
  set (w3 := put_object rhs _ w2).
  assert (length (objs w3) = length (objs w)) as Hl3
    by (unfold w3, w2; by rewrite !length_objs_put_object).
  assert (vector_at w3 rhs =
          Some {| data_ := {| buffer_ := None; capacity_ := 0 |};
                  size_ := size_ v |}) as H4.
  { unfold w3. rewrite vector_at_put_object_eq; [done|].
    unfold w2. by rewrite length_objs_put_object. }
  apply wp_bind. eapply wp_load; [done|].
  apply wp_bind. eapply wp_set_size; [done|]. simpl.
  set (w4 := put_object rhs _ w3).
  eapply wp_set_size.
  { unfold w4, w3. rewrite !vector_at_put_object_ne by done.
    unfold w2. by rewrite vector_at_put_object_eq. }
  simpl. split; [done|]. split; [done|]. split; [|split].
  - rewrite vector_at_put_object_eq; [by destruct v as [[??]?]|].
    unfold w4. rewrite length_objs_put_object. lia.
  - rewrite vector_at_put_object_ne by done.
    unfold w4. rewrite vector_at_put_object_eq; [done|]. lia.
  - intros o Ho1 Ho2. rewrite vector_at_put_object_ne by done.
    unfold w4, w3, w2. by rewrite !vector_at_put_object_ne.
Qed.

End Moves.

Section MoveClaims.
Context {T : Type} `{!Element T}.
Implicit Types (w : world T) (v : Vector) (blk : list (slot T)).

Lemma holds_of_vector_at w w' this this' buf xs c :
  holds w this buf xs c -> heap w' = heap w ->
  vector_at w' this' = vector_at w this ->
  holds w' this' buf xs c.
Proof.
  intros [Hv Hb] Hh Ho. split.
  - apply vector_at_Some. rewrite Ho. by apply vector_at_Some.
  - destruct buf as [b|]; [|done]. unfold block_at in *. by rewrite Hh.
Qed.

(** C6 (as amended): move construction and move assignment from a valid
    vector [src] holding [xs] always return, leave the heap and the log of
    element calls as they were (no element is constructed, destroyed or
    touched), make the destination a valid vector holding [xs] in the buffer
    [src] had, with its capacity, and leave [src] with size 0, capacity 0 and
    no buffer. *)
Theorem move_transfers_buffer w src buf xs c :
  holds w src buf xs c ->
  (exists w',
     Vector_move src w = Ret w' (length (objs w)) /\
     heap w' = heap w /\ log w' = log w /\
     holds w' (length (objs w)) buf xs c /\
     holds w' src None [] 0) /\
  (forall dst, dst <> src -> is_Some (vector_at w dst) ->
     exists w',
       assign_move dst src w = Ret w' tt /\
       heap w' = heap w /\ log w' = log w /\
       holds w' dst buf xs c /\
       holds w' src None [] 0).
Proof.
  intros Hh. pose proof (holds_vector_at _ _ _ _ _ Hh) as Hv. split.
  - destruct (Vector_move_run w src _ Hv) as (w' & Hrun & Hheap & Hlog & H1 & H2).
    exists w'. split; [done|]. split; [done|]. split; [done|]. split.
    + eapply holds_of_vector_at; [done..|]. by rewrite H1, Hv.
    + by apply holds_empty.
  - intros dst Hne [v0 Hv0].
    destruct (assign_move_run w dst src v0 _ Hne Hv0 Hv)
      as (w' & Hrun & Hheap & Hlog & H1 & H2 & _).
    exists w'. split; [done|]. split; [done|]. split; [done|]. split.
    + eapply holds_of_vector_at; [done..|]. by rewrite H1, Hv.
    + by apply holds_empty.
Qed.

(** Move assignment forgets the buffer of its target: the block stays
    allocated with its objects, no destructor runs, and when [this] was the
    only owner no vector has the block afterwards. *)
Lemma assign_move_leaks w this rhs b xs c v :
  holds w this (Some b) xs c -> this <> rhs -> vector_at w rhs = Some v ->
  (forall o v', vector_at w o = Some v' -> buffer_ (data_ v') = Some b -> o = this) ->
  exists w',
    assign_move this rhs w = Ret w' tt /\
    block_at w' b = Some (map Obj xs ++ replicate (c - length xs) Raw) /\
    log w' = log w /\
    orphan w' b.
Proof.
  intros Hh Hne Hv Hown. pose proof (holds_vector_at _ _ _ _ _ Hh) as Hv0.
  destruct Hh as [_ [Hb _]].
  destruct (assign_move_run w this rhs _ _ Hne Hv0 Hv)
    as (w' & Hrun & Hheap & Hlog & H1 & H2 & H3).
  assert (block_at w' b = block_at w b) as Hb' by (unfold block_at; by rewrite Hheap).
  exists w'. split; [done|]. split; [by rewrite Hb'|]. split; [done|]. split.
  - rewrite Hb', Hb. eauto.
  - intros o v' Ho Hbuf.
    destruct (decide (o = this)) as [->|Ho1].
    { rewrite H1 in Ho. injection Ho as <-. by apply Hne; symmetry; apply (Hown rhs v). }
    destruct (decide (o = rhs)) as [->|Ho2].
    { rewrite H2 in Ho. by injection Ho as <-. }
    rewrite H3 in Ho by done. by apply Ho1, (Hown o v').
Qed.

(** C9: copy-assigning a vector to itself returns at once in the world it was
    called in: no element is copied, constructed or destroyed, and the
    elements, size and capacity are what they were. *)
Theorem assign_copy_self_noop w this : assign_copy this this w = Ret w tt.
Proof. unfold assign_copy. by rewrite decide_True. Qed.

End MoveClaims.

Section MoveExamples.
#[local] Existing Instance Int.

Lemma move_transfers_buffer_witness :
  holds two_vectors 1 (Some 1) [1; 2; 3] 3 /\
  (exists w',
     assign_move 0 1 two_vectors = Ret w' tt /\
     heap w' = heap two_vectors /\ log w' = log two_vectors /\
     holds w' 0 (Some 1) [1; 2; 3] 3 /\
     holds w' 1 None [] 0).
Proof.
  assert (holds two_vectors 1 (Some 1) [1; 2; 3] 3) as Hh by (by repeat split).
  split; [exact Hh|].
  apply (proj2 (move_transfers_buffer two_vectors 1 (Some 1) [1; 2; 3] 3 Hh) 0);
    [done|by eexists].
Defined.

(** C6, as stated, fails: the source of a move does not keep the capacity it
    had; here it had 3 and is left with 0, after a move assignment and after
    a move construction alike. *)
Lemma move_source_keeps_no_capacity :
  ~ (forall w', assign_move 0 1 two_vectors = Ret w' tt ->
                capacity_of w' 1 = capacity_of two_vectors 1) /\
  ~ (forall w' this, Vector_move 1 two_vectors = Ret w' this ->
                capacity_of w' 1 = capacity_of two_vectors 1).
Proof.
  split.
  - intros H. by specialize (H _ eq_refl).
  - intros H. by specialize (H _ _ eq_refl).
Qed.

(** C7 at [a = std::move(b)] with [a] holding [[7; 8]] and [b] holding
    [[1; 2; 3]]: the block of [a] is still allocated and still holds the
    objects 7 and 8, no destructor has been called, and no vector owns the
    block. *)
Theorem assign_move_abandons_target :
  exists w',
    assign_move 0 1 two_vectors = Ret w' tt /\
    block_at w' 0 = Some [Obj 7; Obj 8] /\
    log w' = [] /\
    orphan w' 0.
Proof.
  assert (holds two_vectors 0 (Some 0) [7; 8] 2) as Hh by (by repeat split).
  assert (forall o v', vector_at two_vectors o = Some v' ->
                       buffer_ (data_ v') = Some 0 -> o = 0) as Hown.
  { intros [|[|o]] v' Hv Hbuf; [done| |done]. by injection Hv as <-. }
  destruct (assign_move_leaks two_vectors 0 1 0 [7; 8] 2
              {| data_ := {| buffer_ := Some 1; capacity_ := 3 |}; size_ := 3 |}
              Hh ltac:(done) eq_refl Hown)
    as (w' & Hrun & Hb & Hlog & Ho).
  eauto.
Qed.

End MoveExamples.

(** ** Objects in slots *)

Section Slots.
Context {T : Type} `{!Element T}.
Implicit Types (w : world T) (v : Vector) (blk pre post : list (slot T)).

Lemma lookup_at_length {A} (l1 : list A) x l2 : (l1 ++ x :: l2) !! length l1 = Some x.
Proof. by apply list_lookup_middle. Qed.

Lemma insert_at_length {A} (l1 : list A) x y l2 :
  <[length l1 := y]> (l1 ++ x :: l2) = l1 ++ y :: l2.
Proof. by rewrite (insert_app_r_alt l1) by lia; rewrite Nat.sub_diag. Qed.

Lemma heap_insert_insert w w1 w2 b blk1 blk2 :
  heap w1 = <[b := Block blk1]> (heap w) ->
  heap w2 = <[b := Block blk2]> (heap w1) ->
  heap w2 = <[b := Block blk2]> (heap w).
Proof. intros -> ->. apply list_insert_insert_eq. Qed.

Lemma block_at_heap_eq w w' b blk :
  heap w' = <[b := Block blk]> (heap w) -> b < length (heap w) ->
  block_at w' b = Some blk.
Proof. intros Hh Hb. apply block_at_Some. rewrite Hh. by apply list_lookup_insert_eq. Qed.

Lemma block_at_heap_ne w w' b b' blk :
  heap w' = <[b := Block blk]> (heap w) -> b <> b' ->
  block_at w' b' = block_at w b'.
Proof. intros Hh Hb. unfold block_at. rewrite Hh. by rewrite list_lookup_insert_ne. Qed.

Lemma block_at_heap_cell_ne w w' b b' (c : cell T) :
  heap w' = <[b := c]> (heap w) -> b <> b' ->
  block_at w' b' = block_at w b'.
Proof. intros Hh Hb. unfold block_at. rewrite Hh. by rewrite list_lookup_insert_ne. Qed.

Lemma wp_destroy_at U p b blk x Q E w :
  base p = Some b -> block_at w b = Some blk -> blk !! off p = Some (Obj x) ->
  (forall w', heap w' = <[b := Block (<[off p := Raw]> blk)]> (heap w) ->
              objs w' = objs w -> log w' = Dtor x :: log w -> Q tt w') ->
  wp U (destroy_at p) Q E w.
Proof.
  intros Hp Hb Hx HQ. unfold destroy_at.
  apply wp_bind. eapply wp_read; [done..|].
  apply wp_bind. apply wp_note.
  eapply wp_write; [done|by rewrite block_at_logged|by eapply lookup_lt_Some|].
  by apply HQ.
Qed.

(** [*dst = std::move( *src )] between two slots of one block. *)
Lemma wp_move_assign_within U dst src b blk d s Q E w :
  base dst = Some b -> base src = Some b -> block_at w b = Some blk ->
  blk !! off dst = Some (Obj d) -> blk !! off src = Some (Obj s) ->
  quiet_move_assign U E ->
  (forall w',
     heap w' = <[b := Block (<[off dst := Obj s]>
                               (<[off src := Obj (moved_from s)]> blk))]> (heap w) ->
     objs w' = objs w -> Q tt w') ->
  wp U (move_assign dst src) Q E w.
Proof.
  intros Hd Hs Hb Hdv Hsv Hnt HQ. unfold move_assign.
  pose proof (block_at_lt _ _ _ Hb) as Hlt.
  apply wp_bind. eapply wp_read; [done..|].
  apply wp_bind. eapply wp_read; [done..|].
  apply wp_bind. apply wp_call_quiet; [apply Hnt|].
  apply wp_bind. eapply wp_write;
    [done|by rewrite block_at_logged|by eapply lookup_lt_Some|].
  eapply wp_write; [done|by apply block_at_put_block_eq| |].
  { rewrite length_insert. by eapply lookup_lt_Some. }
  apply HQ; [|done]. simpl. apply list_insert_insert_eq.
Qed.

(** [std::move(first, first + n, first - 1)]: the objects [ys] behind [x]
    move one slot down, over [x]. *)
Lemma wp_std_move_down U first dst b pre x ys post Q E w :
  base first = Some b -> base dst = Some b ->
  off dst = length pre -> off first = S (length pre) ->
  block_at w b = Some (pre ++ Obj x :: map Obj ys ++ post) ->
  quiet_move_assign U E ->
  (forall w',
     heap w' = <[b := Block (pre ++ map Obj ys ++ Obj (vacated x ys) :: post)]>
                 (heap w) ->
     objs w' = objs w -> Q tt w') ->
  wp U (std_move first (length ys) dst) Q E w.
Proof.
  intros Hf Hd Hod Hof Hb Hnt.
  revert first dst pre x w Q Hf Hd Hod Hof Hb.
  induction ys as [|y ys IH]; intros first dst pre x w Q Hf Hd Hod Hof Hb HQ.
  - simpl. apply wp_ret. apply HQ; [|done]. simpl.
    symmetry. apply list_insert_id. by apply block_at_Some.
  - simpl. pose proof (block_at_lt _ _ _ Hb) as Hlt.
    apply wp_bind.
    eapply (wp_move_assign_within _ dst first b _ x y); [done..| | |done|].
    { rewrite Hod. apply lookup_at_length. }
    { rewrite Hof. by rewrite (lookup_app_r pre), Nat.sub_succ_l, Nat.sub_diag by lia. }
    intros w1 Hh1 Ho1.
    assert (block_at w1 b =
            Some ((pre ++ [Obj y]) ++ Obj (moved_from y) :: map Obj ys ++ post))
      as Hb1.
    { eapply block_at_heap_eq; [|done]. rewrite Hh1. do 2 f_equal.
      rewrite Hod, Hof. rewrite <- (assoc_L (++)). simpl.
      rewrite (insert_app_r_alt pre) by lia.
      rewrite Nat.sub_succ_l, Nat.sub_diag by lia. simpl.
      by rewrite insert_at_length. }
    eapply (IH (ptr_add first 1) (ptr_add dst 1) (pre ++ [Obj y]) (moved_from y));
      [done|done|..|exact Hb1|].
    { simpl. rewrite length_app. simpl. lia. }
    { simpl. rewrite length_app. simpl. lia. }
    intros w2 Hh2 Ho2. apply HQ; [|congruence].
    rewrite (heap_insert_insert _ _ _ _ _ _ Hh1 Hh2). do 2 f_equal.
    rewrite <- (assoc_L (++)). simpl. do 3 f_equal.
    unfold vacated. rewrite last_cons. by destruct (last ys).
Qed.

End Slots.

(** ** [Erase] *)

Section Erase.
Context {T : Type} `{!Element T}.
Implicit Types (w : world T) (v : Vector) (blk pre post : list (slot T)).

Lemma wp_begin U this v Q E w :
  vector_at w this = Some v -> Q (GetAddress (data_ v)) w ->
  wp U (begin this) Q E w.
Proof. intros Hv HQ. apply wp_bind. eapply wp_load; [done|]. by apply wp_ret. Qed.

Lemma wp_end U this v Q E w :
  vector_at w this = Some v ->
  Q (ptr_add (GetAddress (data_ v)) (size_ v)) w ->
  wp U (end_ this) Q E w.
Proof. intros Hv HQ. apply wp_bind. eapply wp_load; [done|]. by apply wp_ret. Qed.

Lemma replicate_sub_S {A} (x : A) c n :
  n < c -> x :: replicate (c - S n) x = replicate (c - n) x.
Proof. intros Hlt. by replace (c - n) with (S (c - S n)) by lia. Qed.

(** [Erase] at a position [begin() + p] whose index, as [Erase] computes
    it, is that of [x] in a valid vector. *)
Lemma wp_Erase_blocks U w this b xs1 x xs2 c p Q E :
  holds w this (Some b) (xs1 ++ x :: xs2) c ->
  to_int (Z.of_nat p) = Z.of_nat (length xs1) ->
  quiet_move_assign U E ->
  (forall w',
     holds w' this (Some b) (xs1 ++ xs2) c ->
     (forall o, o <> this -> vector_at w' o = vector_at w o) ->
     (forall b', b' <> b -> block_at w' b' = block_at w b') ->
     (exists l, log w' = Dtor (vacated x xs2) :: l) ->
     length (heap w') = length (heap w) ->
     Q (Ptr (Some b) (length xs1)) w') ->
  wp U (Erase this (Ptr (Some b) p)) Q E w.
Proof.
  intros Hh Hp Hnt HQ.
  pose proof (holds_vector_at _ _ _ _ _ Hh) as Hv.
  destruct Hh as [_ [Hb Hle]].
  pose proof (block_at_lt _ _ _ Hb) as Hlt.
  pose proof (vector_at_lt _ _ _ Hv) as Hlo.
  rewrite length_app in Hle. simpl in Hle.
  unfold Erase.
  apply wp_bind. eapply wp_begin; [done|]. simpl.
  apply wp_bind. apply wp_ptr_diff; [done|simpl; lia|]. simpl.
  rewrite Nat.sub_0_r, Hp, Nat2Z.id.
  apply wp_bind. apply wp_ptr_add_int. simpl.
  apply wp_bind. eapply wp_end; [done|]. simpl.
  apply wp_bind. apply wp_ptr_diff; [done|simpl; rewrite length_app; simpl; lia|].
  simpl.
  replace (length (xs1 ++ x :: xs2) - (length xs1 + 1)) with (length xs2)
    by (rewrite length_app; simpl; lia).
  apply wp_bind.
  eapply (wp_std_move_down _ _ _ b (map Obj xs1) x xs2
            (replicate (c - length (xs1 ++ x :: xs2)) Raw));
    [done|done|by simpl; rewrite length_map|by simpl; rewrite length_map; lia| |done|].
  { rewrite Hb. by rewrite map_app, <- (assoc_L (++)). }
  intros w1 Hh1 Ho1.
  assert (vector_at w1 this = vector_at w this) as Hv1
    by (unfold vector_at; by rewrite Ho1).
  apply wp_bind. eapply wp_load; [by rewrite Hv1|].
  apply wp_bind. eapply wp_set_size; [by rewrite Hv1|]. simpl.
  set (w2 := put_object this _ w1).
  assert (vector_at w2 this =
          Some {| data_ := {| buffer_ := Some b; capacity_ := c |};
                  size_ := length (xs1 ++ xs2) |}) as Hv2.
  { unfold w2. rewrite vector_at_put_object_eq.
    - do 3 f_equal. rewrite !length_app. simpl. lia.
    - by rewrite Ho1. }
  assert (block_at w2 b =
          Some (map Obj xs1 ++ map Obj xs2 ++ Obj (vacated x xs2)
                  :: replicate (c - length (xs1 ++ x :: xs2)) Raw)) as Hb2
    by by eapply block_at_heap_eq.
  apply wp_bind. eapply wp_end; [done|]. simpl.
  apply wp_bind.
  eapply (wp_destroy_at _ _ b _ (vacated x xs2)); [done|done| |].
  { simpl. rewrite (assoc_L (++)), <- map_app.
    rewrite <- (length_map Obj (xs1 ++ xs2)). apply lookup_at_length. }
  intros w3 Hh3 Ho3 Hl3.
  pose proof (vector_at_objs_eq _ _ this Ho3) as Hv3. rewrite Hv2 in Hv3.
  apply wp_bind. eapply wp_begin; [done|].
  apply wp_ret. apply HQ.
  - split; [by apply vector_at_Some|].
    split; [|rewrite length_app; lia].
    eapply block_at_heap_eq; [|done].
    rewrite Hh3. simpl. rewrite Hh1, list_insert_insert_eq. do 2 f_equal.
    rewrite (assoc_L (++)), <- map_app.
    rewrite <- (length_map Obj (xs1 ++ xs2)) at 1.
    rewrite insert_at_length. f_equal.
    replace (c - length (xs1 ++ xs2)) with (S (c - length (xs1 ++ x :: xs2)))
      by (rewrite !length_app; simpl; lia).
    done.
  - intros o Ho. rewrite (vector_at_objs_eq _ _ o Ho3).
    unfold w2. rewrite vector_at_put_object_ne by done.
    by apply vector_at_objs_eq.
  - intros b' Hb'.
    rewrite (block_at_heap_ne _ _ _ _ _ Hh3) by done.
    change (block_at w2 b') with (block_at w1 b').
    by rewrite (block_at_heap_ne _ _ _ _ _ Hh1).
  - eauto.
  - rewrite Hh3. simpl. by rewrite length_insert, Hh1, length_insert.
Qed.

Lemma wp_Erase U w this b xs1 x xs2 c p Q E :
  holds w this (Some b) (xs1 ++ x :: xs2) c ->
  to_int (Z.of_nat p) = Z.of_nat (length xs1) ->
  quiet_move_assign U E ->
  (forall w',
     holds w' this (Some b) (xs1 ++ xs2) c ->
     (forall o, o <> this -> vector_at w' o = vector_at w o) ->
     (forall b', b' <> b -> block_at w' b' = block_at w b') ->
     (exists l, log w' = Dtor (vacated x xs2) :: l) ->
     Q (Ptr (Some b) (length xs1)) w') ->
  wp U (Erase this (Ptr (Some b) p)) Q E w.
Proof.
  intros Hh Hpos Hnt HQ.
  eapply wp_Erase_blocks; [done..|].
  intros w' Hh' Ho Hb Hl _. by apply HQ.
Qed.

End Erase.

(** ** What a valid vector shows *)

Section Valid.
Context {T : Type} `{!Element T}.
Implicit Types (w : world T) (v : Vector) (blk pre post : list (slot T)).

Lemma objects_map_Obj (xs : list T) : objects (map Obj xs) = Some xs.
Proof. induction xs as [|x xs IH]; [done|]. simpl. by rewrite IH. Qed.

Lemma holds_buffer w this buf xs c :
  holds w this buf xs c -> xs <> [] -> exists b, buf = Some b.
Proof. intros [_ Hb] Hxs. destruct buf as [b|]; [eauto|by destruct Hb]. Qed.

Lemma holds_size_of w this buf xs c :
  holds w this buf xs c -> size_of w this = Some (length xs).
Proof. intros Hh. unfold size_of. by rewrite (holds_vector_at _ _ _ _ _ Hh). Qed.

Lemma holds_capacity_of w this buf xs c :
  holds w this buf xs c -> capacity_of w this = Some c.
Proof. intros Hh. unfold capacity_of. by rewrite (holds_vector_at _ _ _ _ _ Hh). Qed.

Lemma holds_elements w this buf xs c :
  holds w this buf xs c -> elements w this = Some xs.
Proof.
  intros Hh. unfold elements. rewrite (holds_vector_at _ _ _ _ _ Hh).
  destruct Hh as [_ Hb]. unfold storage. simpl.
  destruct buf as [b|].
  - destruct Hb as [-> Hle]. rewrite decide_True.
    + rewrite take_app_length', objects_map_Obj; [done|by rewrite length_map].
    + rewrite length_app, length_map. lia.
  - by destruct Hb as [_ ->].
Qed.

Lemma holds_begin w this buf xs c :
  holds w this buf xs c -> begin this w = Ret w (Ptr buf 0).
Proof.
  intros [Hv _]. unfold begin, bind, load. by rewrite Hv.
Qed.

Lemma holds_end w this buf xs c :
  holds w this buf xs c -> end_ this w = Ret w (Ptr buf (length xs)).
Proof.
  intros [Hv _]. unfold end_, bind, load. by rewrite Hv.
Qed.

Lemma holds_read w this b xs c i x :
  holds w this (Some b) xs c -> xs !! i = Some x ->
  read (Ptr (Some b) i) w = Ret w x.
Proof.
  intros [_ [Hb _]] Hx. unfold read. simpl. rewrite Hb.
  rewrite lookup_app_l by (rewrite length_map; by eapply lookup_lt_Some).
  by rewrite list_lookup_fmap, Hx.
Qed.

Lemma holds_raw w this b xs c i :
  holds w this (Some b) xs c -> length xs <= i < c ->
  exists blk, block_at w b = Some blk /\ blk !! i = Some Raw.
Proof.
  intros [_ [Hb _]] Hi. eexists. split; [done|].
  rewrite lookup_app_r by (rewrite length_map; lia).
  rewrite length_map. apply lookup_replicate_2. lia.
Qed.

End Valid.

Section EraseClaims.
Context {T : Type} `{!Element T}.
Implicit Types (w : world T) (v : Vector) (blk pre post : list (slot T)).

(** [Erase] at a position [begin() + p] whose index, as [Erase] computes it,
    is [q], in terms of the elements before and behind [q]. *)
Lemma Erase_run w this buf xs c p q :
  holds w this buf xs c -> q < length xs ->
  to_int (Z.of_nat p) = Z.of_nat q -> nothrow_move_assign ->
  exists b x w',
    buf = Some b /\ xs !! q = Some x /\
    Erase this (Ptr buf p) w = Ret w' (Ptr buf q) /\
    holds w' this buf (take q xs ++ drop (S q) xs) c /\
    exists l, log w' = Dtor (vacated x (drop (S q) xs)) :: l.
Proof.
  intros Hh Hq Hp Hnt.
  destruct (lookup_lt_is_Some_2 xs q Hq) as [x Hx].
  destruct (holds_buffer _ _ _ _ _ Hh) as [b ->]; [by intros ->|].
  pose proof (take_drop_middle xs q x Hx) as Hxs.
  assert (length (take q xs) = q) as Hlen by (rewrite length_take; lia).
  rewrite <- Hxs in Hh.
  cut (wp False (Erase this (Ptr (Some b) p))
         (fun it w' => it = Ptr (Some b) q /\
            holds w' this (Some b) (take q xs ++ drop (S q) xs) c /\
            exists l, log w' = Dtor (vacated x (drop (S q) xs)) :: l)
         (fun _ => False) w).
  { intros (w' & it & Hrun & -> & Hh' & Hl)%wp_total. exists b, x, w'. eauto. }
  eapply wp_Erase;
    [exact Hh|by rewrite Hlen|by apply nothrow_quiet_move_assign|].
  rewrite Hlen. intros w' Hh' _ _ Hl. eauto.
Qed.

(** C4: [Erase] keeps [pos - begin()] in an [int].  At a valid position
    [p] of a vector with more than [2^31] elements, [2^31 <= p < 2^32], the
    index is negative and [begin() + pos_index] leaves the buffer: the
    behaviour is undefined, where the element at [p] was to be removed. *)
Theorem Erase_beyond_int w this buf xs c p :
  holds w this buf xs c -> p < length xs ->
  (INT_MAX < Z.of_nat p <= UINT_MAX)%Z ->
  Erase this (Ptr buf p) w = UB.
Proof.
  intros Hh Hp Hrange.
  pose proof (holds_vector_at _ _ _ _ _ Hh) as Hv.
  cut (wp True (Erase this (Ptr buf p)) (fun _ _ => False) (fun _ => False) w).
  { unfold wp. by destruct (Erase this (Ptr buf p) w). }
  unfold Erase.
  apply wp_bind. eapply wp_begin; [done|]. cbn [data_ GetAddress].
  apply wp_bind. apply wp_ptr_diff; [done|cbn; lia|]. cbn [off].
  rewrite Nat.sub_0_r.
  apply wp_bind. unfold ptr_add_int, GetAddress. cbn [off].
  rewrite decide_False; [done|].
  pose proof (to_int_negative p Hrange). lia.
Qed.

(** C10: at a valid position [p] that [int] does not hold and whose index
    wraps to [q >= 0], [Erase] removes the element at [q] and returns
    [begin() + q], which is not the position [p] it was given. *)
Theorem Erase_wrapped_position w this buf xs c p q :
  holds w this buf xs c -> p < length xs -> q <> p ->
  to_int (Z.of_nat p) = Z.of_nat q -> nothrow_move_assign ->
  exists w' it,
    Erase this (Ptr buf p) w = Ret w' it /\
    it = Ptr buf q /\ it <> Ptr buf p /\
    holds w' this buf (take q xs ++ drop (S q) xs) c.
Proof.
  intros Hh Hp Hne Hq Hnt.
  assert (q < length xs) as Hlt.
  { assert (Z.of_nat q < Z.of_nat p)%Z; [|lia].
    rewrite <- Hq. unfold to_int, INT_MAX, UINT_MAX.
    assert (to_int (Z.of_nat p) <= Z.of_nat p)%Z as Hle.
    { unfold to_int, INT_MAX, UINT_MAX.
      pose proof (Z.mod_le (Z.of_nat p + (2147483647 + 1)) (4294967295 + 1)).
      lia. }
    unfold to_int, INT_MAX, UINT_MAX in Hle, Hq. lia. }
  destruct (Erase_run w this buf xs c p q Hh Hlt Hq Hnt)
    as (b & x & w' & -> & Hx & Hrun & Hh' & _).
  exists w', (Ptr (Some b) q). split; [done|]. split; [done|].
  split; [|done]. by intros [= ?].
Qed.

(** X30: [Erase] at a valid position [p] that [int] holds, of a vector of
    size [s >= 1] of an element type whose move assignment does not throw:
    the call returns [begin() + p]; the vector is valid with size [s - 1]
    and its capacity; the elements before [p] are unchanged and those
    previously at [[p + 1, s)] are at [[p, s - 1)] in the same order; the
    last call is the destructor of the object left in slot [s - 1], which is
    raw storage again; the iterator returned designates the element that
    followed the erased one and is [end()] when the last one was erased. *)
Theorem Erase_removes w this buf xs c p :
  holds w this buf xs c -> p < length xs -> (Z.of_nat p <= INT_MAX)%Z ->
  nothrow_move_assign ->
  exists w' it ys,
    Erase this (Ptr buf p) w = Ret w' it /\
    holds w' this buf ys c /\
    size_of w' this = Some (length xs - 1) /\
    elements w' this = Some ys /\
    (forall i, i < p -> ys !! i = xs !! i) /\
    (forall i, p <= i -> ys !! i = xs !! S i) /\
    (exists y l, log w' = Dtor y :: l) /\
    (forall b, buf = Some b ->
       exists blk, block_at w' b = Some blk /\ blk !! (length xs - 1) = Some Raw) /\
    (exists first, begin this w' = Ret w' first /\ it = ptr_add first p) /\
    match xs !! S p with
    | Some y => read it w' = Ret w' y
    | None => end_ this w' = Ret w' it
    end.
Proof.
  intros Hh Hp Hint Hnt.
  destruct (Erase_run w this buf xs c p p Hh Hp (to_int_small p Hint) Hnt)
    as (b & x & w' & -> & Hx & Hrun & Hh' & l & Hl).
  assert (length (take p xs ++ drop (S p) xs) = length xs - 1) as Hlen.
  { rewrite length_app, length_take, length_drop. lia. }
  assert (length xs <= c) as Hc by (by destruct Hh as [_ [_ ?]]).
  exists w', (Ptr (Some b) p), (take p xs ++ drop (S p) xs).
  split; [done|]. split; [done|].
  split; [by rewrite (holds_size_of _ _ _ _ _ Hh'), Hlen|].
  split; [by eapply holds_elements|].
  split; [|split; [|split; [|split; [|split]]]].
  - intros i Hi. rewrite lookup_app_l by (rewrite length_take; lia).
    by apply lookup_take_lt.
  - intros i Hi. rewrite lookup_app_r by (rewrite length_take; lia).
    rewrite length_take, lookup_drop. f_equal. lia.
  - eauto.
  - intros ? [= <-]. eapply holds_raw; [done|]. rewrite Hlen. lia.
  - exists (Ptr (Some b) 0). split; [by eapply holds_begin|done].
  - destruct (xs !! S p) as [y|] eqn:Hy.
    + eapply holds_read; [done|].
      rewrite lookup_app_r by (rewrite length_take; lia).
      rewrite length_take, lookup_drop.
      by replace (S p + (p - p `min` length xs)) with (S p) by lia.
    + rewrite (holds_end _ _ _ _ _ Hh'). do 2 f_equal.
      apply lookup_ge_None in Hy.
      rewrite length_app, length_take, length_drop. lia.
Qed.

End EraseClaims.

Section EraseExamples.
#[local] Existing Instance Int.

(** Numbers of elements for which [int] is too narrow: [2^31] and [2^32]. *)
Definition beyond_int : nat := Z.to_nat (INT_MAX + 1).
Definition beyond_unsigned : nat := Z.to_nat (UINT_MAX + 1).

(** Object 0 holds [xs] in a block of as many slots. *)
Definition full_vector (xs : list nat) : world nat :=
  World [Block (map Obj xs)]
        [Some {| data_ := {| buffer_ := Some 0; capacity_ := length xs |};
                 size_ := length xs |}]
        [].

Lemma holds_full_vector xs : holds (full_vector xs) 0 (Some 0) xs (length xs).
Proof.
  split; [done|]. split; [|done].
  unfold block_at, full_vector. simpl.
  by rewrite Nat.sub_diag, app_nil_r.
Qed.

(** [Vector<int> v(2147483649); v.Erase(v.begin() + 2147483648)] *)
Lemma Erase_beyond_int_witness :
  Erase 0 (Ptr (Some 0) beyond_int)
    (full_vector (replicate (S beyond_int) 0)) = UB.
Proof.
  assert (Z.of_nat beyond_int = INT_MAX + 1)%Z as Hn
    by (unfold beyond_int, INT_MAX; lia).
  apply (Erase_beyond_int _ 0 (Some 0) (replicate (S beyond_int) 0)
           (length (replicate (S beyond_int) 0))).
  - apply holds_full_vector.
  - rewrite length_replicate. lia.
  - rewrite Hn. unfold INT_MAX, UINT_MAX. lia.
Defined.

(** [Vector<int> v(4294967297); v[0] = 5; v.Erase(v.begin() + 4294967296)]:
    the element 5 at index 0 is removed and [begin()] returned. *)
Lemma Erase_wrapped_position_witness :
  exists w' it,
    Erase 0 (Ptr (Some 0) beyond_unsigned)
      (full_vector (5 :: replicate beyond_unsigned 0)) = Ret w' it /\
    it = Ptr (Some 0) 0 /\ it <> Ptr (Some 0) beyond_unsigned /\
    holds w' 0 (Some 0)
      (take 0 (5 :: replicate beyond_unsigned 0) ++
       drop 1 (5 :: replicate beyond_unsigned 0))
      (length (5 :: replicate beyond_unsigned 0)).
Proof.
  assert (Z.of_nat beyond_unsigned = UINT_MAX + 1)%Z as Hn
    by (unfold beyond_unsigned, UINT_MAX; lia).
  apply (Erase_wrapped_position _ 0 (Some 0)
           (5 :: replicate beyond_unsigned 0)
           (length (5 :: replicate beyond_unsigned 0))
           beyond_unsigned 0).
  - apply holds_full_vector.
  - rewrite length_cons, length_replicate. lia.
  - unfold UINT_MAX in Hn. lia.
  - rewrite Hn. reflexivity.
  - by intros h d s.
Defined.

Lemma Erase_removes_witness :
  exists w' it ys,
    Erase 0 (Ptr (Some 0) 1) three_of_four = Ret w' it /\
    holds w' 0 (Some 0) ys 4 /\
    size_of w' 0 = Some 2 /\
    elements w' 0 = Some ys /\
    (forall i, i < 1 -> ys !! i = [1; 2; 3] !! i) /\
    (forall i, 1 <= i -> ys !! i = [1; 2; 3] !! S i) /\
    (exists y l, log w' = Dtor y :: l) /\
    (forall b, Some 0 = Some b ->
       exists blk, block_at w' b = Some blk /\ blk !! 2 = Some Raw) /\
    (exists first, begin 0 w' = Ret w' first /\ it = ptr_add first 1) /\
    read it w' = Ret w' 3.
Proof.
  apply (Erase_removes three_of_four 0 (Some 0) [1; 2; 3] 4 1).
  - split; [reflexivity|split; [reflexivity|simpl; lia]].
  - simpl. lia.
  - unfold INT_MAX. simpl. lia.
  - by intros h d s.
Defined.

End EraseExamples.

(** ** Construction in raw storage *)

Section Construction.
Context {T : Type} `{!Element T}.
Implicit Types (w : world T) (v : Vector) (blk pre post : list (slot T)).

Lemma peek_Some w r x :
  peek w r = Some x <->
  exists b blk, base r = Some b /\ block_at w b = Some blk /\
                blk !! off r = Some (Obj x).
Proof.
  unfold peek. split.
  - destruct (base r) as [b|]; [|done].
    destruct (block_at w b) as [blk|] eqn:Hblk; [|done].
    destruct (blk !! off r) as [[|y]|] eqn:Hy; try done.
    intros [= ->]. eauto.
  - intros (b & blk & -> & -> & ->). done.
Qed.

Lemma peek_read w r x : peek w r = Some x -> read r w = Ret w x.
Proof.
  intros (b & blk & Hb & Hblk & Hx)%peek_Some. unfold read.
  by rewrite Hb, Hblk, Hx.
Qed.

Lemma peek_same_block w w' r :
  (forall b, base r = Some b -> block_at w' b = block_at w b) ->
  peek w' r = peek w r.
Proof.
  intros Hsame. unfold peek. destruct (base r) as [b|]; [|done].
  by rewrite Hsame.
Qed.

Lemma nothrow_quiet_init U E a : nothrow_init a -> quiet_init U E a.
Proof.
  destruct a; simpl.
  - apply nothrow_quiet_args_ctor.
  - apply nothrow_quiet_copy_ctor.
  - apply nothrow_quiet_move_ctor.
Qed.

(** Running a constructor: the value built is the one the arguments
    denote, and only the block moved from is modified. *)
Lemma wp_construct U a x Q E w :
  init_value w a = Some x -> quiet_init U E a ->
  (forall w',
     objs w' = objs w -> length (heap w') = length (heap w) ->
     (forall b, init_moves_from a <> Some b -> block_at w' b = block_at w b) ->
     (forall b blk, init_moves_from a = Some b -> block_at w b = Some blk ->
        exists blk', block_at w' b = Some blk' /\ length blk' = length blk) ->
     Q x w') ->
  wp U (construct a) Q E w.
Proof.
  intros Hx Hq HQ. destruct a as [v|r|r]; simpl in *.
  - injection Hx as ->. apply wp_bind. apply wp_call_quiet; [apply Hq|].
    apply wp_ret. by apply HQ.
  - apply peek_Some in Hx as (b & blk & Hb & Hblk & Hx).
    apply wp_bind. eapply wp_read; [done..|].
    apply wp_bind. apply wp_call_quiet; [apply Hq|].
    apply wp_ret. by apply HQ.
  - apply peek_Some in Hx as (b & blk & Hb & Hblk & Hx).
    pose proof (block_at_lt _ _ _ Hblk) as Hlt.
    apply wp_bind. eapply wp_read; [done..|].
    apply wp_bind. apply wp_call_quiet; [apply Hq|].
    apply wp_bind. eapply wp_write;
      [done|by rewrite block_at_logged|by eapply lookup_lt_Some|].
    apply wp_ret. apply HQ; [done|by rewrite length_heap_put_block|..].
    + intros b' Hb'. rewrite block_at_put_block_ne; [done|congruence].
    + intros b' blk' Hb' Hblk'. assert (b' = b) as -> by congruence.
      exists (<[off r := Obj (moved_from x)]> blk).
      rewrite block_at_put_block_eq by done.
      assert (blk' = blk) as -> by congruence.
      by rewrite length_insert.
Qed.

(** [new (p) T(args...)] when the arguments do not refer into the block of
    [p]. *)
Lemma wp_placement_new U p a b blk x Q E w :
  base p = Some b -> block_at w b = Some blk -> off p < length blk ->
  init_value w a = Some x -> init_moves_from a <> Some b -> quiet_init U E a ->
  (forall w',
     objs w' = objs w -> length (heap w') = length (heap w) ->
     block_at w' b = Some (<[off p := Obj x]> blk) ->
     (forall b', b' <> b -> init_moves_from a <> Some b' ->
        block_at w' b' = block_at w b') ->
     (forall b' blk', init_moves_from a = Some b' -> block_at w b' = Some blk' ->
        exists blk'', block_at w' b' = Some blk'' /\ length blk'' = length blk') ->
     Q tt w') ->
  wp U (placement_new p a) Q E w.
Proof.
  intros Hp Hb Hlt Hx Hout Hq HQ. unfold placement_new.
  apply wp_bind. eapply wp_construct; [done..|].
  intros w1 Ho1 Hl1 Hsame Hmoved.
  assert (block_at w1 b = Some blk) as Hb1 by (by rewrite Hsame).
  pose proof (block_at_lt _ _ _ Hb1) as Hlt1.
  eapply wp_write; [done..|].
  apply HQ; [done|by rewrite length_heap_put_block|
             by apply block_at_put_block_eq|..].
  - intros b' Hb' Hm. rewrite block_at_put_block_ne by done. by apply Hsame.
  - intros b' blk' Hm Hblk'. rewrite block_at_put_block_ne by congruence.
    by eapply Hmoved.
Qed.

(** [std::destroy_n] over the objects [xs]. *)
Lemma wp_destroy_n U p b pre xs post Q E w :
  base p = Some b -> off p = length pre ->
  block_at w b = Some (pre ++ map Obj xs ++ post) ->
  (forall w',
     heap w' = <[b := Block (pre ++ replicate (length xs) Raw ++ post)]> (heap w) ->
     objs w' = objs w -> Q tt w') ->
  wp U (destroy_n p (length xs)) Q E w.
Proof.
  revert p pre w Q.
  induction xs as [|x xs IH]; intros p pre w Q Hp Hoff Hb HQ.
  - simpl. apply wp_ret. apply HQ; [|done]. simpl.
    symmetry. apply list_insert_id. by apply block_at_Some.
  - simpl. pose proof (block_at_lt _ _ _ Hb) as Hlt.
    apply wp_bind. eapply wp_destroy_at; [done|done| |].
    { rewrite Hoff. apply lookup_at_length. }
    intros w1 Hh1 Ho1 _.
    eapply (IH (ptr_add p 1) (pre ++ [Raw])); [done| | |].
    { simpl. rewrite length_app. simpl. lia. }
    { eapply block_at_heap_eq; [|done]. rewrite Hh1. do 2 f_equal.
      rewrite Hoff. simpl. rewrite insert_at_length.
      by rewrite <- (assoc_L (++)). }
    intros w2 Hh2 Ho2. apply HQ; [|congruence].
    rewrite (heap_insert_insert _ _ _ _ _ _ Hh1 Hh2).
    by rewrite <- (assoc_L (++)).
Qed.

Lemma wp_destroy_n_len U p n b pre xs post Q E w :
  n = length xs -> base p = Some b -> off p = length pre ->
  block_at w b = Some (pre ++ map Obj xs ++ post) ->
  (forall w',
     heap w' = <[b := Block (pre ++ replicate n Raw ++ post)]> (heap w) ->
     objs w' = objs w -> Q tt w') ->
  wp U (destroy_n p n) Q E w.
Proof. intros ->. apply wp_destroy_n. Qed.

End Construction.

(** ** Transfers between two blocks *)

Section Transfers.
Context {T : Type} `{!Element T}.
Implicit Types (w : world T) (v : Vector) (blk pre post : list (slot T)).

Lemma excused_cleanup {A} U (m : M T A) E :
  excused U E -> excused U (fun w' => wp U m (fun _ => E) E w').
Proof.
  intros Hex. split; [apply Hex|]. intros w.
  apply wp_excused; [done|]. intros _ w'. apply Hex.
Qed.

Lemma heap_insert_insert2 w w1 w2 b c blk1 blk2 blk1' blk2' :
  b <> c ->
  heap w1 = <[b := Block blk1]> (<[c := Block blk2]> (heap w)) ->
  heap w2 = <[b := Block blk1']> (<[c := Block blk2']> (heap w1)) ->
  heap w2 = <[b := Block blk1']> (<[c := Block blk2']> (heap w)).
Proof.
  intros Hne -> ->.
  rewrite (list_insert_insert_ne _ c b) by done.
  by rewrite !list_insert_insert_eq.
Qed.

(** [new (p) T(r)] for a [const T &r]. *)
Lemma wp_copy_construct U p r bd bs blkd blks x Q E w :
  base p = Some bd -> base r = Some bs ->
  block_at w bs = Some blks -> blks !! off r = Some (Obj x) ->
  block_at w bd = Some blkd -> off p < length blkd ->
  quiet_copy_ctor U E ->
  (forall w',
     heap w' = <[bd := Block (<[off p := Obj x]> blkd)]> (heap w) ->
     objs w' = objs w -> Q tt w') ->
  wp U (placement_new p (FromCopy r)) Q E w.
Proof.
  intros Hp Hr Hbs Hx Hbd Hlt Hq HQ. unfold placement_new, construct.
  apply wp_bind. apply wp_bind. eapply wp_read; [done..|].
  apply wp_bind. apply wp_call_quiet; [apply Hq|]. apply wp_ret.
  eapply wp_write; [done|by rewrite block_at_logged|done|]. by apply HQ.
Qed.

(** [new (p) T(std::move(r))] from another block. *)
Lemma wp_move_construct U p r bd bs blkd blks x Q E w :
  base p = Some bd -> base r = Some bs -> bs <> bd ->
  block_at w bs = Some blks -> blks !! off r = Some (Obj x) ->
  block_at w bd = Some blkd -> off p < length blkd ->
  quiet_move_ctor U E ->
  (forall w',
     heap w' = <[bd := Block (<[off p := Obj x]> blkd)]>
                 (<[bs := Block (<[off r := Obj (moved_from x)]> blks)]> (heap w)) ->
     objs w' = objs w -> Q tt w') ->
  wp U (placement_new p (FromMove r)) Q E w.
Proof.
  intros Hp Hr Hne Hbs Hx Hbd Hlt Hq HQ. unfold placement_new, construct.
  apply wp_bind. apply wp_bind. eapply wp_read; [done..|].
  apply wp_bind. apply wp_call_quiet; [apply Hq|].
  apply wp_bind. eapply wp_write;
    [done|by rewrite block_at_logged|by eapply lookup_lt_Some|].
  apply wp_ret.
  eapply wp_write; [done| |done|by apply HQ].
  by rewrite block_at_put_block_ne.
Qed.

(** [std::uninitialized_copy_n], from the copy number [i] on. *)
Lemma wp_uninitialized_copy_from U src dst bs bd i ps xs qs pd hole qd Q E w :
  base src = Some bs -> base dst = Some bd -> bs <> bd ->
  off src + i = length ps -> off dst + i = length pd ->
  block_at w bs = Some (ps ++ map Obj xs ++ qs) ->
  block_at w bd = Some (pd ++ hole ++ qd) -> length hole = length xs ->
  quiet_copy_ctor U E ->
  (forall w',
     heap w' = <[bd := Block (pd ++ map Obj xs ++ qd)]> (heap w) ->
     objs w' = objs w -> Q tt w') ->
  wp U (uninitialized_n
          (fun i => placement_new (ptr_add dst i) (FromCopy (ptr_add src i)))
          dst i (length xs)) Q E w.
Proof.
  intros Hs Hd Hne. revert i ps pd hole w Q.
  induction xs as [|x xs IH]; intros i ps pd hole w Q Hos Hod Hbs Hbd Hlen Hq HQ.
  - destruct hole; [|done]. simpl. apply wp_ret. apply HQ; [|done].
    symmetry. apply list_insert_id. by apply block_at_Some.
  - destruct hole as [|h0 hole]; [done|]. simpl in Hlen. simpl.
    pose proof (block_at_lt _ _ _ Hbd) as Hlt.
    apply wp_bind. apply wp_rethrow_after.
    eapply (wp_copy_construct _ _ _ bd bs); [done|done|exact Hbs| |exact Hbd| | |].
    { simpl. rewrite Hos. apply lookup_at_length. }
    { simpl. rewrite Hod, length_app. simpl. lia. }
    { intros h y Hy. by apply excused_cleanup, (Hq h y). }
    intros w1 Hh1 Ho1.
    eapply (IH (S i) (ps ++ [Obj x]) (pd ++ [Obj x]) hole).
    + rewrite length_app. simpl. lia.
    + rewrite length_app. simpl. lia.
    + rewrite (block_at_heap_ne _ _ _ _ _ Hh1) by done.
      by rewrite <- (assoc_L (++)).
    + eapply block_at_heap_eq; [|done]. rewrite Hh1. do 2 f_equal.
      simpl. rewrite Hod, insert_at_length. by rewrite <- (assoc_L (++)).
    + lia.
    + done.
    + intros w2 Hh2 Ho2. apply HQ; [|congruence].
      rewrite (heap_insert_insert _ _ _ _ _ _ Hh1 Hh2).
      by rewrite <- (assoc_L (++)).
Qed.

(** [std::uninitialized_move_n], from the move number [i] on. *)
Lemma wp_uninitialized_move_from U src dst bs bd i ps xs qs pd hole qd Q E w :
  base src = Some bs -> base dst = Some bd -> bs <> bd ->
  off src + i = length ps -> off dst + i = length pd ->
  block_at w bs = Some (ps ++ map Obj xs ++ qs) ->
  block_at w bd = Some (pd ++ hole ++ qd) -> length hole = length xs ->
  quiet_move_ctor U E ->
  (forall w',
     heap w' = <[bd := Block (pd ++ map Obj xs ++ qd)]>
                 (<[bs := Block (ps ++ map Obj (map moved_from xs) ++ qs)]> (heap w)) ->
     objs w' = objs w -> Q tt w') ->
  wp U (uninitialized_n
          (fun i => placement_new (ptr_add dst i) (FromMove (ptr_add src i)))
          dst i (length xs)) Q E w.
Proof.
  intros Hs Hd Hne. revert i ps pd hole w Q.
  induction xs as [|x xs IH]; intros i ps pd hole w Q Hos Hod Hbs Hbd Hlen Hq HQ.
  - destruct hole; [|done]. simpl. apply wp_ret. apply HQ; [|done].
    apply block_at_Some in Hbs, Hbd. simpl in *.
    by rewrite (list_insert_id _ bs), (list_insert_id _ bd).
  - destruct hole as [|h0 hole]; [done|]. simpl in Hlen. simpl.
    pose proof (block_at_lt _ _ _ Hbd) as Hlt.
    pose proof (block_at_lt _ _ _ Hbs) as Hlts.
    apply wp_bind. apply wp_rethrow_after.
    eapply (wp_move_construct _ _ _ bd bs);
      [done|done|done|exact Hbs| |exact Hbd| | |].
    { simpl. rewrite Hos. apply lookup_at_length. }
    { simpl. rewrite Hod, length_app. simpl. lia. }
    { intros h y Hy. by apply excused_cleanup, (Hq h y). }
    intros w1 Hh1 Ho1. simpl in Hh1.
    rewrite Hos, Hod, !insert_at_length in Hh1.
    eapply (IH (S i) (ps ++ [Obj (moved_from x)]) (pd ++ [Obj x]) hole).
    + rewrite length_app. simpl. lia.
    + rewrite length_app. simpl. lia.
    + apply block_at_Some. rewrite Hh1.
      rewrite list_lookup_insert_ne by done.
      rewrite list_lookup_insert_eq by done.
      by rewrite <- (assoc_L (++)).
    + apply block_at_Some. rewrite Hh1.
      rewrite list_lookup_insert_eq by (by rewrite length_insert).
      by rewrite <- (assoc_L (++)).
    + lia.
    + done.
    + intros w2 Hh2 Ho2. apply HQ; [|congruence].
      rewrite (heap_insert_insert2 _ _ _ _ _ _ _ _ _ (not_eq_sym Hne) Hh1 Hh2).
      by rewrite <- !(assoc_L (++)).
Qed.

End Transfers.

(** ** Growth *)

Section Growth.
Context {T : Type} `{!Element T}.
Implicit Types (w : world T) (v : Vector) (blk pre post : list (slot T)).

Lemma wp_RawMemory_new U n Q E w :
  0 < n ->
  (forall w',
     heap w' = heap w ++ [Block (replicate n Raw)] -> objs w' = objs w ->
     log w' = log w ->
     Q {| buffer_ := Some (length (heap w)); capacity_ := n |} w') ->
  wp U (RawMemory_new n) Q E w.
Proof.
  intros Hn HQ. unfold RawMemory_new. apply wp_bind.
  unfold wp at 1, Allocate. rewrite decide_False by lia.
  apply wp_ret. by apply HQ.
Qed.

Lemma wp_Deallocate U b blk Q E w :
  block_at w b = Some blk ->
  (forall w', heap w' = <[b := Freed]> (heap w) -> objs w' = objs w ->
              log w' = log w -> Q tt w') ->
  wp U (Deallocate (Some b)) Q E w.
Proof. intros Hb HQ. unfold wp, Deallocate. rewrite Hb. by apply HQ. Qed.

Lemma block_at_alloc_old w w' c b :
  heap w' = heap w ++ [c] -> b < length (heap w) -> block_at w' b = block_at w b.
Proof. intros Hh Hb. unfold block_at. by rewrite Hh, lookup_app_l. Qed.

Lemma block_at_alloc_new w w' blk :
  heap w' = heap w ++ [Block blk] -> block_at w' (length (heap w)) = Some blk.
Proof.
  intros Hh. apply block_at_Some.
  by rewrite Hh, lookup_app_r, Nat.sub_diag by lia.
Qed.

Lemma peek_lt w r x : peek w r = Some x -> exists b, base r = Some b /\ b < length (heap w).
Proof.
  intros (b & blk & Hb & Hblk & _)%peek_Some. exists b. split; [done|].
  by eapply block_at_lt.
Qed.

Lemma init_value_same w w' a :
  (forall b, b < length (heap w) -> block_at w' b = block_at w b) ->
  is_Some (init_value w a) -> init_value w' a = init_value w a.
Proof.
  intros Hsame [x Hx]. destruct a as [v|r|r]; [done|..]; simpl in *.
  - destruct (peek_lt _ _ _ Hx) as (b & Hb & Hlt).
    apply peek_same_block. intros b' Hb'. apply Hsame. congruence.
  - destruct (peek_lt _ _ _ Hx) as (b & Hb & Hlt).
    apply peek_same_block. intros b' Hb'. apply Hsame. congruence.
Qed.

Lemma init_moves_from_lt w a x b :
  init_value w a = Some x -> init_moves_from a = Some b -> b < length (heap w).
Proof.
  destruct a as [v|r|r]; simpl; [done..|]. intros Hx Hb.
  destruct (peek_lt _ _ _ Hx) as (b' & Hb' & Hlt). congruence.
Qed.

(** [CopyOrMove] into the first slots of a fresh block: the elements arrive
    there, and the old block holds as many objects as before. *)
Lemma wp_CopyOrMove U this b c xs post nb g hole tail Q E w :
  vector_at w this =
    Some {| data_ := {| buffer_ := Some b; capacity_ := c |}; size_ := length xs |} ->
  block_at w b = Some (map Obj xs ++ post) ->
  nb <> b -> block_at w nb = Some (hole ++ tail) -> length hole = length xs ->
  quiet_transfer U E ->
  (forall w' ys,
     length ys = length xs ->
     block_at w' b = Some (map Obj ys ++ post) ->
     block_at w' nb = Some (map Obj xs ++ tail) ->
     objs w' = objs w -> length (heap w') = length (heap w) ->
     (forall b', b' <> b -> b' <> nb -> block_at w' b' = block_at w b') ->
     Q tt w') ->
  wp U (CopyOrMove this {| buffer_ := Some nb; capacity_ := g |}) Q E w.
Proof.
  intros Hv Hb Hne Hnb Hlen Hq HQ. unfold CopyOrMove.
  pose proof (block_at_lt _ _ _ Hb) as Hlt.
  pose proof (block_at_lt _ _ _ Hnb) as Hltn.
  apply wp_bind. eapply wp_load; [done|]. simpl.
  unfold quiet_transfer in Hq. destruct transfers_by_move.
  - eapply (wp_uninitialized_move_from _ _ _ b nb 0 [] xs post [] hole tail);
      try done.
    intros w' Hh' Ho'. apply (HQ w' (map moved_from xs)).
    + by rewrite length_map.
    + apply block_at_Some. rewrite Hh'.
      rewrite list_lookup_insert_ne by done.
      by rewrite list_lookup_insert_eq.
    + apply block_at_Some. rewrite Hh'.
      by rewrite list_lookup_insert_eq by (by rewrite length_insert).
    + done.
    + by rewrite Hh', !length_insert.
    + intros b' H1 H2. unfold block_at. rewrite Hh'.
      by rewrite !list_lookup_insert_ne.
  - eapply (wp_uninitialized_copy_from _ _ _ b nb 0 [] xs post [] hole tail);
      try done.
    intros w' Hh' Ho'. apply (HQ w' xs).
    + done.
    + by rewrite (block_at_heap_ne _ _ _ _ _ Hh').
    + by eapply block_at_heap_eq.
    + done.
    + by rewrite Hh', !length_insert.
    + intros b' H1 H2. by rewrite (block_at_heap_ne _ _ _ _ _ Hh').
Qed.

End Growth.

(** ** [EmplaceBack] *)

Section EmplaceBack.
Context {T : Type} `{!Element T}.
Implicit Types (w : world T) (v : Vector) (blk pre post : list (slot T)).

Lemma insert_replicate_Raw (n i : nat) (s : slot T) :
  i < n ->
  <[i := s]> (replicate n Raw) = replicate i Raw ++ s :: replicate (n - S i) Raw.
Proof.
  intros Hi. replace n with (i + S (n - S i)) at 1 by lia.
  rewrite replicate_add. simpl.
  rewrite <- (length_replicate i (@Raw T)) at 1. apply insert_at_length.
Qed.

Lemma holds_snoc w this b xs x c :
  vector_at w this =
    Some {| data_ := {| buffer_ := Some b; capacity_ := c |};
            size_ := length xs + 1 |} ->
  block_at w b = Some (map Obj xs ++ Obj x :: replicate (c - S (length xs)) Raw) ->
  length xs < c ->
  holds w this (Some b) (xs ++ [x]) c.
Proof.
  intros Hv Hb Hlt. split.
  - apply vector_at_Some. rewrite Hv. by rewrite length_app.
  - rewrite length_app. simpl. split; [|lia].
    rewrite Hb, map_app, <- (assoc_L (++)). simpl.
    by rewrite Nat.add_1_r.
Qed.

(** [EmplaceBack] on a valid vector, with arguments that denote a value and
    do not ask to move from an element of the vector itself: with room left
    the buffer stays and nothing is allocated; a full vector moves to the
    next block allocated, and its old block is released. *)
Lemma wp_EmplaceBack_blocks U w this buf xs c a x Q E :
  holds w this buf xs c ->
  init_value w a = Some x ->
  (forall b, buf = Some b -> init_moves_from a <> Some b) ->
  quiet_init U E a -> quiet_transfer U E ->
  (forall w' buf',
     holds w' this buf' (xs ++ [x]) (capacity_after_append (length xs) c) ->
     (forall o, o <> this -> vector_at w' o = vector_at w o) ->
     (length xs < c -> buf' = buf /\ length (heap w') = length (heap w)) ->
     (length xs = c ->
      buf' = Some (length (heap w)) /\
      length (heap w') = S (length (heap w)) /\
      forall b, buf = Some b -> heap w' !! b = Some Freed) ->
     Q (Ptr buf' (length xs)) w') ->
  wp U (EmplaceBack this a) Q E w.
Proof.
  intros Hh Hx Hout Hqi Hqt HQ.
  pose proof (holds_vector_at _ _ _ _ _ Hh) as Hv.
  pose proof (vector_at_lt _ _ _ Hv) as Hlo.
  unfold EmplaceBack, capacity_after_append in *.
  apply wp_bind. eapply wp_load; [done|]. simpl.
  apply wp_bind.
  destruct (decide (length xs = c)) as [Hfull|Hroom].
  - (* growth *)
    unfold grown. simpl.
    set (g := if decide (length xs = 0) then 1 else c * 2).
    assert (length xs < g) as Hg by (unfold g; case_decide; lia).
    apply wp_bind. apply wp_RawMemory_new; [lia|].
    intros w1 Hh1 Ho1 _. set (nb := length (heap w)) in *.
    assert (forall b', b' < nb -> block_at w1 b' = block_at w b') as Hold
      by (intros b' Hb'; by eapply block_at_alloc_old).
    pose proof (block_at_alloc_new _ _ _ Hh1) as Hnb. fold nb in Hnb.
    assert (init_value w1 a = Some x) as Hx1
      by (rewrite <- Hx; by apply init_value_same).
    apply wp_bind. apply wp_rethrow_after.
    assert (forall m : M T unit,
              excused U E -> excused U (fun w' => wp U m (fun _ => E) E w'))
      as Hex by (intros m; apply excused_cleanup).
    apply wp_bind.
    eapply (wp_placement_new _ _ _ nb); [done|exact Hnb| |exact Hx1| | |].
    { simpl. by rewrite length_replicate. }
    { intros Hm. pose proof (init_moves_from_lt _ _ _ _ Hx Hm). lia. }
    { eapply quiet_init_mono; [apply Hex|done]. }
    intros w2 Ho2 Hl2 Hnb2 Hsame2 _. simpl in Hnb2.
    rewrite insert_replicate_Raw in Hnb2 by done.
    destruct buf as [b|].
    + destruct Hh as [_ [Hb Hle]].
      pose proof (block_at_lt _ _ _ Hb) as Hltb.
      assert (b <> nb) as Hbn by lia.
      assert (block_at w2 b = Some (map Obj xs ++ replicate (c - length xs) Raw))
        as Hb2.
      { rewrite Hsame2, Hold; [done|lia|done|by apply Hout]. }
      eapply (wp_CopyOrMove _ this b c xs _ nb g (replicate (length xs) Raw));
        [by rewrite (vector_at_objs_eq _ _ _ Ho2), (vector_at_objs_eq _ _ _ Ho1)
        |exact Hb2|done|exact Hnb2|by rewrite length_replicate
        |by eapply quiet_transfer_mono; [apply Hex|]|].
      intros w3 ys Hys Hb3 Hnb3 Ho3 Hl3 _.
      apply wp_bind.
      eapply (wp_destroy_n_len _ _ _ b [] ys); [done|done|done|exact Hb3|].
      intros w4 Hh4 Ho4.
      assert (vector_at w4 this = vector_at w this) as Hv4.
      { rewrite (vector_at_objs_eq _ _ _ Ho4), (vector_at_objs_eq _ _ _ Ho3).
        by rewrite (vector_at_objs_eq _ _ _ Ho2), (vector_at_objs_eq _ _ _ Ho1). }
      apply wp_bind. unfold Swap_data.
      apply wp_bind. eapply wp_load; [by rewrite Hv4|].
      apply wp_bind. eapply wp_set_data; [by rewrite Hv4|]. simpl.
      apply wp_ret. unfold RawMemory_delete. simpl.
      eapply wp_Deallocate.
      { rewrite block_at_put_object. eapply block_at_heap_eq; [done|].
        by eapply block_at_lt. }
      intros w5 Hh5 Ho5 _.
      assert (this < length (objs w4)) as Hlo4.
      { rewrite Hv in Hv4. by eapply vector_at_lt. }
      set (v5 := {| data_ := {| buffer_ := Some nb; capacity_ := g |};
                    size_ := length xs |}) in *.
      assert (vector_at w5 this = Some v5) as Hv5.
      { rewrite (vector_at_objs_eq _ _ _ Ho5).
        by rewrite vector_at_put_object_eq. }
      apply wp_bind. eapply wp_load; [done|].
      apply wp_bind. eapply wp_set_size; [done|]. simpl.
      apply wp_ret. apply HQ.
      * apply holds_snoc; [|rewrite block_at_put_object|done].
        { rewrite vector_at_put_object_eq; [done|]. by eapply vector_at_lt. }
        rewrite (block_at_heap_cell_ne _ _ _ _ _ Hh5) by done.
        rewrite block_at_put_object.
        by rewrite (block_at_heap_cell_ne _ _ _ _ _ Hh4).
      * intros o Ho. rewrite vector_at_put_object_ne by done.
        rewrite (vector_at_objs_eq _ _ _ Ho5).
        rewrite vector_at_put_object_ne by done.
        rewrite (vector_at_objs_eq _ _ _ Ho4), (vector_at_objs_eq _ _ _ Ho3).
        by rewrite (vector_at_objs_eq _ _ _ Ho2), (vector_at_objs_eq _ _ _ Ho1).
      * intros ?. lia.
      * intros _. split; [done|].
        assert (length (heap w4) = S (length (heap w))) as Hlen4
          by (rewrite Hh4, length_insert, Hl3, Hl2, Hh1, length_app;
              simpl; lia).
        split.
        { simpl. rewrite Hh5. simpl. by rewrite length_insert. }
        intros b' [= <-]. simpl. rewrite Hh5.
        apply list_lookup_insert_eq. simpl. lia.
    + destruct Hh as [_ [-> ->]]. simpl in *.
      assert (vector_at w2 this = vector_at w this) as Hv2
        by by rewrite (vector_at_objs_eq _ _ _ Ho2), (vector_at_objs_eq _ _ _ Ho1).
      unfold CopyOrMove. apply wp_bind. eapply wp_load; [by rewrite Hv2|].
      simpl. replace (if transfers_by_move
                      then uninitialized_move_n (GetAddress RawMemory_default) 0
                             (GetAddress {| buffer_ := Some nb; capacity_ := g |})
                      else uninitialized_copy_n (GetAddress RawMemory_default) 0
                             (GetAddress {| buffer_ := Some nb; capacity_ := g |}))
                with (@ret T unit tt) by (by destruct transfers_by_move).
      apply wp_ret. apply wp_bind. apply wp_ret.
      apply wp_bind. unfold Swap_data.
      apply wp_bind. eapply wp_load; [by rewrite Hv2|].
      apply wp_bind. eapply wp_set_data; [by rewrite Hv2|]. simpl.
      apply wp_ret. unfold RawMemory_delete. simpl. apply wp_ret.
      assert (this < length (objs w2)) as Hlo2.
      { rewrite Hv in Hv2. by eapply vector_at_lt. }
      apply wp_bind. eapply wp_load; [by apply vector_at_put_object_eq|].
      apply wp_bind. eapply wp_set_size; [by apply vector_at_put_object_eq|].
      simpl. apply wp_ret. apply (HQ _ (Some nb)).
      * apply (holds_snoc _ _ _ []); [|rewrite !block_at_put_object|done].
        { rewrite vector_at_put_object_eq; [done|].
          by rewrite length_objs_put_object. }
        by rewrite Hnb2.
      * intros o Ho. rewrite !vector_at_put_object_ne by done.
        by rewrite (vector_at_objs_eq _ _ _ Ho2), (vector_at_objs_eq _ _ _ Ho1).
      * simpl. intros ?. lia.
      * intros _. split; [done|]. split; [|by intros b' [=]].
        simpl. rewrite Hl2, Hh1, length_app. simpl. lia.
  - (* room left *)
    destruct buf as [b|]; [|destruct Hh as [_ [-> ->]]; done].
    destruct Hh as [_ [Hb Hle]].
    eapply (wp_placement_new _ _ _ b); [done|exact Hb| |exact Hx|by apply Hout|done|].
    { simpl. rewrite length_app, length_map, length_replicate. lia. }
    intros w1 Ho1 Hl1 Hb1 _ _. simpl in Hb1.
    apply wp_bind. eapply wp_load; [by rewrite (vector_at_objs_eq _ _ _ Ho1)|].
    apply wp_bind. eapply wp_set_size; [by rewrite (vector_at_objs_eq _ _ _ Ho1)|].
    simpl. apply wp_ret. apply HQ.
    + apply holds_snoc; [|rewrite block_at_put_object|lia].
      { rewrite vector_at_put_object_eq; [done|]. by rewrite Ho1. }
      rewrite Hb1. f_equal.
      rewrite <- (length_map Obj xs) at 1.
      rewrite (insert_app_r_alt (map Obj xs)) by lia.
      rewrite Nat.sub_diag. f_equal.
      by replace (c - length xs) with (S (c - S (length xs))) by lia.
    + intros o Ho. rewrite vector_at_put_object_ne by done.
      by apply vector_at_objs_eq.
    + intros _. split; [done|]. simpl. done.
    + intros ?. lia.
Qed.

Lemma wp_EmplaceBack U w this buf xs c a x Q E :
  holds w this buf xs c ->
  init_value w a = Some x ->
  (forall b, buf = Some b -> init_moves_from a <> Some b) ->
  quiet_init U E a -> quiet_transfer U E ->
  (forall w' buf',
     holds w' this buf' (xs ++ [x]) (capacity_after_append (length xs) c) ->
     (forall o, o <> this -> vector_at w' o = vector_at w o) ->
     Q (Ptr buf' (length xs)) w') ->
  wp U (EmplaceBack this a) Q E w.
Proof.
  intros Hh Hx Hout Hqi Hqt HQ.
  eapply wp_EmplaceBack_blocks; [done..|].
  intros w' buf' Hh' Ho _ _. by apply HQ.
Qed.

End EmplaceBack.

(** ** Capacity under appends *)

Section Capacity.
Context {T : Type} `{!Element T}.
Implicit Types (w : world T) (v : Vector) (blk pre post : list (slot T)).

(** The sizes and capacities that appends to an empty vector go through. *)
Definition doubling (n c : nat) : Prop :=
  (n = 0 /\ c = 0) \/ (exists e, c = 2 ^ e /\ c < 2 * n /\ n <= c).

Lemma doubling_step n c : doubling n c -> doubling (S n) (capacity_after_append n c).
Proof.
  unfold capacity_after_append.
  intros [[-> ->]|(e & -> & Hlt & Hle)]; right.
  - exists 0. simpl. lia.
  - destruct (decide (n = 2 ^ e)) as [->|Hne].
    + rewrite decide_False by (pose proof (Nat.pow_nonzero 2 e); lia).
      exists (S e). rewrite Nat.pow_succ_r'. 
      pose proof (Nat.pow_nonzero 2 e). lia.
    + exists e. lia.
Qed.

Lemma doubling_smallest n c :
  0 < n -> doubling n c -> smallest_power_of_two_from n c.
Proof.
  intros Hn [[-> _]|(e & -> & Hlt & Hle)]; [lia|].
  split; [eauto|]. split; [done|]. intros e' He'.
  destruct (decide (e <= e')) as [Hee|Hee].
  - by apply Nat.pow_le_mono_r.
  - assert (S e' <= e) as Hs by lia.
    pose proof (Nat.pow_le_mono_r 2 _ _ ltac:(lia) Hs) as Hp.
    rewrite Nat.pow_succ_r' in Hp. lia.
Qed.

Lemma appends_args_run w this buf xs c vs :
  holds w this buf xs c -> doubling (length xs) c ->
  nothrow_args_ctor -> nothrow_transfer ->
  exists w' buf' c',
    appends this (map FromArgs vs) w = Ret w' tt /\
    holds w' this buf' (xs ++ vs) c' /\ doubling (length (xs ++ vs)) c'.
Proof.
  intros Hh Hd Hna Hnt.
  cut (wp False (appends this (map FromArgs vs))
         (fun _ w' => exists buf' c',
            holds w' this buf' (xs ++ vs) c' /\ doubling (length (xs ++ vs)) c')
         (fun _ => False) w).
  { intros (w' & [] & Hrun & buf' & c' & Hh' & Hd')%wp_total. eauto 10. }
  revert w buf xs c Hh Hd.
  induction vs as [|v vs IH]; intros w buf xs c Hh Hd.
  - simpl. apply wp_ret. rewrite app_nil_r. eauto.
  - simpl. apply wp_bind.
    eapply (wp_EmplaceBack _ _ _ _ _ _ (FromArgs v) v); [done|done|done|..].
    { by apply nothrow_quiet_args_ctor. }
    { by apply nothrow_quiet_transfer. }
    intros w1 buf1 Hh1 _.
    eapply wp_mono; [eapply (IH w1 buf1 (xs ++ [v])); [exact Hh1|]| |done].
    + rewrite length_app. simpl. rewrite Nat.add_1_r. by apply doubling_step.
    + intros _ w' (buf' & c' & Hh' & Hd'). simpl in *.
      rewrite <- (assoc_L (++)) in Hh', Hd'. eauto.
Qed.

End Capacity.

(** ** Footprints of the algorithms *)

Section Footprints.
Context {T : Type} `{!Element T}.
Implicit Types (w : world T) (v : Vector) (P : nat -> Prop).

Lemma keeps_refl P w : keeps P w w.
Proof. done. Qed.

Lemma keeps_trans P w1 w2 w3 : keeps P w1 w2 -> keeps P w2 w3 -> keeps P w1 w3.
Proof.
  intros (Ho1 & Hl1 & Hb1) (Ho2 & Hl2 & Hb2). split; [congruence|].
  split; [congruence|]. intros b Hb. by rewrite Hb2, Hb1.
Qed.

Lemma keeps_mono P P' w w' : (forall b, P b -> P' b) -> keeps P w w' -> keeps P' w w'.
Proof. intros HP (Ho & Hl & Hb). split; [done|]. split; [done|]. eauto. Qed.

Lemma keeps_block_at P w w' b : keeps P w w' -> ~ P b -> block_at w' b = block_at w b.
Proof. intros (_ & _ & Hb) HP. unfold block_at. by rewrite Hb. Qed.

Lemma keeps_vector_at P w w' o : keeps P w w' -> vector_at w' o = vector_at w o.
Proof. intros (Ho & _). by apply vector_at_objs_eq. Qed.

Section Respects.
Context (R : world T -> world T -> Prop).
Context (R_refl : forall w, R w w).
Context (R_trans : forall w1 w2 w3, R w1 w2 -> R w2 w3 -> R w1 w3).

Lemma respects_ret {A} (a : A) : respects R (ret a).
Proof. intros w. apply R_refl. Qed.

Lemma respects_undefined {A} : respects R (@undefined T A).
Proof. by intros w. Qed.

Lemma respects_bind {A B} (m : M T A) (k : A -> M T B) :
  respects R m -> (forall a, respects R (k a)) -> respects R (bind m k).
Proof.
  intros Hm Hk w. apply wp_bind. eapply wp_mono; [apply Hm| |done].
  intros a w1 H1. simpl in H1.
  eapply wp_mono; [apply Hk|..]; simpl; intros; by eapply R_trans.
Qed.

Lemma respects_rethrow_after {A} (m : M T A) cleanup :
  respects R m -> respects R cleanup -> respects R (rethrow_after m cleanup).
Proof.
  intros Hm Hc w. apply wp_rethrow_after. eapply wp_mono; [apply Hm|done|].
  intros w1 H1. simpl in H1.
  eapply wp_mono; [apply Hc|..]; simpl; intros; by eapply R_trans.
Qed.

Lemma respects_bind_ret {A B} (a : A) (k : A -> M T B) :
  respects R (k a) -> respects R (bind (ret a) k).
Proof. intros Hk w. apply wp_bind, wp_ret, Hk. Qed.

Lemma respects_bind_undefined {A B} (k : A -> M T B) :
  respects R (bind undefined k).
Proof. by intros w. Qed.

Lemma respects_ptr_sub p n : respects R (ptr_sub p n).
Proof. unfold ptr_sub. case_decide; [apply respects_ret|apply respects_undefined]. Qed.

Lemma respects_ptr_diff p q : respects R (ptr_diff p q).
Proof. unfold ptr_diff. case_decide; [apply respects_ret|apply respects_undefined]. Qed.

End Respects.

Lemma respects_mono (R R' : world T -> world T -> Prop) {A} (m : M T A) :
  (forall w w', R w w' -> R' w w') -> respects R m -> respects R' m.
Proof. intros HR Hm w. eapply wp_mono; [apply Hm|..]; simpl; eauto. Qed.

Local Abbreviation touches P m := (@respects T (keeps P) _ m) (only parsing).

Lemma respects_read P p : touches P (read p).
Proof.
  intros w. unfold wp, read. destruct (base p) as [b|]; [|done].
  destruct (block_at w b) as [blk|]; [|done].
  by destruct (blk !! off p) as [[|x]|].
Qed.

Lemma respects_write P p s :
  (forall b, in_block p b -> P b) -> touches P (write p s).
Proof.
  intros HP w. unfold wp, write. destruct (base p) as [b|] eqn:Hb; [|done].
  destruct (block_at w b) as [blk|]; [|done]. case_decide; [|done].
  split; [done|]. split; [apply length_heap_put_block|].
  intros b' Hb'. simpl. apply list_lookup_insert_ne. intros ->. by apply Hb', HP.
Qed.

Lemma respects_call P e : touches P (call e).
Proof. intros w. unfold wp, call. by destruct (throws (log w) e). Qed.

Lemma respects_note P e : touches P (note e).
Proof. by intros w. Qed.

Lemma respects_load P this : touches P (load this).
Proof. intros w. unfold wp, load. by destruct (objs w !! this) as [[?|]|]. Qed.

Ltac step :=
  first
    [ apply respects_bind; [apply keeps_trans| |intros ?]
    | apply respects_ret; apply keeps_refl
    | apply respects_read
    | apply respects_call
    | apply respects_note
    | apply respects_load
    | apply respects_ptr_sub; apply keeps_refl
    | apply respects_ptr_diff; apply keeps_refl
    | apply respects_write ].

Lemma respects_construct P a :
  (forall b, init_moves_from a = Some b -> P b) -> touches P (construct a).
Proof. intros HP. destruct a; simpl; repeat step. exact HP. Qed.

Lemma respects_placement_new P p a :
  (forall b, in_block p b -> P b) ->
  (forall b, init_moves_from a = Some b -> P b) ->
  touches P (placement_new p a).
Proof.
  intros Hp Ha. unfold placement_new. step; [by apply respects_construct|].
  by step.
Qed.

Lemma respects_value_construct_at P p :
  (forall b, in_block p b -> P b) -> touches P (value_construct_at p).
Proof. intros Hp. unfold value_construct_at. repeat step. done. Qed.

Lemma respects_destroy_at P p :
  (forall b, in_block p b -> P b) -> touches P (destroy_at p).
Proof. intros Hp. unfold destroy_at. repeat step. done. Qed.

Lemma respects_copy_assign P dst src :
  (forall b, in_block dst b -> P b) -> touches P (copy_assign dst src).
Proof. intros Hp. unfold copy_assign. repeat step. done. Qed.

Lemma respects_move_assign P dst src :
  (forall b, in_block dst b -> P b) -> (forall b, in_block src b -> P b) ->
  touches P (move_assign dst src).
Proof. intros Hd Hs. unfold move_assign. repeat step; done. Qed.

Lemma respects_assign_temporary P dst a :
  (forall b, in_block dst b -> P b) ->
  (forall b, init_moves_from a = Some b -> P b) ->
  touches P (assign_temporary dst a).
Proof.
  intros Hd Ha. unfold assign_temporary.
  step; [by apply respects_construct|]. step; [step|].
  step; [apply respects_rethrow_after; [apply keeps_trans|step|step]|].
  repeat step. done.
Qed.

Lemma respects_destroy_n P p n :
  (forall b, in_block p b -> P b) -> touches P (destroy_n p n).
Proof.
  revert p. induction n as [|n IH]; intros p Hp; simpl; [by step|].
  step; [by apply respects_destroy_at|]. by apply IH.
Qed.

Lemma respects_uninitialized_n P make dst i n :
  (forall j, touches P (make j)) ->
  (forall b, in_block dst b -> P b) ->
  touches P (uninitialized_n make dst i n).
Proof.
  intros Hmake Hd. revert i. induction n as [|n IH]; intros i; simpl; [by step|].
  step; [|apply IH].
  apply respects_rethrow_after; [apply keeps_trans|apply Hmake|].
  by apply respects_destroy_n.
Qed.

Lemma respects_uninitialized_value_construct_n P dst n :
  (forall b, in_block dst b -> P b) ->
  touches P (uninitialized_value_construct_n dst n).
Proof.
  intros Hd. apply respects_uninitialized_n; [|done].
  intros j. by apply respects_value_construct_at.
Qed.

Lemma respects_uninitialized_copy_n P src n dst :
  (forall b, in_block dst b -> P b) ->
  touches P (uninitialized_copy_n src n dst).
Proof.
  intros Hd. apply respects_uninitialized_n; [|done].
  intros j. by apply respects_placement_new.
Qed.

Lemma respects_uninitialized_move_n P src n dst :
  (forall b, in_block dst b -> P b) -> (forall b, in_block src b -> P b) ->
  touches P (uninitialized_move_n src n dst).
Proof.
  intros Hd Hs. apply respects_uninitialized_n; [|done].
  intros j. by apply respects_placement_new.
Qed.

Lemma respects_std_copy P first n dst :
  (forall b, in_block dst b -> P b) -> touches P (std_copy first n dst).
Proof.
  revert first dst. induction n as [|n IH]; intros first dst Hd; simpl; [by step|].
  step; [by apply respects_copy_assign|]. by apply IH.
Qed.

Lemma respects_std_move P first n dst :
  (forall b, in_block dst b -> P b) -> (forall b, in_block first b -> P b) ->
  touches P (std_move first n dst).
Proof.
  revert first dst. induction n as [|n IH]; intros first dst Hd Hf; simpl; [by step|].
  step; [by apply respects_move_assign|]. by apply IH.
Qed.

Lemma respects_std_move_backward P first n d_last :
  (forall b, in_block d_last b -> P b) -> (forall b, in_block first b -> P b) ->
  touches P (std_move_backward first n d_last).
Proof.
  revert d_last. induction n as [|n IH]; intros d_last Hd Hf; simpl; [by step|].
  unfold ptr_sub. case_decide; [|apply respects_bind_undefined].
  apply respects_bind_ret.
  step; [by apply respects_move_assign|]. by apply IH.
Qed.

End Footprints.

(** ** Footprints of the member functions *)

Section MemberFootprints.
Context {T : Type} `{!Element T}.
Implicit Types (w : world T) (v : Vector) (P O : nat -> Prop).

Local Abbreviation touches P m := (@respects T (keeps P) _ m) (only parsing).

Lemma wp_keeps {A} P (m : M T A) w (Q : A -> world T -> Prop) E :
  touches P m ->
  (forall a w', keeps P w w' -> Q a w') -> (forall w', keeps P w w' -> E w') ->
  wp True m Q E w.
Proof. intros Hm HQ HE. eapply wp_mono; [apply Hm|..]; simpl; eauto. Qed.

Lemma extends_refl P O w : extends P O w w.
Proof. done. Qed.

Lemma extends_keeps P O P' w0 w w' :
  extends P O w0 w -> keeps P' w w' ->
  (forall b, P' b -> P b \/ length (heap w0) <= b) ->
  extends P O w0 w'.
Proof.
  intros (Hl & Hb & Hlo & Ho) (Ho' & Hl' & Hb') HP.
  split; [lia|]. split; [|by rewrite Ho'].
  intros b Hlt Hnp. rewrite Hb'; [by apply Hb|].
  intros [?|?]%HP; [done|lia].
Qed.

Lemma extends_alloc P O w0 w w' c :
  extends P O w0 w -> heap w' = heap w ++ [c] -> objs w' = objs w ->
  extends P O w0 w'.
Proof.
  intros (Hl & Hb & Hlo & Ho) Hh Ho'.
  split; [rewrite Hh, length_app; lia|]. split; [|by rewrite Ho'].
  intros b Hlt Hnp. rewrite Hh, lookup_app_l by lia. by apply Hb.
Qed.

Lemma extends_put_object P O w0 w this ov :
  extends P O w0 w -> O this -> extends P O w0 (put_object this ov w).
Proof.
  intros (Hl & Hb & Hlo & Ho) HO. split; [done|]. split; [done|].
  split; [by rewrite length_objs_put_object|].
  intros o Hlt Hno. simpl. rewrite list_lookup_insert_ne; [by apply Ho|].
  by intros ->.
Qed.

Lemma extends_objs_eq P O w0 w w' :
  extends P O w0 w -> heap w' = heap w -> objs w' = objs w -> extends P O w0 w'.
Proof. unfold extends. by intros H -> ->. Qed.

Lemma respects_Deallocate P buf :
  (forall b, buf = Some b -> P b) -> touches P (Deallocate buf).
Proof.
  intros HP. destruct buf as [b|]; [|by apply respects_ret].
  intros w. unfold wp, Deallocate. destruct (block_at w b); [|done].
  split; [done|]. split; [apply length_insert|].
  intros b' Hb'. simpl. apply list_lookup_insert_ne. intros ->. by apply Hb', HP.
Qed.

(** [RawMemory(n)] allocates at most one block, the next one. *)
Lemma wp_RawMemory_new_any U n Q E w :
  (forall w' d,
     objs w' = objs w -> log w' = log w -> capacity_ d = n ->
     (buffer_ d = None /\ n = 0 /\ heap w' = heap w \/
      buffer_ d = Some (length (heap w)) /\ 0 < n /\
      heap w' = heap w ++ [Block (replicate n Raw)]) ->
     Q d w') ->
  wp U (RawMemory_new n) Q E w.
Proof.
  intros HQ. unfold RawMemory_new. apply wp_bind.
  unfold wp at 1, Allocate. case_decide.
  - apply wp_ret. apply HQ; auto.
  - apply wp_ret. apply HQ; try done. right. split; [done|]. split; [lia|done].
Qed.

Lemma extends_RawMemory_new P O w0 w w' n d :
  extends P O w0 w -> objs w' = objs w ->
  (buffer_ d = None /\ n = 0 /\ heap w' = heap w \/
   buffer_ d = Some (length (heap w)) /\ 0 < n /\
   heap w' = heap w ++ [Block (replicate n Raw)]) ->
  extends P O w0 w' /\
  forall b, buffer_ d = Some b -> length (heap w0) <= b /\ b < length (heap w').
Proof.
  intros Hext Ho [(Hd & _ & Hh)|(Hd & _ & Hh)].
  - split; [by eapply extends_objs_eq|]. by rewrite Hd.
  - split; [by eapply extends_alloc|]. rewrite Hd. intros b [= <-].
    destruct Hext as (Hl & _). rewrite Hh, length_app. simpl. lia.
Qed.

(** [CopyOrMove] touches the new block, and the old one when it moves. *)
Lemma CopyOrMove_keeps this v new_data w :
  vector_at w this = Some v ->
  wp True (CopyOrMove this new_data)
    (fun _ w' => keeps (fun b => buffer_ new_data = Some b \/
                                 (transfers_by_move = true /\
                                  buffer_ (data_ v) = Some b)) w w')
    (fun w' => keeps (fun b => buffer_ new_data = Some b \/
                               (transfers_by_move = true /\
                                buffer_ (data_ v) = Some b)) w w') w.
Proof.
  intros Hv. unfold CopyOrMove. apply wp_bind. eapply wp_load; [done|].
  destruct transfers_by_move.
  - apply respects_uninitialized_move_n; unfold in_block; simpl; auto.
  - apply respects_uninitialized_copy_n; unfold in_block; simpl; auto.
Qed.

End MemberFootprints.

(** ** Steps that cannot throw *)

Section NoThrow.
Context {T : Type} `{!Element T}.
Implicit Types (w : world T) (v : Vector) (P O : nat -> Prop).

Local Abbreviation silent m := (@nothrows T _ m) (only parsing).

Lemma nothrows_ret {A} (a : A) : silent (ret a).
Proof. by intros w. Qed.

Lemma nothrows_undefined {A} : silent (@undefined T A).
Proof. by intros w. Qed.

Lemma nothrows_bind {A B} (m : M T A) (k : A -> M T B) :
  silent m -> (forall a, silent (k a)) -> silent (bind m k).
Proof.
  intros Hm Hk w. apply wp_bind. eapply wp_mono; [apply Hm| |done].
  intros a w' _. apply Hk.
Qed.

Lemma nothrows_read p : silent (read p).
Proof.
  intros w. unfold wp, read. destruct (base p) as [b|]; [|done].
  destruct (block_at w b) as [blk|]; [|done].
  by destruct (blk !! off p) as [[|x]|].
Qed.

Lemma nothrows_write p s : silent (write p s).
Proof.
  intros w. unfold wp, write. destruct (base p) as [b|]; [|done].
  destruct (block_at w b) as [blk|]; [|done]. by case_decide.
Qed.

Lemma nothrows_note e : silent (note e).
Proof. by intros w. Qed.

Lemma nothrows_load this : silent (load this).
Proof. intros w. unfold wp, load. by destruct (objs w !! this) as [[?|]|]. Qed.

Lemma nothrows_store this v : silent (store this v).
Proof. intros w. unfold wp, store. by destruct (objs w !! this) as [[?|]|]. Qed.

Lemma nothrows_Deallocate buf : silent (Deallocate buf).
Proof.
  destruct buf as [b|]; [|apply nothrows_ret].
  intros w. unfold wp, Deallocate. by destruct (block_at w b).
Qed.

Lemma nothrows_set_data this d : silent (set_data this d).
Proof.
  apply nothrows_bind; [apply nothrows_load|]. intros v. apply nothrows_store.
Qed.

Lemma nothrows_set_size this n : silent (set_size this n).
Proof.
  apply nothrows_bind; [apply nothrows_load|]. intros v. apply nothrows_store.
Qed.

Lemma nothrows_destroy_at p : silent (destroy_at p).
Proof.
  apply nothrows_bind; [apply nothrows_read|]. intros x.
  apply nothrows_bind; [apply nothrows_note|]. intros _. apply nothrows_write.
Qed.

Lemma nothrows_destroy_n p n : silent (destroy_n p n).
Proof.
  revert p. induction n as [|n IH]; intros p; simpl; [apply nothrows_ret|].
  apply nothrows_bind; [apply nothrows_destroy_at|]. intros _. apply IH.
Qed.

Lemma nothrows_Swap_data this d : silent (Swap_data this d).
Proof.
  apply nothrows_bind; [apply nothrows_load|]. intros v.
  apply nothrows_bind; [apply nothrows_set_data|]. intros _. apply nothrows_ret.
Qed.

Lemma wp_nothrows {A} (m : M T A) Q E w :
  silent m -> (forall a w', Q a w') -> wp True m Q E w.
Proof. intros Hm HQ. eapply wp_mono; [apply Hm|..]; simpl; [auto|done]. Qed.

(** What is left of [EmplaceBack] and of the growing path of [Emplace] once
    the elements are in the new block. *)
Lemma nothrows_commit this v new_data (k : M T ptr) :
  silent k ->
  silent (bind (bind (destroy_n (GetAddress (data_ v)) (size_ v))
                  (fun _ => bind (Swap_data this new_data)
                              (fun d => RawMemory_delete d)))
               (fun _ => k)).
Proof.
  intros Hk. apply nothrows_bind; [|done].
  apply nothrows_bind; [apply nothrows_destroy_n|]. intros _.
  apply nothrows_bind; [apply nothrows_Swap_data|]. intros d.
  apply nothrows_Deallocate.
Qed.

End NoThrow.

(** ** The strong guarantee of a growing append *)

Section StrongGuarantee.
Context {T : Type} `{!Element T}.
Implicit Types (w : world T) (v : Vector) (P O : nat -> Prop).

Lemma wp_throws {A} (m : M T A) E w :
  wp False m (fun _ _ => False) E w -> exists w', m w = Throw w' /\ E w'.
Proof. unfold wp. destruct (m w) as [|w'|]; [done|eauto|done]. Qed.

Lemma extends_same_vector O P w w' this v :
  extends P O w w' -> vector_at w this = Some v -> ~ O this ->
  (forall b, buffer_ (data_ v) = Some b -> b < length (heap w) /\ ~ P b) ->
  same_vector this w w'.
Proof.
  intros (Hl & Hb & Hlo & Ho) Hv HO Hbuf.
  assert (vector_at w' this = vector_at w this) as Hv'.
  { unfold vector_at. rewrite Ho; [done|by eapply vector_at_lt|done]. }
  assert (storage w' v = storage w v) as Hs.
  { unfold storage. destruct (buffer_ (data_ v)) as [b|] eqn:Hbv; [|done].
    destruct (Hbuf b eq_refl) as [Hlt HP]. unfold block_at. by rewrite Hb. }
  split; [done|]. split.
  { intros v0 Hv0. rewrite Hv in Hv0. by injection Hv0 as <-. }
  unfold size_of, capacity_of, elements. rewrite Hv', Hv, Hs. done.
Qed.

(** A growing [EmplaceBack] that duplicates: whatever throws, only new blocks
    and the block moved from by the arguments are modified. *)
Lemma EmplaceBack_throw_frame w this v a :
  vector_at w this = Some v -> size_ v = capacity_ (data_ v) ->
  transfers_by_move = false ->
  wp True (EmplaceBack this a) (fun _ _ => True)
    (fun w' => extends (fun b => init_moves_from a = Some b) (fun _ => False) w w')
    w.
Proof.
  intros Hv Hfull Hcopy. unfold EmplaceBack.
  apply wp_bind. eapply wp_load; [done|].
  rewrite decide_True by done.
  apply wp_bind. apply wp_bind. apply wp_RawMemory_new_any.
  intros w1 d Ho1 _ _ Hd.
  destruct (extends_RawMemory_new (fun b => init_moves_from a = Some b)
              (fun _ => False) w w w1 _ d (extends_refl _ _ _) Ho1 Hd)
    as [Hext1 Hfresh].
  set (E := fun w' => extends (fun b => init_moves_from a = Some b)
                        (fun _ => False) w w').
  assert (forall w2 w3 P', extends (fun b => init_moves_from a = Some b)
                                   (fun _ => False) w w2 ->
            keeps P' w2 w3 ->
            (forall b, P' b -> buffer_ d = Some b \/ init_moves_from a = Some b) ->
            E w3) as Hstep.
  { intros w2 w3 P' Hext Hk HP'. eapply extends_keeps; [done..|].
    intros b [Hb|Hb]%HP'; [right; by apply Hfresh|by left]. }
  apply wp_bind. apply wp_rethrow_after. apply wp_bind.
  eapply (wp_keeps (fun b => buffer_ d = Some b \/ init_moves_from a = Some b)).
  { apply respects_placement_new; unfold in_block; simpl; auto. }
  - intros _ w2 Hk2.
    eapply wp_mono; [apply (CopyOrMove_keeps this v d w2)|..].
    + rewrite (keeps_vector_at _ _ _ _ Hk2). by rewrite (vector_at_objs_eq _ _ _ Ho1).
    + intros _ w3 _. simpl. apply wp_nothrows.
      { apply nothrows_bind; [apply nothrows_destroy_n|]. intros _.
        apply nothrows_bind; [apply nothrows_Swap_data|]. intros d'.
        apply nothrows_Deallocate. }
      intros _ w5. apply wp_nothrows; [|done].
      apply nothrows_bind; [apply nothrows_load|]. intros v'.
      apply nothrows_bind; [apply nothrows_set_size|]. intros _.
      apply nothrows_ret.
    + intros w3 Hk3. simpl.
      eapply (wp_keeps (fun b => buffer_ d = Some b)).
      { apply respects_Deallocate. auto. }
      * intros _ w4 Hk4. eapply (Hstep w3 w4); [|done|auto].
        eapply (Hstep w2 w3); [|done|].
        { eapply (Hstep w1 w2); [done..|auto]. }
        rewrite Hcopy. intros b [?|[? _]]; [auto|done].
      * intros w4 Hk4. eapply (Hstep w3 w4); [|done|auto].
        eapply (Hstep w2 w3); [|done|].
        { eapply (Hstep w1 w2); [done..|auto]. }
        rewrite Hcopy. intros b [?|[? _]]; [auto|done].
  - intros w2 Hk2. simpl.
    eapply (wp_keeps (fun b => buffer_ d = Some b)).
    { apply respects_Deallocate. auto. }
    + intros _ w4 Hk4. eapply (Hstep w2 w4); [|done|auto].
      eapply (Hstep w1 w2); [done..|auto].
    + intros w4 Hk4. eapply (Hstep w2 w4); [|done|auto].
      eapply (Hstep w1 w2); [done..|auto].
Qed.

Lemma grown_pos v : size_ v = capacity_ (data_ v) -> 0 < grown v.
Proof. intros Hfull. unfold grown. case_decide; lia. Qed.

Lemma init_event_peek w w' a e :
  (forall b, b < length (heap w) -> block_at w' b = block_at w b) ->
  init_event w a = Some e -> init_event w' a = Some e.
Proof.
  intros Hsame. destruct a as [x|r|r]; simpl; [done|..].
  - destruct (peek w r) as [x|] eqn:Hx; [|done].
    destruct (peek_lt _ _ _ Hx) as (b & Hb & Hlt).
    rewrite (peek_same_block w w'), Hx; [done|].
    intros b' Hb'. apply Hsame. congruence.
  - destruct (peek w r) as [x|] eqn:Hx; [|done].
    destruct (peek_lt _ _ _ Hx) as (b & Hb & Hlt).
    rewrite (peek_same_block w w'), Hx; [done|].
    intros b' Hb'. apply Hsame. congruence.
Qed.

(** A constructor that throws does so before it modifies anything. *)
Lemma wp_construct_throws U a e Q E w :
  init_event w a = Some e -> throws (log w) e = true ->
  E (logged e w) -> wp U (construct a) Q E w.
Proof.
  intros He Ht HE. destruct a as [x|r|r]; simpl in *.
  - injection He as <-. apply wp_bind. by apply wp_call_throw.
  - destruct (peek w r) as [x|] eqn:Hx; [|done]. injection He as <-.
    apply peek_Some in Hx as (b & blk & Hb & Hblk & Hx).
    apply wp_bind. eapply wp_read; [done..|].
    apply wp_bind. by apply wp_call_throw.
  - destruct (peek w r) as [x|] eqn:Hx; [|done]. injection He as <-.
    apply peek_Some in Hx as (b & blk & Hb & Hblk & Hx).
    apply wp_bind. eapply wp_read; [done..|].
    apply wp_bind. by apply wp_call_throw.
Qed.

(** When the constructor of the new element throws, a growing [EmplaceBack]
    throws, having allocated and freed the new block and nothing else. *)
Lemma EmplaceBack_ctor_throws w this v a e :
  vector_at w this = Some v -> size_ v = capacity_ (data_ v) ->
  init_event w a = Some e -> throws (log w) e = true ->
  exists w',
    EmplaceBack this a w = Throw w' /\
    extends (fun _ => False) (fun _ => False) w w'.
Proof.
  intros Hv Hfull He Ht. apply wp_throws. unfold EmplaceBack.
  apply wp_bind. eapply wp_load; [done|].
  rewrite decide_True by done.
  apply wp_bind. apply wp_bind. apply wp_RawMemory_new; [by apply grown_pos|].
  intros w1 Hh1 Ho1 Hl1.
  apply wp_bind. apply wp_rethrow_after. apply wp_bind.
  unfold placement_new. apply wp_bind.
  eapply wp_construct_throws.
  - eapply init_event_peek; [|done]. intros b Hb. by eapply block_at_alloc_old.
  - by rewrite Hl1.
  - unfold RawMemory_delete. simpl. eapply wp_Deallocate.
    { rewrite block_at_logged. by eapply block_at_alloc_new. }
    intros w2 Hh2 Ho2 _. simpl in *.
    split; [rewrite Hh2, length_insert, Hh1, length_app; lia|].
    split; [|by rewrite Ho2, Ho1].
    intros b Hb _. rewrite Hh2, list_lookup_insert_ne by lia.
    by rewrite Hh1, lookup_app_l.
Qed.

(** C1, as amended: an append to a full vector ([size == capacity]) whose
    arguments do not ask to move from an element of the vector itself.  If
    the constructor of the new element throws, whatever the transfer policy,
    the call throws and the vector is as before: same buffer, same slots,
    hence same elements, size and capacity.  If the policy duplicates, the
    same holds for whatever makes the call throw, a copy of an existing
    element included. *)
Theorem EmplaceBack_strong_guarantee w this v a :
  vector_at w this = Some v -> size_ v = capacity_ (data_ v) ->
  (forall b, buffer_ (data_ v) = Some b ->
     b < length (heap w) /\ init_moves_from a <> Some b) ->
  (forall e, init_event w a = Some e -> throws (log w) e = true ->
     exists w', EmplaceBack this a w = Throw w' /\ same_vector this w w') /\
  (transfers_by_move = false ->
     forall w', EmplaceBack this a w = Throw w' -> same_vector this w w').
Proof.
  intros Hv Hfull Hbuf. split.
  - intros e He Ht.
    destruct (EmplaceBack_ctor_throws w this v a e Hv Hfull He Ht)
      as (w' & Hrun & Hext).
    exists w'. split; [done|].
    eapply extends_same_vector; [done..|tauto|].
    intros b Hb. split; [by apply Hbuf|tauto].
  - intros Hcopy w' Hrun.
    pose proof (EmplaceBack_throw_frame w this v a Hv Hfull Hcopy) as Hwp.
    apply (wp_throw_inv _ _ _ _ _ _ Hwp) in Hrun.
    eapply extends_same_vector; [done..|tauto|].
    intros b Hb. split; [by apply Hbuf|]. by apply Hbuf.
Qed.

End StrongGuarantee.

Section StrongGuaranteeExamples.

(** The scenario of the specification: three elements of a class whose
    constructor throws on its fourth call, then an append. *)
Lemma Vector_sized_three :
  @Vector_sized nat (Thrower 4) 3 empty_world = Ret three_constructed 0.
Proof. reflexivity. Qed.

(** With five calls allowed before the throw, the new element is built and
    the copy of the first element throws. *)
Lemma EmplaceBack_strong_guarantee_witness :
  (exists w',
     @EmplaceBack nat (Thrower 4) 0 (FromArgs 9) three_constructed = Throw w' /\
     @same_vector nat 0 three_constructed w') /\
  (exists w',
     @EmplaceBack nat (Thrower 5) 0 (FromArgs 9) three_constructed = Throw w' /\
     log w' = [CopyCtor 0; ArgsCtor 9; ValueCtor; ValueCtor; ValueCtor] /\
     @same_vector nat 0 three_constructed w').
Proof.
  assert (forall b, Some 0 = Some b ->
            b < length (heap three_constructed) /\
            init_moves_from (FromArgs 9) <> Some b) as Hbuf.
  { intros b [= <-]. split; [simpl; lia|done]. }
  split.
  - apply (proj1 (@EmplaceBack_strong_guarantee nat (Thrower 4)
                    three_constructed 0 _ (FromArgs 9) eq_refl eq_refl Hbuf)
             (ArgsCtor 9)); reflexivity.
  - eexists. split; [vm_compute; reflexivity|]. split; [reflexivity|].
    apply (proj2 (@EmplaceBack_strong_guarantee nat (Thrower 5)
                    three_constructed 0 _ (FromArgs 9) eq_refl eq_refl Hbuf));
      vm_compute; reflexivity.
Defined.

(** C1, as stated, fails when the value appended is an element of the
    vector itself, passed as an rvalue: [v.PushBack(std::move(v[0]))] on the
    full vector [[1; 2; 3]] of a class that is copied on reallocation.  The
    new element is move-constructed in the new block first, which leaves
    [v[0]] moved-from; the copy of the first element then throws, and the
    vector shows [[0; 2; 3]]. *)
Lemma append_of_own_rvalue_not_restored :
  exists w',
    @PushBack_move nat Fragile 0 (Ptr (Some 0) 0) three_of_three = Throw w' /\
    @elements nat three_of_three 0 = Some [1; 2; 3] /\
    @elements nat w' 0 = Some [0; 2; 3] /\
    @size_of nat w' 0 = Some 3 /\ @capacity_of nat w' 0 = Some 3 /\
    ~ @same_vector nat 0 three_of_three w'.
Proof.
  eexists. split; [vm_compute; reflexivity|].
  do 4 (split; [reflexivity|]).
  intros (_ & _ & _ & _ & He). vm_compute in He. discriminate He.
Qed.

End StrongGuaranteeExamples.

(** ** The growth factor *)

Section GrowthFactor.
Context {T : Type} `{!Element T}.
Implicit Types (w : world T) (v : Vector) (P O : nat -> Prop).

Local Abbreviation touches P m := (@respects T (keeps P) _ m) (only parsing).

(** Whatever the element type and the arguments, an [EmplaceBack] that
    returns has added one to the size and grown a full vector. *)
Lemma EmplaceBack_record w this v a :
  vector_at w this = Some v ->
  wp True (EmplaceBack this a)
    (fun _ w' => exists v',
       vector_at w' this = Some v' /\ size_ v' = size_ v + 1 /\
       capacity_ (data_ v') =
         capacity_after_append (size_ v) (capacity_ (data_ v)))
    (fun _ => True) w.
Proof.
  intros Hv. unfold EmplaceBack, capacity_after_append.
  apply wp_bind. eapply wp_load; [done|].
  apply wp_bind. destruct (decide (size_ v = capacity_ (data_ v))) as [Hfull|Hroom].
  - apply wp_bind. apply wp_RawMemory_new_any. intros w1 d Ho1 _ Hcap _.
    apply wp_bind. apply wp_rethrow_after. apply wp_bind.
    eapply (wp_keeps (fun _ => True)).
    { by apply respects_placement_new. }
    2:{ intros w2 _. by apply wp_excused. }
    intros ? w2 Hk2.
    assert (vector_at w2 this = Some v) as Hv2.
    { by rewrite (keeps_vector_at _ _ _ _ Hk2), (vector_at_objs_eq _ _ _ Ho1). }
    eapply wp_mono; [apply (CopyOrMove_keeps this v d w2 Hv2)| |].
    2:{ intros w3 _. by apply wp_excused. }
    intros ? w3 Hk3. simpl.
    apply wp_bind. eapply (wp_keeps (fun _ => True)).
    { by apply respects_destroy_n. }
    2:{ done. }
    intros ? w4 Hk4.
    assert (vector_at w4 this = Some v) as Hv4.
    { by rewrite (keeps_vector_at _ _ _ _ Hk4), (keeps_vector_at _ _ _ _ Hk3). }
    apply wp_bind. unfold Swap_data.
    apply wp_bind. eapply wp_load; [done|].
    apply wp_bind. eapply wp_set_data; [done|]. apply wp_ret.
    eapply (wp_keeps (fun _ => True)).
    { by apply respects_Deallocate. }
    2:{ done. }
    intros ? w5 Hk5.
    assert (vector_at w5 this = Some {| data_ := d; size_ := size_ v |}) as Hv5.
    { rewrite (keeps_vector_at _ _ _ _ Hk5).
      apply vector_at_put_object_eq. by eapply vector_at_lt. }
    apply wp_bind. eapply wp_load; [done|].
    apply wp_bind. eapply wp_set_size; [done|]. apply wp_ret.
    eexists. split; [apply vector_at_put_object_eq; by eapply vector_at_lt|].
    simpl. split; [done|]. rewrite Hcap. unfold grown.
    rewrite Hfull. by repeat case_decide.
  - eapply (wp_keeps (fun _ => True)).
    { by apply respects_placement_new. }
    2:{ done. }
    intros ? w1 Hk1.
    assert (vector_at w1 this = Some v) as Hv1
      by by rewrite (keeps_vector_at _ _ _ _ Hk1).
    apply wp_bind. eapply wp_load; [done|].
    apply wp_bind. eapply wp_set_size; [done|]. apply wp_ret.
    eexists. split; [apply vector_at_put_object_eq; by eapply vector_at_lt|].
    done.
Qed.

(** Appends that all return take sizes and capacities along the doubling
    sequence. *)
Lemma appends_record w this v args :
  vector_at w this = Some v -> doubling (size_ v) (capacity_ (data_ v)) ->
  wp True (appends this args)
    (fun _ w' => exists v',
       vector_at w' this = Some v' /\ size_ v' = size_ v + length args /\
       doubling (size_ v') (capacity_ (data_ v')))
    (fun _ => True) w.
Proof.
  revert w v. induction args as [|a args IH]; intros w v Hv Hd.
  - simpl. apply wp_ret. exists v. split; [done|]. split; [lia|done].
  - simpl. apply wp_bind.
    eapply wp_mono; [apply (EmplaceBack_record w this v a Hv)| |done].
    intros _ w1 (v1 & Hv1 & Hs1 & Hc1). simpl.
    eapply wp_mono; [apply (IH w1 v1 Hv1)| |done].
    + rewrite Hs1, Hc1, Nat.add_1_r. by apply doubling_step.
    + intros _ w' (v' & Hv' & Hs' & Hd'). exists v'.
      split; [done|]. split; [lia|done].
Qed.

(** C2: appends to an empty vector of capacity 0.  Whatever the element type
    and the arguments, when [k >= 1] appends in a row have all returned the
    capacity is the smallest power of two that is at least [k]; they do all
    return when the constructor called and the transfer of elements do not
    throw.  One append to a valid vector with [size == capacity] returns under
    the same conditions and leaves the capacity [max(1, capacity * 2)]. *)
Theorem append_capacity :
  (forall w this args w',
     vector_at w this = Some {| data_ := RawMemory_default; size_ := 0 |} ->
     args <> [] -> appends this args w = Ret w' tt ->
     exists c, capacity_of w' this = Some c /\
               size_of w' this = Some (length args) /\
               smallest_power_of_two_from (length args) c) /\
  (forall w this vs,
     holds w this None [] 0 -> nothrow_args_ctor -> nothrow_transfer ->
     exists w' buf c,
       appends this (map FromArgs vs) w = Ret w' tt /\
       holds w' this buf vs c) /\
  (forall w this buf xs a x,
     holds w this buf xs (length xs) ->
     init_value w a = Some x ->
     (forall b, buf = Some b -> init_moves_from a <> Some b) ->
     nothrow_init a -> nothrow_transfer ->
     exists w' r buf',
       EmplaceBack this a w = Ret w' r /\
       holds w' this buf' (xs ++ [x]) (Nat.max 1 (length xs * 2))).
Proof.
  split; [|split].
  - intros w this args w' Hv Hargs Hrun.
    pose proof (appends_record w this _ args Hv (or_introl (conj eq_refl eq_refl)))
      as Hwp.
    apply (wp_ret_inv _ _ _ _ _ _ _ Hwp) in Hrun as (v' & Hv' & Hs' & Hd').
    simpl in Hs'. exists (capacity_ (data_ v')).
    unfold capacity_of, size_of. rewrite Hv'. split; [done|].
    split; [by rewrite Hs'|]. rewrite <- Hs'. apply doubling_smallest; [|done].
    rewrite Hs'. destruct args; [done|simpl; lia].
  - intros w this vs Hh Hna Hnt.
    destruct (appends_args_run w this None [] 0 vs Hh
                (or_introl (conj eq_refl eq_refl)) Hna Hnt)
      as (w' & buf' & c' & Hrun & Hh' & _).
    eauto.
  - intros w this buf xs a x Hh Hx Hout Hni Hnt.
    cut (wp False (EmplaceBack this a)
           (fun _ w' => exists buf',
              holds w' this buf' (xs ++ [x]) (Nat.max 1 (length xs * 2)))
           (fun _ => False) w).
    { intros (w' & r & Hrun & buf' & Hh')%wp_total. eauto. }
    eapply wp_EmplaceBack; [done..|by apply nothrow_quiet_init
                           |by apply nothrow_quiet_transfer|].
    intros w' buf' Hh' _. exists buf'.
    replace (Nat.max 1 (length xs * 2))
      with (capacity_after_append (length xs) (length xs)); [done|].
    unfold capacity_after_append. rewrite decide_True by done.
    case_decide; lia.
Qed.

End GrowthFactor.

Section GrowthFactorExamples.
#[local] Existing Instance Int.

Lemma append_capacity_witness :
  match appends 0 (map FromArgs [1; 2; 3; 4; 5])
          one_empty_vector with
  | Ret w' _ =>
      exists c, capacity_of w' 0 = Some c /\ size_of w' 0 = Some 5 /\
                smallest_power_of_two_from 5 c
  | _ => False
  end.
Proof.
  destruct (appends 0 (map FromArgs [1; 2; 3; 4; 5]) one_empty_vector)
    as [w' []| |] eqn:Hrun; [|done|done].
  by apply (proj1 append_capacity one_empty_vector 0
              (map FromArgs [1; 2; 3; 4; 5]) w' eq_refl).
Defined.

(** Five appends to a default-constructed vector: capacities 1, 2, 4, 4, 8. *)
Lemma five_appends :
  exists w',
    appends 0 (map FromArgs [1; 2; 3; 4; 5]) one_empty_vector = Ret w' tt /\
    capacity_of w' 0 = Some 8 /\ elements w' 0 = Some [1; 2; 3; 4; 5].
Proof. eexists. split; [vm_compute; reflexivity|]. by split. Qed.

End GrowthFactorExamples.

(** ** Making room in place *)

Section ShiftUp.
Context {T : Type} `{!Element T}.
Implicit Types (w : world T) (v : Vector) (blk pre post : list (slot T)).

(** [std::move_backward(first, first + n, first + n + 1)]: the objects [ys]
    move one slot up, over the object [t] behind them. *)
Lemma wp_std_move_backward_up U first d_last b pre ys t post Q E w :
  base first = Some b -> base d_last = Some b ->
  off first = length pre -> off d_last = length pre + length ys + 1 ->
  block_at w b = Some (pre ++ map Obj ys ++ Obj t :: post) ->
  quiet_move_assign U E ->
  (forall w',
     heap w' = <[b := Block (pre ++ Obj (landing ys t) :: map Obj ys ++ post)]>
                 (heap w) ->
     objs w' = objs w -> Q tt w') ->
  wp U (std_move_backward first (length ys) d_last) Q E w.
Proof.
  intros Hf Hd Hof. revert d_last t post w Q Hd.
  induction ys as [|y ys IH] using rev_ind;
    intros d_last t post w Q Hd Hod Hb Hq HQ.
  - simpl. apply wp_ret. apply HQ; [|done]. simpl.
    symmetry. apply list_insert_id. by apply block_at_Some.
  - rewrite length_app, Nat.add_1_r. simpl.
    rewrite length_app in Hod. simpl in Hod.
    rewrite map_app, <- (assoc_L (++)) in Hb. simpl in Hb.
    pose proof (block_at_lt _ _ _ Hb) as Hlt.
    apply wp_bind. apply wp_ptr_sub; [lia|].
    apply wp_bind.
    assert ((pre ++ map Obj ys ++ Obj y :: Obj t :: post) !! (off first + length ys)
            = Some (Obj y)) as Hsrc.
    { rewrite (assoc_L (++)).
      replace (off first + length ys) with (length (pre ++ map Obj ys))
        by (rewrite length_app, length_map; lia).
      apply lookup_at_length. }
    assert ((pre ++ map Obj ys ++ Obj y :: Obj t :: post) !! (off d_last - 1)
            = Some (Obj t)) as Hdst.
    { rewrite (assoc_L (++)).
      replace (off d_last - 1) with (S (length (pre ++ map Obj ys)))
        by (rewrite length_app, length_map; lia).
      rewrite (lookup_app_r (pre ++ map Obj ys)) by lia.
      by rewrite Nat.sub_succ_l, Nat.sub_diag by lia. }
    eapply (wp_move_assign_within _ _ _ b _ t y); [done|done|exact Hb|..|done|].
    { exact Hdst. }
    { exact Hsrc. }
    intros w1 Hh1 Ho1. simpl in Hh1.
    assert (block_at w1 b =
            Some (pre ++ map Obj ys ++ Obj (moved_from y) :: Obj y :: post))
      as Hb1.
    { eapply block_at_heap_eq; [|done]. rewrite Hh1. do 2 f_equal.
      rewrite !(assoc_L (++) pre).
      replace (off first + length ys) with (length (pre ++ map Obj ys))
        by (rewrite length_app, length_map; lia).
      replace (off d_last - 1) with (S (length (pre ++ map Obj ys)))
        by (rewrite length_app, length_map; lia).
      rewrite insert_at_length.
      rewrite (insert_app_r_alt (pre ++ map Obj ys)) by lia.
      by rewrite Nat.sub_succ_l, Nat.sub_diag by lia. }
    eapply (IH _ (moved_from y) (Obj y :: post)); [done| |exact Hb1|done|].
    { simpl. lia. }
    intros w2 Hh2 Ho2. apply HQ; [|congruence].
    rewrite (heap_insert_insert _ _ _ _ _ _ Hh1 Hh2).
    replace (landing (ys ++ [y]) t) with (landing ys (moved_from y))
      by (by destruct ys).
    by rewrite map_app, <- (assoc_L (++)).
Qed.

Lemma quiet_trivial_move_ctor : quiet_move_ctor True (fun _ : world T => True).
Proof. by intros h x _. Qed.
Lemma quiet_trivial_move_assign : quiet_move_assign True (fun _ : world T => True).
Proof. by intros h d s _. Qed.

(** Lines 246-247 of [Emplace], before the element [hd z ys] of a valid
    vector holding [xs1 ++ ys ++ [z]] with room left: afterwards the block
    holds one more object than the vector has elements. *)
Lemma wp_shift_up U w this b xs1 ys z c Q E :
  holds w this (Some b) (xs1 ++ ys ++ [z]) c ->
  length (xs1 ++ ys ++ [z]) < c ->
  quiet_move_ctor U E -> quiet_move_assign U E ->
  (forall w',
     heap w' = <[b := Block (map Obj xs1 ++ Obj (moved_from (hd z ys))
                               :: map Obj (ys ++ [z])
                               ++ replicate (c - S (length (xs1 ++ ys ++ [z]))) Raw)]>
                 (heap w) ->
     objs w' = objs w -> Q tt w') ->
  wp U (shift_up this (Ptr (Some b) (length xs1))) Q E w.
Proof.
  intros Hh Hroom Hqc Hqa HQ.
  pose proof (holds_vector_at _ _ _ _ _ Hh) as Hv.
  destruct Hh as [_ [Hb _]].
  pose proof (block_at_lt _ _ _ Hb) as Hlt.
  set (n := length (xs1 ++ ys ++ [z])) in *.
  assert (n = length xs1 + length ys + 1) as Hn
    by (unfold n; rewrite !length_app; simpl; lia).
  replace (c - n) with (S (c - S n)) in Hb by lia.
  rewrite !map_app, <- !(assoc_L (++)) in Hb. simpl in Hb.
  unfold shift_up.
  apply wp_bind. eapply wp_end; [done|]. simpl.
  apply wp_bind. apply wp_ptr_sub; [simpl; lia|]. simpl.
  apply wp_bind. unfold placement_new, construct.
  assert ((map Obj xs1 ++ map Obj ys ++ Obj z :: Raw :: replicate (c - S n) Raw)
            !! (n - 1) = Some (Obj z)) as Hz.
  { rewrite (assoc_L (++)).
    replace (n - 1) with (length (map Obj xs1 ++ map Obj ys))
      by (rewrite length_app, !length_map; lia).
    apply lookup_at_length. }
  apply wp_bind. apply wp_bind. eapply wp_read; [done|exact Hb|exact Hz|].
  apply wp_bind. apply wp_call_quiet; [apply Hqc|].
  apply wp_bind. eapply wp_write;
    [done|by rewrite block_at_logged|by eapply lookup_lt_Some|].
  apply wp_ret. simpl.
  eapply wp_write; [done|by apply block_at_put_block_eq| |].
  { simpl. rewrite length_insert, !length_app, !length_map. simpl.
    rewrite length_replicate. lia. }
  set (w1 := put_block b _ _).
  assert (block_at w1 b =
          Some (map Obj xs1 ++ map Obj ys ++ Obj (moved_from z) :: Obj z
                  :: replicate (c - S n) Raw)) as Hb1.
  { unfold w1. rewrite block_at_put_block_eq
      by (by rewrite length_heap_put_block). f_equal. simpl.
    rewrite !(assoc_L (++) (map Obj xs1)).
    replace (n - 1) with (length (map Obj xs1 ++ map Obj ys))
      by (rewrite length_app, !length_map; lia).
    rewrite insert_at_length.
    rewrite (insert_app_r_alt (map Obj xs1 ++ map Obj ys))
      by (rewrite length_app, !length_map; lia).
    by replace (n - length (map Obj xs1 ++ map Obj ys)) with 1
      by (rewrite length_app, !length_map; lia). }
  apply wp_bind. apply wp_ptr_diff; [done|simpl; lia|]. simpl.
  replace (n - 1 - length xs1) with (length ys) by lia.
  eapply (wp_std_move_backward_up _ _ _ b (map Obj xs1) ys (moved_from z));
    [done|done|by simpl; rewrite length_map
    |simpl; rewrite length_map; lia|exact Hb1|done|].
  intros w2 Hh2 Ho2. apply HQ; [|by rewrite Ho2].
  rewrite Hh2. unfold w1. simpl. rewrite !list_insert_insert_eq.
  replace (landing ys (moved_from z)) with (moved_from (hd z ys))
    by (by destruct ys).
  by rewrite map_app, <- (assoc_L (++)).
Qed.

End ShiftUp.

(** ** In-place insertion and exceptions *)

Section NotUnwound.
Context {T : Type} `{!Element T}.
Implicit Types (w : world T) (v : Vector) (blk pre post : list (slot T)).

Lemma construct_Throw_inv a w w' :
  construct a w = Throw w' -> heap w' = heap w /\ objs w' = objs w.
Proof.
  destruct a as [x|r|r]; simpl; unfold bind, call, read, write, ret.
  - destruct (throws (log w) (ArgsCtor x)); [|done]. by intros [= <-].
  - destruct (base r) as [b|]; [|done].
    destruct (block_at w b) as [blk|]; [|done].
    destruct (blk !! off r) as [[|x]|]; try done.
    destruct (throws (log w) (CopyCtor x)); [|done]. by intros [= <-].
  - destruct (base r) as [b|]; [|done].
    destruct (block_at w b) as [blk|] eqn:Hb; [|done].
    destruct (blk !! off r) as [[|x]|]; try done.
    destruct (throws (log w) (MoveCtor x)); [by intros [= <-]|].
    rewrite block_at_logged, Hb. by case_decide.
Qed.

Lemma split_at_position (xs : list T) p :
  p < length xs -> exists xs1 ys z, xs = xs1 ++ ys ++ [z] /\ length xs1 = p.
Proof.
  intros Hp. rewrite <- (take_drop p xs).
  assert (drop p xs <> []) as Hne.
  { intros Hnil%(f_equal length). rewrite length_drop in Hnil. simpl in Hnil. lia. }
  destruct (drop p xs) as [|y ys] using rev_ind; [done|].
  exists (take p xs), ys, y. split; [done|]. rewrite length_take. lia.
Qed.

(** C8: [Emplace] at a position [begin() + q] that is not the end of a
    valid vector with [size < capacity], [p] being the index [Emplace]
    computes for it ([p] is [q] itself for every position that [int] holds).
    If the shift of lines 246-247 has been done and the constructor of the
    new value then throws, [Emplace] throws in the world the constructor
    left.  There the size is still [s], the slots [[0, s)] show the elements
    before [p], a moved-from object and the elements from [p] on but the
    last, and the last element sits in slot [s], outside [[0, size)]: the
    class invariant is broken and the vector is not what it was before the
    call. *)
Theorem Emplace_in_place_not_unwound w this b xs c q p a w1 w2 :
  holds w this (Some b) xs c -> q <> length xs ->
  to_int (Z.of_nat q) = Z.of_nat p ->
  p < length xs -> length xs < c ->
  shift_up this (Ptr (Some b) p) w = Ret w1 tt ->
  construct a w1 = Throw w2 ->
  Emplace this (Ptr (Some b) q) a w = Throw w2 /\
  size_of w2 this = Some (length xs) /\
  (exists xs1 ys z,
     xs = xs1 ++ ys ++ [z] /\ length xs1 = p /\
     elements w2 this = Some (xs1 ++ moved_from (hd z ys) :: ys) /\
     stray_object w2 this (length xs) z) /\
  (forall buf ys c', ~ holds w2 this buf ys c') /\
  ~ same_vector this w w2.
Proof.
  intros Hh Hq Hint Hp Hroom Hshift Hthrow.
  pose proof (holds_vector_at _ _ _ _ _ Hh) as Hv.
  destruct (construct_Throw_inv _ _ _ Hthrow) as [Hh2 Ho2].
  destruct (split_at_position xs p Hp) as (xs1 & ys & z & -> & Hlen).
  set (xs := xs1 ++ ys ++ [z]) in *.
  assert (length xs = length xs1 + length ys + 1) as Hn
    by (unfold xs; rewrite !length_app; simpl; lia).
  (* the world after the shift *)
  assert (block_at w1 b =
          Some (map Obj xs1 ++ Obj (moved_from (hd z ys)) :: map Obj (ys ++ [z])
                  ++ replicate (c - S (length xs)) Raw) /\ objs w1 = objs w)
    as [Hb1 Ho1].
  { refine (wp_returns _
              (fun _ w' =>
                 block_at w' b =
                   Some (map Obj xs1 ++ Obj (moved_from (hd z ys))
                           :: map Obj (ys ++ [z])
                           ++ replicate (c - S (length xs)) Raw) /\
                 objs w' = objs w) w w1 tt _ Hshift).
    rewrite <- Hlen.
    eapply (wp_shift_up True w this b xs1 ys z c);
      [done|done|apply quiet_trivial_move_ctor|apply quiet_trivial_move_assign|].
    intros w' Hh' Ho'. split; [|done].
    eapply block_at_heap_eq; [done|]. destruct Hh as [_ [Hb _]].
    by eapply block_at_lt. }
  assert (block_at w2 b = block_at w1 b) as Hb2 by by apply block_at_heap_same.
  assert (vector_at w2 this = vector_at w this) as Hv2.
  { by rewrite (vector_at_objs_eq _ _ _ Ho2), (vector_at_objs_eq _ _ _ Ho1). }
  assert (stray_object w2 this (length xs) z) as Hstray.
  { eexists _, _. split; [by rewrite Hv2|]. unfold storage. simpl.
    split; [by rewrite Hb2|]. split; [done|].
    change (map Obj xs1 ++ Obj (moved_from (hd z ys)) :: ?l)
      with (map Obj xs1 ++ [Obj (moved_from (hd z ys))] ++ l).
    rewrite map_app, <- !(assoc_L (++)), !(assoc_L (++) (map Obj xs1)).
    rewrite (assoc_L (++) _ (map Obj ys)). simpl.
    replace (length xs)
      with (length ((map Obj xs1 ++ [Obj (moved_from (hd z ys))]) ++ map Obj ys))
      by (rewrite !length_app, !length_map; simpl; lia).
    apply lookup_at_length. }
  split; [|split; [|split; [|split]]].
  - cut (wp False (Emplace this (Ptr (Some b) q) a) (fun _ _ => False)
           (fun w' => w' = w2) w).
    { by intros (w' & Hrun & ->)%wp_throws. }
    unfold Emplace.
    apply wp_bind. eapply wp_end; [done|]. simpl.
    rewrite decide_False by (by intros [= ?]).
    apply wp_bind. eapply wp_begin; [done|]. simpl.
    apply wp_bind. apply wp_ptr_diff; [done|simpl; lia|]. simpl.
    rewrite Nat.sub_0_r, Hint, Nat2Z.id.
    apply wp_bind. apply wp_ptr_add_int.
    apply wp_bind. eapply wp_load; [done|]. simpl.
    rewrite decide_True by done.
    change (ptr_add (GetAddress {| buffer_ := Some b; capacity_ := c |}) p)
      with (Ptr (Some b) p).
    apply wp_bind. apply wp_bind. unfold wp at 1. rewrite Hshift.
    unfold assign_temporary. apply wp_bind. unfold wp. by rewrite Hthrow.
  - unfold size_of. by rewrite Hv2, Hv.
  - exists xs1, ys, z. split; [done|]. split; [done|]. split; [|done].
    unfold elements. rewrite Hv2, Hv. unfold storage. simpl. rewrite Hb2, Hb1.
    rewrite decide_True
      by (repeat first [rewrite length_app|rewrite length_map
                       |rewrite length_replicate|rewrite length_cons]; lia).
    change (map Obj xs1 ++ Obj (moved_from (hd z ys)) :: ?l)
      with (map Obj xs1 ++ [Obj (moved_from (hd z ys))] ++ l).
    rewrite map_app, <- !(assoc_L (++)), !(assoc_L (++) (map Obj xs1)).
    rewrite (assoc_L (++) _ (map Obj ys)).
    rewrite take_app_length'
      by (rewrite !length_app, !length_map; simpl; lia).
    change [Obj (moved_from (hd z ys))] with (map Obj [moved_from (hd z ys)]).
    rewrite <- !map_app, objects_map_Obj. by rewrite <- (assoc_L (++)).
  - intros buf ys' c' Hh'.
    pose proof (holds_vector_at _ _ _ _ _ Hh') as Hv'.
    rewrite Hv2, Hv in Hv'. injection Hv' as <- <- Hlen'.
    destruct Hstray as (v' & blk & Hv'' & Hst & _ & Hz).
    rewrite Hv2, Hv in Hv''. injection Hv'' as <-.
    unfold storage in Hst. simpl in Hst.
    destruct Hh' as [_ [Hb' _]]. rewrite Hb' in Hst. injection Hst as <-.
    rewrite lookup_app_r in Hz by (rewrite length_map; lia).
    rewrite length_map, <- Hlen', Nat.sub_diag in Hz.
    destruct (c - length xs) as [|k] eqn:Hk; [lia|]. done.
  - intros (_ & Hst & _).
    specialize (Hst _ Hv). unfold storage in Hst. simpl in Hst.
    destruct Hh as [_ [Hb _]]. rewrite Hb in Hst.
    destruct Hstray as (v' & blk & Hv'' & Hst' & _ & Hz).
    rewrite Hv2, Hv in Hv''. injection Hv'' as <-.
    unfold storage in Hst'. simpl in Hst'. rewrite Hst in Hst'.
    injection Hst' as <-.
    rewrite lookup_app_r in Hz by (rewrite length_map; lia).
    rewrite length_map, Nat.sub_diag in Hz.
    destruct (c - length xs) as [|k] eqn:Hk; [lia|]. done.
Qed.

End NotUnwound.

Section NotUnwoundExamples.

(** [v.Emplace(v.begin(), 9)] on a vector holding [[1; 2; 3]] in four
    slots, of a class whose second constructor call throws: the first call
    moves 3 into the free slot, the second is to build the 9. *)
Definition shifted : world nat :=
  Eval vm_compute in
    match @shift_up nat (Thrower 2) 0 (Ptr (Some 0) 0) three_of_four with
    | Ret w _ => w
    | _ => empty_world
    end.

Definition thrown : world nat :=
  Eval vm_compute in
    match @construct nat (Thrower 2) (FromArgs 9) shifted with
    | Throw w => w
    | _ => empty_world
    end.

Lemma Emplace_in_place_not_unwound_witness :
  @Emplace nat (Thrower 2) 0 (Ptr (Some 0) 0) (FromArgs 9) three_of_four
    = Throw thrown /\
  size_of thrown 0 = Some 3 /\
  (exists xs1 ys z,
     [1; 2; 3] = xs1 ++ ys ++ [z] /\ length xs1 = 0 /\
     elements thrown 0 = Some (xs1 ++ hd z ys :: ys) /\
     stray_object thrown 0 3 z) /\
  (forall buf ys c', ~ holds thrown 0 buf ys c') /\
  ~ same_vector 0 three_of_four thrown.
Proof.
  apply (@Emplace_in_place_not_unwound nat (Thrower 2) three_of_four 0 0
           [1; 2; 3] 4 0 0 (FromArgs 9) shifted thrown).
  - split; [reflexivity|split; [reflexivity|simpl; lia]].
  - simpl. lia.
  - reflexivity.
  - simpl. lia.
  - simpl. lia.
  - vm_compute. reflexivity.
  - vm_compute. reflexivity.
Defined.

(** The vector after the exception: it shows [[1; 1; 2]], and the 3 is in
    the slot behind them. *)
Lemma thrown_state :
  elements thrown 0 = Some [1; 1; 2] /\
  block_at thrown 0 = Some [Obj 1; Obj 1; Obj 2; Obj 3] /\
  size_of thrown 0 = Some 3.
Proof. by repeat split. Qed.

End NotUnwoundExamples.

(** ** What a mutator of one vector leaves alone *)

Section Mutators.
Context {T : Type} `{!Element T}.
Implicit Types (w : world T) (v : Vector) (P O extra : nat -> Prop).

Local Abbreviation touches P m := (@respects T (keeps P) _ m) (only parsing).

Lemma mutated_refl this v extra w :
  vector_at w this = Some v -> mutated this v extra w w.
Proof.
  intros Hv. split; [apply extends_refl|]. split; [done|].
  exists v. split; [done|]. intros b Hb. by left.
Qed.

Lemma mutated_keeps this v extra w wi wj P :
  mutated this v extra w wi -> keeps P wi wj ->
  (forall b, P b -> allowed v extra w b) ->
  mutated this v extra w wj.
Proof.
  intros (Hext & Hlen & v' & Hv' & Hb') Hk HP.
  split; [eapply extends_keeps; [done..|]|].
  { intros b [?|[?|?]]%HP; auto. }
  destruct Hk as (Ho & _). split; [by rewrite Ho|].
  exists v'. split; [|done]. by rewrite (vector_at_objs_eq _ _ _ Ho).
Qed.

Lemma mutated_put_object this v extra w wi v' :
  mutated this v extra w wi ->
  (forall b, buffer_ (data_ v') = Some b -> allowed v extra w b) ->
  mutated this v extra w (put_object this (Some v') wi).
Proof.
  intros (Hext & Hlen & vi & Hvi & _) Hb'.
  split; [by apply extends_put_object|].
  split; [by rewrite length_objs_put_object|].
  exists v'. split; [|done]. apply vector_at_put_object_eq. by eapply vector_at_lt.
Qed.

Lemma mutated_heap_le this v extra w wi :
  mutated this v extra w wi -> length (heap w) <= length (heap wi).
Proof. by intros ((Hl & _) & _). Qed.

Lemma wp_mutated_keeps {A} this v extra w wi P (m : M T A) Q E :
  mutated this v extra w wi -> touches P m ->
  (forall b, P b -> allowed v extra w b) ->
  (forall a wj, mutated this v extra w wj -> objs wj = objs wi -> Q a wj) ->
  (forall wj, mutated this v extra w wj -> objs wj = objs wi -> E wj) ->
  wp True m Q E wi.
Proof.
  intros Hm Ht HP HQ HE. eapply wp_keeps; [done|..].
  - intros a wj Hk. apply HQ; [by eapply mutated_keeps|]. by destruct Hk.
  - intros wj Hk. apply HE; [by eapply mutated_keeps|]. by destruct Hk.
Qed.

Lemma wp_mutated_keeps_silent {A} this v extra w wi P (m : M T A) Q E :
  mutated this v extra w wi -> touches P m -> nothrows m ->
  (forall b, P b -> allowed v extra w b) ->
  (forall a wj, mutated this v extra w wj -> objs wj = objs wi -> Q a wj) ->
  wp True m Q E wi.
Proof.
  intros Hm Ht Hs HP HQ.
  pose proof (Ht wi) as H1. pose proof (Hs wi) as H2. unfold wp in *.
  destruct (m wi) as [wj a|wj|]; [|done|done].
  apply HQ; [by eapply mutated_keeps|]. by destruct H1.
Qed.

Lemma wp_mutated_RawMemory_new this v extra w wi n Q E :
  mutated this v extra w wi ->
  (forall wj d,
     mutated this v extra w wj -> objs wj = objs wi -> capacity_ d = n ->
     (forall b, buffer_ d = Some b -> allowed v extra w b) -> Q d wj) ->
  wp True (RawMemory_new n) Q E wi.
Proof.
  intros Hm HQ. apply wp_RawMemory_new_any. intros wj d Ho _ Hcap Hd.
  pose proof (mutated_heap_le _ _ _ _ _ Hm) as Hle.
  destruct Hm as (Hext & Hlen & vi & Hvi & Hbi).
  destruct (extends_RawMemory_new _ _ w wi wj n d Hext Ho Hd) as [Hext' Hfresh].
  apply HQ; [|done|done|].
  - split; [done|]. split; [by rewrite Ho|]. exists vi.
    split; [by rewrite (vector_at_objs_eq _ _ _ Ho)|done].
  - intros b Hb. right. right. by apply Hfresh.
Qed.

(** The end of every growing path: the old elements are destroyed, the
    buffers exchanged and the old one released. *)
Lemma wp_mutated_commit this v extra w wi vi d Q E :
  mutated this v extra w wi -> vector_at wi this = Some vi ->
  (forall b, buffer_ (data_ vi) = Some b -> allowed v extra w b) ->
  (forall b, buffer_ d = Some b -> allowed v extra w b) ->
  (forall wj,
     mutated this v extra w wj ->
     vector_at wj this = Some {| data_ := d; size_ := size_ vi |} -> Q tt wj) ->
  wp True
    (bind (destroy_n (GetAddress (data_ vi)) (size_ vi))
       (fun _ => bind (Swap_data this d) (fun nd => RawMemory_delete nd)))
    Q E wi.
Proof.
  intros Hm Hvi Hbi Hd HQ. apply wp_bind.
  eapply (wp_mutated_keeps_silent _ _ _ _ _
            (fun b => buffer_ (data_ vi) = Some b));
    [done|by apply respects_destroy_n|apply nothrows_destroy_n|done|].
  intros ? w1 Hm1 Ho1.
  assert (vector_at w1 this = Some vi) as Hv1
    by by rewrite (vector_at_objs_eq _ _ _ Ho1).
  apply wp_bind. unfold Swap_data.
  apply wp_bind. eapply wp_load; [done|].
  apply wp_bind. eapply wp_set_data; [done|]. apply wp_ret.
  set (w2 := put_object _ _ w1).
  assert (mutated this v extra w w2) as Hm2 by by apply mutated_put_object.
  assert (vector_at w2 this = Some {| data_ := d; size_ := size_ vi |}) as Hv2.
  { apply vector_at_put_object_eq. by eapply vector_at_lt. }
  eapply (wp_mutated_keeps_silent _ _ _ _ _
            (fun b => buffer_ (data_ vi) = Some b));
    [done|by apply respects_Deallocate|apply nothrows_Deallocate|done|].
  intros [] w3 Hm3 Ho3. apply HQ; [done|].
  by rewrite (vector_at_objs_eq _ _ _ Ho3).
Qed.

Lemma wp_ptr_sub_any p n Q E w :
  (n <= off p -> Q (Ptr (base p) (off p - n)) w) -> wp True (ptr_sub p n) Q E w.
Proof. intros HQ. unfold ptr_sub. case_decide; [by apply wp_ret, HQ|done]. Qed.

Lemma wp_ptr_diff_any p q Q E w :
  (base p = base q -> off q <= off p -> Q (off p - off q) w) ->
  wp True (ptr_diff p q) Q E w.
Proof.
  intros HQ. unfold ptr_diff. case_decide as Hd; [|done].
  destruct Hd. by apply wp_ret, HQ.
Qed.

(** A growing path: a new buffer is filled by [body], which may throw, and
    then takes the place of the old one. *)
Lemma wp_mutated_grow this v extra w wi vi n (body : RawMemory -> M T unit)
    (Pd : RawMemory -> nat -> Prop) Q E :
  mutated this v extra w wi -> vector_at wi this = Some vi ->
  (forall b, buffer_ (data_ vi) = Some b -> allowed v extra w b) ->
  (forall d wj, vector_at wj this = Some vi ->
     wp True (body d) (fun _ => keeps (Pd d) wj) (keeps (Pd d) wj) wj) ->
  (forall d b, Pd d b ->
     buffer_ d = Some b \/ buffer_ (data_ vi) = Some b \/ extra b) ->
  (forall wj d,
     mutated this v extra w wj ->
     vector_at wj this = Some {| data_ := d; size_ := size_ vi |} ->
     capacity_ d = n -> Q tt wj) ->
  (forall wj, mutated this v extra w wj -> E wj) ->
  wp True
    (bind (RawMemory_new n)
       (fun d =>
          bind (rethrow_after (body d) (RawMemory_delete d))
            (fun _ =>
               bind (destroy_n (GetAddress (data_ vi)) (size_ vi))
                 (fun _ => bind (Swap_data this d)
                             (fun nd => RawMemory_delete nd)))))
    Q E wi.
Proof.
  intros Hm Hvi Hbi Hbody HPd HQ HE.
  apply wp_bind. eapply wp_mutated_RawMemory_new; [done|].
  intros w1 d Hm1 Ho1 Hcap Hd.
  assert (vector_at w1 this = Some vi) as Hv1
    by by rewrite (vector_at_objs_eq _ _ _ Ho1).
  assert (forall b, Pd d b -> allowed v extra w b) as HPa.
  { intros b [Hb|[Hb|Hb]]%HPd; [by apply Hd|by apply Hbi|right; by left]. }
  apply wp_bind. apply wp_rethrow_after.
  eapply wp_mono; [apply (Hbody d w1 Hv1)|..].
  - intros [] w2 Hk2. simpl.
    eapply wp_mutated_commit; [by eapply mutated_keeps| |done|done|].
    { by rewrite (keeps_vector_at _ _ _ _ Hk2). }
    intros w3 Hm3 Hv3. by eapply HQ.
  - intros w2 Hk2. simpl.
    eapply (wp_mutated_keeps_silent _ _ _ _ _ (fun b => buffer_ d = Some b));
      [by eapply mutated_keeps|by apply respects_Deallocate
      |apply nothrows_Deallocate|done|].
    intros _ w3 Hm3 _. by apply HE.
Qed.

Lemma Reserve_mutated this v extra w wi n :
  mutated this v extra w wi ->
  wp True (Reserve this n) (fun _ => mutated this v extra w)
    (mutated this v extra w) wi.
Proof.
  intros Hm. pose proof Hm as (_ & _ & vi & Hvi & Hbi).
  unfold Reserve. apply wp_bind. eapply wp_load; [done|].
  case_decide; [by apply wp_ret|].
  eapply (wp_mutated_grow _ _ _ _ _ vi n (fun d => CopyOrMove this d)
            (fun d b => buffer_ d = Some b \/
                        (transfers_by_move = true /\ buffer_ (data_ vi) = Some b)));
    [done|done|done| | |by intros|done].
  - intros d wj Hvj. by apply CopyOrMove_keeps.
  - intros d b [?|[_ ?]]; auto.
Qed.

Lemma PopBack_mutated this v extra w wi :
  mutated this v extra w wi ->
  wp True (PopBack this) (fun _ => mutated this v extra w)
    (mutated this v extra w) wi.
Proof.
  intros Hm. pose proof Hm as (_ & _ & vi & Hvi & Hbi).
  unfold PopBack. apply wp_bind. eapply wp_load; [done|].
  apply wp_bind. apply wp_ptr_sub_any. intros _. apply wp_bind.
  eapply (wp_mutated_keeps_silent _ _ _ _ _
            (fun b => buffer_ (data_ vi) = Some b));
    [done|by apply respects_destroy_at|apply nothrows_destroy_at|done|].
  intros _ w1 Hm1 Ho1.
  eapply wp_set_size; [by rewrite (vector_at_objs_eq _ _ _ Ho1)|].
  by apply mutated_put_object.
Qed.

Lemma Resize_mutated this v extra w wi n :
  mutated this v extra w wi ->
  wp True (Resize this n) (fun _ => mutated this v extra w)
    (mutated this v extra w) wi.
Proof.
  intros Hm. pose proof Hm as (_ & _ & vi & Hvi & Hbi).
  unfold Resize. apply wp_bind. eapply wp_load; [done|].
  apply wp_bind. case_decide.
  - eapply (wp_mutated_keeps_silent _ _ _ _ _
              (fun b => buffer_ (data_ vi) = Some b));
      [done|by apply respects_destroy_n|apply nothrows_destroy_n|done|].
    intros ? w1 Hm1 Ho1.
    eapply wp_set_size; [by rewrite (vector_at_objs_eq _ _ _ Ho1)|].
    by apply mutated_put_object.
  - apply wp_bind. eapply wp_mono; [by apply Reserve_mutated| |done].
    intros ? w1 Hm1. simpl. pose proof Hm1 as (_ & _ & v1 & Hv1 & Hb1).
    apply wp_bind. eapply wp_load; [done|].
    eapply (wp_mutated_keeps _ _ _ _ _ (fun b => buffer_ (data_ v1) = Some b));
      [exact Hm1|by apply respects_uninitialized_value_construct_n|done|
      |by intros].
    intros ? w2 Hm2 Ho2.
    eapply wp_set_size; [by rewrite (vector_at_objs_eq _ _ _ Ho2)|].
    by apply mutated_put_object.
Qed.

Lemma wp_mutated_bump this v extra w wi vi (k : nat) (f : Vector -> ptr) Q E :
  mutated this v extra w wi -> vector_at wi this = Some vi ->
  (forall b, buffer_ (data_ vi) = Some b -> allowed v extra w b) ->
  (forall wj, mutated this v extra w wj -> Q (f vi) wj) ->
  wp True
    (bind (load this)
       (fun v' => bind (set_size this (size_ v' + k)) (fun _ => ret (f v'))))
    Q E wi.
Proof.
  intros Hm Hvi Hbi HQ. apply wp_bind. eapply wp_load; [done|].
  apply wp_bind. eapply wp_set_size; [done|]. apply wp_ret.
  apply HQ. by apply mutated_put_object.
Qed.

Lemma EmplaceBack_mutated this v extra w wi a :
  mutated this v extra w wi ->
  (forall b, init_moves_from a = Some b -> extra b) ->
  wp True (EmplaceBack this a) (fun _ => mutated this v extra w)
    (mutated this v extra w) wi.
Proof.
  intros Hm Ha. pose proof Hm as (_ & _ & vi & Hvi & Hbi).
  unfold EmplaceBack. apply wp_bind. eapply wp_load; [done|].
  apply wp_bind. case_decide.
  - eapply (wp_mutated_grow _ _ _ _ _ vi (grown vi)
              (fun d => bind (placement_new (ptr_add (GetAddress d) (size_ vi)) a)
                          (fun _ => CopyOrMove this d))
              (fun d b => buffer_ d = Some b \/ buffer_ (data_ vi) = Some b \/
                          init_moves_from a = Some b));
      [done|done|done| | | |done].
    + intros d wj Hvj. apply wp_bind.
      eapply (wp_keeps (fun b => buffer_ d = Some b \/
                                 buffer_ (data_ vi) = Some b \/
                                 init_moves_from a = Some b));
        [apply respects_placement_new; unfold in_block; intros; simpl; auto
        | |done].
      intros ? w2 Hk2. simpl.
      eapply wp_mono; [apply (CopyOrMove_keeps this vi d w2)|..].
      * by rewrite (keeps_vector_at _ _ _ _ Hk2).
      * intros ? w3 Hk3. simpl. eapply keeps_trans; [exact Hk2|].
        eapply keeps_mono; [|exact Hk3]. intros b [?|[_ ?]]; auto.
      * intros w3 Hk3. simpl. eapply keeps_trans; [exact Hk2|].
        eapply keeps_mono; [|exact Hk3]. intros b [?|[_ ?]]; auto.
    + intros d b [?|[?|?]]; auto.
    + intros w1 d Hm1 Hv1 _.
      eapply (wp_mutated_bump _ _ _ _ _ _ 1
                (fun v' => ptr_add (GetAddress (data_ v')) (size_ v')));
        [done|done| |done].
      by destruct Hm1 as (_ & _ & v1 & Hv1' & Hb1); simplify_eq.
  - eapply (wp_mutated_keeps _ _ _ _ _
              (fun b => buffer_ (data_ vi) = Some b \/ init_moves_from a = Some b));
      [done|apply respects_placement_new; unfold in_block; intros; simpl; auto| | |by intros].
    { intros b [?|?]; [auto|right; left; auto]. }
    intros ? w1 Hm1 Ho1.
    eapply (wp_mutated_bump _ _ _ _ _ _ 1
              (fun v' => ptr_add (GetAddress (data_ v')) (size_ v')));
      [done|by rewrite (vector_at_objs_eq _ _ _ Ho1)|done|done].
Qed.

Lemma Erase_mutated this v extra w wi pos :
  mutated this v extra w wi ->
  wp True (Erase this pos) (fun _ => mutated this v extra w)
    (mutated this v extra w) wi.
Proof.
  intros Hm. pose proof Hm as (_ & _ & vi & Hvi & Hbi).
  unfold Erase.
  apply wp_bind. eapply wp_begin; [done|].
  apply wp_bind. apply wp_ptr_diff_any. intros _ _.
  apply wp_bind. apply wp_ptr_add_int_any. intros _.
  apply wp_bind. eapply wp_end; [done|].
  apply wp_bind. apply wp_ptr_diff_any. intros _ _.
  apply wp_bind.
  eapply (wp_mutated_keeps _ _ _ _ _ (fun b => buffer_ (data_ vi) = Some b));
    [done|by apply respects_std_move|done| |by intros].
  intros ? w1 Hm1 Ho1.
  assert (vector_at w1 this = Some vi) as Hv1
    by by rewrite (vector_at_objs_eq _ _ _ Ho1).
  apply wp_bind. eapply wp_load; [done|].
  apply wp_bind. eapply wp_set_size; [done|].
  set (w2 := put_object _ _ w1).
  assert (mutated this v extra w w2) as Hm2 by by apply mutated_put_object.
  assert (vector_at w2 this =
          Some {| data_ := data_ vi; size_ := size_ vi - 1 |}) as Hv2.
  { apply vector_at_put_object_eq. by eapply vector_at_lt. }
  apply wp_bind. eapply wp_end; [done|].
  apply wp_bind.
  eapply (wp_mutated_keeps_silent _ _ _ _ _
            (fun b => buffer_ (data_ vi) = Some b));
    [done|by apply respects_destroy_at|apply nothrows_destroy_at|done|].
  intros ? w3 Hm3 Ho3.
  apply wp_bind. eapply wp_begin; [by rewrite (vector_at_objs_eq _ _ _ Ho3)|].
  by apply wp_ret.
Qed.

Lemma wp_keeps_step {A} P w wi (m : M T A) (Q : A -> world T -> Prop) E :
  keeps P w wi -> touches P m ->
  (forall a wj, keeps P w wj -> Q a wj) -> (forall wj, keeps P w wj -> E wj) ->
  wp True m Q E wi.
Proof.
  intros Hk Hm HQ HE. eapply wp_keeps; [done|..].
  - intros a wj Hkj. apply HQ. by eapply keeps_trans.
  - intros wj Hkj. apply HE. by eapply keeps_trans.
Qed.

(** Lines 246-247 touch the buffer of the vector only. *)
Lemma shift_up_keeps this vi pos w :
  vector_at w this = Some vi -> base pos = buffer_ (data_ vi) ->
  wp True (shift_up this pos)
    (fun _ => keeps (fun b => buffer_ (data_ vi) = Some b) w)
    (keeps (fun b => buffer_ (data_ vi) = Some b) w) w.
Proof.
  intros Hvi Hpos. unfold shift_up.
  apply wp_bind. eapply wp_end; [done|].
  apply wp_bind. apply wp_ptr_sub_any. intros _.
  apply wp_bind.
  eapply (wp_keeps_step (fun b => buffer_ (data_ vi) = Some b) w w);
    [apply keeps_refl|by apply respects_placement_new| |done].
  intros ? w1 Hk1.
  apply wp_bind. apply wp_ptr_diff_any. intros _ _.
  eapply (wp_keeps_step (fun b => buffer_ (data_ vi) = Some b) w w1);
    [done| |done|done].
  apply respects_std_move_backward; unfold in_block; simpl; [done|].
  intros b. by rewrite Hpos.
Qed.

Lemma Emplace_mutated this v extra w wi pos a :
  mutated this v extra w wi ->
  (forall b, init_moves_from a = Some b -> extra b) ->
  wp True (Emplace this pos a) (fun _ => mutated this v extra w)
    (mutated this v extra w) wi.
Proof.
  intros Hm Ha. pose proof Hm as (_ & _ & vi & Hvi & Hbi).
  unfold Emplace. apply wp_bind. eapply wp_end; [done|].
  case_decide.
  { apply wp_bind. eapply wp_mono; [by apply EmplaceBack_mutated| |done].
    intros ? w1 Hm1. simpl. pose proof Hm1 as (_ & _ & v1 & Hv1 & _).
    apply wp_bind. eapply wp_end; [done|].
    apply wp_ptr_sub_any. by intros _. }
  apply wp_bind. eapply wp_begin; [done|].
  apply wp_bind. apply wp_ptr_diff_any. intros Hbase _.
  apply wp_bind. apply wp_ptr_add_int_any. intros _.
  set (pos_index :=
         Z.to_nat (to_int (Z.of_nat (off pos - off (GetAddress (data_ vi)))))).
  apply wp_bind. eapply wp_load; [done|].
  apply wp_bind. case_decide.
  - apply wp_bind.
    eapply wp_mono; [apply (shift_up_keeps this vi _ wi Hvi); done|..]; simpl.
    2:{ intros w1 Hk1. by eapply mutated_keeps. }
    intros ? w1 Hk1.
    eapply (wp_mutated_keeps _ _ _ _ _
              (fun b => buffer_ (data_ vi) = Some b \/ init_moves_from a = Some b));
      [by eapply mutated_keeps
      |apply respects_assign_temporary; unfold in_block; intros; simpl; auto
      | | |by intros].
    { intros b [?|?]; [auto|right; left; auto]. }
    intros ? w2 Hm2 Ho2.
    eapply (wp_mutated_bump _ _ _ _ _ vi 1
              (fun v' => ptr_add (GetAddress (data_ v')) pos_index));
      [done| |done|done].
    by rewrite (vector_at_objs_eq _ _ _ Ho2), (keeps_vector_at _ _ _ _ Hk1).
  - eapply (wp_mutated_grow _ _ _ _ _ vi (grown vi) _
              (fun d b => buffer_ d = Some b \/ buffer_ (data_ vi) = Some b \/
                          init_moves_from a = Some b));
      [done|done|done| | | |done].
    + intros d wj Hvj.
      set (P := fun b => buffer_ d = Some b \/ buffer_ (data_ vi) = Some b \/
                         init_moves_from a = Some b).
      assert (forall n p, touches P (uninitialized_move_n
                (GetAddress (data_ vi)) n (ptr_add (GetAddress d) p))) as Hmv1
        by (intros; apply respects_uninitialized_move_n;
            unfold in_block, P; intros; simpl; auto).
      assert (forall n p q, touches P (uninitialized_move_n
                (ptr_add (GetAddress (data_ vi)) q) n (ptr_add (GetAddress d) p)))
        as Hmv2
        by (intros; apply respects_uninitialized_move_n;
            unfold in_block, P; intros; simpl; auto).
      assert (forall src n p, touches P (uninitialized_copy_n
                src n (ptr_add (GetAddress d) p))) as Hcp
        by (intros; apply respects_uninitialized_copy_n;
            unfold in_block, P; intros; simpl; auto).
      apply respects_bind; [apply keeps_trans| |intros _].
      { apply respects_placement_new; unfold in_block, P; intros; simpl; auto. }
      destruct transfers_by_move.
      * apply respects_bind; [apply keeps_trans| |intros _].
        { apply (Hmv1 pos_index 0). }
        apply respects_bind;
          [apply keeps_trans|apply respects_ptr_diff, keeps_refl|intros rest].
        apply Hmv2.
      * apply respects_bind; [apply keeps_trans| |intros _].
        { apply (Hcp _ pos_index 0). }
        apply respects_bind;
          [apply keeps_trans|apply respects_ptr_diff, keeps_refl|intros rest].
        apply Hcp.
    + intros d b [?|[?|?]]; auto.
    + intros w1 d Hm1 Hv1 _.
      eapply (wp_mutated_bump _ _ _ _ _ _ 1
                (fun v' => ptr_add (GetAddress (data_ v')) pos_index));
        [done|done| |done].
      by destruct Hm1 as (_ & _ & v1 & Hv1' & Hb1); simplify_eq.
Qed.

(** Every mutator of [this] is within [mutated]. *)
Lemma mutate_mutated this v extra w wi m :
  mutated this v extra w wi ->
  (forall b, mutation_moves_from m = Some b -> extra b) ->
  wp True (mutate this m) (fun _ => mutated this v extra w)
    (mutated this v extra w) wi.
Proof.
  intros Hm Hx. destruct m as [n|n| |a|pos a|pos]; simpl in *.
  - by apply Reserve_mutated.
  - by apply Resize_mutated.
  - by apply PopBack_mutated.
  - apply wp_bind. eapply wp_mono; [by apply EmplaceBack_mutated| |done].
    by intros.
  - apply wp_bind. eapply wp_mono; [by apply Emplace_mutated| |done].
    by intros.
  - apply wp_bind. eapply wp_mono; [by apply Erase_mutated| |done].
    by intros.
Qed.

End Mutators.

(** ** Independence of two vectors *)

Section Independence.
Context {T : Type} `{!Element T}.
Implicit Types (w : world T) (v : Vector) (P O extra : nat -> Prop).





End Independence.

(** ** Copy construction and copy assignment *)

Section Copies.
Context {T : Type} `{!Element T}.
Implicit Types (w : world T) (v : Vector) (blk pre post : list (slot T)).

(** [*dst = *src] between two blocks. *)
Lemma wp_copy_assign U dst src bd bs blkd blks d s Q E w :
  base dst = Some bd -> base src = Some bs ->
  block_at w bd = Some blkd -> blkd !! off dst = Some (Obj d) ->
  block_at w bs = Some blks -> blks !! off src = Some (Obj s) ->
  quiet_copy_assign U E ->
  (forall w',
     heap w' = <[bd := Block (<[off dst := Obj s]> blkd)]> (heap w) ->
     objs w' = objs w -> Q tt w') ->
  wp U (copy_assign dst src) Q E w.
Proof.
  intros Hd Hs Hbd Hdv Hbs Hsv Hq HQ. unfold copy_assign.
  apply wp_bind. eapply wp_read; [done..|].
  apply wp_bind. eapply wp_read; [done..|].
  apply wp_bind. apply wp_call_quiet; [apply Hq|].
  eapply wp_write; [done|by rewrite block_at_logged|by eapply lookup_lt_Some|].
  by apply HQ.
Qed.

(** [std::copy] from one block over the objects [ds] of another. *)
Lemma wp_std_copy U first dst bs bd ps xs qs pd ds qd Q E w :
  base first = Some bs -> base dst = Some bd -> bs <> bd ->
  off first = length ps -> off dst = length pd ->
  block_at w bs = Some (ps ++ map Obj xs ++ qs) ->
  block_at w bd = Some (pd ++ map Obj ds ++ qd) -> length ds = length xs ->
  quiet_copy_assign U E ->
  (forall w',
     heap w' = <[bd := Block (pd ++ map Obj xs ++ qd)]> (heap w) ->
     objs w' = objs w -> Q tt w') ->
  wp U (std_copy first (length xs) dst) Q E w.
Proof.
  intros Hf Hd Hne. revert first dst ps pd ds w Q Hf Hd.
  induction xs as [|x xs IH];
    intros first dst ps pd ds w Q Hf Hd Hof Hod Hbs Hbd Hlen Hq HQ.
  - destruct ds; [|done]. simpl. apply wp_ret. apply HQ; [|done].
    symmetry. apply list_insert_id. by apply block_at_Some.
  - destruct ds as [|d ds]; [done|]. simpl in Hlen. simpl.
    pose proof (block_at_lt _ _ _ Hbd) as Hlt.
    apply wp_bind.
    eapply (wp_copy_assign _ _ _ bd bs _ _ d x);
      [done|done|exact Hbd| |exact Hbs| |done|].
    { rewrite Hod. apply lookup_at_length. }
    { rewrite Hof. apply lookup_at_length. }
    intros w1 Hh1 Ho1.
    eapply (IH (ptr_add first 1) (ptr_add dst 1) (ps ++ [Obj x]) (pd ++ [Obj x]) ds);
      [done|done|..].
    + simpl. rewrite length_app. simpl. lia.
    + simpl. rewrite length_app. simpl. lia.
    + rewrite (block_at_heap_ne _ _ _ _ _ Hh1) by done.
      by rewrite <- (assoc_L (++)).
    + eapply block_at_heap_eq; [|done]. rewrite Hh1. do 2 f_equal.
      rewrite Hod. simpl. rewrite insert_at_length. by rewrite <- (assoc_L (++)).
    + lia.
    + done.
    + intros w2 Hh2 Ho2. apply HQ; [|congruence].
      rewrite (heap_insert_insert _ _ _ _ _ _ Hh1 Hh2).
      by rewrite <- (assoc_L (++)).
Qed.

Lemma quiet_copy_ctor_cleanup {A} U E (m : M T A) :
  quiet_copy_ctor U E -> quiet_copy_ctor U (fun w' => wp U m (fun _ => E) E w').
Proof. intros Hq h x Hx. by apply excused_cleanup, (Hq h x). Qed.

Lemma holds_new_object w w' this o buf xs c v0 :
  holds w this buf xs c -> heap w' = heap w ->
  objs w' = objs w ++ [Some v0] -> o = this -> holds w' o buf xs c.
Proof.
  intros [Hv Hb] Hh Ho ->. split.
  - rewrite Ho, lookup_app_l; [done|by eapply lookup_lt_Some].
  - destruct buf as [b|]; [|done]. by rewrite (block_at_heap_same _ _ _ Hh).
Qed.

(** [Vector(const Vector &other)] of a valid vector: a new object that holds
    the same elements in a new block of exactly that many slots. *)
Lemma wp_Vector_copy U w other buf xs c Q E :
  holds w other buf xs c -> quiet_copy_ctor U E ->
  (forall w' buf',
     holds w' (length (objs w)) buf' xs (length xs) ->
     (forall k, buf' = Some k -> k = length (heap w)) ->
     length (objs w') = S (length (objs w)) ->
     length (heap w) <= length (heap w') ->
     (forall o, o < length (objs w) -> vector_at w' o = vector_at w o) ->
     (forall b, b < length (heap w) -> block_at w' b = block_at w b) ->
     Q (length (objs w)) w') ->
  wp U (Vector_copy other) Q E w.
Proof.
  intros Hh Hq HQ. pose proof (holds_vector_at _ _ _ _ _ Hh) as Hv.
  unfold Vector_copy. apply wp_bind. eapply wp_load; [done|]. simpl.
  apply wp_bind. apply wp_RawMemory_new_any.
  intros w1 d Ho1 _ Hcap [(Hd & Hn & Hh1)|(Hd & Hn & Hh1)].
  - (* nothing to copy *)
    apply length_zero_iff_nil in Hn as ->. simpl.
    apply wp_bind. apply wp_rethrow_after. apply wp_ret.
    apply wp_new_object. rewrite Ho1.
    apply (HQ _ None); simpl; try done.
    + split; [|done]. simpl. rewrite Ho1.
      rewrite lookup_app_r, Nat.sub_diag by lia. simpl.
      destruct d as [bd cd]. simpl in *. by subst.
    + by rewrite Ho1, length_app, Nat.add_1_r.
    + by rewrite Hh1.
    + intros o Ho. unfold vector_at. simpl. by rewrite Ho1, lookup_app_l.
    + intros b Hb. unfold block_at. simpl. by rewrite Hh1.
  - destruct buf as [b|]; [|destruct Hh as [_ [_ ->]]; simpl in Hn; lia].
    destruct Hh as [_ [Hb Hle]].
    pose proof (block_at_lt _ _ _ Hb) as Hlt.
    set (nb := length (heap w)) in *.
    destruct d as [bd cd]. simpl in *. subst bd cd.
    assert (block_at w1 b = Some (map Obj xs ++ replicate (c - length xs) Raw))
      as Hb1 by (by rewrite (block_at_alloc_old _ _ _ _ Hh1)).
    assert (block_at w1 nb = Some (replicate (length xs) Raw)) as Hnb1
      by by eapply block_at_alloc_new.
    apply wp_bind. apply wp_rethrow_after.
    eapply (wp_uninitialized_copy_from _ _ _ b nb 0 [] xs _ []
              (replicate (length xs) Raw) []);
      [done|done|lia|done|done|exact Hb1|by rewrite app_nil_r
      |by rewrite length_replicate|by apply quiet_copy_ctor_cleanup|].
    intros w2 Hh2 Ho2. simpl in Hh2. rewrite app_nil_r in Hh2.
    apply wp_new_object. rewrite Ho2, Ho1.
    apply (HQ _ (Some nb)); simpl.
    + split.
      * simpl. rewrite Ho2, Ho1.
        by rewrite lookup_app_r, Nat.sub_diag by lia.
      * rewrite Nat.sub_diag. simpl. rewrite app_nil_r. split; [|done].
        eapply block_at_heap_eq; [done|].
        rewrite Hh1, length_app. simpl. lia.
    + by intros k [= <-].
    + by rewrite Ho2, Ho1, length_app, Nat.add_1_r.
    + rewrite Hh2, length_insert, Hh1, length_app. lia.
    + intros o Ho. unfold vector_at. simpl. by rewrite Ho2, Ho1, lookup_app_l.
    + intros b' Hb'. unfold block_at. simpl. rewrite Hh2.
      rewrite list_lookup_insert_ne by lia. by rewrite Hh1, lookup_app_l.
Qed.

Lemma holds_frame w w' o buf xs c :
  holds w o buf xs c -> vector_at w' o = vector_at w o ->
  (forall b, buf = Some b -> block_at w' b = block_at w b) ->
  holds w' o buf xs c.
Proof.
  intros Hh Hv Hb. pose proof (holds_vector_at _ _ _ _ _ Hh) as Hvo.
  destruct Hh as [_ Hblk]. split; [apply vector_at_Some; by rewrite Hv|].
  destruct buf as [b|]; [|done]. by rewrite Hb.
Qed.

(** [Swap] between two distinct vectors exchanges what they are. *)
Lemma wp_Swap U w a b va vb Q E :
  a <> b -> vector_at w a = Some va -> vector_at w b = Some vb ->
  (forall w',
     heap w' = heap w -> length (objs w') = length (objs w) ->
     vector_at w' a = Some vb -> vector_at w' b = Some va ->
     (forall o, o <> a -> o <> b -> vector_at w' o = vector_at w o) ->
     Q tt w') ->
  wp U (Swap a b) Q E w.
Proof.
  intros Hne Ha Hb HQ.
  pose proof (vector_at_lt _ _ _ Ha) as Hla.
  pose proof (vector_at_lt _ _ _ Hb) as Hlb.
  unfold Swap.
  apply wp_bind. eapply wp_load; [done|].
  apply wp_bind. eapply wp_load; [done|].
  apply wp_bind. eapply wp_set_data; [done|].
  set (w1 := put_object a _ w).
  apply wp_bind. eapply wp_set_data.
  { unfold w1. by rewrite vector_at_put_object_ne. }
  set (w2 := put_object b _ w1).
  assert (length (objs w2) = length (objs w)) as Hl2
    by (unfold w2, w1; by rewrite !length_objs_put_object).
  assert (vector_at w2 a = Some {| data_ := data_ vb; size_ := size_ va |}) as Ha2.
  { unfold w2. rewrite vector_at_put_object_ne by done.
    unfold w1. by rewrite vector_at_put_object_eq. }
  assert (vector_at w2 b = Some {| data_ := data_ va; size_ := size_ vb |}) as Hb2.
  { unfold w2. rewrite vector_at_put_object_eq; [done|].
    unfold w1. by rewrite length_objs_put_object. }
  apply wp_bind. eapply wp_load; [done|].
  apply wp_bind. eapply wp_load; [done|].
  apply wp_bind. eapply wp_set_size; [done|]. simpl.
  set (w3 := put_object b _ w2).
  eapply wp_set_size.
  { unfold w3. by rewrite vector_at_put_object_ne. }
  simpl. apply HQ.
  - done.
  - unfold w3. by rewrite !length_objs_put_object.
  - rewrite vector_at_put_object_eq; [by destruct vb|].
    unfold w3. rewrite length_objs_put_object. lia.
  - rewrite vector_at_put_object_ne by done.
    unfold w3. rewrite vector_at_put_object_eq; [by destruct va|]. lia.
  - intros o Ho1 Ho2. rewrite vector_at_put_object_ne by done.
    unfold w3, w2, w1. by rewrite !vector_at_put_object_ne.
Qed.

(** [~Vector()] of a valid vector destroys its elements and frees its
    block. *)
Lemma wp_Vector_delete U w this buf xs c Q E :
  holds w this buf xs c ->
  (forall w',
     length (heap w') = length (heap w) ->
     (forall b, buf <> Some b -> block_at w' b = block_at w b) ->
     (forall o, o <> this -> vector_at w' o = vector_at w o) ->
     Q tt w') ->
  wp U (Vector_delete this) Q E w.
Proof.
  intros Hh HQ. pose proof (holds_vector_at _ _ _ _ _ Hh) as Hv.
  unfold Vector_delete. apply wp_bind. eapply wp_load; [done|]. simpl.
  destruct buf as [b|].
  - destruct Hh as [_ [Hb Hle]]. pose proof (block_at_lt _ _ _ Hb) as Hlt.
    apply wp_bind.
    eapply (wp_destroy_n _ _ b [] xs); [done|done|exact Hb|].
    intros w1 Hh1 Ho1.
    apply wp_bind. unfold RawMemory_delete. simpl.
    eapply wp_Deallocate; [by eapply block_at_heap_eq|].
    intros w2 Hh2 Ho2 _.
    unfold wp, delete_object.
    assert (vector_at w2 this = vector_at w this) as Hv2
      by by rewrite (vector_at_objs_eq _ _ _ Ho2), (vector_at_objs_eq _ _ _ Ho1).
    rewrite Hv in Hv2. apply vector_at_Some in Hv2. rewrite Hv2.
    apply HQ.
    + simpl. by rewrite Hh2, length_insert, Hh1, length_insert.
    + intros b' Hb'. rewrite block_at_put_object.
      rewrite (block_at_heap_cell_ne _ _ _ _ _ Hh2) by congruence.
      by rewrite (block_at_heap_cell_ne _ _ _ _ _ Hh1) by congruence.
    + intros o Ho. rewrite vector_at_put_object_ne by done.
      by rewrite (vector_at_objs_eq _ _ _ Ho2), (vector_at_objs_eq _ _ _ Ho1).
  - destruct Hh as [_ [-> ->]]. simpl.
    apply wp_bind. apply wp_ret. apply wp_bind. apply wp_ret.
    unfold wp, delete_object. apply vector_at_Some in Hv. rewrite Hv.
    apply HQ; [done|done|].
    intros o Ho. by rewrite vector_at_put_object_ne.
Qed.

Lemma wp_std_copy_len U first n dst bs bd ps xs qs pd ds qd Q E w :
  n = length xs ->
  base first = Some bs -> base dst = Some bd -> bs <> bd ->
  off first = length ps -> off dst = length pd ->
  block_at w bs = Some (ps ++ map Obj xs ++ qs) ->
  block_at w bd = Some (pd ++ map Obj ds ++ qd) -> length ds = length xs ->
  quiet_copy_assign U E ->
  (forall w',
     heap w' = <[bd := Block (pd ++ map Obj xs ++ qd)]> (heap w) ->
     objs w' = objs w -> Q tt w') ->
  wp U (std_copy first n dst) Q E w.
Proof. intros ->. apply wp_std_copy. Qed.

Lemma wp_uninitialized_copy_n_len U src n dst bs bd ps xs qs pd hole qd Q E w :
  n = length xs ->
  base src = Some bs -> base dst = Some bd -> bs <> bd ->
  off src = length ps -> off dst = length pd ->
  block_at w bs = Some (ps ++ map Obj xs ++ qs) ->
  block_at w bd = Some (pd ++ hole ++ qd) -> length hole = length xs ->
  quiet_copy_ctor U E ->
  (forall w',
     heap w' = <[bd := Block (pd ++ map Obj xs ++ qd)]> (heap w) ->
     objs w' = objs w -> Q tt w') ->
  wp U (uninitialized_copy_n src n dst) Q E w.
Proof.
  intros -> Hs Hd Hne Hos Hod. unfold uninitialized_copy_n.
  apply wp_uninitialized_copy_from; try done; lia.
Qed.

(** [operator=(const Vector &rhs)] between two valid vectors that do not
    share a buffer: [this] ends up holding the elements of [rhs], which is
    left as it was. *)
Lemma wp_assign_copy_capacity U w this rhs bt xt ct br xr cr Q E :
  this <> rhs -> holds w this bt xt ct -> holds w rhs br xr cr ->
  (forall k, bt = Some k -> br <> Some k) ->
  quiet_copy_ctor U E -> quiet_copy_assign U E ->
  (forall w' bt' ct',
     holds w' this bt' xr ct' -> holds w' rhs br xr cr ->
     (forall k, bt' = Some k -> br <> Some k) ->
     (ct < length xr -> ct' = length xr) ->
     (length xr <= ct ->
      bt' = bt /\ ct' = ct /\ length (heap w') = length (heap w)) ->
     Q tt w') ->
  wp U (assign_copy this rhs) Q E w.
Proof.
  intros Hne Ht Hr Hsep Hqc Hqa HQ.
  pose proof (holds_vector_at _ _ _ _ _ Ht) as Hvt.
  pose proof (holds_vector_at _ _ _ _ _ Hr) as Hvr.
  pose proof (vector_at_lt _ _ _ Hvt) as Hlt.
  pose proof (vector_at_lt _ _ _ Hvr) as Hlr.
  assert (forall k, bt = Some k -> k < length (heap w)) as Hbt.
  { intros k ->. destruct Ht as [_ [Hb _]]. by eapply block_at_lt. }
  assert (forall k, br = Some k -> k < length (heap w)) as Hbr.
  { intros k ->. destruct Hr as [_ [Hb _]]. by eapply block_at_lt. }
  unfold assign_copy. rewrite decide_False by done.
  apply wp_bind. eapply wp_load; [done|].
  apply wp_bind. eapply wp_load; [done|]. simpl.
  destruct (decide (ct < length xr)) as [Hbig|Hfits].
  - (* copy and swap *)
    apply wp_bind. eapply wp_Vector_copy; [exact Hr|done|].
    intros w1 buf' Hrc Hfresh Hlo1 Hlh1 Ho1 Hb1.
    set (rc := length (objs w)) in *.
    assert (holds w1 this bt xt ct) as Ht1.
    { eapply holds_frame; [done|by apply Ho1|]. intros k Hk. by apply Hb1, Hbt. }
    assert (holds w1 rhs br xr cr) as Hr1.
    { eapply holds_frame; [done|by apply Ho1|]. intros k Hk. by apply Hb1, Hbr. }
    apply wp_bind.
    eapply (wp_Swap _ _ this rc);
      [lia|by eapply holds_vector_at|by eapply holds_vector_at|].
    intros w2 Hh2 Hlo2 Hvt2 Hvrc2 Ho2.
    assert (holds w2 rc bt xt ct) as Hrc2.
    { destruct Ht1 as [_ Hblk]. split; [by apply vector_at_Some|].
      destruct bt as [k|]; [|done]. by rewrite (block_at_heap_same _ _ _ Hh2). }
    eapply wp_Vector_delete; [exact Hrc2|].
    intros w3 Hlh3 Hb3 Ho3.
    assert (forall k, buf' = Some k -> bt <> Some k) as Hnew.
    { intros k Hk Hk'. specialize (Hfresh k Hk). specialize (Hbt k Hk'). lia. }
    apply (HQ w3 buf' (length xr)).
    + destruct Hrc as [_ Hblk]. split.
      { apply vector_at_Some. rewrite Ho3 by lia. by rewrite Hvt2. }
      destruct buf' as [k|]; [|done].
      rewrite Hb3 by (intros ?; by eapply Hnew).
      by rewrite (block_at_heap_same _ _ _ Hh2).
    + eapply holds_frame; [exact Hr1| |].
      * rewrite Ho3 by lia. apply Ho2; [done|lia].
      * intros k Hk. rewrite Hb3 by (intros ->; by eapply Hsep).
        by apply block_at_heap_same.
    + intros k Hk Hk'. specialize (Hfresh k Hk). specialize (Hbr k Hk'). lia.
    + done.
    + lia.
  - destruct (decide (length xr < length xt)) as [Hshrink|Hgrow].
    + (* overwrite and destroy the excess *)
      destruct bt as [b|]; [|destruct Ht as [_ [_ ->]]; simpl in *; lia].
      pose proof Ht as [_ [Hb Hle]].
      apply wp_bind.
      assert (forall Q',
        (forall w1,
           heap w1 = <[b := Block (map Obj xr ++ map Obj (drop (length xr) xt)
                                     ++ replicate (ct - length xt) Raw)]> (heap w) ->
           objs w1 = objs w -> Q' tt w1) ->
        wp U (bind (std_copy (GetAddress {| buffer_ := br; capacity_ := cr |})
                      (length xr)
                      (GetAddress {| buffer_ := Some b; capacity_ := ct |}))
                (fun _ => destroy_n
                   (ptr_add (GetAddress {| buffer_ := Some b; capacity_ := ct |})
                      (length xr)) (length xt - length xr)))
           (fun _ w2 =>
              exists w1,
                Q' tt w1 /\
                heap w2 = <[b := Block (map Obj xr
                                          ++ replicate (length xt - length xr) Raw
                                          ++ replicate (ct - length xt) Raw)]>
                            (heap w) /\ objs w2 = objs w)
           E w) as Hcopy.
      { intros Q' HQ'. apply wp_bind.
        assert (block_at w b =
                Some ([] ++ map Obj (take (length xr) xt)
                         ++ map Obj (drop (length xr) xt)
                         ++ replicate (ct - length xt) Raw)) as Hb'.
        { rewrite Hb. simpl. by rewrite (assoc_L (++)), <- map_app, take_drop. }
        assert (forall w1,
          heap w1 = <[b := Block (map Obj xr ++ map Obj (drop (length xr) xt)
                                    ++ replicate (ct - length xt) Raw)]> (heap w) ->
          objs w1 = objs w ->
          wp U (destroy_n
                  (ptr_add (GetAddress {| buffer_ := Some b; capacity_ := ct |})
                     (length xr)) (length xt - length xr))
            (fun _ w2 =>
               exists w1',
                 Q' tt w1' /\
                 heap w2 = <[b := Block (map Obj xr
                                           ++ replicate (length xt - length xr) Raw
                                           ++ replicate (ct - length xt) Raw)]>
                             (heap w) /\ objs w2 = objs w) E w1) as Hdestroy.
        { intros w1 Hh1 Ho1.
          eapply (wp_destroy_n_len _ _ _ b (map Obj xr) (drop (length xr) xt));
            [by rewrite length_drop|done|by simpl; rewrite length_map
            |eapply block_at_heap_eq; [exact Hh1|by apply Hbt]|].
          intros w2 Hh2 Ho2. exists w1. split; [by apply HQ'|].
          split; [|congruence].
          by rewrite (heap_insert_insert _ _ _ _ _ _ Hh1 Hh2). }
        destruct br as [b'|].
        - pose proof Hr as [_ [Hb2 _]].
          eapply (wp_std_copy _ _ _ b' b [] xr _ [] (take (length xr) xt));
            [done|done|by intros ->; eapply Hsep|done|done|exact Hb2|exact Hb'
            |rewrite length_take; lia|done|].
          intros w1 Hh1 Ho1. by apply Hdestroy.
        - destruct Hr as [_ [_ ->]]. simpl. apply wp_ret. apply Hdestroy; [|done].
          simpl. symmetry. apply list_insert_id. apply block_at_Some.
          rewrite Hb. simpl. by rewrite drop_0. }
      eapply wp_mono; [apply (Hcopy (fun _ _ => True)); done| |done].
      intros [] w2 (_ & _ & Hh2 & Ho2). simpl.
      eapply wp_set_size; [by rewrite (vector_at_objs_eq _ _ _ Ho2)|]. simpl.
      apply (HQ _ (Some b) ct).
      * split.
        { apply vector_at_Some, vector_at_put_object_eq. by rewrite Ho2. }
        rewrite block_at_put_object. split; [|lia].
        erewrite block_at_heap_eq; [|exact Hh2|by apply Hbt]. do 2 f_equal.
        rewrite <- replicate_add. f_equal. lia.
      * eapply holds_frame; [exact Hr| |].
        -- rewrite vector_at_put_object_ne by done. by apply vector_at_objs_eq.
        -- intros k ->. rewrite block_at_put_object.
           apply (block_at_heap_ne _ _ _ _ _ Hh2). intros ->. by eapply Hsep.
      * done.
      * lia.
      * intros _. simpl. by rewrite Hh2, length_insert.
    + (* overwrite and construct the rest *)
      destruct (decide (length xr = 0)) as [Hzero|Hpos].
      { apply length_zero_iff_nil in Hzero as ->. simpl in *.
        assert (xt = []) as -> by (apply length_zero_iff_nil; lia). simpl.
        apply wp_bind. apply wp_bind. apply wp_ret. apply wp_ret.
        eapply wp_set_size; [done|]. simpl.
        apply (HQ _ bt ct).
        - destruct Ht as [_ Hblk]. split.
          { by apply vector_at_Some, vector_at_put_object_eq. }
          destruct bt; [|done]. by rewrite block_at_put_object.
        - eapply holds_frame; [exact Hr| |done].
          by rewrite vector_at_put_object_ne.
        - done.
        - simpl. lia.
        - done. }
      destruct bt as [b|]; [|destruct Ht as [_ [-> _]]; lia].
      destruct br as [b'|]; [|destruct Hr as [_ [_ ->]]; simpl in *; lia].
      pose proof Ht as [_ [Hb Hle]]. pose proof Hr as [_ [Hb2 Hle2]].
      assert (b' <> b) as Hbb by (intros ->; by eapply Hsep).
      assert (length (take (length xt) xr) = length xt) as Htake
        by (rewrite length_take; lia).
      assert (block_at w b' =
              Some ([] ++ map Obj (take (length xt) xr)
                       ++ map Obj (drop (length xt) xr)
                       ++ replicate (cr - length xr) Raw)) as Hb2'.
      { rewrite Hb2. simpl. by rewrite (assoc_L (++)), <- map_app, take_drop. }
      apply wp_bind. apply wp_bind.
      eapply (wp_std_copy_len _ _ _ _ b' b [] (take (length xt) xr) _ [] xt);
        [done|done|done|done|done|done|exact Hb2'|exact Hb|done|done|].
      intros w1 Hh1 Ho1. simpl in Hh1.
      replace (ct - length xt)
        with ((length xr - length xt) + (ct - length xr)) in Hh1 by lia.
      rewrite replicate_add in Hh1.
      eapply (wp_uninitialized_copy_n_len _ _ _ _ b' b
                (map Obj (take (length xt) xr)) (drop (length xt) xr) _
                (map Obj (take (length xt) xr))
                (replicate (length xr - length xt) Raw));
        [by rewrite length_drop|done|done|done
        |by simpl; rewrite length_map|by simpl; rewrite length_map
        |by rewrite (block_at_heap_ne _ _ _ _ _ Hh1)
        |eapply block_at_heap_eq; [exact Hh1|by apply Hbt]
        |by rewrite length_replicate, length_drop|done|].
      intros w2 Hh2 Ho2.
      eapply wp_set_size; [by rewrite (vector_at_objs_eq _ _ _ Ho2),
                             (vector_at_objs_eq _ _ _ Ho1)|]. simpl.
      pose proof (heap_insert_insert _ _ _ _ _ _ Hh1 Hh2) as Hh.
      apply (HQ _ (Some b) ct).
      * split.
        { apply vector_at_Some, vector_at_put_object_eq. by rewrite Ho2, Ho1. }
        rewrite block_at_put_object. split; [|lia].
        erewrite block_at_heap_eq; [|exact Hh|by apply Hbt]. f_equal.
        by rewrite (assoc_L (++)), <- map_app, take_drop.
      * eapply holds_frame; [exact Hr| |].
        -- rewrite vector_at_put_object_ne by done.
           by rewrite (vector_at_objs_eq _ _ _ Ho2), (vector_at_objs_eq _ _ _ Ho1).
        -- intros k [= <-]. rewrite block_at_put_object.
           by apply (block_at_heap_ne _ _ _ _ _ Hh).
      * done.
      * lia.
      * intros _. simpl. by rewrite Hh, length_insert.
Qed.


End Copies.

Section CopyClaims.
Context {T : Type} `{!Element T}.
Implicit Types (w : world T) (v : Vector) (blk pre post : list (slot T)).




End CopyClaims.

Section CopyExamples.
#[local] Existing Instance Int.




End CopyExamples.

(** ** [Emplace] *)

Section Insertion.
Context {T : Type} `{!Element T}.
Implicit Types (w : world T) (v : Vector) (blk pre post : list (slot T)).

Lemma init_outside_moves_from (a : init T) buf b :
  init_outside a buf -> buf = Some b -> init_moves_from a <> Some b.
Proof. destruct a; simpl; congruence. Qed.

Lemma init_outside_value w w' (a : init T) b :
  init_outside a (Some b) ->
  (forall b', b' <> b -> block_at w' b' = block_at w b') ->
  init_value w' a = init_value w a.
Proof.
  intros Hout Hsame. destruct a as [v|r|r]; [done|..]; simpl in *;
    apply peek_same_block; intros b' Hb'; apply Hsame; congruence.
Qed.

Lemma holds_middle w this b xs1 x ys c :
  vector_at w this =
    Some {| data_ := {| buffer_ := Some b; capacity_ := c |};
            size_ := length (xs1 ++ ys) + 1 |} ->
  block_at w b =
    Some (map Obj xs1 ++ Obj x :: map Obj ys
            ++ replicate (c - S (length (xs1 ++ ys))) Raw) ->
  length (xs1 ++ ys) < c ->
  holds w this (Some b) (xs1 ++ x :: ys) c.
Proof.
  intros Hv Hb Hlt. rewrite length_app in *.
  assert (length (xs1 ++ x :: ys) = length xs1 + length ys + 1) as Hlen
    by (rewrite length_app; simpl; lia).
  split.
  - apply vector_at_Some. by rewrite Hv, Hlen.
  - rewrite Hlen. split; [|lia].
    rewrite Hb, map_app, <- (assoc_L (++)). simpl.
    by rewrite Nat.add_1_r.
Qed.

(** Lines 252-259 of [Emplace], the new element being built in its slot of
    the fresh block: the elements before the position, then those from it
    on, arrive around it, and the old block holds as many objects as
    before. *)
Lemma wp_transfer_around U b nb xs1 x ys post tail Q E w :
  b <> nb ->
  block_at w b = Some (map Obj (xs1 ++ ys) ++ post) ->
  block_at w nb =
    Some (replicate (length xs1) Raw ++ Obj x
            :: replicate (length ys) Raw ++ tail) ->
  quiet_transfer U E ->
  (forall w' zs,
     length zs = length (xs1 ++ ys) ->
     block_at w' b = Some (map Obj zs ++ post) ->
     block_at w' nb = Some (map Obj (xs1 ++ x :: ys) ++ tail) ->
     objs w' = objs w -> length (heap w') = length (heap w) ->
     (forall b', b' <> b -> b' <> nb -> block_at w' b' = block_at w b') ->
     Q tt w') ->
  wp U (if transfers_by_move then
          bind (uninitialized_move_n (Ptr (Some b) 0) (length xs1) (Ptr (Some nb) 0))
            (fun _ =>
               bind (ptr_diff (Ptr (Some b) (length (xs1 ++ ys)))
                       (Ptr (Some b) (length xs1)))
                 (fun rest =>
                    uninitialized_move_n (Ptr (Some b) (length xs1)) rest
                      (Ptr (Some nb) (length xs1 + 1))))
        else
          bind (uninitialized_copy_n (Ptr (Some b) 0) (length xs1) (Ptr (Some nb) 0))
            (fun _ =>
               bind (ptr_diff (Ptr (Some b) (length (xs1 ++ ys)))
                       (Ptr (Some b) (length xs1)))
                 (fun rest =>
                    uninitialized_copy_n (Ptr (Some b) (length xs1)) rest
                      (Ptr (Some nb) (length xs1 + 1))))) Q E w.
Proof.
  intros Hne Hb Hnb Hq HQ.
  pose proof (block_at_lt _ _ _ Hb) as Hlt.
  pose proof (block_at_lt _ _ _ Hnb) as Hltn.
  rewrite map_app, <- (assoc_L (++)) in Hb.
  assert (length (xs1 ++ ys) - length xs1 = length ys) as Hrest
    by (rewrite length_app; lia).
  unfold quiet_transfer in Hq. destruct transfers_by_move.
  - apply wp_bind.
    eapply (wp_uninitialized_move_from _ _ _ b nb 0 [] xs1 _ []
              (replicate (length xs1) Raw) _);
      [done|done|done|done|done|exact Hb|exact Hnb
      |by rewrite length_replicate|done|].
    intros w1 Hh1 Ho1. simpl in Hh1.
    apply wp_bind. apply wp_ptr_diff; [done|simpl; rewrite length_app; lia|].
    simpl. rewrite Hrest.
    eapply (wp_uninitialized_move_from _ _ _ b nb 0
              (map Obj (map moved_from xs1)) ys post
              (map Obj xs1 ++ [Obj x]) (replicate (length ys) Raw) tail);
      [done|done|done|by simpl; rewrite !length_map; lia
      |by simpl; rewrite length_app, length_map; simpl; lia
      | | |by rewrite length_replicate|done|].
    { apply block_at_Some. rewrite Hh1.
      rewrite list_lookup_insert_ne by done.
      by rewrite list_lookup_insert_eq. }
    { apply block_at_Some. rewrite Hh1.
      rewrite list_lookup_insert_eq by (by rewrite length_insert).
      by rewrite <- (assoc_L (++)). }
    intros w2 Hh2 Ho2.
    apply (HQ w2 (map moved_from xs1 ++ map moved_from ys)).
    + by rewrite !length_app, !length_map.
    + apply block_at_Some. rewrite Hh2.
      rewrite list_lookup_insert_ne by done.
      rewrite list_lookup_insert_eq by (by rewrite Hh1, !length_insert).
      by rewrite map_app, <- (assoc_L (++)).
    + apply block_at_Some. rewrite Hh2.
      rewrite list_lookup_insert_eq by (by rewrite Hh1, !length_insert).
      by rewrite map_app, <- !(assoc_L (++)).
    + congruence.
    + by rewrite Hh2, Hh1, !length_insert.
    + intros b' H1 H2. unfold block_at. rewrite Hh2, Hh1.
      by rewrite !list_lookup_insert_ne.
  - apply wp_bind.
    eapply (wp_uninitialized_copy_from _ _ _ b nb 0 [] xs1 _ []
              (replicate (length xs1) Raw) _);
      [done|done|done|done|done|exact Hb|exact Hnb
      |by rewrite length_replicate|done|].
    intros w1 Hh1 Ho1. simpl in Hh1.
    apply wp_bind. apply wp_ptr_diff; [done|simpl; rewrite length_app; lia|].
    simpl. rewrite Hrest.
    eapply (wp_uninitialized_copy_from _ _ _ b nb 0
              (map Obj xs1) ys post
              (map Obj xs1 ++ [Obj x]) (replicate (length ys) Raw) tail);
      [done|done|done|by simpl; rewrite !length_map; lia
      |by simpl; rewrite length_app, length_map; simpl; lia
      | | |by rewrite length_replicate|done|].
    { by rewrite (block_at_heap_ne _ _ _ _ _ Hh1). }
    { rewrite (block_at_heap_eq _ _ _ _ Hh1) by done.
      by rewrite <- (assoc_L (++)). }
    intros w2 Hh2 Ho2.
    apply (HQ w2 (xs1 ++ ys)).
    + done.
    + rewrite (block_at_heap_ne _ _ _ _ _ Hh2) by done.
      rewrite (block_at_heap_ne _ _ _ _ _ Hh1) by done.
      by rewrite Hb, map_app, <- (assoc_L (++)).
    + rewrite (block_at_heap_eq _ _ _ _ Hh2) by (by rewrite Hh1, length_insert).
      by rewrite map_app, <- !(assoc_L (++)).
    + congruence.
    + by rewrite Hh2, Hh1, !length_insert.
    + intros b' H1 H2. rewrite (block_at_heap_ne _ _ _ _ _ Hh2) by done.
      by rewrite (block_at_heap_ne _ _ _ _ _ Hh1).
Qed.

(** [Emplace] before the elements [ys] of a valid vector, at the end or at
    a position that [int] holds, with arguments that denote a value and do
    not refer to an element of the vector itself. *)
Lemma wp_Emplace U w this buf xs1 ys c a x Q E :
  holds w this buf (xs1 ++ ys) c ->
  (ys <> [] -> (Z.of_nat (length xs1) <= INT_MAX)%Z) ->
  init_value w a = Some x ->
  init_outside a buf ->
  quiet_init U E a -> quiet_transfer U E ->
  quiet_move_ctor U E -> quiet_move_assign U E ->
  (forall w' buf',
     holds w' this buf' (xs1 ++ x :: ys)
       (capacity_after_append (length (xs1 ++ ys)) c) ->
     (forall o, o <> this -> vector_at w' o = vector_at w o) ->
     (length (xs1 ++ ys) < c ->
      buf' = buf /\ length (heap w') = length (heap w)) ->
     (length (xs1 ++ ys) = c ->
      buf' = Some (length (heap w)) /\
      length (heap w') = S (length (heap w)) /\
      forall b, buf = Some b -> heap w' !! b = Some Freed) ->
     Q (Ptr buf' (length xs1)) w') ->
  wp U (Emplace this (Ptr buf (length xs1)) a) Q E w.
Proof.
  intros Hh Hint Hx Hout Hqi Hqt Hqc Hqa HQ.
  pose proof (holds_vector_at _ _ _ _ _ Hh) as Hv.
  unfold Emplace.
  apply wp_bind. eapply wp_end; [done|]. simpl.
  case_decide as Hend.
  - (* at the end *)
    assert (ys = []) as ->.
    { unfold ptr_add in Hend. simpl in Hend. injection Hend as Hend. rewrite length_app in Hend.
      destruct ys; [done|simpl in Hend; lia]. }
    rewrite app_nil_r in *.
    apply wp_bind.
    eapply wp_EmplaceBack_blocks;
      [done|done|by intros b; apply init_outside_moves_from|done|done|].
    intros w' buf' Hh' Hoth Hroom Hfull.
    pose proof (holds_vector_at _ _ _ _ _ Hh') as Hv'.
    apply wp_bind. eapply wp_end; [done|]. simpl.
    apply wp_ptr_sub; [simpl; rewrite length_app; simpl; lia|]. simpl.
    replace (length (xs1 ++ [x]) - 1) with (length xs1)
      by (rewrite length_app; simpl; lia).
    by apply HQ.
  - (* before an element *)
    assert (ys <> []) as Hys.
    { intros ->. apply Hend. unfold ptr_add. simpl. by rewrite app_nil_r. }
    destruct (holds_buffer _ _ _ _ _ Hh) as [b ->]; [by destruct xs1, ys|].
    pose proof Hh as [_ [Hb Hle]].
    pose proof (block_at_lt _ _ _ Hb) as Hltb.
    pose proof (vector_at_lt _ _ _ Hv) as Hlo.
    apply wp_bind. eapply wp_begin; [done|]. simpl.
    apply wp_bind. apply wp_ptr_diff; [done|simpl; lia|]. simpl.
    rewrite Nat.sub_0_r, (to_int_small _ (Hint Hys)), Nat2Z.id.
    apply wp_bind. apply wp_ptr_add_int.
    apply wp_bind. eapply wp_load; [done|]. simpl.
    change (ptr_add (GetAddress {| buffer_ := Some b; capacity_ := c |})
              (length xs1))
      with (Ptr (Some b) (length xs1)).
    unfold capacity_after_append in HQ.
    apply wp_bind.
    destruct (decide (length (xs1 ++ ys) < c)) as [Hroom|Hfull].
    + (* in place *)
      rewrite decide_False in HQ by lia.
      destruct ys as [|z ys _] using rev_ind; [done|].
      apply wp_bind.
      eapply wp_shift_up; [exact Hh|done|done|done|].
      intros w1 Hh1 Ho1.
      pose proof (block_at_heap_eq _ _ _ _ Hh1 Hltb) as Hb1.
      unfold assign_temporary.
      apply wp_bind. eapply wp_construct; [|done|].
      { rewrite <- Hx. eapply init_outside_value; [done|].
        intros b' Hb'. by rewrite (block_at_heap_ne _ _ _ _ _ Hh1). }
      intros w2 Ho2 Hl2 Hsame2 _.
      assert (block_at w2 b = block_at w1 b) as Hb2.
      { apply Hsame2. by apply init_outside_moves_from with (buf := Some b). }
      rewrite Hb1 in Hb2.
      apply wp_bind. eapply wp_read; [done|exact Hb2| |].
      { simpl. rewrite <- (length_map Obj xs1). apply lookup_at_length. }
      apply wp_bind. apply wp_assign_call_quiet; [apply Hqa|].
      apply wp_bind. eapply wp_write; [done|by rewrite block_at_logged| |].
      { simpl. rewrite length_app, length_map. simpl. lia. }
      apply wp_note.
      assert (vector_at w2 this = vector_at w this) as Hv2
        by (by rewrite (vector_at_objs_eq _ _ _ Ho2), (vector_at_objs_eq _ _ _ Ho1)).
      rewrite Hv in Hv2.
      apply wp_bind. eapply wp_load; [exact Hv2|].
      apply wp_bind. eapply wp_set_size; [exact Hv2|].
      simpl. apply wp_ret. apply HQ.
      * apply holds_middle; [| |done].
        { apply vector_at_put_object_eq. simpl. by rewrite Ho2, Ho1. }
        rewrite block_at_put_object, block_at_logged.
        rewrite block_at_put_block_eq by (simpl; rewrite Hl2, Hh1, length_insert; lia).
        f_equal. rewrite <- (length_map Obj xs1) at 1.
        by rewrite insert_at_length.
      * intros o Ho. rewrite vector_at_put_object_ne by done.
        unfold vector_at. simpl. by rewrite Ho2, Ho1.
      * intros _. split; [done|]. simpl.
        by rewrite length_insert, Hl2, Hh1, length_insert.
      * intros ?. lia.
    + (* growing *)
      assert (length (xs1 ++ ys) = c) as Hc by lia.
      assert (length (xs1 ++ ys) <> 0) as Hnz.
      { rewrite length_app. destruct ys; [done|simpl; lia]. }
      rewrite decide_True, decide_False in HQ by done.
      unfold grown. simpl. rewrite decide_False by done.
      assert (length xs1 + length ys = c) as Hsum by (by rewrite <- length_app).
      apply wp_bind. apply wp_RawMemory_new; [lia|].
      intros w1 Hh1 Ho1 _. set (nb := length (heap w)) in *.
      assert (forall b', b' < nb -> block_at w1 b' = block_at w b') as Hold
        by (intros b' Hb'; by eapply block_at_alloc_old).
      pose proof (block_at_alloc_new _ _ _ Hh1) as Hnb. fold nb in Hnb.
      assert (init_value w1 a = Some x) as Hx1
        by (rewrite <- Hx; by apply init_value_same).
      assert (b <> nb) as Hbn by lia.
      assert (forall m : M T unit,
                excused U E -> excused U (fun w' => wp U m (fun _ => E) E w'))
        as Hex by (intros m; apply excused_cleanup).
      apply wp_bind. apply wp_rethrow_after.
      apply wp_bind.
      eapply (wp_placement_new _ _ _ nb); [done|exact Hnb| |exact Hx1| | |].
      { simpl. rewrite length_replicate. lia. }
      { intros Hm. pose proof (init_moves_from_lt _ _ _ _ Hx Hm). lia. }
      { eapply quiet_init_mono; [apply Hex|done]. }
      intros w2 Ho2 Hl2 Hnb2 Hsame2 _. simpl in Hnb2.
      rewrite insert_replicate_Raw in Hnb2 by lia.
      replace (c * 2 - S (length xs1))
        with (length ys + (c * 2 - S c)) in Hnb2 by lia.
      rewrite replicate_add in Hnb2.
      assert (block_at w2 b =
              Some (map Obj (xs1 ++ ys) ++ replicate (c - length (xs1 ++ ys)) Raw))
        as Hb2.
      { rewrite Hsame2, Hold; [done|lia|done|].
        by apply init_outside_moves_from with (buf := Some b). }
      eapply (wp_transfer_around _ b nb xs1 x ys);
        [done|exact Hb2|exact Hnb2
        |by eapply quiet_transfer_mono; [apply Hex|]|].
      intros w3 zs Hzs Hb3 Hnb3 Ho3 Hl3 _.
      apply wp_bind.
      eapply (wp_destroy_n_len _ _ _ b [] zs); [done|done|done|exact Hb3|].
      intros w4 Hh4 Ho4.
      assert (vector_at w4 this = vector_at w this) as Hv4.
      { rewrite (vector_at_objs_eq _ _ _ Ho4), (vector_at_objs_eq _ _ _ Ho3).
        by rewrite (vector_at_objs_eq _ _ _ Ho2), (vector_at_objs_eq _ _ _ Ho1). }
      rewrite Hv in Hv4.
      apply wp_bind. unfold Swap_data.
      apply wp_bind. eapply wp_load; [exact Hv4|].
      apply wp_bind. eapply wp_set_data; [exact Hv4|]. simpl.
      apply wp_ret. unfold RawMemory_delete. simpl.
      eapply wp_Deallocate.
      { rewrite block_at_put_object. eapply block_at_heap_eq; [done|].
        by eapply block_at_lt. }
      intros w5 Hh5 Ho5 _.
      pose proof (vector_at_lt _ _ _ Hv4) as Hlo4.
      set (v5 := {| data_ := {| buffer_ := Some nb; capacity_ := c * 2 |};
                    size_ := length (xs1 ++ ys) |}) in *.
      assert (vector_at w5 this = Some v5) as Hv5.
      { rewrite (vector_at_objs_eq _ _ _ Ho5).
        by rewrite vector_at_put_object_eq. }
      apply wp_bind. eapply wp_load; [done|].
      apply wp_bind. eapply wp_set_size; [done|]. simpl.
      apply wp_ret. apply HQ.
      * apply holds_middle; [|rewrite block_at_put_object|lia].
        { rewrite vector_at_put_object_eq; [done|]. by eapply vector_at_lt. }
        rewrite (block_at_heap_cell_ne _ _ _ _ _ Hh5) by done.
        rewrite block_at_put_object.
        rewrite (block_at_heap_cell_ne _ _ _ _ _ Hh4) by done.
        rewrite Hnb3, map_app, <- (assoc_L (++)). simpl.
        by rewrite Hc.
      * intros o Ho. rewrite vector_at_put_object_ne by done.
        rewrite (vector_at_objs_eq _ _ _ Ho5).
        rewrite vector_at_put_object_ne by done.
        rewrite (vector_at_objs_eq _ _ _ Ho4), (vector_at_objs_eq _ _ _ Ho3).
        by rewrite (vector_at_objs_eq _ _ _ Ho2), (vector_at_objs_eq _ _ _ Ho1).
      * intros ?. lia.
      * intros _. split; [done|].
        assert (length (heap w4) = S (length (heap w))) as Hlen4
          by (rewrite Hh4, length_insert, Hl3, Hl2, Hh1, length_app;
              simpl; lia).
        split.
        { simpl. rewrite Hh5. simpl. by rewrite length_insert. }
        intros b' [= <-]. simpl. rewrite Hh5.
        apply list_lookup_insert_eq. simpl. lia.
Qed.

End Insertion.

(** ** Inserting an element of the vector itself *)

Section InsertExamples.
#[local] Existing Instance Int.

(** [Vector<int> v; v.PushBack(1); v.PushBack(2); v.PushBack(3);] leaves
    [[1; 2; 3]] in a block of four slots. *)
Lemma three_appends :
  exists w,
    bind Vector_default
      (fun v => appends v [FromArgs 1; FromArgs 2; FromArgs 3]) empty_world
    = Ret w tt /\
    heap w !! 2 = heap three_of_four !! 0 /\
    vector_at w 0 =
      Some {| data_ := {| buffer_ := Some 2; capacity_ := 4 |}; size_ := 3 |}.
Proof. eexists. split; [vm_compute; reflexivity|]. by split. Qed.

(** C3 at [v.Insert(v.begin(), v[2])] for [v] holding [[1; 2; 3]] with
    capacity 4: the argument refers to the element 3, and the vector ends as
    [[2; 1; 2; 3]], not [[3; 1; 2; 3]]: when the new value is built, after
    the shift, the reference designates the element that moved into slot
    2. *)
Theorem Insert_of_own_element :
  exists w',
    peek three_of_four (Ptr (Some 0) 2) = Some 3 /\
    Insert 0 (Ptr (Some 0) 0) (Ptr (Some 0) 2) three_of_four
      = Ret w' (Ptr (Some 0) 0) /\
    elements w' 0 = Some [2; 1; 2; 3] /\
    peek w' (Ptr (Some 0) 0) = Some 2.
Proof. eexists. split; [reflexivity|]. split; [vm_compute; reflexivity|]. by split. Qed.

(** The growing path builds the new element before it touches the old
    ones: the same call on a full vector inserts the 3. *)
Lemma Insert_of_own_element_growing :
  exists w' it,
    Insert 0 (Ptr (Some 0) 0) (Ptr (Some 0) 2) three_of_three = Ret w' it /\
    elements w' 0 = Some [3; 1; 2; 3].
Proof. eexists _, _. split; [vm_compute; reflexivity|]. done. Qed.

End InsertExamples.

(** * The other member functions *)

(** ** [PopBack] and [Reserve] *)

Section Reserving.
Context {T : Type} `{!Element T}.
Implicit Types (w : world T) (v : Vector) (blk pre post : list (slot T)).

Lemma holds_intro w this buf xs c :
  vector_at w this =
    Some {| data_ := {| buffer_ := buf; capacity_ := c |}; size_ := length xs |} ->
  match buf with
  | Some b =>
      block_at w b = Some (map Obj xs ++ replicate (c - length xs) Raw) /\
      length xs <= c
  | None => c = 0 /\ xs = []
  end ->
  holds w this buf xs c.
Proof. intros Hv Hb. split; [by apply vector_at_Some|done]. Qed.

Lemma wp_PopBack U w this b xs x c Q E :
  holds w this (Some b) (xs ++ [x]) c ->
  (forall w',
     holds w' this (Some b) xs c ->
     log w' = Dtor x :: log w ->
     (forall o, o <> this -> vector_at w' o = vector_at w o) ->
     (forall b', b' <> b -> block_at w' b' = block_at w b') ->
     length (heap w') = length (heap w) ->
     Q tt w') ->
  wp U (PopBack this) Q E w.
Proof.
  intros Hh HQ.
  pose proof (holds_vector_at _ _ _ _ _ Hh) as Hv.
  pose proof (vector_at_lt _ _ _ Hv) as Hlo.
  destruct Hh as [_ [Hb Hle]].
  pose proof (block_at_lt _ _ _ Hb) as Hlt.
  rewrite length_app in *. simpl in *.
  rewrite map_app, <- (assoc_L (++)) in Hb. simpl in Hb.
  unfold PopBack.
  apply wp_bind. eapply wp_load; [done|]. simpl.
  apply wp_bind. apply wp_ptr_sub; [simpl; lia|]. simpl.
  replace (length xs + 1 - 1) with (length xs) by lia.
  apply wp_bind.
  eapply (wp_destroy_at _ _ b); [done|exact Hb| |].
  { simpl. rewrite <- (length_map Obj xs). apply lookup_at_length. }
  intros w1 Hh1 Ho1 Hl1. simpl in Hh1.
  rewrite <- (length_map Obj xs) in Hh1 at 1. rewrite insert_at_length in Hh1.
  eapply wp_set_size; [by rewrite (vector_at_objs_eq _ _ _ Ho1)|]. simpl.
  apply HQ.
  - apply holds_intro.
    + rewrite vector_at_put_object_eq by (by rewrite Ho1).
      by replace (length xs + 1 - 1) with (length xs) by lia.
    + rewrite block_at_put_object, (block_at_heap_eq _ _ _ _ Hh1) by done.
      split; [|lia]. do 2 f_equal.
      by replace (c - length xs) with (S (c - (length xs + 1))) by lia.
  - done.
  - intros o Ho. rewrite vector_at_put_object_ne by done.
    by apply vector_at_objs_eq.
  - intros b' Hb'. rewrite block_at_put_object.
    by rewrite (block_at_heap_ne _ _ _ _ _ Hh1).
  - simpl. by rewrite Hh1, length_insert.
Qed.

(** [Reserve] on a valid vector: nothing happens when the capacity is
    enough; otherwise the elements go to a fresh block of [n] slots and the
    old block is released. *)
Lemma wp_Reserve U w this buf xs c n Q E :
  holds w this buf xs c -> quiet_transfer U E ->
  (n <= c -> Q tt w) ->
  (c < n -> forall w',
     holds w' this (Some (length (heap w))) xs n ->
     length (heap w') = S (length (heap w)) ->
     (forall b, buf = Some b -> heap w' !! b = Some Freed) ->
     (forall b, b < length (heap w) -> buf <> Some b ->
        block_at w' b = block_at w b) ->
     (forall o, o <> this -> vector_at w' o = vector_at w o) ->
     length (objs w') = length (objs w) ->
     Q tt w') ->
  wp U (Reserve this n) Q E w.
Proof.
  intros Hh Hqt Hsmall Hbig.
  pose proof (holds_vector_at _ _ _ _ _ Hh) as Hv.
  pose proof (vector_at_lt _ _ _ Hv) as Hlo.
  unfold Reserve.
  apply wp_bind. eapply wp_load; [done|]. simpl.
  case_decide as Hn; [by apply wp_ret, Hsmall|].
  assert (c < n) as Hlt by lia. specialize (Hbig Hlt).
  apply wp_bind. apply wp_RawMemory_new; [lia|].
  intros w1 Hh1 Ho1 Hl1. set (nb := length (heap w)) in *.
  assert (forall b', b' < nb -> block_at w1 b' = block_at w b') as Hold
    by (intros b' Hb'; by eapply block_at_alloc_old).
  pose proof (block_at_alloc_new _ _ _ Hh1) as Hnb. fold nb in Hnb.
  assert (vector_at w1 this = vector_at w this) as Hv1
    by (by apply vector_at_objs_eq).
  rewrite Hv in Hv1.
  assert (forall m : M T unit,
            excused U E -> excused U (fun w' => wp U m (fun _ => E) E w'))
    as Hex by (intros m; apply excused_cleanup).
  apply wp_bind. apply wp_rethrow_after.
  destruct buf as [b|].
  - destruct Hh as [_ [Hb Hle]].
    pose proof (block_at_lt _ _ _ Hb) as Hltb.
    assert (b <> nb) as Hbn by (unfold nb; lia).
    replace n with (length xs + (n - length xs)) in Hnb by lia.
    rewrite replicate_add in Hnb.
    eapply (wp_CopyOrMove _ this b c xs _ nb n (replicate (length xs) Raw));
      [exact Hv1|by rewrite Hold|done|exact Hnb|by rewrite length_replicate
      |by eapply quiet_transfer_mono; [apply Hex|]|].
    intros w3 ys Hys Hb3 Hnb3 Ho3 Hl3 Hsame3.
    apply wp_bind.
    eapply (wp_destroy_n_len _ _ _ b [] ys); [done|done|done|exact Hb3|].
    intros w4 Hh4 Ho4.
    assert (vector_at w4 this = vector_at w this) as Hv4.
    { rewrite (vector_at_objs_eq _ _ _ Ho4), (vector_at_objs_eq _ _ _ Ho3).
      by rewrite (vector_at_objs_eq _ _ _ Ho1). }
    rewrite Hv in Hv4.
    apply wp_bind. unfold Swap_data.
    apply wp_bind. eapply wp_load; [exact Hv4|].
    apply wp_bind. eapply wp_set_data; [exact Hv4|]. simpl.
    apply wp_ret. unfold RawMemory_delete. simpl.
    eapply wp_Deallocate.
    { rewrite block_at_put_object. eapply block_at_heap_eq; [done|].
      by eapply block_at_lt. }
    intros w5 Hh5 Ho5 Hl5.
    pose proof (vector_at_lt _ _ _ Hv4) as Hlo4.
    assert (length (heap w3) = S nb) as Hlen3
      by (rewrite Hl3, Hh1, length_app; simpl; unfold nb; lia).
    apply Hbig.
    + apply holds_intro.
      * rewrite (vector_at_objs_eq _ _ _ Ho5).
        by rewrite vector_at_put_object_eq.
      * rewrite (block_at_heap_cell_ne _ _ _ _ _ Hh5) by done.
        rewrite block_at_put_object.
        rewrite (block_at_heap_cell_ne _ _ _ _ _ Hh4) by done.
        split; [done|lia].
    + rewrite Hh5. simpl. by rewrite length_insert, Hh4, length_insert.
    + intros b' [= <-]. rewrite Hh5. simpl.
      apply list_lookup_insert_eq. rewrite Hh4, length_insert. lia.
    + intros b' Hb' Hne. assert (b' <> b) as Hne' by congruence.
      rewrite (block_at_heap_cell_ne _ _ _ _ _ Hh5) by done.
      rewrite block_at_put_object.
      rewrite (block_at_heap_cell_ne _ _ _ _ _ Hh4) by done.
      rewrite Hsame3 by (done || unfold nb in *; lia). by apply Hold.
    + intros o Ho. rewrite (vector_at_objs_eq _ _ _ Ho5).
      rewrite vector_at_put_object_ne by done.
      rewrite (vector_at_objs_eq _ _ _ Ho4), (vector_at_objs_eq _ _ _ Ho3).
      by rewrite (vector_at_objs_eq _ _ _ Ho1).
    + rewrite Ho5. simpl. by rewrite length_insert, Ho4, Ho3, Ho1.
  - destruct Hh as [_ [-> ->]]. simpl in *.
    unfold CopyOrMove. apply wp_bind. eapply wp_load; [exact Hv1|].
    simpl. replace (if transfers_by_move
                    then uninitialized_move_n (GetAddress RawMemory_default) 0
                           (GetAddress {| buffer_ := Some nb; capacity_ := n |})
                    else uninitialized_copy_n (GetAddress RawMemory_default) 0
                           (GetAddress {| buffer_ := Some nb; capacity_ := n |}))
              with (@ret T unit tt) by (by destruct transfers_by_move).
    apply wp_ret. apply wp_bind. apply wp_ret.
    apply wp_bind. unfold Swap_data.
    apply wp_bind. eapply wp_load; [exact Hv1|].
    apply wp_bind. eapply wp_set_data; [exact Hv1|]. simpl.
    apply wp_ret. unfold RawMemory_delete. simpl. apply wp_ret.
    pose proof (vector_at_lt _ _ _ Hv1) as Hlo1.
    apply Hbig.
    + apply holds_intro; [by apply vector_at_put_object_eq|].
      rewrite block_at_put_object, Hnb. simpl.
      split; [by rewrite Nat.sub_0_r|lia].
    + simpl. rewrite Hh1, length_app. simpl. unfold nb. lia.
    + done.
    + intros b' Hb' _. rewrite block_at_put_object. by apply Hold.
    + intros o Ho. rewrite vector_at_put_object_ne by done.
      by apply vector_at_objs_eq.
    + simpl. by rewrite length_insert, Ho1.
Qed.

End Reserving.

(** ** [Resize] *)

Section Resizing.
Context {T : Type} `{!Element T}.
Implicit Types (w : world T) (v : Vector) (blk pre post : list (slot T)).

Lemma freed_of_block_at w b :
  block_at w b = None -> b < length (heap w) -> heap w !! b = Some Freed.
Proof.
  unfold block_at. intros Hb Hlt.
  destruct (lookup_lt_is_Some_2 _ _ Hlt) as [[|blk] Hc]; [done|].
  by rewrite Hc in Hb.
Qed.

Lemma wp_bind_inv {A B} U (m : M T A) (k : A -> M T B) Q E w :
  wp U (bind m k) Q E w -> wp U m (fun a w' => wp U (k a) Q E w') E w.
Proof. unfold wp, bind. by destruct (m w). Qed.

(** [std::uninitialized_value_construct_n], from the object number [i] on. *)
Lemma wp_uninitialized_value_construct_from U dst b i pd hole qd Q E w :
  base dst = Some b -> off dst + i = length pd ->
  block_at w b = Some (pd ++ hole ++ qd) ->
  quiet_value_ctor U E ->
  (forall w',
     heap w' = <[b := Block (pd ++ replicate (length hole) (Obj value_init) ++ qd)]>
                 (heap w) ->
     objs w' = objs w -> Q tt w') ->
  wp U (uninitialized_n (fun i => value_construct_at (ptr_add dst i))
          dst i (length hole)) Q E w.
Proof.
  intros Hd. revert i pd w Q.
  induction hole as [|h0 hole IH]; intros i pd w Q Hod Hb Hq HQ.
  - simpl. apply wp_ret. apply HQ; [|done]. simpl.
    symmetry. apply list_insert_id. by apply block_at_Some.
  - simpl. pose proof (block_at_lt _ _ _ Hb) as Hlt.
    apply wp_bind. apply wp_rethrow_after.
    unfold value_construct_at.
    apply wp_bind. apply wp_call_quiet.
    { intros Ht. by apply excused_cleanup, (Hq _ Ht). }
    eapply wp_write; [done|by rewrite block_at_logged| |].
    { simpl. rewrite Hod, length_app. simpl. lia. }
    simpl. rewrite Hod, insert_at_length.
    eapply (IH (S i) (pd ++ [Obj value_init])).
    + rewrite length_app. simpl. lia.
    + rewrite block_at_put_block_eq by (simpl; done).
      by rewrite <- (assoc_L (++)).
    + done.
    + intros w2 Hh2 Ho2. apply HQ; [|done].
      rewrite Hh2. simpl. rewrite list_insert_insert_eq.
      by rewrite <- (assoc_L (++)).
Qed.

(** [Resize] on a valid vector. *)
Lemma wp_Resize U w this buf xs c n Q E :
  holds w this buf xs c -> quiet_transfer U E -> quiet_value_ctor U E ->
  (forall w' buf',
     holds w' this buf' (take n xs ++ replicate (n - length xs) value_init)
       (Nat.max c n) ->
     (n <= c -> buf' = buf /\ length (heap w') = length (heap w)) ->
     (forall b, b < length (heap w) -> buf <> Some b ->
        block_at w' b = block_at w b) ->
     (forall o, o <> this -> vector_at w' o = vector_at w o) ->
     (c < n ->
      buf' = Some (length (heap w)) /\
      length (heap w') = S (length (heap w)) /\
      forall b, buf = Some b -> heap w' !! b = Some Freed) ->
     Q tt w') ->
  wp U (Resize this n) Q E w.
Proof.
  intros Hh Hqt Hqv HQ.
  pose proof (holds_vector_at _ _ _ _ _ Hh) as Hv.
  pose proof (vector_at_lt _ _ _ Hv) as Hlo.
  assert (forall w1 buf1 c1,
            holds w1 this buf1 xs c1 -> length xs <= n <= c1 ->
            (forall w',
               holds w' this buf1 (xs ++ replicate (n - length xs) value_init) c1 ->
               length (heap w') = length (heap w1) ->
               (forall b, buf1 <> Some b -> block_at w' b = block_at w1 b) ->
               (forall o, o <> this -> vector_at w' o = vector_at w1 o) ->
               Q tt w') ->
            wp U (bind (bind (load this)
                          (fun v =>
                             uninitialized_value_construct_n
                               (ptr_add (GetAddress (data_ v)) (size_ v))
                               (n - size_ v)))
                    (fun _ => set_size this n)) Q E w1) as Hfill.
  { intros w1 buf1 c1 Hh1 Hn HQ1.
    pose proof (holds_vector_at _ _ _ _ _ Hh1) as Hv1.
    pose proof (vector_at_lt _ _ _ Hv1) as Hlo1.
    apply wp_bind. apply wp_bind. eapply wp_load; [done|]. simpl.
    destruct (decide (n = length xs)) as [->|Hne].
    - rewrite Nat.sub_diag in *. simpl. apply wp_ret.
      eapply wp_set_size; [done|]. simpl. apply HQ1; [|done|done|].
      + simpl. rewrite app_nil_r. destruct Hh1 as [_ Hb1].
        apply holds_intro; [by apply vector_at_put_object_eq|done].
      + intros o Ho. by apply vector_at_put_object_ne.
    - destruct buf1 as [b1|]; [|destruct Hh1 as [_ [-> ->]]; simpl in *; lia].
      destruct Hh1 as [_ [Hb1 Hle1]].
      pose proof (block_at_lt _ _ _ Hb1) as Hlt1.
      replace (c1 - length xs) with ((n - length xs) + (c1 - n)) in Hb1 by lia.
      rewrite replicate_add in Hb1.
      rewrite <- (length_replicate (n - length xs) (@Raw T)) at 1.
      eapply (wp_uninitialized_value_construct_from _ _ b1 0 (map Obj xs));
        [done|by simpl; rewrite length_map; lia|exact Hb1|done|].
      intros w2 Hh2 Ho2. rewrite length_replicate in Hh2.
      eapply wp_set_size; [by rewrite (vector_at_objs_eq _ _ _ Ho2)|].
      simpl. apply HQ1.
      + assert (length (xs ++ replicate (n - length xs) value_init) = n) as Hlen
          by (rewrite length_app, length_replicate; lia).
        apply holds_intro.
        * rewrite vector_at_put_object_eq by (by rewrite Ho2). by rewrite Hlen.
        * rewrite Hlen, block_at_put_object.
          rewrite (block_at_heap_eq _ _ _ _ Hh2) by done.
          split; [|lia]. f_equal.
          by rewrite map_app, <- (assoc_L (++)), (fmap_replicate Obj).
      + simpl. by rewrite Hh2, length_insert.
      + intros b' Hb'. rewrite block_at_put_object.
        rewrite (block_at_heap_ne _ _ _ _ _ Hh2); [done|congruence].
      + intros o Ho. rewrite vector_at_put_object_ne by done.
        by apply vector_at_objs_eq. }
  unfold Resize.
  apply wp_bind. eapply wp_load; [done|]. simpl.
  destruct (decide (n < length xs)) as [Hshrink|Hgrow].
  - destruct buf as [b|]; [|destruct Hh as [_ [_ ->]]; simpl in *; lia].
    destruct Hh as [_ [Hb Hle]].
    pose proof (block_at_lt _ _ _ Hb) as Hlt.
    rewrite <- (take_drop n xs) in Hb at 1.
    rewrite map_app, <- (assoc_L (++)) in Hb.
    assert (length (take n xs) = n) as Htake by (rewrite length_take; lia).
    assert (length (drop n xs) = length xs - n) as Hdrop by apply length_drop.
    apply wp_bind.
    eapply (wp_destroy_n_len _ _ _ b (map Obj (take n xs)) (drop n xs));
      [done|done|by simpl; rewrite length_map; lia|exact Hb|].
    intros w1 Hh1 Ho1.
    eapply wp_set_size; [by rewrite (vector_at_objs_eq _ _ _ Ho1)|]. simpl.
    specialize (HQ (put_object this
                      (Some {| data_ := {| buffer_ := Some b; capacity_ := c |};
                               size_ := n |}) w1) (Some b)).
    replace (n - length xs) with 0 in HQ by lia. simpl in HQ.
    rewrite app_nil_r in HQ.
    replace (Nat.max c n) with c in HQ by lia.
    apply HQ.
    + apply holds_intro.
      * rewrite vector_at_put_object_eq by (by rewrite Ho1). by rewrite Htake.
      * rewrite Htake, block_at_put_object.
        rewrite (block_at_heap_eq _ _ _ _ Hh1) by done.
        split; [|lia]. do 2 f_equal. rewrite <- replicate_add.
        f_equal. lia.
    + intros _. split; [done|]. simpl. by rewrite Hh1, length_insert.
    + intros b' _ Hb'. rewrite block_at_put_object.
      rewrite (block_at_heap_ne _ _ _ _ _ Hh1); [done|congruence].
    + intros o Ho. rewrite vector_at_put_object_ne by done.
      by apply vector_at_objs_eq.
    + intros ?. lia.
  - rewrite take_ge in HQ by lia.
    apply wp_bind. apply wp_bind.
    eapply wp_Reserve; [done|done|..].
    + intros Hn. apply wp_bind_inv.
      eapply (Hfill w buf c); [done|lia|].
      intros w' Hh' Hl' Hblk' Hobj'.
      replace (Nat.max c n) with c in HQ by lia.
      apply (HQ w' buf); [done|done| |done|lia].
      intros b _ Hb. by apply Hblk'.
    + intros Hn w1 Hh1 Hl1 Hfreed Hblk1 Hobj1 Hlo1. apply wp_bind_inv.
      eapply (Hfill w1 _ n); [done|lia|].
      intros w' Hh' Hl' Hblk' Hobj'.
      replace (Nat.max c n) with n in HQ by lia.
      apply (HQ w' (Some (length (heap w)))); [done|lia| | |].
      * intros b Hb Hne. rewrite Hblk' by (intros [= Heq]; lia).
        by apply Hblk1.
      * intros o Ho. rewrite Hobj' by done. by apply Hobj1.
      * intros _. split; [done|]. split; [lia|].
        intros b ->. apply freed_of_block_at.
        -- pose proof Hh as [_ [Hb _]]. apply block_at_lt in Hb.
           rewrite Hblk' by (intros [= Heq]; lia).
           unfold block_at. by rewrite (Hfreed b eq_refl).
        -- pose proof Hh as [_ [Hb _]]. apply block_at_lt in Hb. lia.
Qed.

End Resizing.

(** ** Insertion, removal and capacity on a valid vector *)

Section Members.
Context {T : Type} `{!Element T}.
Implicit Types (w : world T) (v : Vector) (blk pre post : list (slot T)).

(** [EmplaceBack] with room left: the buffer stays, nothing is allocated,
    no element is touched, and the reference returned is to the slot behind
    the old elements. *)
Lemma wp_EmplaceBack_room U w this b xs c a x Q E :
  holds w this (Some b) xs c -> length xs < c ->
  init_value w a = Some x -> init_moves_from a <> Some b ->
  quiet_init U E a ->
  (forall w',
     holds w' this (Some b) (xs ++ [x]) c ->
     length (heap w') = length (heap w) ->
     (forall o, o <> this -> vector_at w' o = vector_at w o) ->
     Q (Ptr (Some b) (length xs)) w') ->
  wp U (EmplaceBack this a) Q E w.
Proof.
  intros Hh Hroom Hx Hout Hqi HQ.
  pose proof (holds_vector_at _ _ _ _ _ Hh) as Hv.
  destruct Hh as [_ [Hb Hle]].
  unfold EmplaceBack.
  apply wp_bind. eapply wp_load; [done|]. simpl.
  rewrite decide_False by lia.
  apply wp_bind.
  eapply (wp_placement_new _ _ _ b); [done|exact Hb| |exact Hx|done|done|].
  { simpl. rewrite length_app, length_map, length_replicate. lia. }
  intros w1 Ho1 Hl1 Hb1 _ _. simpl in Hb1.
  apply wp_bind. eapply wp_load; [by rewrite (vector_at_objs_eq _ _ _ Ho1)|].
  apply wp_bind. eapply wp_set_size; [by rewrite (vector_at_objs_eq _ _ _ Ho1)|].
  simpl. apply wp_ret. apply HQ.
  - apply holds_snoc; [|rewrite block_at_put_object|lia].
    { rewrite vector_at_put_object_eq; [done|]. rewrite Ho1.
      by eapply vector_at_lt. }
    rewrite Hb1. f_equal.
    rewrite <- (length_map Obj xs) at 1.
    rewrite (insert_app_r_alt (map Obj xs)) by lia.
    rewrite Nat.sub_diag. f_equal.
    by replace (c - length xs) with (S (c - S (length xs))) by lia.
  - done.
  - intros o Ho. rewrite vector_at_put_object_ne by done.
    by apply vector_at_objs_eq.
Qed.

(** X1: [Emplace], and so both [Insert]s, at [end()] or at a position
    that [int] holds of a valid vector (before the elements [ys]), with
    arguments that denote a value [x] and do not refer to an element of the
    vector itself, constructors and move assignment not throwing: the call
    returns an
    iterator to the position in the buffer the vector then has, the vector
    holds [xs1 ++ x :: ys], its capacity is as after an append, and no
    other vector object changes.  With room left the buffer stays and
    nothing is allocated; a full vector moves to the next block allocated
    and its old block is released. *)
Theorem Emplace_inserts w this buf xs1 ys c a x :
  holds w this buf (xs1 ++ ys) c ->
  (ys <> [] -> (Z.of_nat (length xs1) <= INT_MAX)%Z) ->
  init_value w a = Some x -> init_outside a buf ->
  nothrow_init a -> nothrow_transfer ->
  nothrow_move_ctor -> nothrow_move_assign ->
  exists w' buf',
    Emplace this (Ptr buf (length xs1)) a w = Ret w' (Ptr buf' (length xs1)) /\
    holds w' this buf' (xs1 ++ x :: ys)
      (capacity_after_append (length (xs1 ++ ys)) c) /\
    (forall o, o <> this -> vector_at w' o = vector_at w o) /\
    (length (xs1 ++ ys) < c ->
     buf' = buf /\ length (heap w') = length (heap w)) /\
    (length (xs1 ++ ys) = c ->
     buf' = Some (length (heap w)) /\
     length (heap w') = S (length (heap w)) /\
     forall b, buf = Some b -> heap w' !! b = Some Freed).
Proof.
  intros Hh Hint Hx Hout Hni Hnt Hnc Hna.
  cut (wp False (Emplace this (Ptr buf (length xs1)) a)
         (fun it w' => exists buf',
            it = Ptr buf' (length xs1) /\
            holds w' this buf' (xs1 ++ x :: ys)
              (capacity_after_append (length (xs1 ++ ys)) c) /\
            (forall o, o <> this -> vector_at w' o = vector_at w o) /\
            (length (xs1 ++ ys) < c ->
             buf' = buf /\ length (heap w') = length (heap w)) /\
            (length (xs1 ++ ys) = c ->
             buf' = Some (length (heap w)) /\
             length (heap w') = S (length (heap w)) /\
             forall b, buf = Some b -> heap w' !! b = Some Freed))
         (fun _ => False) w).
  { intros (w' & it & Hrun & buf' & -> & H)%wp_total. eauto. }
  eapply wp_Emplace;
    [done|done|done|done|by apply nothrow_quiet_init
    |by apply nothrow_quiet_transfer
    |by apply nothrow_quiet_move_ctor|by apply nothrow_quiet_move_assign|].
  intros w' buf' Hh' Ho Hroom Hfull. eauto 10.
Qed.

(** X2: [PushBack(const T &)] with a reference to an element of the vector
    itself appends a copy of that element, also when the append
    reallocates: the new element is built before the old ones are
    transferred. *)
Theorem PushBack_of_own_element w this b xs c i x :
  holds w this (Some b) xs c -> xs !! i = Some x ->
  nothrow_copy_ctor -> nothrow_transfer ->
  exists w' buf',
    PushBack this (Ptr (Some b) i) w = Ret w' tt /\
    holds w' this buf' (xs ++ [x]) (capacity_after_append (length xs) c).
Proof.
  intros Hh Hi Hnc Hnt.
  cut (wp False (PushBack this (Ptr (Some b) i))
         (fun _ w' => exists buf',
            holds w' this buf' (xs ++ [x])
              (capacity_after_append (length xs) c))
         (fun _ => False) w).
  { intros (w' & [] & Hrun & buf' & H)%wp_total. eauto. }
  unfold PushBack. apply wp_bind.
  eapply (wp_EmplaceBack _ _ _ _ _ _ (FromCopy (Ptr (Some b) i)) x);
    [done| |done|by apply nothrow_quiet_copy_ctor
    |by apply nothrow_quiet_transfer|].
  - simpl. apply peek_Some. destruct Hh as [_ [Hb _]].
    eexists _, _. split; [done|]. split; [done|]. simpl.
    rewrite lookup_app_l by (rewrite length_map; by eapply lookup_lt_Some).
    by rewrite list_lookup_fmap, Hi.
  - intros w' buf' Hh' _. apply wp_ret. eauto.
Qed.

(** X3: [Reserve(n)] on a valid vector whose transfers do not throw: with
    [n] at most the capacity nothing at all happens; otherwise, for an
    [allocatable] [n], the vector has the same elements in a fresh block of
    exactly [n] slots, its old block is released, and no other vector object
    changes. *)
Theorem Reserve_reallocates w this buf xs c n :
  holds w this buf xs c -> nothrow_transfer ->
  (n <= c -> Reserve this n w = Ret w tt) /\
  (c < n -> allocatable n ->
   exists w',
     Reserve this n w = Ret w' tt /\
     holds w' this (Some (length (heap w))) xs n /\
     length (heap w') = S (length (heap w)) /\
     (forall b, buf = Some b -> heap w' !! b = Some Freed) /\
     (forall o, o <> this -> vector_at w' o = vector_at w o)).
Proof.
  intros Hh Hnt. split; [intros Hn|intros Hn _].
  - cut (wp False (Reserve this n) (fun _ w' => w' = w) (fun _ => False) w).
    { by intros (w' & [] & Hrun & ->)%wp_total. }
    eapply wp_Reserve; [done|by apply nothrow_quiet_transfer|done|lia].
  - cut (wp False (Reserve this n)
           (fun _ w' =>
              holds w' this (Some (length (heap w))) xs n /\
              length (heap w') = S (length (heap w)) /\
              (forall b, buf = Some b -> heap w' !! b = Some Freed) /\
              (forall o, o <> this -> vector_at w' o = vector_at w o))
           (fun _ => False) w).
    { intros (w' & [] & Hrun & H)%wp_total. eauto. }
    eapply wp_Reserve; [done|by apply nothrow_quiet_transfer|lia|].
    intros _ w' Hh' Hl' Hfreed _ Ho _. eauto.
Qed.

(** X4: [Resize(n)] on a valid vector, to a size within the capacity or
    [allocatable], value construction and transfers not throwing: the vector
    holds its first [n] elements, followed by value-initialised ones up to
    the size [n]; the capacity is the larger of the old capacity and [n]
    (not doubled), and with [n] at most the capacity the buffer stays and
    nothing is allocated. *)
Theorem Resize_to w this buf xs c n :
  holds w this buf xs c -> (c < n -> allocatable n) ->
  nothrow_value_ctor -> nothrow_transfer ->
  exists w' buf',
    Resize this n w = Ret w' tt /\
    holds w' this buf' (take n xs ++ replicate (n - length xs) value_init)
      (Nat.max c n) /\
    (n <= c -> buf' = buf /\ length (heap w') = length (heap w)) /\
    (forall o, o <> this -> vector_at w' o = vector_at w o).
Proof.
  intros Hh _ Hnv Hnt.
  cut (wp False (Resize this n)
         (fun _ w' => exists buf',
            holds w' this buf'
              (take n xs ++ replicate (n - length xs) value_init) (Nat.max c n) /\
            (n <= c -> buf' = buf /\ length (heap w') = length (heap w)) /\
            (forall o, o <> this -> vector_at w' o = vector_at w o))
         (fun _ => False) w).
  { intros (w' & [] & Hrun & buf' & H)%wp_total. eauto. }
  eapply wp_Resize; [done|by apply nothrow_quiet_transfer
                    |by apply nothrow_quiet_value_ctor|].
  intros w' buf' Hh' Hsame _ Ho _. eauto.
Qed.

(** X5: [PopBack] on a valid vector that is not empty destroys the last
    element and nothing else: the other elements, the buffer and the
    capacity stay.  On an empty vector the behaviour is undefined: the
    destructor is called on the slot before the buffer. *)
Theorem PopBack_removes_last w this buf xs c :
  holds w this buf xs c ->
  (xs = [] -> PopBack this w = UB) /\
  (forall ys x, xs = ys ++ [x] ->
     exists w',
       PopBack this w = Ret w' tt /\
       holds w' this buf ys c /\ log w' = Dtor x :: log w /\
       (forall o, o <> this -> vector_at w' o = vector_at w o)).
Proof.
  intros Hh. split.
  - intros ->. destruct Hh as [Hv _]. unfold PopBack, bind, load.
    by rewrite Hv.
  - intros ys x ->.
    destruct (holds_buffer _ _ _ _ _ Hh) as [b ->]; [by destruct ys|].
    cut (wp False (PopBack this)
           (fun _ w' =>
              holds w' this (Some b) ys c /\ log w' = Dtor x :: log w /\
              (forall o, o <> this -> vector_at w' o = vector_at w o))
           (fun _ => False) w).
    { intros (w' & [] & Hrun & H)%wp_total. eauto. }
    eapply wp_PopBack; [done|]. intros w' Hh' Hl' Ho _ _. eauto.
Qed.

(** X6: an [EmplaceBack] whose arguments do not ask to move from an
    element of the vector itself, followed by [PopBack], leaves the elements
    the vector had, in order; the capacity is the one the append left. *)
Theorem PopBack_undoes_EmplaceBack w this buf xs c a x :
  holds w this buf xs c -> init_value w a = Some x ->
  (forall b, buf = Some b -> init_moves_from a <> Some b) ->
  nothrow_init a -> nothrow_transfer ->
  exists w' buf',
    bind (EmplaceBack this a) (fun _ => PopBack this) w = Ret w' tt /\
    holds w' this buf' xs (capacity_after_append (length xs) c) /\
    elements w' this = elements w this.
Proof.
  intros Hh Hx Hout Hni Hnt.
  cut (wp False (bind (EmplaceBack this a) (fun _ => PopBack this))
         (fun _ w' => exists buf',
            holds w' this buf' xs (capacity_after_append (length xs) c))
         (fun _ => False) w).
  { intros (w' & [] & Hrun & buf' & Hh')%wp_total. exists w', buf'.
    split; [done|]. split; [done|].
    by rewrite (holds_elements _ _ _ _ _ Hh), (holds_elements _ _ _ _ _ Hh'). }
  apply wp_bind.
  eapply wp_EmplaceBack; [done|done|done|by apply nothrow_quiet_init
                         |by apply nothrow_quiet_transfer|].
  intros w1 buf1 Hh1 _.
  destruct (holds_buffer _ _ _ _ _ Hh1) as [b1 ->]; [by destruct xs|].
  eapply wp_PopBack; [done|]. intros w' Hh' _ _ _ _. eauto.
Qed.

(** X7: [Erase] at the iterator an [Emplace] returned, the position being
    one that [int] holds and the arguments not referring to an element of
    the vector itself, undoes the insertion: the vector holds the elements
    it had, in order, and the iterator returned is to the same position. *)
Theorem Erase_undoes_Emplace w this buf xs1 ys c a x :
  holds w this buf (xs1 ++ ys) c ->
  (Z.of_nat (length xs1) <= INT_MAX)%Z ->
  init_value w a = Some x -> init_outside a buf ->
  nothrow_init a -> nothrow_transfer ->
  nothrow_move_ctor -> nothrow_move_assign ->
  exists w' buf',
    bind (Emplace this (Ptr buf (length xs1)) a) (fun it => Erase this it) w
      = Ret w' (Ptr buf' (length xs1)) /\
    holds w' this buf' (xs1 ++ ys)
      (capacity_after_append (length (xs1 ++ ys)) c) /\
    elements w' this = elements w this.
Proof.
  intros Hh Hint Hx Hout Hni Hnt Hnc Hna.
  cut (wp False
         (bind (Emplace this (Ptr buf (length xs1)) a) (fun it => Erase this it))
         (fun it w' => exists buf',
            it = Ptr buf' (length xs1) /\
            holds w' this buf' (xs1 ++ ys)
              (capacity_after_append (length (xs1 ++ ys)) c))
         (fun _ => False) w).
  { intros (w' & it & Hrun & buf' & -> & Hh')%wp_total. exists w', buf'.
    split; [done|]. split; [done|].
    by rewrite (holds_elements _ _ _ _ _ Hh), (holds_elements _ _ _ _ _ Hh'). }
  apply wp_bind.
  eapply wp_Emplace;
    [done|done|done|done|by apply nothrow_quiet_init
    |by apply nothrow_quiet_transfer
    |by apply nothrow_quiet_move_ctor|by apply nothrow_quiet_move_assign|].
  intros w1 buf1 Hh1 _ _ _.
  destruct (holds_buffer _ _ _ _ _ Hh1) as [b1 ->]; [by destruct xs1|].
  eapply wp_Erase;
    [done|by apply to_int_small|by apply nothrow_quiet_move_assign|].
  intros w' Hh' _ _ _. eauto.
Qed.

(** X8: appends that fit in the capacity, as after a [Reserve], keep the
    buffer: nothing is allocated, the capacity stays, and the elements that
    were there stay where they were. *)
Theorem appends_within_capacity w this b xs c vs :
  holds w this (Some b) xs c -> length xs + length vs <= c ->
  nothrow_args_ctor ->
  exists w',
    appends this (map FromArgs vs) w = Ret w' tt /\
    holds w' this (Some b) (xs ++ vs) c /\
    length (heap w') = length (heap w).
Proof.
  intros Hh Hfit Hna.
  cut (wp False (appends this (map FromArgs vs))
         (fun _ w' =>
            holds w' this (Some b) (xs ++ vs) c /\
            length (heap w') = length (heap w))
         (fun _ => False) w).
  { intros (w' & [] & Hrun & H)%wp_total. eauto. }
  revert w xs Hh Hfit.
  induction vs as [|v vs IH]; intros w xs Hh Hfit.
  - simpl. apply wp_ret. by rewrite app_nil_r.
  - simpl in *. apply wp_bind.
    eapply (wp_EmplaceBack_room _ _ _ _ _ _ (FromArgs v) v);
      [done|lia|done|done|by apply nothrow_quiet_args_ctor|].
    intros w1 Hh1 Hl1 _.
    eapply wp_mono; [eapply (IH w1 (xs ++ [v])); [done|]| |done].
    + rewrite length_app. simpl. lia.
    + intros _ w' [Hh' Hl']. simpl.
      rewrite <- (assoc_L (++)) in Hh'. split; [done|congruence].
Qed.

End Members.

Section MembersExamples.
#[local] Existing Instance Int.

Lemma holds_three_of_four : holds three_of_four 0 (Some 0) [1; 2; 3] 4.
Proof. split; [reflexivity|split; [reflexivity|simpl; lia]]. Qed.

Lemma holds_three_of_three : holds three_of_three 0 (Some 0) [1; 2; 3] 3.
Proof. split; [reflexivity|split; [reflexivity|simpl; lia]]. Qed.

(** [v.Emplace(v.begin() + 1, 9)] on [[1; 2; 3]] with capacity 4. *)
Lemma Emplace_inserts_witness :
  exists w' buf',
    Emplace 0 (Ptr (Some 0) 1) (FromArgs 9) three_of_four
      = Ret w' (Ptr buf' 1) /\
    holds w' 0 buf' [1; 9; 2; 3] 4 /\
    (forall o, o <> 0 -> vector_at w' o = vector_at three_of_four o) /\
    (3 < 4 -> buf' = Some 0 /\ length (heap w') = 1) /\
    (3 = 4 ->
     buf' = Some 1 /\ length (heap w') = 2 /\
     forall b, Some 0 = Some b -> heap w' !! b = Some Freed).
Proof.
  apply (Emplace_inserts three_of_four 0 (Some 0) [1] [2; 3] 4 (FromArgs 9) 9).
  - split; [reflexivity|split; [reflexivity|simpl; lia]].
  - intros _. unfold INT_MAX. simpl. lia.
  - reflexivity.
  - exact I.
  - intros h v. reflexivity.
  - intros h x. reflexivity.
  - intros h x. reflexivity.
  - intros h d s. reflexivity.
Defined.

(** [v.PushBack(v[2])] on [[1; 2; 3]] with capacity 3. *)
Lemma PushBack_of_own_element_witness :
  exists w' buf',
    PushBack 0 (Ptr (Some 0) 2) three_of_three = Ret w' tt /\
    holds w' 0 buf' [1; 2; 3; 3] 6.
Proof.
  apply (PushBack_of_own_element three_of_three 0 0 [1; 2; 3] 3 2 3).
  - split; [reflexivity|split; [reflexivity|simpl; lia]].
  - reflexivity.
  - intros h x. reflexivity.
  - intros h x. reflexivity.
Defined.

(** [v.Reserve(10)] and [v.Reserve(2)] on [[1; 2; 3]] with capacity 4. *)
Lemma Reserve_reallocates_witness :
  (exists w',
     Reserve 0 10 three_of_four = Ret w' tt /\
     holds w' 0 (Some 1) [1; 2; 3] 10 /\
     length (heap w') = 2 /\
     (forall b, Some 0 = Some b -> heap w' !! b = Some Freed) /\
     (forall o, o <> 0 -> vector_at w' o = vector_at three_of_four o)) /\
  Reserve 0 2 three_of_four = Ret three_of_four tt.
Proof.
  assert (holds three_of_four 0 (Some 0) [1; 2; 3] 4) as Hh
    by (split; [reflexivity|split; [reflexivity|simpl; lia]]).
  assert (nothrow_transfer) as Hnt by (intros h x; reflexivity).
  split.
  - apply (proj2 (Reserve_reallocates three_of_four 0 (Some 0) [1; 2; 3] 4 10
                    Hh Hnt)); [lia|]. unfold allocatable, SIZE_MAX. simpl. lia.
  - apply (proj1 (Reserve_reallocates three_of_four 0 (Some 0) [1; 2; 3] 4 2
                    Hh Hnt)). lia.
Defined.

(** [v.Resize(5)] on [[1; 2; 3]] with capacity 4. *)
Lemma Resize_to_witness :
  exists w' buf',
    Resize 0 5 three_of_four = Ret w' tt /\
    holds w' 0 buf' [1; 2; 3; 0; 0] 5 /\
    (5 <= 4 -> buf' = Some 0 /\ length (heap w') = 1) /\
    (forall o, o <> 0 -> vector_at w' o = vector_at three_of_four o).
Proof.
  assert (holds three_of_four 0 (Some 0) [1; 2; 3] 4) as Hh
    by (split; [reflexivity|split; [reflexivity|simpl; lia]]).
  assert (nothrow_value_ctor) as Hnv by (intros h; reflexivity).
  assert (nothrow_transfer) as Hnt by (intros h x; reflexivity).
  assert (4 < 5 -> allocatable 5) as Hn
    by (intros _; unfold allocatable, SIZE_MAX; simpl; lia).
  exact (Resize_to three_of_four 0 (Some 0) [1; 2; 3] 4 5 Hh Hn Hnv Hnt).
Defined.

(** [v.PopBack()] on [[1; 2; 3]]. *)
Lemma PopBack_removes_last_witness :
  exists w',
    PopBack 0 three_of_four = Ret w' tt /\
    holds w' 0 (Some 0) [1; 2] 4 /\ log w' = [Dtor 3] /\
    (forall o, o <> 0 -> vector_at w' o = vector_at three_of_four o).
Proof.
  apply (proj2 (PopBack_removes_last three_of_four 0 (Some 0) [1; 2; 3] 4
                  ltac:(split; [reflexivity|split; [reflexivity|simpl; lia]]))
           [1; 2] 3).
  reflexivity.
Defined.

(** [v.EmplaceBack(9); v.PopBack()] on [[1; 2; 3]] with capacity 3. *)
Lemma PopBack_undoes_EmplaceBack_witness :
  exists w' buf',
    bind (EmplaceBack 0 (FromArgs 9)) (fun _ => PopBack 0) three_of_three
      = Ret w' tt /\
    holds w' 0 buf' [1; 2; 3] 6 /\
    elements w' 0 = elements three_of_three 0.
Proof.
  apply (PopBack_undoes_EmplaceBack three_of_three 0 (Some 0) [1; 2; 3] 3
           (FromArgs 9) 9).
  - split; [reflexivity|split; [reflexivity|simpl; lia]].
  - reflexivity.
  - intros b _. simpl. congruence.
  - intros h v. reflexivity.
  - intros h x. reflexivity.
Defined.

(** [v.Erase(v.Emplace(v.begin() + 1, 9))] on [[1; 2; 3]] with capacity 4. *)
Lemma Erase_undoes_Emplace_witness :
  exists w' buf',
    bind (Emplace 0 (Ptr (Some 0) 1) (FromArgs 9)) (fun it => Erase 0 it)
      three_of_four = Ret w' (Ptr buf' 1) /\
    holds w' 0 buf' [1; 2; 3] 4 /\
    elements w' 0 = elements three_of_four 0.
Proof.
  apply (Erase_undoes_Emplace three_of_four 0 (Some 0) [1] [2; 3] 4
           (FromArgs 9) 9).
  - split; [reflexivity|split; [reflexivity|simpl; lia]].
  - unfold INT_MAX. simpl. lia.
  - reflexivity.
  - exact I.
  - intros h v. reflexivity.
  - intros h x. reflexivity.
  - intros h x. reflexivity.
  - intros h d s. reflexivity.
Defined.

(** [v.PushBack(9)] on [[1; 2; 3]] with capacity 4. *)
Lemma appends_within_capacity_witness :
  exists w',
    appends 0 [FromArgs 9] three_of_four = Ret w' tt /\
    holds w' 0 (Some 0) [1; 2; 3; 9] 4 /\
    length (heap w') = 1.
Proof.
  apply (appends_within_capacity three_of_four 0 0 [1; 2; 3] 4 [9]).
  - split; [reflexivity|split; [reflexivity|simpl; lia]].
  - simpl. lia.
  - intros h v. reflexivity.
Defined.

End MembersExamples.

(** ** Exceptions from element constructors *)

Section Unwinding.
Context {T : Type} `{!Element T}.
Implicit Types (w : world T) (v : Vector) (blk pre post : list (slot T)).

Local Abbreviation touches P m := (@respects T (keeps P) _ m) (only parsing).
Local Abbreviation silent m := (@nothrows T _ m) (only parsing).

Lemma heap_freed_tail w w1 w3 blk :
  heap w1 = heap w ++ [Block blk] ->
  keeps (fun b => b = length (heap w)) w1 w3 ->
  <[length (heap w) := Freed]> (heap w3) = heap w ++ [Freed].
Proof.
  intros Hh1 (_ & Hl & Hsame). apply list_eq. intros i.
  assert (length (heap w3) = S (length (heap w))) as Hlen
    by (rewrite Hl, Hh1, length_app; simpl; lia).
  destruct (decide (i = length (heap w))) as [->|Hne].
  - rewrite list_lookup_insert_eq by lia.
    by rewrite lookup_app_r, Nat.sub_diag by lia.
  - rewrite list_lookup_insert_ne by done.
    rewrite Hsame, Hh1 by done.
    destruct (decide (i < length (heap w))).
    + by rewrite !lookup_app_l by done.
    + rewrite !lookup_ge_None_2; [done|..]; rewrite length_app; simpl; lia.
Qed.

(** A fresh block filled by [body], which touches nothing else, and
    released when [body] throws: the exception leaves one more cell on the
    heap, freed, and everything else as it was. *)
Lemma wp_released_on_throw {A} (body : M T A) blk w w1 :
  heap w1 = heap w ++ [Block blk] -> objs w1 = objs w ->
  touches (fun b => b = length (heap w)) body ->
  wp True (rethrow_after body (Deallocate (Some (length (heap w)))))
    (fun _ w' => keeps (fun b => b = length (heap w)) w1 w')
    (fun w' => heap w' = heap w ++ [Freed] /\ objs w' = objs w) w1.
Proof.
  intros Hh1 Ho1 Hbody. apply wp_rethrow_after.
  eapply wp_keeps; [exact Hbody|done|].
  intros w3 Hk3. unfold wp, Deallocate.
  destruct (block_at w3 (length (heap w))); [|done]. simpl.
  split; [by eapply heap_freed_tail|].
  destruct Hk3 as [-> _]. done.
Qed.

Lemma same_vector_blocks this w w' :
  vector_at w' this = vector_at w this ->
  (forall b, block_at w' b = block_at w b) ->
  same_vector this w w'.
Proof.
  intros Hv Hb.
  assert (forall v, storage w' v = storage w v) as Hs.
  { intros v. unfold storage. destruct (buffer_ (data_ v)); [apply Hb|done]. }
  split; [done|]. split; [by intros v _|].
  unfold size_of, capacity_of, elements. rewrite Hv.
  destruct (vector_at w this) as [v|]; [|done]. by rewrite Hs.
Qed.

Lemma block_at_freed_tail w w' b :
  heap w' = heap w ++ [Freed] -> block_at w' b = block_at w b.
Proof.
  intros Hh. unfold block_at. rewrite Hh.
  destruct (decide (b < length (heap w))).
  - by rewrite lookup_app_l.
  - rewrite (lookup_ge_None_2 (heap w)) by lia.
    destruct (decide (b = length (heap w))) as [->|].
    + by rewrite lookup_app_r, Nat.sub_diag by lia.
    + rewrite lookup_ge_None_2; [done|]. rewrite length_app. simpl. lia.
Qed.

Lemma same_vector_freed_tail this w w' :
  heap w' = heap w ++ [Freed] -> objs w' = objs w -> same_vector this w w'.
Proof.
  intros Hh Ho. apply same_vector_blocks; [by apply vector_at_objs_eq|].
  intros b. by apply block_at_freed_tail.
Qed.


(** X10: [Vector(const Vector &)] when a copy constructor throws: no vector
    object is created, the block the constructor allocated is released, and
    every other block and object, the source among them, is as before. *)
Theorem Vector_copy_throw_releases w other w' :
  Vector_copy other w = Throw w' ->
  heap w' = heap w ++ [Freed] /\ objs w' = objs w /\
  same_vector other w w'.
Proof.
  intros Hrun.
  cut (wp True (Vector_copy other) (fun _ _ => True)
         (fun w' => heap w' = heap w ++ [Freed] /\ objs w' = objs w) w).
  { intros Hwp. destruct (wp_throw_inv _ _ _ _ _ _ Hwp Hrun) as [Hh Ho].
    split; [done|]. split; [done|]. by apply same_vector_freed_tail. }
  unfold Vector_copy.
  apply wp_bind. unfold wp at 1, load.
  destruct (objs w !! other) as [[o|]|]; [|done..].
  apply wp_bind. apply wp_RawMemory_new_any.
  intros w1 d Ho1 _ _ [(Hd & Hn & Hh1)|(Hd & Hn & Hh1)].
  - rewrite Hn. simpl. apply wp_bind. apply wp_rethrow_after, wp_ret. done.
  - apply wp_bind. unfold RawMemory_delete. rewrite Hd.
    eapply wp_mono;
      [apply (wp_released_on_throw _ _ w w1 Hh1 Ho1)| |done].
    + apply respects_uninitialized_copy_n.
      unfold in_block, GetAddress. simpl. rewrite Hd. by intros b [= <-].
    + by intros _ w2 _.
Qed.

(** A [Reserve] that copies and throws has released its block. *)
Lemma Reserve_unwinds w this n :
  transfers_by_move = false ->
  wp True (Reserve this n) (fun _ _ => True)
    (fun w' => heap w' = heap w ++ [Freed] /\ objs w' = objs w) w.
Proof.
  intros Hcopy. unfold Reserve.
  apply wp_bind. unfold wp at 1, load.
  destruct (objs w !! this) as [[v|]|]; [|done..].
  case_decide as Hn; [by apply wp_ret|].
  apply wp_bind. apply wp_RawMemory_new_any.
  intros w1 d Ho1 _ _ [(Hd & Hn0 & Hh1)|(Hd & Hn0 & Hh1)]; [lia|].
  apply wp_bind. unfold RawMemory_delete. rewrite Hd.
  eapply wp_mono;
    [apply (wp_released_on_throw _ _ w w1 Hh1 Ho1)| |done].
  - unfold CopyOrMove. rewrite Hcopy.
    apply respects_bind; [apply keeps_trans|apply respects_load|].
    intros v0. apply respects_uninitialized_copy_n.
    unfold in_block, GetAddress. simpl. rewrite Hd. by intros b [= <-].
  - intros _ w2 _. simpl. apply wp_nothrows; [|done].
    apply nothrows_bind; [apply nothrows_destroy_n|]. intros _.
    apply nothrows_bind; [apply nothrows_Swap_data|]. intros d'.
    apply nothrows_Deallocate.
Qed.


End Unwinding.

Section Leaks.
Context {T : Type} `{!Element T}.
Implicit Types (w : world T) (v : Vector) (blk pre post : list (slot T)).

Lemma insert_tail {A} (l : list A) (x y : A) :
  <[length l := y]> (l ++ [x]) = l ++ [y].
Proof. apply insert_at_length. Qed.

(** X12: a growing [EmplaceBack] that builds the new element from
    constructor arguments, for an element type that [CopyOrMove] copies,
    when the copy of the first element throws: the new element has been
    built in the new block by then, and the block is released without the
    destructor of the new element, or any other, being called; the blocks
    and the vector objects there were are as before. *)
Theorem EmplaceBack_throw_skips_destructor w this b y ys c x :
  holds w this (Some b) (y :: ys) c -> length (y :: ys) = c ->
  transfers_by_move = false ->
  throws (log w) (ArgsCtor x) = false ->
  throws (ArgsCtor x :: log w) (CopyCtor y) = true ->
  exists w',
    EmplaceBack this (FromArgs x) w = Throw w' /\
    log w' = CopyCtor y :: ArgsCtor x :: log w /\
    heap w' = heap w ++ [Freed] /\ objs w' = objs w.
Proof.
  intros Hh Hfull Hcopy Hargs Hthrow.
  cut (wp False (EmplaceBack this (FromArgs x)) (fun _ _ => False)
         (fun w' =>
            log w' = CopyCtor y :: ArgsCtor x :: log w /\
            heap w' = heap w ++ [Freed] /\ objs w' = objs w) w).
  { apply wp_throws. }
  pose proof (holds_vector_at _ _ _ _ _ Hh) as Hv.
  destruct Hh as [_ [Hb _]].
  pose proof (block_at_lt _ _ _ Hb) as Hlt.
  unfold EmplaceBack.
  apply wp_bind. eapply wp_load; [done|]. simpl.
  rewrite decide_True by (simpl in Hfull; lia).
  apply wp_bind. apply wp_bind. apply wp_RawMemory_new.
  { unfold grown. simpl. simpl in Hfull. lia. }
  intros w1 Hh1 Ho1 Hl1.
  set (g := grown _) in *. set (nb := length (heap w)) in *.
  assert (S (length ys) < g) as Hg by (unfold g, grown; simpl in *; lia).
  pose proof (block_at_alloc_new _ _ _ Hh1) as Hnb. fold nb in Hnb.
  apply wp_bind. apply wp_rethrow_after. apply wp_bind.
  unfold placement_new. simpl.
  apply wp_bind. apply wp_bind. apply wp_call; [by rewrite Hl1|].
  apply wp_ret.
  eapply wp_write; [done|by rewrite block_at_logged| |].
  { simpl. rewrite length_replicate. lia. }
  unfold CopyOrMove. rewrite Hcopy.
  assert (vector_at w1 this = vector_at w this) as Hv1
    by (by apply vector_at_objs_eq).
  rewrite Hv in Hv1.
  apply wp_bind. eapply wp_load; [exact Hv1|]. simpl.
  apply wp_bind. apply wp_rethrow_after.
  apply wp_bind. apply wp_bind.
  eapply (wp_read _ _ b
            (map Obj (y :: ys) ++ replicate (c - length (y :: ys)) Raw) y);
    [done| |done|].
  { rewrite block_at_put_block_ne by (unfold nb; lia).
    rewrite block_at_logged.
    rewrite (block_at_alloc_old _ _ _ _ Hh1) by done. exact Hb. }
  apply wp_bind. apply wp_call_throw; [by simpl; rewrite Hl1|].
  apply wp_ret. unfold RawMemory_delete. simpl.
  eapply wp_Deallocate.
  { rewrite block_at_logged. apply block_at_put_block_eq.
    simpl. rewrite Hh1, length_app. simpl. unfold nb. lia. }
  intros w5 Hh5 Ho5 Hl5.
  split; [by rewrite Hl5; simpl; rewrite Hl1|].
  split; [|by rewrite Ho5].
  rewrite Hh5. simpl. rewrite list_insert_insert_eq, Hh1.
  apply insert_tail.
Qed.

End Leaks.

Section UnwindingExamples.

(** [Vector<Thrower> v(3)] when the second constructor call throws. *)
Definition sized_thrown : world nat :=
  Eval vm_compute in
    match @Vector_sized nat (Thrower 2) 3 empty_world with
    | Throw w => w
    | _ => empty_world
    end.


(** The one element built was destroyed before the block was released. *)
Lemma sized_thrown_log : log sized_thrown = [Dtor 0; ValueCtor; ValueCtor].
Proof. reflexivity. Qed.

(** [Vector<Thrower> c(v)] for the vector of three elements, when the
    second copy throws. *)
Definition copy_thrown : world nat :=
  Eval vm_compute in
    match @Vector_copy nat (Thrower 5) 0 three_constructed with
    | Throw w => w
    | _ => empty_world
    end.

Lemma Vector_copy_throw_releases_witness :
  heap copy_thrown = heap three_constructed ++ [Freed] /\
  objs copy_thrown = objs three_constructed /\
  same_vector 0 three_constructed copy_thrown.
Proof.
  apply (@Vector_copy_throw_releases nat (Thrower 5) three_constructed 0
           copy_thrown).
  vm_compute. reflexivity.
Defined.



(** [v.EmplaceBack(9)] on the full vector of three elements, when the copy
    of the first element throws. *)
Lemma EmplaceBack_throw_skips_destructor_witness :
  exists w',
    @EmplaceBack nat (Thrower 5) 0 (FromArgs 9) three_constructed = Throw w' /\
    log w' = [CopyCtor 0; ArgsCtor 9; ValueCtor; ValueCtor; ValueCtor] /\
    heap w' = heap three_constructed ++ [Freed] /\
    objs w' = objs three_constructed.
Proof.
  apply (@EmplaceBack_throw_skips_destructor nat (Thrower 5)
           three_constructed 0 0 0 [0; 0] 3 9).
  - split; [reflexivity|split; [reflexivity|simpl; lia]].
  - reflexivity.
  - reflexivity.
  - reflexivity.
  - reflexivity.
Defined.

End UnwindingExamples.

(** ** Construction, destruction, [Swap] and copy assignment *)

Section Lifetimes.
Context {T : Type} `{!Element T}.
Implicit Types (w : world T) (v : Vector) (blk pre post : list (slot T)).

(** [std::destroy_n] with the calls it makes: first to last. *)
Lemma wp_destroy_n_log U p b pre xs post Q E w :
  base p = Some b -> off p = length pre ->
  block_at w b = Some (pre ++ map Obj xs ++ post) ->
  (forall w',
     heap w' = <[b := Block (pre ++ replicate (length xs) Raw ++ post)]> (heap w) ->
     objs w' = objs w -> log w' = rev (map Dtor xs) ++ log w -> Q tt w') ->
  wp U (destroy_n p (length xs)) Q E w.
Proof.
  revert p pre w Q.
  induction xs as [|x xs IH]; intros p pre w Q Hp Hoff Hb HQ.
  - simpl. apply wp_ret. apply HQ; [|done..]. simpl.
    symmetry. apply list_insert_id. by apply block_at_Some.
  - simpl. pose proof (block_at_lt _ _ _ Hb) as Hlt.
    apply wp_bind. eapply wp_destroy_at; [done|done| |].
    { rewrite Hoff. apply lookup_at_length. }
    intros w1 Hh1 Ho1 Hl1.
    eapply (IH (ptr_add p 1) (pre ++ [Raw])); [done| | |].
    { simpl. rewrite length_app. simpl. lia. }
    { eapply block_at_heap_eq; [|done]. rewrite Hh1. do 2 f_equal.
      rewrite Hoff. simpl. rewrite insert_at_length.
      by rewrite <- (assoc_L (++)). }
    intros w2 Hh2 Ho2 Hl2. apply HQ; [|congruence|].
    + rewrite (heap_insert_insert _ _ _ _ _ _ Hh1 Hh2).
      by rewrite <- (assoc_L (++)).
    + rewrite Hl2, Hl1. simpl. by rewrite <- (assoc_L (++)).
Qed.

(** X13: [Vector(size_t n)] for an [allocatable] [n], with a value
    constructor that does not throw, builds a new vector object of [n]
    value-initialised elements and capacity [n], in a fresh block; [n = 0]
    allocates nothing.  The blocks and objects there were are untouched. *)
Theorem Vector_sized_builds w n :
  allocatable n -> nothrow_value_ctor ->
  exists w' buf,
    Vector_sized n w = Ret w' (length (objs w)) /\
    holds w' (length (objs w)) buf (replicate n value_init) n /\
    (n = 0 -> buf = None /\ heap w' = heap w) /\
    (0 < n -> buf = Some (length (heap w))) /\
    (forall o, o < length (objs w) -> vector_at w' o = vector_at w o) /\
    (forall b, b < length (heap w) -> block_at w' b = block_at w b).
Proof.
  intros _ Hnv.
  cut (wp False (Vector_sized n)
         (fun this w' => this = length (objs w) /\ exists buf,
            holds w' (length (objs w)) buf (replicate n value_init) n /\
            (n = 0 -> buf = None /\ heap w' = heap w) /\
            (0 < n -> buf = Some (length (heap w))) /\
            (forall o, o < length (objs w) -> vector_at w' o = vector_at w o) /\
            (forall b, b < length (heap w) -> block_at w' b = block_at w b))
         (fun _ => False) w).
  { intros (w' & this & Hrun & -> & buf & H)%wp_total. eauto. }
  unfold Vector_sized.
  apply wp_bind. apply wp_RawMemory_new_any.
  intros w1 d Ho1 _ Hcap [(Hd & Hn & Hh1)|(Hd & Hn & Hh1)].
  - destruct d as [bd cd]. simpl in *. subst bd cd. subst n. simpl.
    apply wp_bind. apply wp_rethrow_after. apply wp_ret.
    apply wp_new_object. rewrite Ho1. split; [done|]. exists None.
    split; [|split; [|split; [lia|split]]].
    + split; [|done]. simpl. rewrite Ho1.
      by rewrite lookup_app_r, Nat.sub_diag by lia.
    + done.
    + intros o Ho. unfold vector_at. simpl. by rewrite Ho1, lookup_app_l.
    + intros b Hb. unfold block_at. simpl. by rewrite Hh1.
  - set (nb := length (heap w)) in *.
    destruct d as [bd cd]. simpl in *. subst bd cd.
    assert (block_at w1 nb = Some ([] ++ replicate n Raw ++ [])) as Hnb1
      by (rewrite app_nil_r; by eapply block_at_alloc_new).
    apply wp_bind. apply wp_rethrow_after.
    unfold uninitialized_value_construct_n.
    rewrite <- (length_replicate n (@Raw T)) at 2.
    eapply (wp_uninitialized_value_construct_from _ _ nb 0 []);
      [done|done|exact Hnb1| |].
    { intros h Hh. apply excused_cleanup. by rewrite Hnv in Hh. }
    intros w2 Hh2 Ho2. simpl in Hh2.
    rewrite app_nil_r, length_replicate in Hh2.
    apply wp_new_object. rewrite Ho2, Ho1. split; [done|]. exists (Some nb).
    split; [|split; [lia|split; [done|split]]].
    + split.
      * simpl. rewrite Ho2, Ho1.
        rewrite lookup_app_r, Nat.sub_diag by lia. simpl.
        by rewrite length_replicate.
      * rewrite length_replicate, Nat.sub_diag. simpl. rewrite app_nil_r.
        split; [|done]. rewrite (fmap_replicate Obj).
        eapply block_at_heap_eq; [done|].
        rewrite Hh1, length_app. simpl. unfold nb. lia.
    + intros o Ho. unfold vector_at. simpl. by rewrite Ho2, Ho1, lookup_app_l.
    + intros b' Hb'. unfold block_at. simpl. rewrite Hh2.
      rewrite list_lookup_insert_ne by (unfold nb; lia).
      by rewrite Hh1, lookup_app_l.
Qed.

(** X14: the copy constructor with a copy constructor of the elements that
    does not throw: the new vector has the elements of the source and a
    capacity equal to the size of the source, whatever the capacity of the
    source is. *)
Theorem Vector_copy_fits w other buf xs c :
  holds w other buf xs c -> nothrow_copy_ctor ->
  exists w' buf',
    Vector_copy other w = Ret w' (length (objs w)) /\
    holds w' (length (objs w)) buf' xs (length xs) /\
    capacity_of w' (length (objs w)) = Some (length xs) /\
    capacity_of w' other = Some c.
Proof.
  intros Hh Hn.
  cut (wp False (Vector_copy other)
         (fun this w' => this = length (objs w) /\ exists buf',
            holds w' (length (objs w)) buf' xs (length xs) /\
            capacity_of w' (length (objs w)) = Some (length xs) /\
            capacity_of w' other = Some c)
         (fun _ => False) w).
  { intros (w' & this & Hrun & -> & buf' & H)%wp_total. eauto. }
  eapply wp_Vector_copy; [done|by apply nothrow_quiet_copy_ctor|].
  intros w' buf' Hh' _ _ _ Ho _. split; [done|]. exists buf'.
  split; [done|]. split; [by eapply holds_capacity_of|].
  pose proof (holds_vector_at _ _ _ _ _ Hh) as Hv.
  unfold capacity_of. rewrite Ho by (by eapply vector_at_lt).
  by rewrite Hv.
Qed.

(** X15: the destructor of a valid vector destroys its elements, first to
    last, releases its block and ends the object; other blocks and objects
    are untouched. *)
Theorem Vector_delete_releases w this buf xs c :
  holds w this buf xs c ->
  exists w',
    Vector_delete this w = Ret w' tt /\
    vector_at w' this = None /\
    (forall b, buf = Some b -> heap w' !! b = Some Freed) /\
    log w' = rev (map Dtor xs) ++ log w /\
    (forall b, buf <> Some b -> block_at w' b = block_at w b) /\
    (forall o, o <> this -> vector_at w' o = vector_at w o).
Proof.
  intros Hh.
  cut (wp False (Vector_delete this)
         (fun _ w' =>
            vector_at w' this = None /\
            (forall b, buf = Some b -> heap w' !! b = Some Freed) /\
            log w' = rev (map Dtor xs) ++ log w /\
            (forall b, buf <> Some b -> block_at w' b = block_at w b) /\
            (forall o, o <> this -> vector_at w' o = vector_at w o))
         (fun _ => False) w).
  { intros (w' & [] & Hrun & H)%wp_total. eauto. }
  pose proof (holds_vector_at _ _ _ _ _ Hh) as Hv.
  pose proof (vector_at_lt _ _ _ Hv) as Hlo.
  unfold Vector_delete. apply wp_bind. eapply wp_load; [done|]. simpl.
  destruct buf as [b|].
  - destruct Hh as [_ [Hb Hle]]. pose proof (block_at_lt _ _ _ Hb) as Hlt.
    apply wp_bind.
    eapply (wp_destroy_n_log _ _ b [] xs); [done|done|exact Hb|].
    intros w1 Hh1 Ho1 Hl1.
    apply wp_bind. unfold RawMemory_delete. simpl.
    eapply wp_Deallocate; [by eapply block_at_heap_eq|].
    intros w2 Hh2 Ho2 Hl2.
    unfold wp, delete_object.
    assert (vector_at w2 this = vector_at w this) as Hv2
      by by rewrite (vector_at_objs_eq _ _ _ Ho2), (vector_at_objs_eq _ _ _ Ho1).
    rewrite Hv in Hv2. apply vector_at_Some in Hv2. rewrite Hv2.
    split; [|split; [|split; [|split]]].
    + unfold vector_at. simpl.
      by rewrite list_lookup_insert_eq by (rewrite Ho2, Ho1; lia).
    + intros b' [= <-]. simpl. rewrite Hh2.
      apply list_lookup_insert_eq. by rewrite Hh1, length_insert.
    + simpl. by rewrite Hl2.
    + intros b' Hb'. rewrite block_at_put_object.
      rewrite (block_at_heap_cell_ne _ _ _ _ _ Hh2) by congruence.
      by rewrite (block_at_heap_cell_ne _ _ _ _ _ Hh1) by congruence.
    + intros o Ho. rewrite vector_at_put_object_ne by done.
      by rewrite (vector_at_objs_eq _ _ _ Ho2), (vector_at_objs_eq _ _ _ Ho1).
  - destruct Hh as [_ [-> ->]]. simpl.
    apply wp_bind. apply wp_ret. apply wp_bind. apply wp_ret.
    unfold wp, delete_object. apply vector_at_Some in Hv. rewrite Hv.
    split; [|split; [done|split; [done|split; [done|]]]].
    + unfold vector_at. simpl. by rewrite list_lookup_insert_eq.
    + intros o Ho. by rewrite vector_at_put_object_ne.
Qed.

Lemma world_eta w : World (heap w) (objs w) (log w) = w.
Proof. by destruct w. Qed.

Lemma Swap_run w a b va vb :
  a <> b -> vector_at w a = Some va -> vector_at w b = Some vb ->
  Swap a b w = Ret (put_object a (Some vb) (put_object b (Some va) w)) tt.
Proof.
  intros Hne Ha Hb.
  pose proof (vector_at_lt _ _ _ Ha) as Hla.
  pose proof (vector_at_lt _ _ _ Hb) as Hlb.
  cut (wp False (Swap a b)
         (fun _ w' => w' = put_object a (Some vb) (put_object b (Some va) w))
         (fun _ => False) w).
  { by intros (w' & [] & Hrun & ->)%wp_total. }
  unfold Swap.
  apply wp_bind. eapply wp_load; [done|].
  apply wp_bind. eapply wp_load; [done|].
  apply wp_bind. eapply wp_set_data; [done|].
  set (w1 := put_object a _ w).
  apply wp_bind. eapply wp_set_data.
  { unfold w1. by rewrite vector_at_put_object_ne. }
  set (w2 := put_object b _ w1).
  assert (vector_at w2 a = Some {| data_ := data_ vb; size_ := size_ va |}) as Ha2.
  { unfold w2. rewrite vector_at_put_object_ne by done.
    unfold w1. by rewrite vector_at_put_object_eq. }
  assert (vector_at w2 b = Some {| data_ := data_ va; size_ := size_ vb |}) as Hb2.
  { unfold w2. rewrite vector_at_put_object_eq; [done|].
    unfold w1. by rewrite length_objs_put_object. }
  apply wp_bind. eapply wp_load; [done|].
  apply wp_bind. eapply wp_load; [done|].
  apply wp_bind. eapply wp_set_size; [done|]. simpl.
  set (w3 := put_object b _ w2).
  eapply wp_set_size.
  { unfold w3. by rewrite vector_at_put_object_ne. }
  simpl. unfold w3, w2, w1, put_object, set_objs. simpl. f_equal.
  rewrite list_insert_insert_eq.
  rewrite (list_insert_insert_ne _ a b) by done.
  rewrite list_insert_insert_eq.
  rewrite (list_insert_insert_ne _ a b) by done.
  by destruct va, vb.
Qed.

(** X16: [Swap] between two distinct vector objects exchanges what they
    hold (buffer, capacity and size) and touches nothing else: no block, no
    element, no call; swapping again gives back the very state it started
    from. *)
Theorem Swap_involution w a b va vb :
  a <> b -> vector_at w a = Some va -> vector_at w b = Some vb ->
  exists w',
    Swap a b w = Ret w' tt /\
    vector_at w' a = Some vb /\ vector_at w' b = Some va /\
    heap w' = heap w /\ log w' = log w /\
    (forall o, o <> a -> o <> b -> vector_at w' o = vector_at w o) /\
    Swap a b w' = Ret w tt.
Proof.
  intros Hne Ha Hb.
  pose proof (vector_at_lt _ _ _ Ha) as Hla.
  pose proof (vector_at_lt _ _ _ Hb) as Hlb.
  set (w' := put_object a (Some vb) (put_object b (Some va) w)).
  assert (vector_at w' a = Some vb) as Ha'.
  { unfold w'. apply vector_at_put_object_eq.
    by rewrite length_objs_put_object. }
  assert (vector_at w' b = Some va) as Hb'.
  { unfold w'. rewrite vector_at_put_object_ne by done.
    by apply vector_at_put_object_eq. }
  exists w'. split; [by apply Swap_run|].
  split; [done|]. split; [done|]. split; [done|]. split; [done|]. split.
  - intros o Hoa Hob. unfold w'. by rewrite !vector_at_put_object_ne.
  - rewrite (Swap_run w' a b vb va) by done.
    f_equal. unfold w', put_object, set_objs. simpl.
    rewrite (list_insert_insert_ne _ b a) by done.
    rewrite !list_insert_insert_eq.
    apply vector_at_Some in Ha, Hb.
    rewrite (list_insert_id _ b) by done.
    rewrite (list_insert_id _ a) by done.
    apply world_eta.
Qed.

(** X17: copy assignment between two valid vectors that do not share a
    buffer, copies not throwing: when the source has at most as many elements
    as the target has capacity, the target keeps its buffer and its
    capacity and nothing is allocated; otherwise its capacity becomes the
    size of the source.  Either way it holds the elements of the source. *)
Theorem assign_copy_capacity w this rhs bt xt ct br xr cr :
  this <> rhs -> holds w this bt xt ct -> holds w rhs br xr cr ->
  (forall k, bt = Some k -> br <> Some k) ->
  nothrow_copy_ctor -> nothrow_copy_assign ->
  exists w' bt' ct',
    assign_copy this rhs w = Ret w' tt /\
    holds w' this bt' xr ct' /\ holds w' rhs br xr cr /\
    (ct < length xr -> ct' = length xr) /\
    (length xr <= ct ->
     bt' = bt /\ ct' = ct /\ length (heap w') = length (heap w)).
Proof.
  intros Hne Ht Hr Hsep Hnc Hna.
  cut (wp False (assign_copy this rhs)
         (fun _ w' => exists bt' ct',
            holds w' this bt' xr ct' /\ holds w' rhs br xr cr /\
            (ct < length xr -> ct' = length xr) /\
            (length xr <= ct ->
             bt' = bt /\ ct' = ct /\ length (heap w') = length (heap w)))
         (fun _ => False) w).
  { intros (w' & [] & Hrun & bt' & ct' & H)%wp_total. eauto 10. }
  eapply wp_assign_copy_capacity;
    [done|exact Ht|exact Hr|done|by apply nothrow_quiet_copy_ctor
    |by apply nothrow_quiet_copy_assign|].
  intros w' bt' ct' Ht' Hr' _ Hbig Hfits. eauto 10.
Qed.

(** X18: move assignment of a vector that is not empty to itself: the
    vector is left with no buffer and capacity 0 but its old size, which is
    no valid state; its block stays allocated with the elements in it, and
    no destructor is called. *)
Theorem assign_move_self_breaks w this b xs c :
  holds w this (Some b) xs c -> xs <> [] ->
  exists w',
    assign_move this this w = Ret w' tt /\
    vector_at w' this =
      Some {| data_ := {| buffer_ := None; capacity_ := 0 |};
              size_ := length xs |} /\
    heap w' = heap w /\ log w' = log w /\
    (forall buf ys c', ~ holds w' this buf ys c').
Proof.
  intros Hh Hxs.
  pose proof (holds_vector_at _ _ _ _ _ Hh) as Hv.
  pose proof (vector_at_lt _ _ _ Hv) as Hlo.
  cut (wp False (assign_move this this)
         (fun _ w' =>
            vector_at w' this =
              Some {| data_ := {| buffer_ := None; capacity_ := 0 |};
                      size_ := length xs |} /\
            heap w' = heap w /\ log w' = log w)
         (fun _ => False) w).
  { intros (w' & [] & Hrun & Hv' & Hh' & Hl')%wp_total. exists w'.
    split; [done|]. split; [done|]. split; [done|]. split; [done|].
    intros buf ys c' Hbad.
    pose proof (holds_vector_at _ _ _ _ _ Hbad) as Hv2.
    rewrite Hv' in Hv2. injection Hv2 as <- <- Hlen.
    destruct Hbad as [_ [_ ->]]. by destruct xs. }
  unfold assign_move, RawMemory_assign_move.
  apply wp_bind. apply wp_bind. eapply wp_load; [done|].
  apply wp_bind. eapply wp_set_data; [done|]. simpl.
  set (w2 := put_object this _ w).
  assert (vector_at w2 this =
          Some {| data_ := {| buffer_ := Some b; capacity_ := c |};
                  size_ := length xs |}) as Hv2
    by (unfold w2; by apply vector_at_put_object_eq).
  eapply wp_set_data; [exact Hv2|]. simpl.
  set (w3 := put_object this _ w2).
  assert (length (objs w3) = length (objs w)) as Hl3
    by (unfold w3, w2; by rewrite !length_objs_put_object).
  assert (vector_at w3 this =
          Some {| data_ := {| buffer_ := None; capacity_ := 0 |};
                  size_ := length xs |}) as Hv3.
  { unfold w3. apply vector_at_put_object_eq.
    unfold w2. by rewrite length_objs_put_object. }
  apply wp_bind. eapply wp_load; [exact Hv3|].
  apply wp_bind. eapply wp_set_size; [exact Hv3|]. simpl.
  set (w4 := put_object this _ w3).
  eapply wp_set_size.
  { unfold w4. apply vector_at_put_object_eq. lia. }
  simpl. split; [|done].
  apply vector_at_put_object_eq. unfold w4.
  rewrite length_objs_put_object. lia.
Qed.

End Lifetimes.

(** ** Sequences of calls *)

Section Sequences.
Context {T : Type} `{!Element T}.
Implicit Types (w : world T) (v : Vector) (blk pre post : list (slot T)).

Lemma holds_le w this buf xs c : holds w this buf xs c -> length xs <= c.
Proof.
  intros [_ Hb]. destruct buf; [by destruct Hb|]. destruct Hb as [-> ->]. done.
Qed.

(** One call within bounds on a valid vector. *)
Lemma wp_operate U w this buf xs c o ys Q E :
  holds w this buf xs c -> performed xs o = Some ys ->
  quiet_value_ctor U E -> quiet_args_ctor U E -> quiet_transfer U E ->
  quiet_move_ctor U E -> quiet_move_assign U E ->
  (forall w' buf',
     holds w' this buf' ys (capacity_performed (length xs) c o) ->
     (forall o', o' <> this -> vector_at w' o' = vector_at w o') ->
     rebuffered w w' buf buf' ->
     Q tt w') ->
  wp U (operate this o) Q E w.
Proof.
  intros Hh Hp Hqv Hqa Hqt Hqc Hqm HQ.
  pose proof (holds_vector_at _ _ _ _ _ Hh) as Hv.
  pose proof (holds_le _ _ _ _ _ Hh) as Hle.
  destruct o as [n|n| |x|i x|i]; simpl in *.
  - case_decide as Hn; [|done]. injection Hp as <-.
    eapply wp_Reserve; [done|done|..].
    + intros Hc. apply (HQ w buf); [|done|by left].
      by replace (Nat.max c n) with c by lia.
    + intros Hc w' Hh' Hl' Hfreed _ Ho _.
      apply (HQ w' (Some (length (heap w)))); [|done|by right].
      by replace (Nat.max c n) with n by lia.
  - case_decide as Hn; [|done]. injection Hp as <-.
    eapply wp_Resize; [done|done|done|].
    intros w' buf' Hh' Hsame _ Ho Hnew. apply (HQ w' buf'); [done|done|].
    destruct (decide (n <= c)); [left; auto|right; apply Hnew; lia].
  - case_decide as Hxs; [done|]. injection Hp as <-.
    destruct xs as [|x xs _] using rev_ind; [done|].
    rewrite length_app in *. simpl in *.
    replace (length xs + 1 - 1) with (length xs) in HQ by lia.
    rewrite take_app_length in HQ.
    destruct (holds_buffer _ _ _ _ _ Hh) as [b ->]; [by destruct xs|].
    eapply wp_PopBack; [done|]. intros w' Hh' _ Ho _ Hl'.
    apply (HQ w' (Some b)); [done|done|by left].
  - injection Hp as <-. apply wp_bind.
    eapply (wp_EmplaceBack_blocks _ _ _ _ _ _ (FromArgs x) x);
      [done|done|done|done|done|].
    intros w' buf' Hh' Ho Hroom Hfull. apply wp_ret.
    apply (HQ w' buf'); [done|done|].
    destruct (decide (length xs < c)); [left; auto|right; apply Hfull; lia].
  - case_decide as Hi; [|done]. destruct Hi as [Hi Hint].
    injection Hp as <-.
    apply wp_bind. eapply wp_begin; [done|].
    change (ptr_add (GetAddress {| buffer_ := buf; capacity_ := c |}) i)
      with (Ptr buf i).
    apply wp_bind.
    pose proof Hh as Hh0. rewrite <- (take_drop i xs) in Hh0.
    rewrite <- (length_take_le xs i) at 1 by done.
    eapply (wp_Emplace _ _ _ _ _ _ _ (FromArgs x) x);
      [exact Hh0| |done|done|done|done|done|done|].
    { intros Hne. rewrite length_take_le by done.
      destruct Hint as [->|?]; [|done].
      by rewrite drop_all in Hne. }
    rewrite take_drop.
    intros w' buf' Hh' Ho Hroom Hfull. apply wp_ret.
    apply (HQ w' buf'); [done|done|].
    destruct (decide (length xs < c)); [left; auto|right; apply Hfull; lia].
  - case_decide as Hi; [|done]. destruct Hi as [Hi Hint].
    injection Hp as <-.
    destruct (lookup_lt_is_Some_2 xs i Hi) as [x Hx].
    destruct (holds_buffer _ _ _ _ _ Hh) as [b ->];
      [intros ->; simpl in Hi; lia|].
    apply wp_bind. eapply wp_begin; [done|].
    change (ptr_add (GetAddress {| buffer_ := Some b; capacity_ := c |}) i)
      with (Ptr (Some b) i).
    apply wp_bind.
    rewrite <- (take_drop_middle xs i x Hx) in Hh.
    assert (length (take i xs) = i) as Hlen by (rewrite length_take_le; lia).
    eapply wp_mono; [|by intros ? ? HP; exact HP|by intros ? HP; exact HP].
    eapply (wp_Erase_blocks _ _ _ _ _ _ _ _ i); [exact Hh| |done|].
    { rewrite Hlen. by apply to_int_small. }
    intros w' Hh' Ho _ _ Hl'. apply wp_ret.
    apply (HQ w' (Some b)); [done|done|by left].
Qed.

(** X19: calls of [Reserve], [Resize], [PopBack], [EmplaceBack], [Emplace]
    and [Erase] on a valid vector, in any order, each within bounds
    ([PopBack] and [Erase] on an element there is, [Emplace] at a position
    up to [end()], positions other than [end()] that [int] holds, sizes and
    capacities asked for [allocatable]) and with element operations that do
    not throw: every call
    returns, the vector stays valid, and it holds what the same operations
    on a sequence give, with the capacity they give; no other vector object
    changes. *)
Theorem operations_refine_lists w this buf xs c os ys c' :
  holds w this buf xs c -> all_performed xs c os = Some (ys, c') ->
  nothrow_value_ctor -> nothrow_args_ctor -> nothrow_transfer ->
  nothrow_move_ctor -> nothrow_move_assign ->
  exists w' buf',
    operations this os w = Ret w' tt /\
    holds w' this buf' ys c' /\ length ys <= c' /\
    forall o, o <> this -> vector_at w' o = vector_at w o.
Proof.
  intros Hh Hp Hnv Hna Hnt Hnc Hnm.
  cut (wp False (operations this os)
         (fun _ w' => exists buf',
            holds w' this buf' ys c' /\
            forall o, o <> this -> vector_at w' o = vector_at w o)
         (fun _ => False) w).
  { intros (w' & [] & Hrun & buf' & Hh' & Ho)%wp_total. exists w', buf'.
    split; [done|]. split; [done|]. split; [by eapply holds_le|done]. }
  revert w buf xs c Hh Hp.
  induction os as [|o os IH]; intros w buf xs c Hh Hp; simpl in *.
  - injection Hp as <- <-. apply wp_ret. eauto.
  - destruct (performed xs o) as [zs|] eqn:Hzs; [|done].
    apply wp_bind.
    eapply wp_operate;
      [done|done|by apply nothrow_quiet_value_ctor
      |by apply nothrow_quiet_args_ctor|by apply nothrow_quiet_transfer
      |by apply nothrow_quiet_move_ctor|by apply nothrow_quiet_move_assign|].
    intros w1 buf1 Hh1 Ho1 _.
    eapply wp_mono; [by eapply IH| |done].
    intros _ w' (buf' & Hh' & Ho'). exists buf'. split; [done|].
    intros o' Hne. rewrite Ho' by done. by apply Ho1.
Qed.

Lemma wp_both {A} (m : M T A) QA QB EB (Q : A -> world T -> Prop) w :
  wp False m QA (fun _ => False) w -> wp True m QB EB w ->
  (forall a w', QA a w' -> QB a w' -> Q a w') ->
  wp False m Q (fun _ => False) w.
Proof. unfold wp. destruct (m w); eauto. Qed.

Lemma operate_mutated this v extra w wi o :
  mutated this v extra w wi ->
  wp True (operate this o) (fun _ => mutated this v extra w)
    (mutated this v extra w) wi.
Proof.
  intros Hm. destruct o as [n|n| |x|i x|i]; simpl.
  - by apply Reserve_mutated.
  - by apply Resize_mutated.
  - by apply PopBack_mutated.
  - by apply (mutate_mutated this v extra w wi (DoEmplaceBack (FromArgs x))).
  - apply wp_bind. unfold begin. apply wp_bind. unfold wp at 1, load.
    destruct (objs wi !! this) as [[vi|]|]; [|done..].
    apply wp_ret.
    by apply (mutate_mutated this v extra w wi (DoEmplace _ (FromArgs x))).
  - apply wp_bind. unfold begin. apply wp_bind. unfold wp at 1, load.
    destruct (objs wi !! this) as [[vi|]|]; [|done..].
    apply wp_ret.
    by apply (mutate_mutated this v extra w wi (DoErase _)).
Qed.

Lemma accounted_refl w buf : accounted w buf w buf.
Proof.
  split; [done|]. split; [by left|]. split; [done|].
  intros b Hb [?|?]; [by left|lia].
Qed.

Lemma accounted_step w buf wi bufi wj bufj :
  accounted w buf wi bufi -> rebuffered wi wj bufi bufj ->
  (forall b, b < length (heap wi) -> bufi <> Some b ->
     heap wj !! b = heap wi !! b) ->
  accounted w buf wj bufj.
Proof.
  intros (Hlen & Hshape & Hframe & Hown) Hre Hstep.
  assert (forall b, b < length (heap w) -> buf <> Some b -> bufi <> Some b)
    as Hother.
  { intros b Hb Hne. destruct Hshape as [->|(k & -> & Hk)]; [done|].
    intros [= ->]. lia. }
  destruct Hre as [[-> Hl]|(-> & Hl & Hfreed)].
  - split; [lia|]. split; [done|]. split.
    + intros b Hb Hne. rewrite Hstep by (lia || by apply Hother).
      by apply Hframe.
    + intros b Hb Hor. rewrite Hl in Hb.
      destruct (decide (bufi = Some b)) as [?|Hne]; [by left|].
      right. rewrite Hstep by done.
      by destruct (Hown b Hb Hor).
  - split; [lia|]. split; [right; eexists; split; [done|lia]|]. split.
    + intros b Hb Hne. rewrite Hstep by (lia || by apply Hother).
      by apply Hframe.
    + intros b Hb Hor. rewrite Hl in Hb.
      destruct (decide (b = length (heap wi))) as [->|Hnb]; [by left|].
      right. assert (b < length (heap wi)) as Hb' by lia.
      destruct (decide (bufi = Some b)) as [?|Hne]; [by apply Hfreed|].
      rewrite Hstep by done. by destruct (Hown b Hb' Hor).
Qed.

(** X26: through any sequence of calls of [Reserve], [Resize], [PopBack],
    [EmplaceBack], [Emplace] and [Erase] on a valid vector, each within
    bounds (of the vector, of [int] for a position other than [end()], of
    [size_t] for the bytes of a size or capacity asked for) and with element
    operations that do not throw, the vector
    accounts for its blocks: every block that is not its own is untouched,
    and of the buffer it had at the start and the blocks allocated by the
    calls, only the buffer it has at the end is still allocated; the others
    have been released (and none twice: the calls return). *)
Theorem operations_own_their_blocks w this buf xs c os ys c' :
  holds w this buf xs c -> all_performed xs c os = Some (ys, c') ->
  nothrow_value_ctor -> nothrow_args_ctor -> nothrow_transfer ->
  nothrow_move_ctor -> nothrow_move_assign ->
  exists w' buf',
    operations this os w = Ret w' tt /\
    holds w' this buf' ys c' /\
    (forall b, b < length (heap w) -> buf <> Some b ->
       heap w' !! b = heap w !! b) /\
    (forall b, b < length (heap w') ->
       buf = Some b \/ length (heap w) <= b ->
       buf' = Some b \/ heap w' !! b = Some Freed).
Proof.
  intros Hh Hp Hnv Hna Hnt Hnc Hnm.
  cut (wp False (operations this os)
         (fun _ w' => exists buf',
            holds w' this buf' ys c' /\ accounted w buf w' buf')
         (fun _ => False) w).
  { intros (w' & [] & Hrun & buf' & Hh' & _ & _ & Hframe & Hown)%wp_total.
    eauto 10. }
  pose proof (accounted_refl w buf) as Hacc.
  revert Hh Hp Hacc. generalize w at 1 3 5 as wi. generalize buf at 1 3 as bufi.
  revert xs c.
  induction os as [|o os IH]; intros xs c bufi wi Hh Hp Hacc; simpl in *.
  - injection Hp as <- <-. apply wp_ret. eauto.
  - destruct (performed xs o) as [zs|] eqn:Hzs; [|done].
    pose proof (holds_vector_at _ _ _ _ _ Hh) as Hv.
    apply wp_bind.
    eapply wp_both.
    + eapply (wp_operate False wi this bufi xs c o zs
                (fun _ w1 => exists buf1,
                   holds w1 this buf1 zs (capacity_performed (length xs) c o) /\
                   rebuffered wi w1 bufi buf1));
        [done|done|by apply nothrow_quiet_value_ctor
        |by apply nothrow_quiet_args_ctor|by apply nothrow_quiet_transfer
        |by apply nothrow_quiet_move_ctor|by apply nothrow_quiet_move_assign|].
      intros w1 buf1 Hh1 _ Hre. eauto.
    + apply (operate_mutated this
               {| data_ := {| buffer_ := bufi; capacity_ := c |};
                  size_ := length xs |} (fun _ => False) wi wi o).
      by apply mutated_refl.
    + intros [] w1 (buf1 & Hh1 & Hre) ((_ & Hstep & _) & _). simpl in *.
      eapply IH; [done|done|].
      eapply accounted_step; [done|done|].
      intros b Hb Hne. apply Hstep; [done|]. intros [?|[]]. congruence.
Qed.

(** X20: [Erase] at [end()] is undefined behaviour, on any valid vector
    of fewer than [2^32] elements: the range moved down starts one past
    [end()], or before the buffer when [int] does not hold the size.  (From
    [2^32] elements on the index wraps to that of an element.) *)
Theorem Erase_at_end_undefined w this buf xs c :
  holds w this buf xs c -> (Z.of_nat (length xs) <= UINT_MAX)%Z ->
  Erase this (Ptr buf (length xs)) w = UB.
Proof.
  intros Hh Hlen. pose proof (holds_vector_at _ _ _ _ _ Hh) as Hv.
  cut (wp True (Erase this (Ptr buf (length xs)))
         (fun _ _ => False) (fun _ => False) w).
  { unfold wp. by destruct (Erase this (Ptr buf (length xs)) w). }
  unfold Erase.
  apply wp_bind. eapply wp_begin; [done|]. cbn [data_ GetAddress].
  apply wp_bind. apply wp_ptr_diff; [done|cbn; lia|]. cbn [off].
  rewrite Nat.sub_0_r.
  destruct (decide (Z.of_nat (length xs) <= INT_MAX)%Z) as [Hint|Hint].
  - rewrite (to_int_small _ Hint), Nat2Z.id.
    apply wp_bind. apply wp_ptr_add_int.
    apply wp_bind. eapply wp_end; [done|].
    apply wp_bind. unfold ptr_diff. rewrite decide_False; [done|].
    unfold ptr_add. simpl. lia.
  - apply wp_bind. unfold ptr_add_int, GetAddress. cbn [off].
    rewrite decide_False; [done|].
    assert (to_int (Z.of_nat (length xs)) < 0)%Z by (apply to_int_negative; lia).
    lia.
Qed.

(** X21: the queries on a valid vector: [Size] and [Capacity] give the
    number of elements and of slots, [end() - begin()] is the size,
    [operator[]] at an index below the size gives a reference to the element
    at [begin() + i], and at an index from the size on it is undefined
    behaviour (the assertion fails). *)
Theorem queries_of_valid w this buf xs c :
  holds w this buf xs c ->
  Size this w = Ret w (length xs) /\
  Capacity this w = Ret w c /\
  bind (end_ this) (fun e => bind (begin this) (fun b => ptr_diff e b)) w
    = Ret w (length xs) /\
  (forall i x, xs !! i = Some x ->
     index this i w = Ret w (Ptr buf i) /\
     begin this w = Ret w (Ptr buf 0) /\
     read (Ptr buf i) w = Ret w x) /\
  (forall i, length xs <= i -> index this i w = UB).
Proof.
  intros Hh. pose proof Hh as [Hv Hb].
  split; [by unfold Size, bind, load; rewrite Hv|].
  split; [by unfold Capacity, bind, load; rewrite Hv|].
  split.
  { unfold end_, begin, bind, load. rewrite Hv. simpl. rewrite Hv. simpl.
    unfold ptr_diff. simpl. rewrite decide_True by (split; [done|lia]).
    by rewrite Nat.sub_0_r. }
  split.
  - intros i x Hx. pose proof (lookup_lt_Some _ _ _ Hx) as Hi.
    split; [|split].
    + pose proof (holds_le _ _ _ _ _ Hh) as Hle.
      unfold index, RawMemory_index, bind, load. rewrite Hv. simpl.
      by rewrite !decide_True by lia.
    + by eapply holds_begin.
    + destruct (holds_buffer _ _ _ _ _ Hh) as [b ->];
        [intros ->; simpl in Hi; lia|].
      by eapply holds_read.
  - intros i Hi. unfold index, bind, load. rewrite Hv. simpl.
    by rewrite decide_False by lia.
Qed.

End Sequences.

Section LifetimesExamples.
#[local] Existing Instance Int.

(** [Vector<int> v(3)] when nothing is allocated yet. *)
Lemma Vector_sized_builds_witness :
  exists w' buf,
    Vector_sized 3 empty_world = Ret w' 0 /\
    holds w' 0 buf [0; 0; 0] 3 /\
    (3 = 0 -> buf = None /\ heap w' = []) /\
    (0 < 3 -> buf = Some 0) /\
    (forall o, o < 0 -> vector_at w' o = vector_at (@empty_world nat) o) /\
    (forall b, b < 0 -> block_at w' b = block_at (@empty_world nat) b).
Proof.
  assert (nothrow_value_ctor) as Hnv by (intros h; reflexivity).
  assert (allocatable 3) as Hn by (unfold allocatable, SIZE_MAX; simpl; lia).
  exact (Vector_sized_builds empty_world 3 Hn Hnv).
Defined.

(** [Vector<int> c(v)] for [v] holding [[1; 2; 3]] with capacity 4. *)
Lemma Vector_copy_fits_witness :
  exists w' buf',
    Vector_copy 0 three_of_four = Ret w' 1 /\
    holds w' 1 buf' [1; 2; 3] 3 /\
    capacity_of w' 1 = Some 3 /\ capacity_of w' 0 = Some 4.
Proof.
  apply (Vector_copy_fits three_of_four 0 (Some 0) [1; 2; 3] 4).
  - split; [reflexivity|split; [reflexivity|simpl; lia]].
  - intros h x. reflexivity.
Defined.

(** The destructor of the second of two vectors. *)
Lemma Vector_delete_releases_witness :
  exists w',
    Vector_delete 1 two_vectors = Ret w' tt /\
    vector_at w' 1 = None /\
    (forall b, Some 1 = Some b -> heap w' !! b = Some Freed) /\
    log w' = [Dtor 3; Dtor 2; Dtor 1] /\
    (forall b, Some 1 <> Some b -> block_at w' b = block_at two_vectors b) /\
    (forall o, o <> 1 -> vector_at w' o = vector_at two_vectors o).
Proof.
  apply (Vector_delete_releases two_vectors 1 (Some 1) [1; 2; 3] 3).
  split; [reflexivity|split; [reflexivity|simpl; lia]].
Defined.

(** [a.Swap(b)] for the two vectors. *)
Lemma Swap_involution_witness :
  exists w',
    Swap 0 1 two_vectors = Ret w' tt /\
    vector_at w' 0 =
      Some {| data_ := {| buffer_ := Some 1; capacity_ := 3 |}; size_ := 3 |} /\
    vector_at w' 1 =
      Some {| data_ := {| buffer_ := Some 0; capacity_ := 2 |}; size_ := 2 |} /\
    heap w' = heap two_vectors /\ log w' = log two_vectors /\
    (forall o, o <> 0 -> o <> 1 -> vector_at w' o = vector_at two_vectors o) /\
    Swap 0 1 w' = Ret two_vectors tt.
Proof.
  apply (Swap_involution two_vectors 0 1).
  - lia.
  - reflexivity.
  - reflexivity.
Defined.

(** [b = a] for [a] holding [[7; 8]] and [b] holding [[1; 2; 3]]: the
    buffer of [b] is kept. *)
Lemma assign_copy_capacity_witness :
  exists w' bt' ct',
    assign_copy 1 0 two_vectors = Ret w' tt /\
    holds w' 1 bt' [7; 8] ct' /\ holds w' 0 (Some 0) [7; 8] 2 /\
    (3 < 2 -> ct' = 2) /\
    (2 <= 3 -> bt' = Some 1 /\ ct' = 3 /\ length (heap w') = 2).
Proof.
  apply (assign_copy_capacity two_vectors 1 0 (Some 1) [1; 2; 3] 3
           (Some 0) [7; 8] 2).
  - lia.
  - split; [reflexivity|split; [reflexivity|simpl; lia]].
  - split; [reflexivity|split; [reflexivity|simpl; lia]].
  - intros k [= <-]. congruence.
  - intros h x. reflexivity.
  - intros h d s. reflexivity.
Defined.

(** [v = std::move(v)] for [v] holding [[1; 2; 3]]. *)
Lemma assign_move_self_breaks_witness :
  exists w',
    assign_move 0 0 three_of_four = Ret w' tt /\
    vector_at w' 0 =
      Some {| data_ := {| buffer_ := None; capacity_ := 0 |}; size_ := 3 |} /\
    heap w' = heap three_of_four /\ log w' = log three_of_four /\
    (forall buf ys c', ~ holds w' 0 buf ys c').
Proof.
  apply (assign_move_self_breaks three_of_four 0 0 [1; 2; 3] 4).
  - split; [reflexivity|split; [reflexivity|simpl; lia]].
  - congruence.
Defined.

(** [v.EmplaceBack(4); v.EmplaceBack(5); v.Erase(v.begin());
    v.Emplace(v.begin() + 2, 9); v.PopBack(); v.Resize(6); v.Reserve(20)] on
    [[1; 2; 3]] with capacity 4. *)
Lemma operations_refine_lists_witness :
  exists w' buf',
    operations 0
      [OpEmplaceBack 4; OpEmplaceBack 5; OpErase 0; OpEmplace 2 9; OpPopBack;
       OpResize 6; OpReserve 20] three_of_four = Ret w' tt /\
    holds w' 0 buf' [2; 3; 9; 4; 0; 0] 20 /\ 6 <= 20 /\
    forall o, o <> 0 -> vector_at w' o = vector_at three_of_four o.
Proof.
  apply (operations_refine_lists three_of_four 0 (Some 0) [1; 2; 3] 4
           [OpEmplaceBack 4; OpEmplaceBack 5; OpErase 0; OpEmplace 2 9;
            OpPopBack; OpResize 6; OpReserve 20] [2; 3; 9; 4; 0; 0] 20).
  - split; [reflexivity|split; [reflexivity|simpl; lia]].
  - vm_compute. reflexivity.
  - intros h. reflexivity.
  - intros h v. reflexivity.
  - intros h x. reflexivity.
  - intros h x. reflexivity.
  - intros h d s. reflexivity.
Defined.

(** [b.EmplaceBack(4); b.Erase(b.begin()); b.Resize(8); b.PopBack()] on
    the second of the two vectors: two reallocations. *)
Lemma operations_own_their_blocks_witness :
  exists w' buf',
    operations 1 [OpEmplaceBack 4; OpErase 0; OpResize 8; OpPopBack]
      two_vectors = Ret w' tt /\
    holds w' 1 buf' [2; 3; 4; 0; 0; 0; 0] 8 /\
    (forall b, b < 2 -> Some 1 <> Some b ->
       heap w' !! b = heap two_vectors !! b) /\
    (forall b, b < length (heap w') -> Some 1 = Some b \/ 2 <= b ->
       buf' = Some b \/ heap w' !! b = Some Freed).
Proof.
  apply (operations_own_their_blocks two_vectors 1 (Some 1) [1; 2; 3] 3
           [OpEmplaceBack 4; OpErase 0; OpResize 8; OpPopBack]
           [2; 3; 4; 0; 0; 0; 0] 8).
  - split; [reflexivity|split; [reflexivity|simpl; lia]].
  - vm_compute. reflexivity.
  - intros h. reflexivity.
  - intros h v. reflexivity.
  - intros h x. reflexivity.
  - intros h x. reflexivity.
  - intros h d s. reflexivity.
Defined.

(** There the heap is the block of the first vector, two released blocks
    and the buffer. *)
Lemma operations_own_their_blocks_heap :
  exists w',
    operations 1 [OpEmplaceBack 4; OpErase 0; OpResize 8; OpPopBack]
      two_vectors = Ret w' tt /\
    heap w' =
      [Block [Obj 7; Obj 8]; Freed; Freed;
       Block [Obj 2; Obj 3; Obj 4; Obj 0; Obj 0; Obj 0; Obj 0; Raw]].
Proof. eexists. split; [vm_compute; reflexivity|reflexivity]. Qed.

(** [v.Erase(v.end())] on [[1; 2; 3]]. *)
Lemma Erase_at_end_undefined_witness :
  Erase 0 (Ptr (Some 0) 3) three_of_four = UB.
Proof.
  apply (Erase_at_end_undefined three_of_four 0 (Some 0) [1; 2; 3] 4).
  - split; [reflexivity|split; [reflexivity|simpl; lia]].
  - unfold UINT_MAX. simpl. lia.
Defined.

Lemma queries_of_valid_witness :
  Size 0 three_of_four = Ret three_of_four 3 /\
  Capacity 0 three_of_four = Ret three_of_four 4 /\
  bind (end_ 0) (fun e => bind (begin 0) (fun b => ptr_diff e b)) three_of_four
    = Ret three_of_four 3 /\
  (forall i x, [1; 2; 3] !! i = Some x ->
     index 0 i three_of_four = Ret three_of_four (Ptr (Some 0) i) /\
     begin 0 three_of_four = Ret three_of_four (Ptr (Some 0) 0) /\
     read (Ptr (Some 0) i) three_of_four = Ret three_of_four x) /\
  (forall i, 3 <= i -> index 0 i three_of_four = UB).
Proof.
  apply (queries_of_valid three_of_four 0 (Some 0) [1; 2; 3] 4).
  split; [reflexivity|split; [reflexivity|simpl; lia]].
Defined.

End LifetimesExamples.

(** ** Exceptions in copy assignment, [Emplace] and [Resize] *)

Section Guarantees.
Context {T : Type} `{!Element T}.
Implicit Types (w : world T) (v : Vector) (blk pre post : list (slot T)).

Local Abbreviation touches P m := (@respects T (keeps P) _ m) (only parsing).
Local Abbreviation silent m := (@nothrows T _ m) (only parsing).

Lemma nothrows_delete_object this : silent (delete_object this).
Proof.
  intros w. unfold wp, delete_object. by destruct (objs w !! this) as [[?|]|].
Qed.

Lemma nothrows_Swap a b : silent (Swap a b).
Proof.
  unfold Swap.
  apply nothrows_bind; [apply nothrows_load|]. intros va.
  apply nothrows_bind; [apply nothrows_load|]. intros vb.
  apply nothrows_bind; [apply nothrows_set_data|]. intros _.
  apply nothrows_bind; [apply nothrows_set_data|]. intros _.
  apply nothrows_bind; [apply nothrows_load|]. intros va'.
  apply nothrows_bind; [apply nothrows_load|]. intros vb'.
  apply nothrows_bind; [apply nothrows_set_size|]. intros _.
  apply nothrows_set_size.
Qed.

Lemma nothrows_Vector_delete this : silent (Vector_delete this).
Proof.
  unfold Vector_delete.
  apply nothrows_bind; [apply nothrows_load|]. intros v.
  apply nothrows_bind; [apply nothrows_destroy_n|]. intros _.
  apply nothrows_bind; [apply nothrows_Deallocate|]. intros _.
  apply nothrows_delete_object.
Qed.

Lemma nothrows_ptr_sub p n : silent (ptr_sub p n).
Proof.
  unfold ptr_sub. case_decide; [apply nothrows_ret|apply nothrows_undefined].
Qed.

Lemma nothrows_end this : silent (end_ this).
Proof.
  unfold end_. apply nothrows_bind; [apply nothrows_load|]. intros v.
  apply nothrows_ret.
Qed.

(** A copy constructor of [Vector] that throws has released its block. *)
Lemma Vector_copy_unwinds other w :
  wp True (Vector_copy other) (fun _ _ => True)
    (fun w' => heap w' = heap w ++ [Freed] /\ objs w' = objs w) w.
Proof.
  unfold Vector_copy.
  apply wp_bind. unfold wp at 1, load.
  destruct (objs w !! other) as [[o|]|]; [|done..].
  apply wp_bind. apply wp_RawMemory_new_any.
  intros w1 d Ho1 _ _ [(Hd & Hn & Hh1)|(Hd & Hn & Hh1)].
  - rewrite Hn. simpl. apply wp_bind. apply wp_rethrow_after, wp_ret. done.
  - apply wp_bind. unfold RawMemory_delete. rewrite Hd.
    eapply wp_mono;
      [apply (wp_released_on_throw _ _ w w1 Hh1 Ho1)| |done].
    + apply respects_uninitialized_copy_n.
      unfold in_block, GetAddress. simpl. rewrite Hd. by intros b [= <-].
    + by intros _ w2 _.
Qed.

(** X22: copy assignment from a source with more elements than the target
    has capacity (the copy-and-swap path): when a copy constructor throws,
    both vectors have the buffer, elements, size and capacity they had, and
    the block allocated for the copy is released. *)
Theorem assign_copy_strong_guarantee w this rhs vt vr w' :
  this <> rhs -> vector_at w this = Some vt -> vector_at w rhs = Some vr ->
  capacity_ (data_ vt) < size_ vr ->
  assign_copy this rhs w = Throw w' ->
  heap w' = heap w ++ [Freed] /\ objs w' = objs w /\
  same_vector this w w' /\ same_vector rhs w w'.
Proof.
  intros Hne Ht Hr Hbig Hrun.
  cut (wp True (assign_copy this rhs) (fun _ _ => True)
         (fun w' => heap w' = heap w ++ [Freed] /\ objs w' = objs w) w).
  { intros Hwp. destruct (wp_throw_inv _ _ _ _ _ _ Hwp Hrun) as [Hh Ho].
    split; [done|]. split; [done|]. split; by apply same_vector_freed_tail. }
  unfold assign_copy. rewrite decide_False by done.
  apply wp_bind. eapply wp_load; [done|].
  apply wp_bind. eapply wp_load; [done|].
  rewrite decide_True by done.
  apply wp_bind.
  eapply wp_mono; [apply Vector_copy_unwinds| |done].
  intros rc w1 _. simpl. apply wp_nothrows; [|done].
  apply nothrows_bind; [apply nothrows_Swap|]. intros _.
  apply nothrows_Vector_delete.
Qed.

Lemma touches_CopyOrMove_copying P this d :
  transfers_by_move = false ->
  (forall b, buffer_ d = Some b -> P b) ->
  touches P (CopyOrMove this d).
Proof.
  intros Hcopy Hd. unfold CopyOrMove. rewrite Hcopy.
  apply respects_bind; [apply keeps_trans|apply respects_load|].
  intros v0. apply respects_uninitialized_copy_n.
  unfold in_block, GetAddress. simpl. done.
Qed.

(** A growing [EmplaceBack] that copies the elements and does not move from
    its arguments: an exception leaves one more cell on the heap, freed. *)
Lemma EmplaceBack_unwinds w this v a :
  vector_at w this = Some v -> size_ v = capacity_ (data_ v) ->
  transfers_by_move = false -> init_moves_from a = None ->
  wp True (EmplaceBack this a) (fun _ _ => True)
    (fun w' => heap w' = heap w ++ [Freed] /\ objs w' = objs w) w.
Proof.
  intros Hv Hfull Hcopy Ha. unfold EmplaceBack.
  apply wp_bind. eapply wp_load; [done|].
  rewrite decide_True by done.
  apply wp_bind. apply wp_bind. apply wp_RawMemory_new_any.
  intros w1 d Ho1 _ _ [(Hd & Hn & Hh1)|(Hd & Hn & Hh1)].
  { pose proof (grown_pos v Hfull). lia. }
  apply wp_bind. unfold RawMemory_delete. rewrite Hd.
  eapply wp_mono; [apply (wp_released_on_throw _ _ w w1 Hh1 Ho1)| |done].
  - apply respects_bind; [apply keeps_trans| |intros _].
    + apply respects_placement_new.
      * unfold in_block, GetAddress. simpl. rewrite Hd. by intros b [= <-].
      * intros b Hb. congruence.
    + apply touches_CopyOrMove_copying; [done|]. rewrite Hd. by intros b [= <-].
  - intros _ w2 _. simpl. apply wp_nothrows; [|intros _ w3].
    { apply nothrows_bind; [apply nothrows_destroy_n|]. intros _.
      apply nothrows_bind; [apply nothrows_Swap_data|]. intros d'.
      apply nothrows_Deallocate. }
    apply wp_nothrows; [|done].
    apply nothrows_bind; [apply nothrows_load|]. intros v'.
    apply nothrows_bind; [apply nothrows_set_size|]. intros _.
    apply nothrows_ret.
Qed.

(** X23: [Emplace] (and [Insert(pos, const T &)]) on a full vector, at any
    position, for an element type that is copied on reallocation and with
    arguments that are not moved from: when a constructor throws, the
    vector has the buffer, elements, size and capacity it had, and the
    block allocated is released. *)
Theorem Emplace_reallocating_strong_guarantee w this v pos a w' :
  vector_at w this = Some v -> size_ v = capacity_ (data_ v) ->
  transfers_by_move = false -> init_moves_from a = None ->
  Emplace this pos a w = Throw w' ->
  heap w' = heap w ++ [Freed] /\ objs w' = objs w /\
  same_vector this w w'.
Proof.
  intros Hv Hfull Hcopy Ha Hrun.
  cut (wp True (Emplace this pos a) (fun _ _ => True)
         (fun w' => heap w' = heap w ++ [Freed] /\ objs w' = objs w) w).
  { intros Hwp. destruct (wp_throw_inv _ _ _ _ _ _ Hwp Hrun) as [Hh Ho].
    split; [done|]. split; [done|]. by apply same_vector_freed_tail. }
  unfold Emplace.
  apply wp_bind. eapply wp_end; [done|].
  case_decide as Hend.
  - apply wp_bind.
    eapply wp_mono; [by apply (EmplaceBack_unwinds w this v a)| |done].
    intros _ w1 _. simpl. apply wp_nothrows; [|done].
    apply nothrows_bind; [apply nothrows_end|]. intros e.
    apply nothrows_ptr_sub.
  - apply wp_bind. eapply wp_begin; [done|].
    apply wp_bind. apply wp_ptr_diff_any. intros _ _.
    apply wp_bind. apply wp_ptr_add_int_any. intros _.
    apply wp_bind. eapply wp_load; [done|].
    rewrite decide_False by lia.
    apply wp_bind. apply wp_bind. apply wp_RawMemory_new_any.
    intros w1 d Ho1 _ _ [(Hd & Hn & Hh1)|(Hd & Hn & Hh1)].
    { pose proof (grown_pos v Hfull). lia. }
    apply wp_bind. unfold RawMemory_delete. rewrite Hd.
    assert (forall k p, in_block (ptr_add (GetAddress d) k) p ->
                        p = length (heap w)) as Hin.
    { intros k p. unfold in_block, GetAddress. simpl. rewrite Hd.
      by intros [= <-]. }
    eapply wp_mono; [apply (wp_released_on_throw _ _ w w1 Hh1 Ho1)| |done].
    + apply respects_bind; [apply keeps_trans| |intros _].
      * apply respects_placement_new; [apply Hin|]. intros b Hb. congruence.
      * rewrite Hcopy.
        apply respects_bind; [apply keeps_trans| |intros _].
        { apply respects_uninitialized_copy_n. apply (Hin 0). }
        apply respects_bind; [apply keeps_trans| |intros rest].
        { apply respects_ptr_diff. apply keeps_refl. }
        apply respects_uninitialized_copy_n. apply Hin.
    + intros _ w2 _. simpl. apply wp_nothrows; [|intros _ w3].
      { apply nothrows_bind; [apply nothrows_destroy_n|]. intros _.
        apply nothrows_bind; [apply nothrows_Swap_data|]. intros d'.
        apply nothrows_Deallocate. }
      apply wp_nothrows; [|done].
      apply nothrows_bind; [apply nothrows_load|]. intros v'.
      apply nothrows_bind; [apply nothrows_set_size|]. intros _.
      apply nothrows_ret.
Qed.

End Guarantees.

Section ResizeGuarantee.
Context {T : Type} `{!Element T}.
Implicit Types (w : world T) (v : Vector) (blk pre post : list (slot T)).

Local Abbreviation silent m := (@nothrows T _ m) (only parsing).

(** [std::uninitialized_value_construct_n] into raw slots, [built] being the
    objects it has built so far: it fills the slots, or throws after it has
    destroyed what it built. *)
Lemma wp_uninitialized_value_construct_unwinds dst b pd built m qd Q E w :
  base dst = Some b -> off dst = length pd ->
  block_at w b = Some (pd ++ map Obj built ++ replicate m Raw ++ qd) ->
  (forall w',
     heap w' = <[b := Block (pd ++ map Obj (built ++ replicate m value_init)
                               ++ qd)]> (heap w) ->
     objs w' = objs w -> Q tt w') ->
  (forall w',
     heap w' = <[b := Block (pd ++ replicate (length built + m) Raw ++ qd)]>
                 (heap w) ->
     objs w' = objs w -> E w') ->
  wp False (uninitialized_n (fun i => value_construct_at (ptr_add dst i))
              dst (length built) m) Q E w.
Proof.
  intros Hd Hoff. revert built w Q E.
  induction m as [|m IH]; intros built w Q E Hb HQ HE.
  - simpl. apply wp_ret. apply HQ; [|done]. simpl in *.
    rewrite app_nil_r. symmetry. apply list_insert_id. by apply block_at_Some.
  - simpl. pose proof (block_at_lt _ _ _ Hb) as Hlt.
    apply wp_bind. apply wp_rethrow_after.
    unfold value_construct_at. apply wp_bind.
    destruct (throws (log w) ValueCtor) eqn:Ht.
    + apply wp_call_throw; [done|].
      eapply (wp_destroy_n_len _ _ _ b pd built);
        [done|done|done|by rewrite block_at_logged|].
      intros w2 Hh2 Ho2. apply HE; [|done].
      rewrite Hh2. simpl. do 3 f_equal.
      by rewrite replicate_add, <- (assoc_L (++)).
    + apply wp_call; [done|].
      eapply wp_write; [done|by rewrite block_at_logged| |].
      { simpl. rewrite Hoff, !length_app, length_map. simpl. lia. }
      simpl.
      replace (<[off dst + length built := Obj value_init]>
                 (pd ++ map Obj built ++ Raw :: replicate m Raw ++ qd))
        with (pd ++ map Obj (built ++ [value_init]) ++ replicate m Raw ++ qd).
      2:{ symmetry. rewrite Hoff.
          replace (length pd + length built)
            with (length (pd ++ map Obj built))
            by (by rewrite length_app, length_map).
          rewrite (assoc_L (++) pd (map Obj built)).
          rewrite insert_at_length.
          by rewrite map_app, <- !(assoc_L (++)). }
      replace (S (length built)) with (length (built ++ [value_init]))
        by (rewrite length_app; simpl; lia).
      apply IH.
      * by apply block_at_put_block_eq.
      * intros w2 Hh2 Ho2. apply HQ; [|done].
        rewrite Hh2. simpl. rewrite list_insert_insert_eq.
        by rewrite <- (assoc_L (++)).
      * intros w2 Hh2 Ho2. apply HE; [|done].
        rewrite Hh2. simpl. rewrite list_insert_insert_eq.
        do 4 f_equal. rewrite length_app. simpl. f_equal. lia.
Qed.

Lemma quiet_transfer_trivial : quiet_transfer True (fun _ : world T => True).
Proof. unfold quiet_transfer. by destruct transfers_by_move; intros h x _. Qed.

(** What [Reserve] leaves when it throws, and when it returns. *)
Lemma Reserve_outcome w this buf xs c n :
  holds w this buf xs c -> (transfers_by_move = true -> nothrow_move_ctor) ->
  match Reserve this n w with
  | Ret w1 _ =>
      exists buf1,
        holds w1 this buf1 xs (Nat.max c n) /\
        forall o, o <> this -> vector_at w1 o = vector_at w o
  | Throw w' =>
      holds w' this buf xs c /\
      forall o, o <> this -> vector_at w' o = vector_at w o
  | UB => True
  end.
Proof.
  intros Hh Hmove.
  destruct (Reserve this n w) as [w1 []|w'|] eqn:Hrun; [| |done].
  - refine (wp_returns _ (fun _ w1 => exists buf1,
              holds w1 this buf1 xs (Nat.max c n) /\
              forall o, o <> this -> vector_at w1 o = vector_at w o)
              w w1 tt _ Hrun).
    eapply wp_Reserve; [done|apply quiet_transfer_trivial|..].
    + intros Hn. exists buf. by replace (Nat.max c n) with c by lia.
    + intros Hn w2 Hh2 _ _ _ Ho _. exists (Some (length (heap w))).
      by replace (Nat.max c n) with n by lia.
  - destruct transfers_by_move eqn:Hcopy.
    + exfalso.
      refine (wp_throw_inv _ _ (fun _ _ => True) (fun _ => False) w w' _ Hrun).
      eapply (wp_Reserve True); [done| |done|done].
      unfold quiet_transfer. rewrite Hcopy.
      by apply nothrow_quiet_move_ctor, Hmove.
    + destruct (wp_throw_inv _ _ _ _ _ _ (Reserve_unwinds w this n Hcopy) Hrun)
        as (Hh' & Ho').
      split.
      * eapply holds_frame; [done|by apply vector_at_objs_eq|].
        intros b _. by apply block_at_freed_tail.
      * intros o _. by apply vector_at_objs_eq.
Qed.

(** X24: [Resize] on a valid vector, to a size within the capacity or
    [allocatable], for an element type that is copied on reallocation or
    whose move constructor does not throw: when a constructor throws, the
    vector is valid and has the elements and the size it had; its capacity
    is the old one or the one asked for.  Shrinking never throws. *)
Theorem Resize_basic_guarantee w this buf xs c n w' :
  holds w this buf xs c -> (c < n -> allocatable n) ->
  (transfers_by_move = true -> nothrow_move_ctor) ->
  Resize this n w = Throw w' ->
  length xs <= n /\
  exists buf' c',
    holds w' this buf' xs c' /\ (c' = c \/ c' = n) /\
    forall o, o <> this -> vector_at w' o = vector_at w o.
Proof.
  intros Hh _ Hmove Hrun.
  pose proof (holds_vector_at _ _ _ _ _ Hh) as Hv.
  pose proof Hh as [Hlook _].
  unfold Resize in Hrun. unfold bind at 1, load in Hrun.
  rewrite Hlook in Hrun. simpl in Hrun.
  destruct (decide (n < length xs)) as [Hshrink|Hgrow].
  - exfalso.
    refine (wp_throw_inv _ _ (fun _ _ => True) (fun _ => False) w w' _ Hrun).
    apply wp_nothrows; [|done].
    apply nothrows_bind; [apply nothrows_destroy_n|]. intros _.
    apply nothrows_set_size.
  - split; [lia|].
    pose proof (Reserve_outcome w this buf xs c n Hh Hmove) as HR.
    unfold bind in Hrun.
    destruct (Reserve this n w) as [w1 []|w0|] eqn:HRes; [| |done].
    + destruct HR as (buf1 & Hh1 & Ho1).
      pose proof Hh1 as [Hlook1 Hb1].
      unfold load in Hrun. rewrite Hlook1 in Hrun. simpl in Hrun.
      cut (wp False
             (uninitialized_value_construct_n (Ptr buf1 (length xs))
                (n - length xs))
             (fun _ w2 => vector_at w2 this = vector_at w1 this)
             (fun w2 => holds w2 this buf1 xs (Nat.max c n) /\
                        forall o, vector_at w2 o = vector_at w1 o) w1).
      { unfold wp. intros Hwp.
        change (ptr_add (GetAddress {| buffer_ := buf1;
                                      capacity_ := Nat.max c n |})
                  (length xs)) with (Ptr buf1 (length xs)) in Hrun.
        destruct (uninitialized_value_construct_n (Ptr buf1 (length xs))
                    (n - length xs) w1) as [w2 []|w2|]; [| |done].
        - exfalso.
          exact (wp_throw_inv _ _ _ _ _ _ (nothrows_set_size this n w2) Hrun).
        - injection Hrun as <-. destruct Hwp as [Hh2 Ho2].
          exists buf1, (Nat.max c n). split; [done|]. split; [lia|].
          intros o Ho. rewrite Ho2. by apply Ho1. }
      destruct (decide (n = length xs)) as [->|Hmore].
      { rewrite Nat.sub_diag. by apply wp_ret. }
      destruct buf1 as [b1|]; [|destruct Hb1 as [Hc0 ->]; simpl in *; lia].
      destruct Hb1 as [Hb1 Hle1].
      replace (Nat.max c n - length xs)
        with ((n - length xs) + (Nat.max c n - n)) in Hb1 by lia.
      rewrite replicate_add in Hb1.
      unfold uninitialized_value_construct_n.
      eapply (wp_uninitialized_value_construct_unwinds _ b1 (map Obj xs) []);
        [done|by simpl; rewrite length_map|exact Hb1|..].
      * intros w2 _ Ho2. by apply vector_at_objs_eq.
      * intros w2 Hh2 Ho2. simpl in Hh2.
        assert (heap w2 = heap w1) as Hsame.
        { rewrite Hh2. apply list_insert_id. by apply block_at_Some. }
        split.
        -- eapply holds_frame; [exact Hh1|by apply vector_at_objs_eq|].
           intros k _. by apply block_at_heap_same.
        -- intros o. by apply vector_at_objs_eq.
    + injection Hrun as <-. destruct HR as [Hh0 Ho0].
      exists buf, c. split; [done|]. split; [by left|done].
Qed.

End ResizeGuarantee.

Section GuaranteesExamples.

(** [a = b] for [a] holding [[7; 8]] with capacity 2 and [b] holding
    [[1; 2; 3]], when the second copy throws. *)
Definition assign_thrown : world nat :=
  Eval vm_compute in
    match @assign_copy nat (Thrower 2) 0 1 two_vectors with
    | Throw w => w
    | _ => empty_world
    end.

Lemma assign_copy_strong_guarantee_witness :
  heap assign_thrown = heap two_vectors ++ [Freed] /\
  objs assign_thrown = objs two_vectors /\
  same_vector 0 two_vectors assign_thrown /\
  same_vector 1 two_vectors assign_thrown.
Proof.
  apply (@assign_copy_strong_guarantee nat (Thrower 2) two_vectors 0 1
           {| data_ := {| buffer_ := Some 0; capacity_ := 2 |}; size_ := 2 |}
           {| data_ := {| buffer_ := Some 1; capacity_ := 3 |}; size_ := 3 |}
           assign_thrown).
  - lia.
  - reflexivity.
  - reflexivity.
  - simpl. lia.
  - vm_compute. reflexivity.
Defined.

(** [v.Emplace(v.begin() + 1, 9)] on the full vector of three elements,
    when the copy of the first element throws. *)
Definition emplace_thrown : world nat :=
  Eval vm_compute in
    match @Emplace nat (Thrower 5) 0 (Ptr (Some 0) 1) (FromArgs 9)
            three_constructed with
    | Throw w => w
    | _ => empty_world
    end.

Lemma Emplace_reallocating_strong_guarantee_witness :
  heap emplace_thrown = heap three_constructed ++ [Freed] /\
  objs emplace_thrown = objs three_constructed /\
  same_vector 0 three_constructed emplace_thrown.
Proof.
  apply (@Emplace_reallocating_strong_guarantee nat (Thrower 5)
           three_constructed 0
           {| data_ := {| buffer_ := Some 0; capacity_ := 3 |}; size_ := 3 |}
           (Ptr (Some 0) 1) (FromArgs 9) emplace_thrown).
  - reflexivity.
  - reflexivity.
  - reflexivity.
  - reflexivity.
  - vm_compute. reflexivity.
Defined.

(** [v.Resize(6)] on the full vector of three elements, when the second of
    the new elements throws: the copies into the new block were made. *)
Definition resize_thrown : world nat :=
  Eval vm_compute in
    match @Resize nat (Thrower 8) 0 6 three_constructed with
    | Throw w => w
    | _ => empty_world
    end.

Lemma Resize_basic_guarantee_witness :
  length [0; 0; 0] <= 6 /\
  exists buf' c',
    holds resize_thrown 0 buf' [0; 0; 0] c' /\ (c' = 3 \/ c' = 6) /\
    forall o, o <> 0 -> vector_at resize_thrown o = vector_at three_constructed o.
Proof.
  apply (@Resize_basic_guarantee nat (Thrower 8) three_constructed 0 (Some 0)
           [0; 0; 0] 3 6 resize_thrown).
  - split; [reflexivity|split; [reflexivity|simpl; lia]].
  - intros _. unfold allocatable, SIZE_MAX. simpl. lia.
  - intros H. vm_compute in H. discriminate H.
  - vm_compute. reflexivity.
Defined.

(** There the vector has moved to the new block of six slots. *)
Lemma resize_thrown_state :
  holds resize_thrown 0 (Some 1) [0; 0; 0] 6 /\
  heap resize_thrown !! 0 = Some Freed.
Proof. split; [|reflexivity]. split; [reflexivity|split; [reflexivity|simpl; lia]]. Qed.

End GuaranteesExamples.

(** ** Appending *)

Section Appending.
Context {T : Type} `{!Element T}.
Implicit Types (w : world T) (v : Vector) (blk pre post : list (slot T)).

(** X25: [EmplaceBack] on a valid vector, with arguments that denote a
    value [x] and do not ask to move from an element of the vector itself,
    constructors not throwing: the vector holds its elements followed by
    [x], the reference returned is to that last element, one before
    [end()], and no other vector object changes.  With room left the buffer
    stays and nothing is allocated; a full vector moves to the next block
    allocated and its old block is released. *)
Theorem EmplaceBack_appends w this buf xs c a x :
  holds w this buf xs c -> init_value w a = Some x ->
  (forall b, buf = Some b -> init_moves_from a <> Some b) ->
  nothrow_init a -> nothrow_transfer ->
  exists w' buf',
    EmplaceBack this a w = Ret w' (Ptr buf' (length xs)) /\
    holds w' this buf' (xs ++ [x]) (capacity_after_append (length xs) c) /\
    read (Ptr buf' (length xs)) w' = Ret w' x /\
    bind (end_ this) (fun e => ptr_sub e 1) w' = Ret w' (Ptr buf' (length xs)) /\
    (forall o, o <> this -> vector_at w' o = vector_at w o) /\
    (length xs < c -> buf' = buf /\ length (heap w') = length (heap w)) /\
    (length xs = c ->
     buf' = Some (length (heap w)) /\
     length (heap w') = S (length (heap w)) /\
     forall b, buf = Some b -> heap w' !! b = Some Freed).
Proof.
  intros Hh Hx Hout Hni Hnt.
  cut (wp False (EmplaceBack this a)
         (fun p w' => exists buf',
            p = Ptr buf' (length xs) /\
            holds w' this buf' (xs ++ [x])
              (capacity_after_append (length xs) c) /\
            (forall o, o <> this -> vector_at w' o = vector_at w o) /\
            (length xs < c ->
             buf' = buf /\ length (heap w') = length (heap w)) /\
            (length xs = c ->
             buf' = Some (length (heap w)) /\
             length (heap w') = S (length (heap w)) /\
             forall b, buf = Some b -> heap w' !! b = Some Freed))
         (fun _ => False) w).
  { intros (w' & p & Hrun & buf' & -> & Hh' & Ho & Hroom & Hfull)%wp_total.
    exists w', buf'. split; [done|]. split; [done|].
    destruct (holds_buffer _ _ _ _ _ Hh') as [b' ->]; [by destruct xs|].
    split; [|split; [|done]].
    - eapply holds_read; [done|]. apply lookup_at_length.
    - unfold bind. rewrite (holds_end _ _ _ _ _ Hh').
      unfold ptr_sub. simpl. rewrite length_app. simpl.
      rewrite decide_True by lia. unfold ret. do 2 f_equal. lia. }
  eapply wp_EmplaceBack_blocks;
    [done|done|done|by apply nothrow_quiet_init
    |by apply nothrow_quiet_transfer|].
  intros w' buf' Hh' Ho Hroom Hfull. eauto 10.
Qed.

End Appending.

Section AppendingExamples.
#[local] Existing Instance Int.

(** [v.EmplaceBack(9)] on [[1; 2; 3]] with capacity 3. *)
Lemma EmplaceBack_appends_witness :
  exists w' buf',
    EmplaceBack 0 (FromArgs 9) three_of_three = Ret w' (Ptr buf' 3) /\
    holds w' 0 buf' [1; 2; 3; 9] 6 /\
    read (Ptr buf' 3) w' = Ret w' 9 /\
    bind (end_ 0) (fun e => ptr_sub e 1) w' = Ret w' (Ptr buf' 3) /\
    (forall o, o <> 0 -> vector_at w' o = vector_at three_of_three o) /\
    (3 < 3 -> buf' = Some 0 /\ length (heap w') = 1) /\
    (3 = 3 ->
     buf' = Some 1 /\ length (heap w') = 2 /\
     forall b, Some 0 = Some b -> heap w' !! b = Some Freed).
Proof.
  apply (EmplaceBack_appends three_of_three 0 (Some 0) [1; 2; 3] 3
           (FromArgs 9) 9).
  - split; [reflexivity|split; [reflexivity|simpl; lia]].
  - reflexivity.
  - intros b _. simpl. congruence.
  - intros h v. reflexivity.
  - intros h x. reflexivity.
Defined.

End AppendingExamples.

(** ** What is moved from *)

Section MovedFrom.
Context {T : Type} `{!Element T}.
Implicit Types (w : world T) (v : Vector) (blk pre post : list (slot T)).

Lemma wp_and {A} U (m : M T A) (Q1 Q2 : A -> world T -> Prop) E w :
  wp U m Q1 E w -> wp U m Q2 E w -> wp U m (fun a w' => Q1 a w' /\ Q2 a w') E w.
Proof. unfold wp. by destruct (m w). Qed.

(** The move constructor leaves its source moved-from, and touches nothing
    else. *)
Lemma wp_construct_move U r bs blk x Q E w :
  base r = Some bs -> block_at w bs = Some blk -> blk !! off r = Some (Obj x) ->
  quiet_move_ctor U E ->
  (forall w',
     heap w' = <[bs := Block (<[off r := Obj (moved_from x)]> blk)]> (heap w) ->
     objs w' = objs w -> Q x w') ->
  wp U (construct (FromMove r)) Q E w.
Proof.
  intros Hr Hbs Hx Hq HQ. simpl.
  apply wp_bind. eapply wp_read; [done..|].
  apply wp_bind. apply wp_call_quiet; [apply Hq|].
  apply wp_bind. eapply wp_write;
    [done|by rewrite block_at_logged|by eapply lookup_lt_Some|].
  apply wp_ret. by apply HQ.
Qed.

(** [EmplaceBack] with an rvalue that is not an element of the vector: the
    object it refers to is left moved-from. *)
Lemma wp_EmplaceBack_moves U w this buf xs c r bs blk x Q E :
  holds w this buf xs c ->
  base r = Some bs -> block_at w bs = Some blk -> blk !! off r = Some (Obj x) ->
  buf <> Some bs ->
  quiet_move_ctor U E -> quiet_transfer U E ->
  (forall w',
     block_at w' bs = Some (<[off r := Obj (moved_from x)]> blk) -> Q w') ->
  wp U (EmplaceBack this (FromMove r)) (fun _ => Q) E w.
Proof.
  intros Hh Hr Hbs Hx Hne Hqm Hqt HQ.
  pose proof (holds_vector_at _ _ _ _ _ Hh) as Hv.
  pose proof (vector_at_lt _ _ _ Hv) as Hlo.
  pose proof (block_at_lt _ _ _ Hbs) as Hltbs.
  unfold EmplaceBack.
  apply wp_bind. eapply wp_load; [done|]. simpl.
  apply wp_bind.
  destruct (decide (length xs = c)) as [Hfull|Hroom].
  - unfold grown. simpl.
    set (g := if decide (length xs = 0) then 1 else c * 2).
    assert (length xs < g) as Hg by (unfold g; case_decide; lia).
    apply wp_bind. apply wp_RawMemory_new; [lia|].
    intros w1 Hh1 Ho1 _. set (nb := length (heap w)) in *.
    assert (forall b', b' < nb -> block_at w1 b' = block_at w b') as Hold
      by (intros b' Hb'; by eapply block_at_alloc_old).
    pose proof (block_at_alloc_new _ _ _ Hh1) as Hnb. fold nb in Hnb.
    assert (bs <> nb) as Hbsn by lia.
    assert (forall m : M T unit,
              excused U E -> excused U (fun w' => wp U m (fun _ => E) E w'))
      as Hex by (intros m; apply excused_cleanup).
    apply wp_bind. apply wp_rethrow_after. apply wp_bind.
    unfold placement_new. apply wp_bind.
    eapply (wp_construct_move _ _ bs blk x); [done|by rewrite Hold|done| |].
    { intros h y Hy. by apply Hex, (Hqm h y). }
    intros w2 Hh2 Ho2.
    assert (nb < length (heap w1)) as Hltn
      by (rewrite Hh1, length_app; simpl; unfold nb; lia).
    assert (block_at w2 nb = Some (replicate g Raw)) as Hnb2
      by (by rewrite (block_at_heap_ne _ _ _ _ _ Hh2)).
    assert (block_at w2 bs = Some (<[off r := Obj (moved_from x)]> blk)) as Hbs2.
    { eapply block_at_heap_eq; [done|]. lia. }
    eapply wp_write; [done|exact Hnb2|by simpl; rewrite length_replicate|].
    simpl. rewrite insert_replicate_Raw by done.
    set (w3 := put_block nb _ w2).
    assert (block_at w3 bs = Some (<[off r := Obj (moved_from x)]> blk)) as Hbs3
      by (unfold w3; by rewrite block_at_put_block_ne).
    assert (vector_at w3 this = vector_at w this) as Hv3
      by (unfold w3; rewrite vector_at_put_block;
          by rewrite (vector_at_objs_eq _ _ _ Ho2), (vector_at_objs_eq _ _ _ Ho1)).
    rewrite Hv in Hv3.
    destruct buf as [b|].
    + destruct Hh as [_ [Hb Hle]].
      pose proof (block_at_lt _ _ _ Hb) as Hltb.
      assert (b <> nb) as Hbn by (unfold nb; lia).
      assert (b <> bs) as Hbbs by congruence.
      eapply (wp_CopyOrMove _ this b c xs _ nb g (replicate (length xs) Raw));
        [exact Hv3
        | unfold w3; rewrite block_at_put_block_ne by done;
          rewrite (block_at_heap_ne _ _ _ _ _ Hh2) by done;
          rewrite Hold by done; exact Hb
        |done
        |unfold w3; apply block_at_put_block_eq;
         by rewrite Hh2, length_insert
        |by rewrite length_replicate
        |by eapply quiet_transfer_mono; [apply Hex|]|].
      intros w4 ys Hys Hb4 Hnb4 Ho4 Hl4 Hsame4.
      apply wp_bind.
      eapply (wp_destroy_n_len _ _ _ b [] ys); [done|done|done|exact Hb4|].
      intros w5 Hh5 Ho5.
      assert (vector_at w5 this = vector_at w3 this) as Hv5
        by (by rewrite (vector_at_objs_eq _ _ _ Ho5), (vector_at_objs_eq _ _ _ Ho4)).
      rewrite Hv3 in Hv5.
      apply wp_bind. unfold Swap_data.
      apply wp_bind. eapply wp_load; [exact Hv5|].
      apply wp_bind. eapply wp_set_data; [exact Hv5|]. simpl.
      apply wp_ret. unfold RawMemory_delete. simpl.
      eapply wp_Deallocate.
      { rewrite block_at_put_object. eapply block_at_heap_eq; [done|].
        by eapply block_at_lt. }
      intros w6 Hh6 Ho6 _.
      apply wp_bind. eapply wp_load.
      { rewrite (vector_at_objs_eq _ _ _ Ho6).
        apply vector_at_put_object_eq. by eapply vector_at_lt. }
      apply wp_bind. eapply wp_set_size.
      { rewrite (vector_at_objs_eq _ _ _ Ho6).
        apply vector_at_put_object_eq. by eapply vector_at_lt. }
      apply wp_ret. apply HQ.
      rewrite block_at_put_object.
      rewrite (block_at_heap_cell_ne _ _ _ _ _ Hh6) by done.
      rewrite block_at_put_object.
      rewrite (block_at_heap_cell_ne _ _ _ _ _ Hh5) by done.
      by rewrite Hsame4.
    + destruct Hh as [_ [-> ->]]. simpl in *.
      unfold CopyOrMove. apply wp_bind. eapply wp_load; [exact Hv3|].
      simpl. replace (if transfers_by_move
                      then uninitialized_move_n (GetAddress RawMemory_default) 0
                             (GetAddress {| buffer_ := Some nb; capacity_ := g |})
                      else uninitialized_copy_n (GetAddress RawMemory_default) 0
                             (GetAddress {| buffer_ := Some nb; capacity_ := g |}))
                with (@ret T unit tt) by (by destruct transfers_by_move).
      apply wp_ret. apply wp_bind. apply wp_ret.
      apply wp_bind. unfold Swap_data.
      apply wp_bind. eapply wp_load; [exact Hv3|].
      apply wp_bind. eapply wp_set_data; [exact Hv3|]. simpl.
      apply wp_ret. unfold RawMemory_delete. simpl. apply wp_ret.
      pose proof (vector_at_lt _ _ _ Hv3) as Hlo3.
      apply wp_bind. eapply wp_load; [by apply vector_at_put_object_eq|].
      apply wp_bind. eapply wp_set_size; [by apply vector_at_put_object_eq|].
      apply wp_ret. apply HQ. by rewrite !block_at_put_object.
  - destruct buf as [b|]; [|destruct Hh as [_ [-> ->]]; done].
    destruct Hh as [_ [Hb Hle]].
    assert (b <> bs) as Hbbs by congruence.
    unfold placement_new. apply wp_bind.
    eapply (wp_construct_move _ _ bs blk x); [done|done|done|done|].
    intros w2 Hh2 Ho2.
    eapply wp_write;
      [done|by rewrite (block_at_heap_ne _ _ _ _ _ Hh2)| |].
    { simpl. rewrite length_app, length_map, length_replicate. lia. }
    set (w3 := put_block b _ w2).
    assert (vector_at w3 this = vector_at w this) as Hv3
      by (unfold w3; rewrite vector_at_put_block;
          by rewrite (vector_at_objs_eq _ _ _ Ho2)).
    rewrite Hv in Hv3.
    apply wp_bind. eapply wp_load; [exact Hv3|].
    apply wp_bind. eapply wp_set_size; [exact Hv3|].
    apply wp_ret. apply HQ.
    rewrite block_at_put_object. unfold w3.
    rewrite block_at_put_block_ne by done.
    by eapply block_at_heap_eq.
Qed.

(** X27: [PushBack(T &&)] with an rvalue that denotes an object [x]
    outside the vector's buffer, move constructor and transfers not
    throwing: the vector holds its elements followed by [x], and the
    object passed is left in its moved-from state; the rest of its block is
    as it was. *)
Theorem PushBack_move_takes w this buf xs c r bs blk x :
  holds w this buf xs c ->
  base r = Some bs -> block_at w bs = Some blk -> blk !! off r = Some (Obj x) ->
  buf <> Some bs ->
  nothrow_move_ctor -> nothrow_transfer ->
  exists w' buf',
    PushBack_move this r w = Ret w' tt /\
    holds w' this buf' (xs ++ [x]) (capacity_after_append (length xs) c) /\
    block_at w' bs = Some (<[off r := Obj (moved_from x)]> blk).
Proof.
  intros Hh Hr Hbs Hx Hne Hnm Hnt.
  cut (wp False (PushBack_move this r)
         (fun _ w' =>
            (exists buf',
               holds w' this buf' (xs ++ [x])
                 (capacity_after_append (length xs) c)) /\
            block_at w' bs = Some (<[off r := Obj (moved_from x)]> blk))
         (fun _ => False) w).
  { intros (w' & [] & Hrun & (buf' & Hh') & Hbs')%wp_total. eauto. }
  unfold PushBack_move. apply wp_bind.
  assert (wp False (EmplaceBack this (FromMove r))
            (fun _ w' => exists buf',
               holds w' this buf' (xs ++ [x])
                 (capacity_after_append (length xs) c))
            (fun _ => False) w) as Hvec.
  { eapply (wp_EmplaceBack _ _ _ _ _ _ (FromMove r) x);
      [done| |intros b ->; simpl; congruence
      |by apply nothrow_quiet_move_ctor|by apply nothrow_quiet_transfer|].
    - simpl. apply peek_Some. eauto.
    - intros w' buf' Hh' _. eauto. }
  assert (wp False (EmplaceBack this (FromMove r))
            (fun _ w' => block_at w' bs
                         = Some (<[off r := Obj (moved_from x)]> blk))
            (fun _ => False) w) as Hsrc.
  { eapply (wp_EmplaceBack_moves _ _ _ _ _ _ _ bs blk x);
      [done|done|done|done|done|by apply nothrow_quiet_move_ctor
      |by apply nothrow_quiet_transfer|done]. }
  eapply wp_mono; [exact (wp_and _ _ _ _ _ _ Hvec Hsrc)| |done].
  intros p w' [Hex Hbs']. by apply wp_ret.
Qed.

End MovedFrom.

Section MovedFromExamples.

(** [b.PushBack(std::move(a[1]))] for the two vectors, of a string-like
    class. *)
Lemma PushBack_move_takes_witness :
  exists w' buf',
    @PushBack_move nat Text 1 (Ptr (Some 0) 1) two_vectors = Ret w' tt /\
    holds w' 1 buf' [1; 2; 3; 8] 6 /\
    block_at w' 0 = Some [Obj 7; Obj 0].
Proof.
  apply (@PushBack_move_takes nat Text two_vectors 1 (Some 1) [1; 2; 3] 3
           (Ptr (Some 0) 1) 0 [Obj 7; Obj 8] 8).
  - split; [reflexivity|split; [reflexivity|simpl; lia]].
  - reflexivity.
  - reflexivity.
  - reflexivity.
  - congruence.
  - intros h x. reflexivity.
  - intros h x. reflexivity.
Defined.

End MovedFromExamples.

(** ** Inserting an element of the vector, in general *)

Section OwnElement.
Context {T : Type} `{!Element T}.
Implicit Types (w : world T) (v : Vector) (blk pre post : list (slot T)).

Lemma cons_snoc (y : T) ys :
  exists ys' z, y :: ys = ys' ++ [z] /\ hd z ys' = y.
Proof.
  revert y. induction ys as [|y' ys IH]; intros y.
  - by exists [], y.
  - destruct (IH y') as (ys' & z & Heq & _).
    exists (y :: ys'), z. simpl. by rewrite Heq.
Qed.

(** X28: [Insert(pos, value)] with room left, before the element [y] at a
    position [pos] that [int] holds, when [value] refers to the slot [j] of
    the vector itself, no element operation throwing: the call returns, and
    the element inserted
    is the one at index [j] of the elements as they are after the shift,
    [xs1 ++ moved_from y :: y :: ys], not of the elements as they were
    when the call was made.  It is the element referred to when [j] is
    before the position; at the position it is what the move left of [y],
    and behind it, it is the element that was at [j - 1]. *)
Theorem Insert_in_place_own_element w this b xs1 y ys c j x :
  holds w this (Some b) (xs1 ++ y :: ys) c ->
  (Z.of_nat (length xs1) <= INT_MAX)%Z ->
  length (xs1 ++ y :: ys) < c ->
  (xs1 ++ moved_from y :: y :: ys) !! j = Some x ->
  nothrow_copy_ctor -> nothrow_move_ctor -> nothrow_move_assign ->
  exists w',
    Insert this (Ptr (Some b) (length xs1)) (Ptr (Some b) j) w
      = Ret w' (Ptr (Some b) (length xs1)) /\
    holds w' this (Some b) (xs1 ++ x :: y :: ys) c.
Proof.
  intros Hh Hint Hroom Hj Hnc Hnm Hna.
  cut (wp False (Insert this (Ptr (Some b) (length xs1)) (Ptr (Some b) j))
         (fun it w' =>
            it = Ptr (Some b) (length xs1) /\
            holds w' this (Some b) (xs1 ++ x :: y :: ys) c)
         (fun _ => False) w).
  { intros (w' & it & Hrun & -> & Hh')%wp_total. eauto. }
  pose proof (holds_vector_at _ _ _ _ _ Hh) as Hv.
  pose proof Hh as [_ [Hb Hle]].
  pose proof (block_at_lt _ _ _ Hb) as Hltb.
  pose proof (vector_at_lt _ _ _ Hv) as Hlo.
  unfold Insert, Emplace.
  apply wp_bind. eapply wp_end; [done|]. simpl.
  rewrite decide_False.
  2:{ unfold ptr_add. simpl. intros [= Heq]. rewrite length_app in Heq.
      simpl in Heq. lia. }
  apply wp_bind. eapply wp_begin; [done|]. simpl.
  apply wp_bind. apply wp_ptr_diff; [done|simpl; lia|]. simpl.
  rewrite Nat.sub_0_r, (to_int_small _ Hint), Nat2Z.id.
  apply wp_bind. apply wp_ptr_add_int.
  apply wp_bind. eapply wp_load; [done|]. simpl.
  change (ptr_add (GetAddress {| buffer_ := Some b; capacity_ := c |})
            (length xs1))
    with (Ptr (Some b) (length xs1)).
  rewrite decide_True by done.
  destruct (cons_snoc y ys) as (ys' & z & Heq & Hhd).
  rewrite Heq in Hh, Hroom, Hv |- *.
  apply wp_bind. apply wp_bind.
  eapply wp_shift_up;
    [exact Hh|done|by apply nothrow_quiet_move_ctor
    |by apply nothrow_quiet_move_assign|].
  intros w1 Hh1 Ho1. rewrite Hhd, <- Heq in Hh1.
  pose proof (block_at_heap_eq _ _ _ _ Hh1 Hltb) as Hb1.
  unfold assign_temporary.
  apply wp_bind.
  eapply (wp_construct _ (FromCopy (Ptr (Some b) j)) x);
    [|by apply nothrow_quiet_copy_ctor|].
  { simpl. apply peek_Some. eexists _, _. split; [done|].
    split; [exact Hb1|].
    assert (map Obj (xs1 ++ moved_from y :: y :: ys) !! j = Some (Obj x))
      as Hm by (by rewrite list_lookup_fmap, Hj).
    apply (lookup_app_l_Some _
             (replicate (c - S (length (xs1 ++ y :: ys))) Raw)) in Hm.
    rewrite map_app, <- (assoc_L (++)) in Hm. exact Hm. }
  intros w2 Ho2 Hl2 Hsame2 _.
  assert (block_at w2 b = block_at w1 b) as Hb2 by (by apply Hsame2).
  rewrite Hb1 in Hb2.
  apply wp_bind. eapply wp_read; [done|exact Hb2| |].
  { simpl. rewrite <- (length_map Obj xs1). apply lookup_at_length. }
  apply wp_bind. apply wp_assign_call_quiet; [by apply nothrow_quiet_move_assign|].
  apply wp_bind. eapply wp_write; [done|by rewrite block_at_logged| |].
  { simpl. rewrite length_app, length_map. simpl. lia. }
  apply wp_note.
  assert (vector_at w2 this = vector_at w this) as Hv2
    by (by rewrite (vector_at_objs_eq _ _ _ Ho2), (vector_at_objs_eq _ _ _ Ho1)).
  rewrite Hv in Hv2.
  apply wp_bind. eapply wp_load; [exact Hv2|].
  apply wp_bind. eapply wp_set_size; [exact Hv2|].
  simpl. apply wp_ret. split; [done|].
  rewrite <- Heq in *.
  apply (holds_middle _ _ _ xs1 x (y :: ys)); [| |done].
  { apply vector_at_put_object_eq. simpl. by rewrite Ho2, Ho1. }
  rewrite block_at_put_object, block_at_logged.
  rewrite block_at_put_block_eq
    by (simpl; rewrite Hl2, Hh1, length_insert; lia).
  f_equal. rewrite <- (length_map Obj xs1) at 1.
  by rewrite insert_at_length.
Qed.

(** X29: a vector that has been moved from by the move constructor is
    destroyed without any effect on memory or on elements, and the vector
    constructed from it keeps the buffer and the elements. *)
Theorem moved_from_is_destructible w src buf xs c :
  holds w src buf xs c ->
  exists w',
    bind (Vector_move src)
      (fun dst => bind (Vector_delete src) (fun _ => ret dst)) w
      = Ret w' (length (objs w)) /\
    holds w' (length (objs w)) buf xs c /\
    vector_at w' src = None /\
    heap w' = heap w /\ log w' = log w.
Proof.
  intros Hh. pose proof (holds_vector_at _ _ _ _ _ Hh) as Hv.
  pose proof (vector_at_lt _ _ _ Hv) as Hlt.
  destruct (Vector_move_run w src _ Hv) as (w1 & Hrun & Hh1 & Hl1 & Hd & Hs).
  pose proof (vector_at_lt _ _ _ Hs) as Hlt1.
  exists (put_object src None w1). split.
  - unfold bind at 1. rewrite Hrun.
    unfold Vector_delete, bind, load, delete_object.
    apply vector_at_Some in Hs. rewrite Hs. simpl. by rewrite Hs.
  - split; [|split; [|done]].
    + eapply holds_of_vector_at; [exact Hh|done|].
      rewrite vector_at_put_object_ne by lia. by rewrite Hd, Hv.
    + unfold vector_at. simpl. by rewrite list_lookup_insert_eq.
Qed.

End OwnElement.

Section OwnElementExamples.
#[local] Existing Instance Int.

(** [v.Insert(v.begin(), v[2])] on [[1; 2; 3]] with capacity 4: slot 2
    holds the 2 after the shift. *)
Lemma Insert_in_place_own_element_witness :
  exists w',
    Insert 0 (Ptr (Some 0) 0) (Ptr (Some 0) 2) three_of_four
      = Ret w' (Ptr (Some 0) 0) /\
    holds w' 0 (Some 0) [2; 1; 2; 3] 4.
Proof.
  apply (Insert_in_place_own_element three_of_four 0 0 [] 1 [2; 3] 4 2 2).
  - split; [reflexivity|split; [reflexivity|simpl; lia]].
  - unfold INT_MAX. simpl. lia.
  - simpl. lia.
  - reflexivity.
  - intros h x. reflexivity.
  - intros h x. reflexivity.
  - intros h d s. reflexivity.
Defined.

(** [Vector<int> u(std::move(v));] and the end of [v], for [v] holding
    [[1; 2; 3]]. *)
Lemma moved_from_is_destructible_witness :
  exists w',
    bind (Vector_move 0)
      (fun dst => bind (Vector_delete 0) (fun _ => ret dst)) three_of_four
      = Ret w' 1 /\
    holds w' 1 (Some 0) [1; 2; 3] 4 /\
    vector_at w' 0 = None /\
    heap w' = heap three_of_four /\ log w' = log three_of_four.
Proof.
  apply (moved_from_is_destructible three_of_four 0 (Some 0) [1; 2; 3] 4).
  split; [reflexivity|split; [reflexivity|simpl; lia]].
Defined.

End OwnElementExamples.
